(** * rehacalc EMG gait analysis: heel-strike detection and cycle statistics

    A shallow embedding of the signal pipeline of the EMG pages of
    [rehacalc], and the properties of it that the specification states.
    The sources hold five revisions of the page, each with its own
    detector: three in [src/emg/app.js] (the peak-based one, the one with
    manual events, the onset one) and two in [src/unnamed/part_002] (the
    one hardened for the phone, the one with video assistance).

    JavaScript numbers are IEEE 754 binary64 values: they are Rocq's
    primitive [float]s here, so every definition below computes with the
    rounding, the NaN and the infinities the browser computes with.
    Array indices, lengths and sample counts are integer-valued numbers in
    the source; they are [Z] here (exact below 2^53, far above any array
    length), and are converted with [Z2float] where the source mixes them
    with measured values.  A sample count is [Math.round] of a setting
    times the sampling rate: for settings that are not finite numbers the
    source has no count (NaN or an infinity) where the model has [0], so
    the statements about detections are to be read for finite settings. *)

From Stdlib Require Import ZArith List Bool Lia Floats.
From Stdlib Require Reals Lra.
Import ListNotations.

Set Warnings "-inexact-float".
#[local] Open Scope Z_scope.

(** ** JavaScript numbers and arrays *)

Module JS.

(** The number an integer denotes ([Number(z)], round to nearest even). *)
Definition Z2float (z : Z) : float :=
  SF2Prim (binary_normalize prec emax z 0 false).

(** [a > b], [a >= b], [a < b], [a <= b] on numbers: false when either
    side is NaN. *)
Definition gt (a b : float) : bool := (b <? a)%float.
Definition ge (a b : float) : bool := (b <=? a)%float.
Definition lt (a b : float) : bool := (a <? b)%float.
Definition le (a b : float) : bool := (a <=? b)%float.

Definition Number_isFinite (x : float) : bool := is_finite x.

Definition Math_abs (x : float) : float := abs x.
Definition Math_sqrt (x : float) : float := sqrt x.

Definition Infinity : float := infinity.
Definition NaN : float := nan.

(** The integer part [floor x] of a finite number, as an integer.  The
    source uses [Math.floor] only to obtain array positions; on NaN and
    on the infinities (no position at all) the value here is [0], and
    every use below multiplies the element read by a NaN weight or
    compares it against a NaN bound in that case. *)
Definition floorZ (x : float) : Z :=
  match Prim2SF x with
  | S754_finite sg m e =>
      let v := if sg then Zneg m else Zpos m in
      if 0 <=? e then v * 2 ^ e else v / 2 ^ (- e)
  | _ => 0
  end.

(** [Math.round x] as an integer: the nearest integer, a tie going to
    the larger one.  [0] on NaN and on the infinities. *)
Definition roundZ (x : float) : Z :=
  match Prim2SF x with
  | S754_finite sg m e =>
      let v := if sg then Zneg m else Zpos m in
      if 0 <=? e then v * 2 ^ e
      else (2 * v + 2 ^ (- e)) / (2 * 2 ^ (- e))
  | _ => 0
  end.

(** [Math.round(x)] as a number. *)
Definition Math_round (x : float) : float :=
  if is_finite x then Z2float (roundZ x) else x.

(** [Number(x.toFixed(2))]: the integer [n] nearest to [100 x] (a tie
    going to the larger one), then the number nearest to [n / 100]. *)
Definition toFixed2 (x : float) : float :=
  match Prim2SF x with
  | S754_finite sg m e =>
      let v := 100 * (if sg then Zneg m else Zpos m) in
      let n := if 0 <=? e then v * 2 ^ e
               else (2 * v + 2 ^ (- e)) / (2 * 2 ^ (- e)) in
      (Z2float n / 100)%float
  | _ => x
  end.

(** [x || 0] on numbers: [0] for the falsy [0], [-0] and NaN. *)
Definition orZero (x : float) : float :=
  if is_nan x || is_zero x then 0%float else x.

(** [Math.max(a, b)]: NaN when either is NaN; [+0] is above [-0]. *)
Definition Math_max2 (a b : float) : float :=
  if is_nan a || is_nan b then nan
  else if (a <? b)%float then b
  else if (b <? a)%float then a
  else if is_zero a && get_sign a then b else a.

(** [Math.max(...xs)]: [-Infinity] for no argument. *)
Definition Math_max (xs : list float) : float :=
  fold_left Math_max2 xs neg_infinity.

(** [xs[i]] for an array of numbers.  Reading outside the array gives
    [undefined], which every arithmetic operation and every comparison
    of the source treats as NaN. *)
Definition get (xs : list float) (i : Z) : float :=
  if i <? 0 then nan else nth (Z.to_nat i) xs nan.

(** [xs[i]] as the array holds it: [None] is the [undefined] read
    outside the array. *)
Definition item (xs : list float) (i : Z) : option float :=
  if i <? 0 then None else nth_error xs (Z.to_nat i).

(** [xs[i]] for an array of booleans, [undefined] being falsy. *)
Definition getb (xs : list bool) (i : Z) : bool :=
  if i <? 0 then false else nth (Z.to_nat i) xs false.

Definition len {A} (xs : list A) : Z := Z.of_nat (length xs).

(** The values [a, a+1, ..., b-1] of a counting loop
    [for (let i = a; i < b; i++)]. *)
Definition range (a b : Z) : list Z :=
  map (fun k => a + Z.of_nat k) (seq 0 (Z.to_nat (b - a))).

(** [xs.sort(cmp)], given [after x y] for [cmp(x, y) > 0].  The sort is
    stable (ECMAScript 2019), which insertion from the right realises.
    For a comparator that is not a consistent order (a NaN difference)
    the standard leaves the order to the engine; the model keeps the
    order insertion gives. *)
Section Sort.
Context {A : Type} (after : A -> A -> bool).

Fixpoint insert (x : A) (xs : list A) : list A :=
  match xs with
  | [] => [x]
  | y :: ys => if after x y then y :: insert x ys else x :: y :: ys
  end.

Definition sort (xs : list A) : list A := fold_right insert [] xs.
End Sort.

(** [(a, b) => a - b] on integers and on numbers. *)
Definition afterZ (a b : Z) : bool := 0 <? a - b.
Definition afterF (a b : float) : bool := (0 <? a - b)%float.

(** [xs.slice(a, b)] and [xs.subarray(a, b)] for [0 <= a]. *)
Definition slice {A} (xs : list A) (a b : Z) : list A :=
  firstn (Z.to_nat (b - a)) (skipn (Z.to_nat a) xs).

(** [xs.filter((_, i) => i % m === off)]. *)
Fixpoint everyNth_from {A} (m off i : Z) (xs : list A) : list A :=
  match xs with
  | [] => []
  | x :: t =>
      if i mod m =? off then x :: everyNth_from m off (i + 1) t
      else everyNth_from m off (i + 1) t
  end.
Definition everyNth {A} (m off : Z) (xs : list A) : list A :=
  everyNth_from m off 0 xs.

(** The sum [xs.reduce((a, b) => a + b, 0)]. *)
Definition sum (xs : list float) : float :=
  fold_left (fun a b => (a + b)%float) xs 0%float.

End JS.

(** ** Outcomes

    The source signals every failure by [throw new Error(message)].  The
    constructors name the kinds of the specification; the comment of each
    [throw] site below says which message it stands for.  [RangeError]
    is the engine's own: the error of a call with more arguments than
    the engine accepts. *)

Inductive Failure : Type :=
| ConfigurationError
| InsufficientDataError
| DetectionFailure
| RangeError.

Inductive Outcome (A : Type) : Type :=
| Ok (a : A)
| Throw (e : Failure).
Arguments Ok {A} a.
Arguments Throw {A} e.

Definition bind {A B} (x : Outcome A) (f : A -> Outcome B) : Outcome B :=
  match x with
  | Ok a => f a
  | Throw e => Throw e
  end.

(** What ECMAScript leaves to the engine: the values of [Math.cos] and
    [Math.sin] (implementation-approximated), and the number of
    arguments a call may have before the engine throws a RangeError. *)
Class Host : Type := {
  Math_cos : float -> float;
  Math_sin : float -> float;
  maxArguments : Z
}.

(** [Math.max(...xs)]: the spread makes every element of [xs] an
    argument of the call, so an array of more elements than the engine
    accepts arguments is a RangeError. *)
Definition Math_max_spread {host : Host} (xs : list float) : Outcome float :=
  if maxArguments <? JS.len xs then Throw RangeError
  else Ok (JS.Math_max xs).

(** ** Functions every revision shares *)

Module Core.
Import JS.

(** What the [k] field of a result holds: the multiplier of the sweep,
    or the tag of the strategy that produced the events. *)
Inductive KTag : Type :=
| KNum (k : float)
| KPeakFallback
| KPeakDirect
| KTARef.

Record Detection : Type := {
  det_k : KTag;
  det_thr : float;
  det_hs : list Z;
  det_score : float
}.

Definition median (arr : list float) : float :=
  let a := sort afterF (filter Number_isFinite arr) in
  if len a =? 0 then NaN
  else
    let mid := len a / 2 in
    if len a mod 2 =? 0 then ((get a (mid - 1) + get a mid) / 2)%float
    else get a mid.

Definition mad (arr : list float) : float :=
  let med := median arr in
  median (map (fun v => Math_abs (v - med)%float) arr).

Definition percentile (arr : list float) (p : float) : float :=
  let a := sort afterF (filter Number_isFinite arr) in
  if len a =? 0 then NaN
  else
    let pos := ((p / 100) * Z2float (len a - 1))%float in
    let i0 := floorZ pos in
    let i1 := Z.min (len a - 1) (i0 + 1) in
    let w := (pos - Z2float i0)%float in
    (get a i0 * (1 - w) + get a i1 * w)%float.

Definition linspace (a b : float) (n : Z) : list float :=
  let step := ((b - a) / Z2float (n - 1))%float in
  map (fun i => (a + step * Z2float i)%float) (range 0 n).

Definition reverseArray (x : list float) : list float := rev x.

Definition absArray (x : list float) : list float := map Math_abs x.

(** [demean]: subtract the mean of the finite samples. *)
Definition demean (x : list float) : list float :=
  let '(s, n) :=
    fold_left
      (fun '(s, n) v =>
         if Number_isFinite v then ((s + v)%float, n + 1) else (s, n))
      x (0%float, 0) in
  let m := if 0 <? n then (s / Z2float n)%float else 0%float in
  map (fun v => (v - m)%float) x.

(** The running sums [prefix[0] = 0], [prefix[i+1] = prefix[i] + sq[i]]. *)
Fixpoint prefixFrom (acc : float) (sq : list float) : list float :=
  match sq with
  | [] => [acc]
  | v :: t => acc :: prefixFrom (acc + v)%float t
  end.

(** Centred moving RMS over [win] samples through a prefix sum of squares. *)
Definition movingRMS (x : list float) (win : Z) : list float :=
  let n := len x in
  let half := win / 2 in
  let sq := map (fun v => (v * v)%float) x in
  let prefix := prefixFrom 0%float sq in
  map (fun i =>
         let s := Z.max 0 (i - half) in
         let e := Z.min n (i + half + 1) in
         let mean := ((get prefix e - get prefix s) / Z2float (e - s))%float in
         Math_sqrt mean)
      (range 0 n).

(** *** Biquad filter (RBJ cookbook), forward-backward *)

Inductive BiquadType : Type := lowpass | highpass.

Record Coeffs : Type := {
  b0 : float; b1 : float; b2 : float; a1 : float; a2 : float
}.

Definition Math_PI : float := 3.141592653589793%float.
Definition Math_SQRT2 : float := 1.4142135623730951%float.

Section Filters.
Context {host : Host}.

Definition biquadCoeffs (type : BiquadType) (fc fs Q : float) : Coeffs :=
  let w0 := ((2 * Math_PI * fc) / fs)%float in
  let cosw0 := Math_cos w0 in
  let sinw0 := Math_sin w0 in
  let alpha := (sinw0 / (2 * Q))%float in
  let a0 := (1 + alpha)%float in
  let a1' := (- 2 * cosw0)%float in
  let a2' := (1 - alpha)%float in
  match type with
  | lowpass =>
      let b0' := ((1 - cosw0) / 2)%float in
      let b1' := (1 - cosw0)%float in
      let b2' := ((1 - cosw0) / 2)%float in
      {| b0 := b0' / a0; b1 := b1' / a0; b2 := b2' / a0;
         a1 := a1' / a0; a2 := a2' / a0 |}
  | highpass =>
      let b0' := ((1 + cosw0) / 2)%float in
      let b1' := (- (1 + cosw0))%float in
      let b2' := ((1 + cosw0) / 2)%float in
      {| b0 := b0' / a0; b1 := b1' / a0; b2 := b2' / a0;
         a1 := a1' / a0; a2 := a2' / a0 |}
  end.

(** Direct form I with zero initial state. *)
Fixpoint biquadFrom (c : Coeffs) (x1 x2 y1 y2 : float) (x : list float)
  : list float :=
  match x with
  | [] => []
  | x0 :: t =>
      let y0 := (b0 c * x0 + b1 c * x1 + b2 c * x2
                 - a1 c * y1 - a2 c * y2)%float in
      y0 :: biquadFrom c x0 x1 y0 y1 t
  end.

Definition biquadFilter (x : list float) (c : Coeffs) : list float :=
  biquadFrom c 0%float 0%float 0%float 0%float x.

Definition filtfilt (x : list float) (coeffs : Coeffs) : list float :=
  let y := biquadFilter x coeffs in
  let y := reverseArray y in
  let y := biquadFilter y coeffs in
  reverseArray y.

(** [butter2x] / [butterworth2xFILT]: the forward-backward pass twice. *)
Definition butter2x (x : list float) (type : BiquadType) (fc fs : float)
  : list float :=
  let c := biquadCoeffs type fc fs (1 / Math_SQRT2)%float in
  let y := filtfilt x c in
  filtfilt y c.
End Filters.

(** *** Bursts *)

(** [risingEdges(mask)]: the runs of [true] as (start, end-exclusive)
    pairs, a run touching either end of the recording included. *)
Definition risingEdges (mask : list bool) : list (Z * Z) :=
  let n := len mask in
  let starts :=
    filter (fun i => negb (getb mask (i - 1)) && getb mask i) (range 1 n) in
  let ends :=
    filter (fun i => getb mask (i - 1) && negb (getb mask i)) (range 1 n) in
  let starts := if getb mask 0 then 0 :: starts else starts in
  let ends := if getb mask (n - 1) then ends ++ [n] else ends in
  combine starts ends.

(** *** Percent-peak normalisation and cycles *)

(** The loop [for (i = s; i < e; i++) if (env[i] > mx) mx = env[i]]. *)
Definition maxStep (env : list float) (mx : float) (i : Z) : float :=
  if gt (get env i) mx then get env i else mx.

Definition maxOver (env : list float) (s e : Z) : float :=
  fold_left (maxStep env) (range s e) neg_infinity.

Definition reference (env : list float) (hs : list Z) : float :=
  if 2 <=? len hs then
    maxOver env (nth 0 hs 0) (nth (length hs - 1) hs 0)
  else Math_max env.

Definition percentPeak (env : list float) (hs : list Z) : list float :=
  let ref := reference env hs in
  if negb (Number_isFinite ref) || le ref 0%float then
    map (fun _ => NaN) env
  else
    map (fun v => ((v / ref) * 100)%float) env.

(** The call [percentPeak(env, hs)] with its failure.  [reference] and
    [percentPeak] above are the values when the call returns; with fewer
    than two events the reference is [Math.max(...env)], which the
    engine refuses for an envelope of more samples than it accepts
    arguments.  A detector's result holds two events or more, so the
    pipelines take the value. *)
Definition percentPeakCall {host : Host} (env : list float) (hs : list Z)
  : Outcome (list float) :=
  let ref :=
    if 2 <=? len hs then
      Ok (maxOver env (nth 0 hs 0) (nth (length hs - 1) hs 0))
    else Math_max_spread env in
  match ref with
  | Throw e => Throw e
  | Ok ref =>
      Ok (if negb (Number_isFinite ref) || le ref 0%float then
            map (fun _ => NaN) env
          else map (fun v => ((v / ref) * 100)%float) env)
  end.

(** One cycle: the segment [y[s..e)] resampled onto [nPoints] points. *)
Definition resample (y : list float) (s e nPoints : Z) : list float :=
  let segLen := e - s in
  let yseg := slice y s e in
  let last := segLen - 1 in
  map (fun j =>
         let pos := ((Z2float j / Z2float (nPoints - 1)) * Z2float last)%float in
         let i0 := floorZ pos in
         let i1 := Z.min last (i0 + 1) in
         let w := (pos - Z2float i0)%float in
         (get yseg i0 * (1 - w) + get yseg i1 * w)%float)
      (range 0 nPoints).

(** The consecutive pairs [(hs[i], hs[i+1])]. *)
Fixpoint pairs (hs : list Z) : list (Z * Z) :=
  match hs with
  | s :: (e :: _) as t => (s, e) :: pairs t
  | _ => []
  end.

Definition normalizeCycles (y : list float) (hs : list Z) (nPoints : Z)
  : list float * list (list float) :=
  let grid := linspace 0%float 100%float nPoints in
  let cycles :=
    map (fun '(s, e) => resample y s e nPoints)
        (filter (fun '(s, e) => negb (e <=? s + 2)) (pairs hs)) in
  (grid, cycles).

(** The two accumulators [s] and [c] of one grid point [j]. *)
Definition sumCount (f : float -> float) (cycles : list (list float)) (j : Z)
  : float * Z :=
  fold_left
    (fun '(s, c) cyc =>
       let v := get cyc j in
       if Number_isFinite v then ((s + f v)%float, c + 1) else (s, c))
    cycles (0%float, 0).

Definition meanAt (cycles : list (list float)) (j : Z) : float :=
  let '(s, c) := sumCount (fun v => v) cycles j in
  if 0 <? c then (s / Z2float c)%float else NaN.

Definition sdAt (cycles : list (list float)) (j : Z) : float :=
  let mu := meanAt cycles j in
  let '(s, c) := sumCount (fun v => ((v - mu) * (v - mu))%float) cycles j in
  if 1 <? c then Math_sqrt (s / Z2float c)%float else NaN.

Definition meanAndSD (cycles : list (list float)) : list float * list float :=
  match cycles with
  | [] => ([], [])
  | c0 :: _ =>
      let m := len c0 in
      (map (meanAt cycles) (range 0 m), map (sdAt cycles) (range 0 m))
  end.

(** The result object of [computePipeline]. *)
Record Result : Type := {
  t : list float;
  envRaw : list float;
  envPct : list float;
  hs : list Z;
  k : KTag;
  thr : float;
  grid : list float;
  cycles : list (list float);
  mean : list float;
  sd : list float
}.

Definition inEnvelope (n : Z) (i : Z) : bool := (0 <=? i) && (i <? n).

End Core.

(** ** Event lists: intervals, scoring, peak picking, offset and merge *)

Module Events.
Import JS.

Definition localMaxima (y : list float) : list Z :=
  filter (fun i => gt (get y i) (get y (i - 1)) && ge (get y i) (get y (i + 1)))
         (range 1 (len y - 1)).

(** [maxCount && chosen.length >= maxCount]: [null] and [0] are falsy. *)
Definition reached (maxCount : option Z) (n : Z) : bool :=
  match maxCount with
  | Some m => negb (m =? 0) && (m <=? n)
  | None => false
  end.

(** The loop over the amplitude-ranked peaks, [chosen] growing at its end. *)
Fixpoint greedy (minDist : Z) (maxCount : option Z) (peaks chosen : list Z)
  : list Z :=
  match peaks with
  | [] => chosen
  | idx :: rest =>
      if forallb (fun c => negb (Z.abs (idx - c) <? minDist)) chosen then
        let chosen' := chosen ++ [idx] in
        if reached maxCount (len chosen') then chosen'
        else greedy minDist maxCount rest chosen'
      else greedy minDist maxCount rest chosen
  end.

Definition pickPeaksGreedy (y : list float) (minDist : Z) (thr : float)
           (maxCount : option Z) : list Z :=
  let peaks := filter (fun i => gt (get y i) thr) (localMaxima y) in
  let peaks := sort (fun i j => (0 <? get y j - get y i)%float) peaks in
  sort afterZ (greedy minDist maxCount peaks []).

(** [while (i > 0 && y[i] > thrOff) i--], by recursion on [i]. *)
Fixpoint refineFrom (y : list float) (thrOff : float) (i : nat) : nat :=
  match i with
  | O => O
  | S j => if gt (get y (Z.of_nat i)) thrOff then refineFrom y thrOff j else i
  end.

Definition refineToOnset (y : list float) (peakIdx : Z) (thrOff : float) : Z :=
  if 0 <? peakIdx then Z.of_nat (refineFrom y thrOff (Z.to_nat peakIdx))
  else peakIdx.

(** The loop [if (hs[i] - merged[merged.length-1] >= minGap) merged.push(hs[i])],
    [last] being the last element pushed. *)
Fixpoint mergeFrom (minGap last : Z) (hs : list Z) : list Z :=
  match hs with
  | [] => []
  | h :: rest =>
      if minGap <=? h - last then h :: mergeFrom minGap h rest
      else mergeFrom minGap last rest
  end.

(** [applyOffsetAndMerge(hsRaw, offset, minGap, nMax)].  When the offset
    pushes every event out of [0, nMax) the filtered array is empty and
    [merged = [hs[0]]] is the one-element array [[undefined]]: [None]
    below is that [undefined]. *)
Definition applyOffsetAndMerge (hsRaw : list Z) (offset minGap nMax : Z)
  : list (option Z) :=
  if len hsRaw =? 0 then []
  else
    let hs :=
      sort afterZ
           (filter (fun v => (0 <=? v) && (v <? nMax))
                   (map (fun v => v + offset) hsRaw)) in
    match hs with
    | [] => [None]
    | h0 :: rest => map Some (h0 :: mergeFrom minGap h0 rest)
    end.

(** The numbers of an array of events.  An array of two or more that
    [applyOffsetAndMerge] returns holds numbers only (lemma
    [applyOffsetAndMerge_numbers]), and the detector keeps no other. *)
Fixpoint numbers (hs : list (option Z)) : list Z :=
  match hs with
  | [] => []
  | Some h :: rest => h :: numbers rest
  | None :: rest => numbers rest
  end.

(** The options object of [detectHS]. *)
Record Opts : Type := {
  expectedCount : option Z;
  minBurstMs : float;
  minGapMs : float;
  offsetMs : float;
  plausibleStep : float * float
}.

(** [Math.round((fs * ms) / 1000)]: milliseconds as a sample count. *)
Definition samples (fs ms : float) : Z := roundZ ((fs * ms) / 1000)%float.

(** The multipliers [for (k = lo; k <= hi; k += step) ks.push(f(k))]. *)
Fixpoint sweep (fuel : nat) (k hi step : float) (f : float -> float)
  : list float :=
  match fuel with
  | O => []
  | S fuel' =>
      if le k hi then f k :: sweep fuel' (k + step)%float hi step f else []
  end.

(** [1.2, 1.3, ..., 4.0], each [Math.round(k * 100) / 100]. *)
Definition ks : list float :=
  Eval vm_compute in
    sweep 100 1.2%float (4.0 + 1e-9)%float 0.1%float
          (fun k => (Math_round (k * 100) / 100)%float).

(** The intervals [(hs[i] - hs[i-1]) / fs] in seconds. *)
Definition intervals (hs : list Z) (fs : float) : list float :=
  map (fun '(a, b) => (Z2float (b - a) / fs)%float) (Core.pairs hs).

(** The score of an event list, lower being better: the share of
    intervals outside the plausible band, their coefficient of variation,
    the distance of their median from [target] seconds, and the distance
    of the count from the expected one. *)
Definition strideScore (target : float) (hs : list Z) (fs : float)
           (plausibleStep : float * float) (expectedCount : option Z)
  : float :=
  if len hs <? 2 then Infinity
  else
    let ints := intervals hs fs in
    let n := Z2float (len ints) in
    let meanInt := (sum ints / n)%float in
    let medInt := Core.median ints in
    let sdInt :=
      Math_sqrt
        (fold_left (fun a b => (a + (b - meanInt) * (b - meanInt))%float)
                   ints 0%float / n)%float in
    let cv := (sdInt / (meanInt + 1e-12))%float in
    let '(lo, hi) := plausibleStep in
    let bad :=
      (Z2float (len (filter (fun v => lt v lo || gt v hi) ints)) / n)%float in
    let score :=
      (5.0 * bad + 2.0 * cv + 0.5 * Math_abs (medInt - target))%float in
    match expectedCount with
    | Some e => (score + 0.8 * Math_abs (Z2float (len hs - e)))%float
    | None => score
    end.

(** [chooseEveryOtherIfDouble], given the scoring function of the revision. *)
Definition chooseEveryOther
           (score : list Z -> float) (hs : list Z) (fs : float)
           (expected : option Z) : list Z :=
  if len hs <? 6 then hs
  else
    let medInt := Core.median (intervals hs fs) in
    let looksDouble :=
      lt medInt 0.50%float
      || match expected with
         | Some n => ge (Z2float (len hs)) (Z2float n * 1.6)%float
         | None => false
         end in
    if negb looksDouble then hs
    else
      let candA := everyNth 2 0 hs in
      let candB := everyNth 2 1 hs in
      if le (score candA) (score candB) then candA else candB.

End Events.

(** ** The revision with video assistance
    ([src/unnamed/part_002], lines 864 to 2247) *)

Module VideoAssist.
Import JS Core Events.

Definition scoreHS (hs : list Z) (fs : float) (plausibleStep : float * float)
           (expectedCount : option Z) : float :=
  strideScore 0.7%float hs fs plausibleStep expectedCount.

(** The robust spread [m]: the MAD, or the scaled inter-quartile range
    when the MAD is not finite or below [1e-12]. *)
Definition spread (env : list float) : float :=
  let m := mad env in
  if negb (Number_isFinite m) || lt m 1e-12%float then
    let p75 := percentile env 75%float in
    let p25 := percentile env 25%float in
    ((p75 - p25) / 1.349)%float
  else m.

Definition threshold (med m k : float) : float := (med + k * m)%float.

(** One turn of the loop over [ks]. *)
Definition onsetStep (env : list float) (fs : float) (o : Opts)
           (med m : float) (best : option Detection) (k : float)
  : option Detection :=
  let minBurst := samples fs (minBurstMs o) in
  let minGap := samples fs (minGapMs o) in
  let offset := samples fs (offsetMs o) in
  let thr := threshold med m k in
  let mask := map (fun v => gt v thr) env in
  let segs := filter (fun '(s, e) => minBurst <=? e - s) (risingEdges mask) in
  if len segs =? 0 then best
  else
    let hs := applyOffsetAndMerge (map fst segs) offset minGap (len env) in
    if len hs <? 2 then best
    else
      let sc := scoreHS (numbers hs) fs (plausibleStep o) (expectedCount o) in
      let cand := {| det_k := KNum k; det_thr := thr;
                     det_hs := numbers hs; det_score := sc |} in
      match best with
      | None => Some cand
      | Some b => if lt sc (det_score b) then Some cand else best
      end.

(** [detectHS]: burst onsets over the sweep of [k], then the two peak
    fallbacks, then [throw new Error("HS推定に失敗しました（信号が弱い/
    ノイズ多い/閾値設定不適）...")]. *)
Definition detectHS (env : list float) (fs : float) (o : Opts)
  : Outcome Detection :=
  let minGap := samples fs (minGapMs o) in
  let offset := samples fs (offsetMs o) in
  let med := median env in
  let m := spread env in
  let best :=
    if Number_isFinite m && gt m 1e-12%float then
      fold_left (onsetStep env fs o med m) ks None
    else None in
  match best with
  | Some b => Ok b
  | None =>
      let thrPeak := percentile env 80%float in
      let thrOff := percentile env 60%float in
      let peaks := pickPeaksGreedy env minGap thrPeak (expectedCount o) in
      let viaOnsets :=
        if 2 <=? len peaks then
          let onsets := map (fun p => refineToOnset env p thrOff) peaks in
          let hs := applyOffsetAndMerge onsets offset minGap (len env) in
          if 2 <=? len hs then
            Some {| det_k := KPeakFallback; det_thr := thrPeak;
                    det_hs := numbers hs;
                    det_score := scoreHS (numbers hs) fs (plausibleStep o)
                                         (expectedCount o) |}
          else None
        else None in
      match viaOnsets with
      | Some r => Ok r
      | None =>
          let peaks' := applyOffsetAndMerge peaks offset minGap (len env) in
          if 2 <=? len peaks' then
            Ok {| det_k := KPeakDirect; det_thr := thrPeak;
                  det_hs := numbers peaks';
                  det_score := scoreHS (numbers peaks') fs (plausibleStep o)
                                       (expectedCount o) |}
          else Throw DetectionFailure
      end
  end.

(** The parameters [computePipeline] takes from the page. *)
Record Params : Type := {
  hp : float; lp : float; rmsMs : float;
  p_minBurstMs : float; p_minGapMs : float; p_offsetMs : float;
  nPoints : Z
}.

Definition defaultStep : float * float := (0.35%float, 1.6%float).

Section Pipeline.
Context {host : Host}.

Definition envelope (x : list float) (fs : float) (p : Params) : list float :=
  let y := demean x in
  let y := if gt (hp p) 0%float then butter2x y highpass (hp p) fs else y in
  let y :=
    if gt (lp p) 0%float && lt (lp p) (fs / 2)%float
    then butter2x y lowpass (lp p) fs else y in
  let y := absArray y in
  let win := Z.max 1 (roundZ ((fs * rmsMs p) / 1000)%float) in
  movingRMS y win.

Definition computePipeline (tt x : list float) (fs : float) (p : Params)
           (expected : option Z) : Outcome Result :=
  let env := envelope x fs p in
  match detectHS env fs
          {| expectedCount := expected; minBurstMs := p_minBurstMs p;
             minGapMs := p_minGapMs p; offsetMs := p_offsetMs p;
             plausibleStep := defaultStep |} with
  | Throw e => Throw e
  | Ok hsRes =>
      let pct := percentPeak env (det_hs hsRes) in
      let '(g, cyc) := normalizeCycles pct (det_hs hsRes) (nPoints p) in
      let '(mu, sg) := meanAndSD cyc in
      Ok {| t := tt; envRaw := env; envPct := pct; hs := det_hs hsRes;
            k := det_k hsRes; thr := det_thr hsRes; grid := g;
            cycles := cyc; mean := mu; sd := sg |}
  end.
End Pipeline.

(** [applyHsToExistingResult]: the result the call returns.  With fewer
    than two events left by the filter, [percentPeak] takes
    [Math.max(...env)]; [percentPeakCall] says when that call returns. *)
Definition applyHsToExistingResult (res : Result) (hs0 : list Z) (nPoints : Z)
  : Result :=
  let hs2 := filter (inEnvelope (len (envRaw res))) hs0 in
  let pct := percentPeak (envRaw res) hs2 in
  let '(g, cyc) := normalizeCycles pct hs2 nPoints in
  let '(mu, sg) := meanAndSD cyc in
  {| t := t res; envRaw := envRaw res; envPct := pct; hs := hs2;
     k := k res; thr := thr res; grid := g; cycles := cyc;
     mean := mu; sd := sg |}.

Definition chooseEveryOtherIfDouble (hs : list Z) (fs : float)
           (expected : option Z) : list Z :=
  chooseEveryOther (fun c => scoreHS c fs defaultStep expected) hs fs expected.

(** *** Matching against the events of the video *)

(** The two-pointer walk over the EMG times (each with its position [k]
    in [hsIdx]) and the video times, both ascending; the positions of the
    EMG events that found a partner within [tolSec]. *)
Fixpoint matchFrom (shift tolSec : float) (et : list (float * Z))
  : list float -> list Z :=
  fix walk (vt : list float) : list Z :=
    match et, vt with
    | (v, k) :: et', b :: vt' =>
        let d := ((v + shift) - b)%float in
        if le (Math_abs d) tolSec then k :: matchFrom shift tolSec et' vt'
        else if lt d (- tolSec)%float then matchFrom shift tolSec et' vt
        else walk vt'
    | _, _ => []
    end.

(** [emgTimes.map((v, k) => ({v, k}))]. *)
Definition indexed (xs : list float) : list (float * Z) :=
  combine xs (range 0 (len xs)).

Definition byTime (a b : float * Z) : bool := afterF (fst a) (fst b).

(** The loop [for (s = -rangeSec; s <= rangeSec + 1e-9; s += stepSec)]
    of [bestShiftMatch].  It ends when [s] passes the bound; [fuel]
    bounds the turns taken, and [None] says the bound was not reached
    within them. *)
Fixpoint shiftLoop (fuel : nat) (count : float -> Z)
         (s bound stepSec : float) (best : float * Z) : option (float * Z) :=
  if le s bound then
    match fuel with
    | O => None
    | S fuel' =>
        let score := count s in
        shiftLoop fuel' count (s + stepSec)%float bound stepSec
                  (if snd best <? score then (s, score) else best)
    end
  else Some best.

(** The numbers of an array that may hold [undefined]. *)
Fixpoint numbersOf (xs : list (option float)) : list float :=
  match xs with
  | [] => []
  | Some v :: rest => v :: numbersOf rest
  | None :: rest => numbersOf rest
  end.

(** [emgTimes.slice().sort((a, b) => a - b)]: the numbers in the order
    of the comparator, and after them every [undefined], which [sort]
    moves to the end without asking the comparator; in the sums of the
    walk an [undefined] is NaN. *)
Definition sortedTimes (emgTimes : list (option float)) : list float :=
  sort afterF (numbersOf emgTimes)
  ++ repeat nan (length emgTimes - length (numbersOf emgTimes))%nat.

(** [bestShiftMatch]: the shift of the most pairs, and their number.
    [emgTimes] is [hsIdx.map((i) => tSec[i])], which holds [undefined]
    for an index outside [tSec]. *)
Definition bestShiftMatch (fuel : nat) (emgTimes : list (option float))
           (videoTimes : list float)
           (rangeSec stepSec tolSec : float) : option (float * Z) :=
  if (len emgTimes =? 0) || (len videoTimes =? 0) then Some (0%float, -1)
  else
    let vt := sort afterF videoTimes in
    let et := sortedTimes emgTimes in
    shiftLoop fuel (fun s => len (matchFrom s tolSec (indexed et) vt))
              (- rangeSec)%float (rangeSec + 1e-9)%float stepSec
              (0%float, -1).

(** The events kept at a given shift:
    [hsIdx.filter((_, k) => keepSet.has(k))].  Here the times are sorted
    as the objects [{v, k}] with the comparator [a.v - b.v], which is
    asked for every pair: an [undefined] time is NaN in it, as in
    [get]. *)
Definition keepAt (shift tolSec : float) (hsIdx : list Z)
           (emgTimes videoEvents : list float) : list Z :=
  let et := sort byTime (indexed emgTimes) in
  let vt := sort afterF videoEvents in
  let keepSet := matchFrom shift tolSec et vt in
  map fst
      (filter (fun '(_, k) => existsb (Z.eqb k) keepSet)
              (combine hsIdx (range 0 (len hsIdx)))).

Record Kept : Type := {
  hsKept : list Z;
  kept_shift : float;
  matched : Z;
  raw : Z;
  kept_score : Z
}.

Definition keepHsMatchedToVideo (fuel : nat) (hsIdx : list Z)
           (tSec videoEvents : list float) (syncRange tolMs : float)
  : option Kept :=
  let tolSec := (tolMs / 1000)%float in
  let emgTimes := map (item tSec) hsIdx in
  let stepSec := 0.01%float in
  match bestShiftMatch fuel emgTimes videoEvents syncRange stepSec tolSec with
  | None => None
  | Some (shift, score) =>
      let kept :=
        keepAt shift tolSec hsIdx (map (get tSec) hsIdx) videoEvents in
      Some {| hsKept := kept; kept_shift := shift; matched := len kept;
              raw := len hsIdx; kept_score := score |}
  end.

(** Where the reference events of [run] come from. *)
Inductive HsSource : Type :=
| FromDetector
| FromVideo (shift : float) (nMatched nRaw : Z)
| EveryOther.

(** [useVideo]: the box is ticked and four or more video events were
    extracted ([state.videoEvents] is [null] before an extraction). *)
Definition useVideoOf (ticked : bool) (videoEvents : option (list float))
  : bool :=
  ticked && match videoEvents with
            | Some v => 4 <=? len v
            | None => false
            end.

(** The part of [run] that settles the reference events [hsRef] from the
    detector's events [hs1] of the first channel: the events before
    [baselineSec] go; with video assistance the matched events stay when
    there are four or more, and otherwise [chooseEveryOtherIfDouble]
    decides.  An event that passes the baseline test has a time that is
    a number and not NaN, and so has every video event that passes it:
    the comparators of the sorts of the reconciler are consistent on
    them, and the order they give does not depend on the engine. *)
Definition referenceEvents (fuel : nat) (ticked : bool)
           (hs1 : list Z) (t1 : list float)
           (videoEvents : option (list float))
           (baselineSec syncRange tolMs fs : float) (expTA : option Z)
  : option (list Z * HsSource) :=
  let hsRef := filter (fun i => ge (get t1 i) baselineSec) hs1 in
  if useVideoOf ticked videoEvents then
    match keepHsMatchedToVideo fuel hsRef t1
            (filter (fun v => ge v baselineSec)
                    (match videoEvents with Some v => v | None => [] end))
            syncRange tolMs with
    | None => None
    | Some r =>
        if 4 <=? matched r then
          Some (hsKept r, FromVideo (kept_shift r) (matched r) (raw r))
        else Some (chooseEveryOtherIfDouble hsRef fs expTA, EveryOther)
    end
  else
    let hsRef' := chooseEveryOtherIfDouble hsRef fs expTA in
    Some (hsRef',
          if len hsRef' =? len hs1 then FromDetector else EveryOther).

End VideoAssist.

(** ** The revision hardened for the phone
    ([src/unnamed/part_002], lines 1 to 860) *)

Module Robust.
Import JS Core Events.

(** [mean]: over the finite entries, NaN when there is none. *)
Definition mean (arr : list float) : float :=
  let '(s, c) :=
    fold_left
      (fun '(s, c) v =>
         if Number_isFinite v then ((s + v)%float, c + 1) else (s, c))
      arr (0%float, 0) in
  if 0 <? c then (s / Z2float c)%float else NaN.

(** [varRatioFinite]: the share of finite entries; [0] for no entry. *)
Definition varRatioFinite (x : list float) : float :=
  let c := len (filter Number_isFinite x) in
  if len x =? 0 then 0%float else (Z2float c / Z2float (len x))%float.

(** The values written into a gap of [pending] non-finite samples that
    lies between [left] and [right]: [w = k / gap],
    [left * (1 - w) + right * w]. *)
Definition interpolate (left right : float) (pending : Z) : list float :=
  let gap := pending + 1 in
  map (fun k =>
         let w := (Z2float k / Z2float gap)%float in
         (left * (1 - w) + right * w)%float)
      (range 1 gap).

(** The gap loop of [sanitizeArray], the scan for the end [e] of a gap
    unfolded into the recursion: [left] is the finite sample before the
    gap and [pending] the number of non-finite samples met since.  A
    gap that runs to the end of the array has [right = left]. *)
Fixpoint fillGaps (left : float) (pending : Z) (ys : list float)
  : list float :=
  match ys with
  | [] => interpolate left left pending
  | v :: rest =>
      if Number_isFinite v then
        interpolate left v pending ++ v :: fillGaps v 0 rest
      else fillGaps left (pending + 1) rest
  end.

Fixpoint firstFinite (ys : list float) : option float :=
  match ys with
  | [] => None
  | v :: rest => if Number_isFinite v then Some v else firstFinite rest
  end.

Fixpoint leading (ys : list float) : list float * list float :=
  match ys with
  | [] => ([], [])
  | v :: rest =>
      if Number_isFinite v then ([], ys)
      else let '(a, b) := leading rest in (v :: a, b)
  end.

(** [sanitizeArray]: every non-finite sample is replaced, by the first
    finite sample before it, by linear interpolation inside, by the last
    finite sample after it; an array with no finite sample becomes zeros. *)
Definition sanitizeArray (x : list float) : list float :=
  match firstFinite x with
  | None => map (fun _ => 0%float) x
  | Some f =>
      let '(head, rest) := leading x in
      map (fun _ => f) head ++ fillGaps f 0 rest
  end.

Definition scoreHS (hs : list Z) (fs : float) (plausible : float * float)
           (expected : option Z) : float :=
  if len hs <? 2 then Infinity
  else
    let ints := intervals hs fs in
    let meanInt := mean ints in
    let medInt := median ints in
    let sd :=
      Math_sqrt
        (orZero (mean (map (fun v => ((v - meanInt) * (v - meanInt))%float)
                           ints))) in
    let cv := (sd / (meanInt + 1e-12))%float in
    let '(lo, hi) := plausible in
    let n := if len ints =? 0 then 1 else len ints in
    let bad :=
      (Z2float (len (filter (fun v => lt v lo || gt v hi) ints))
       / Z2float n)%float in
    let s := (5 * bad + 2 * cv + 0.5 * Math_abs (medInt - 0.7))%float in
    match expected with
    | Some e => (s + 0.8 * Math_abs (Z2float (len hs - e)))%float
    | None => s
    end.

Definition spread (env : list float) : float :=
  let m := mad env in
  if negb (Number_isFinite m) || lt m 1e-12%float then
    let p75 := percentile env 75%float in
    let p25 := percentile env 25%float in
    ((p75 - p25) / 1.349)%float
  else m.

Definition onsetStep (env : list float) (fs : float) (o : Opts)
           (med m : float) (best : option Detection) (k : float)
  : option Detection :=
  let minBurst := samples fs (minBurstMs o) in
  let minGap := samples fs (minGapMs o) in
  let offset := samples fs (offsetMs o) in
  let thr := (med + k * m)%float in
  let mask := map (fun v => gt v thr) env in
  let segs := filter (fun '(s, e) => minBurst <=? e - s) (risingEdges mask) in
  if len segs =? 0 then best
  else
    let hs := applyOffsetAndMerge (map fst segs) offset minGap (len env) in
    if len hs <? 2 then best
    else
      let sc := scoreHS (numbers hs) fs (plausibleStep o) (expectedCount o) in
      let cand := {| det_k := KNum k; det_thr := thr;
                     det_hs := numbers hs; det_score := sc |} in
      match best with
      | None => Some cand
      | Some b => if lt sc (det_score b) then Some cand else best
      end.

(** [detectHS]: the MAD onsets, then the peak fallback, then
    [throw new Error("HS推定に失敗しました（有効データ不足/NaN混入/
    信号弱い/閾値不適）...")]. *)
Definition detectHS (env : list float) (fs : float) (o : Opts)
  : Outcome Detection :=
  let minGap := samples fs (minGapMs o) in
  let offset := samples fs (offsetMs o) in
  let med := median env in
  let m := spread env in
  let best :=
    if Number_isFinite m && gt m 1e-12%float then
      fold_left (onsetStep env fs o med m) ks None
    else None in
  match best with
  | Some b => Ok b
  | None =>
      let thrPeak := percentile env 80%float in
      let thrOff := percentile env 60%float in
      let peaks := pickPeaksGreedy env minGap thrPeak (expectedCount o) in
      let hs :=
        if 2 <=? len peaks then
          applyOffsetAndMerge
            (map (fun p => refineToOnset env p thrOff) peaks)
            offset minGap (len env)
        else [] in
      if (2 <=? len peaks) && (2 <=? len hs) then
        Ok {| det_k := KPeakFallback; det_thr := thrPeak;
              det_hs := numbers hs;
              det_score := scoreHS (numbers hs) fs (plausibleStep o)
                                   (expectedCount o) |}
      else Throw DetectionFailure
  end.

(** The [mode] field: ["MAD"] for the onsets of the sweep, ["PEAK"] for
    the fallback. *)
Inductive Mode : Type := MAD | PEAK.

Definition modeOf (k : KTag) : Mode :=
  match k with
  | KNum _ => MAD
  | _ => PEAK
  end.

Record Debug : Type := {
  finiteRatio : float;
  envMed : float;
  envMad : float;
  envP95 : float;
  envMax : float
}.

Record Analysis : Type := {
  result : Result;
  mode : Mode;
  debug : Debug
}.

Record Params : Type := {
  hp : float; lp : float; rmsMs : float;
  p_minBurstMs : float; p_minGapMs : float; p_offsetMs : float;
  nPoints : Z
}.

Definition defaultStep : float * float := (0.35%float, 1.6%float).

(** How far [computePipeline] got before detection: the two floors and
    the two cut-off checks, in the order of the source. *)
Inductive Precheck : Type :=
| TooManyMissing     (* "CSVに欠損が多いです（有効率 ...%）" *)
| TooShort           (* "データが短すぎます（2秒未満）。" *)
| HighPassTooHigh    (* "HighPassが高すぎます。" *)
| LowPassTooHigh     (* "LowPassが高すぎます。" *)
| Passed (y : list float) (ratio : float).

Definition precheck (x : list float) (fs : float) (p : Params) : Precheck :=
  let y := sanitizeArray x in
  let ratio := varRatioFinite y in
  if lt ratio 0.95%float then TooManyMissing
  else
    let m := mean y in
    let y := map (fun v => (v - m)%float) y in
    if lt (Z2float (len y)) (fs * 2)%float then TooShort
    else if ge (hp p) (fs / 2)%float then HighPassTooHigh
    else if ge (lp p) (fs / 2)%float then LowPassTooHigh
    else Passed y ratio.

Section Pipeline.
Context {host : Host}.

Definition envelopeOf (y : list float) (fs : float) (p : Params)
  : list float :=
  let y := if gt (hp p) 0%float then butter2x y highpass (hp p) fs else y in
  let y :=
    if gt (lp p) 0%float && lt (lp p) (fs / 2)%float
    then butter2x y lowpass (lp p) fs else y in
  let y := absArray y in
  let win := Z.max 1 (roundZ ((fs * rmsMs p) / 1000)%float) in
  movingRMS y win.

Definition computePipeline (tt x : list float) (fs : float) (p : Params)
           (expected : option Z) : Outcome Analysis :=
  match precheck x fs p with
  | TooManyMissing | TooShort => Throw InsufficientDataError
  | HighPassTooHigh | LowPassTooHigh => Throw ConfigurationError
  | Passed y ratio =>
      let env := envelopeOf y fs p in
      match detectHS env fs
              {| expectedCount := expected; minBurstMs := p_minBurstMs p;
                 minGapMs := p_minGapMs p; offsetMs := p_offsetMs p;
                 plausibleStep := defaultStep |} with
      | Throw e => Throw e
      | Ok hsRes =>
          let pct := percentPeak env (det_hs hsRes) in
          let '(g, cyc) := normalizeCycles pct (det_hs hsRes) (nPoints p) in
          let '(mu, sg) := meanAndSD cyc in
          match Math_max_spread env with
          | Throw e => Throw e
          | Ok mx =>
              Ok {| result :=
                      {| t := tt; envRaw := env; envPct := pct;
                         hs := det_hs hsRes; k := det_k hsRes;
                         thr := det_thr hsRes; grid := g; cycles := cyc;
                         Core.mean := mu; sd := sg |};
                    mode := modeOf (det_k hsRes);
                    debug :=
                      {| finiteRatio := ratio; envMed := median env;
                         envMad := mad env;
                         envP95 := percentile env 95%float;
                         envMax := mx |} |}
          end
      end
  end.
End Pipeline.

Definition chooseEveryOtherIfDouble (hs : list Z) (fs : float)
           (expected : option Z) : list Z :=
  chooseEveryOther (fun c => scoreHS c fs defaultStep expected) hs fs expected.

End Robust.

(** ** The peak-based revision ([src/emg/app.js], lines 1 to 887) *)

Module PeakBased.
Import JS Core Events.

Definition madScalar (arr : list float) : float :=
  let med := median arr in
  if negb (Number_isFinite med) then NaN
  else median (map (fun v => Math_abs (v - med)%float) arr).

Record Opts : Type := {
  expectedCount : option Z;
  minBurstMs : float;
  minGapMs : float;
  offsetMs : float;
  plausibleStep : float * float;
  enableEveryOtherFix : bool;
  peakBackMs : float;
  peakForwardMs : float
}.

(** [Math.round((ms / 1000) * fs)]. *)
Definition samples (fs ms : float) : Z := roundZ ((ms / 1000) * fs)%float.

Definition minBurstOf (fs : float) (o : Opts) : Z :=
  Z.max 1 (samples fs (minBurstMs o)).
Definition minGapOf (fs : float) (o : Opts) : Z :=
  Z.max 1 (samples fs (minGapMs o)).

(** The spread [md]: the MAD, rescued when it is not finite or below
    [1e-12] by the quartiles of the sorted finite samples (ten or more of
    them) or by the constant [1e-6]. *)
Definition spread (env : list float) : float :=
  let md := madScalar env in
  if negb (Number_isFinite md) || lt md 1e-12%float then
    let a := sort afterF (filter Number_isFinite env) in
    if 10 <=? len a then
      let p25 := get a (floorZ (Z2float (len a) * 0.25)%float) in
      let p75 := get a (floorZ (Z2float (len a) * 0.75)%float) in
      ((p75 - p25) / 1.349)%float
    else 1e-6%float
  else md.

(** The threshold of multiplier [k]: [med + k * (md * 1.4826)]. *)
Definition threshold (med md k : float) : float :=
  (med + k * (md * 1.4826))%float.

Definition scoreHS (fs : float) (o : Opts) (hs : list Z) : float :=
  strideScore 1.0%float hs fs (plausibleStep o) (expectedCount o).

(** The loop of [mergeByMinGap] after its first event: [(lastH, lastS)]
    is the last element of [outH] and [outS], overwritten when a closer
    event is stronger. *)
Fixpoint mergeWith (minGap lastH : Z) (lastS : float)
         (ev : list (Z * float)) : list (Z * float) :=
  match ev with
  | [] => [(lastH, lastS)]
  | (h, s) :: rest =>
      if h - lastH <? minGap then
        if gt s lastS then mergeWith minGap h s rest
        else mergeWith minGap lastH lastS rest
      else (lastH, lastS) :: mergeWith minGap h s rest
  end.

(** [hs[i]] with [strength[i]], side by side. *)
Definition withStrength (hs : list Z) (strength : list float)
  : list (Z * float) :=
  map (fun '(h, i) => (h, get strength i)) (combine hs (range 0 (len hs))).

Definition mergeByMinGap (minGap : Z) (hs : list Z) (strength : list float)
  : list Z * list float :=
  match withStrength hs strength with
  | [] => (hs, strength)
  | (h0, s0) :: rest => split (mergeWith minGap h0 s0 rest)
  end.

Definition chooseEveryOtherIfDouble (fs : float) (o : Opts) (hs : list Z)
  : list Z :=
  if negb (enableEveryOtherFix o) || (len hs <? 6) then hs
  else
    let medInt := median (intervals hs fs) in
    let looksDouble :=
      (Number_isFinite medInt && lt medInt 0.50%float)
      || match expectedCount o with
         | Some n => ge (Z2float (len hs)) (Z2float n * 1.6)%float
         | None => false
         end in
    if negb looksDouble then hs
    else
      let candA := everyNth 2 0 hs in
      let candB := everyNth 2 1 hs in
      if le (scoreHS fs o candA) (scoreHS fs o candB) then candA else candB.

(** [hsAroundPeak]: the sample of steepest rise in the window around
    the peak, the first one on a tie. *)
Definition hsAroundPeak (env : list float) (back fwd : Z)
           (segStart segEnd peakIdx : Z) : Z :=
  let w0 := Z.max (segStart + 1) (peakIdx - back) in
  let w1 := Z.min (segEnd - 1) (peakIdx + fwd) in
  fst (fold_left
         (fun '(bestI, bestSlope) i =>
            let slope := (get env i - get env (i - 1))%float in
            if gt slope bestSlope then (i, slope) else (bestI, bestSlope))
         (range w0 (w1 + 1)) (w0, neg_infinity)).

(** The peak of a burst [s..e]: the first sample of largest amplitude. *)
Definition peakOf (env : list float) (s e : Z) : Z * float :=
  fold_left
    (fun '(p, pv) i =>
       let v := get env i in if gt v pv then (i, v) else (p, pv))
    (range s (e + 1)) (s, neg_infinity).

(** [2, 2.25, ..., 6], each [Number(k.toFixed(2))]. *)
Definition ks : list float :=
  Eval vm_compute in
    sweep 100 2.0%float (6.0 + 1e-12)%float 0.25%float toFixed2.

(** The bursts of a mask, ends made inclusive, shorter ones dropped. *)
Definition bursts (minBurst : Z) (mask : list bool) : list (Z * Z) :=
  filter (fun '(s, e) => minBurst <=? e - s + 1)
         (map (fun '(s, e) => (s, Z.max s e))
              (map (fun '(s, e) => (s, e - 1)) (risingEdges mask))).

(** The events of one multiplier before merging: one per burst, kept
    when inside the envelope, each with the amplitude of its peak. *)
Definition rawEvents (env : list float) (back fwd offset : Z)
           (segs : list (Z * Z)) : list (Z * float) :=
  filter (fun '(h, _) => (0 <=? h) && (h <? len env))
         (map (fun '(s, e) =>
                 let '(p, pv) := peakOf env s e in
                 (hsAroundPeak env back fwd s e p + offset, pv))
              segs).

Definition byIndex (a b : Z * float) : bool := afterZ (fst a) (fst b).

Definition candidate (env : list float) (fs : float) (o : Opts)
           (med md k : float) : option Detection :=
  let minBurst := minBurstOf fs o in
  let minGap := minGapOf fs o in
  let offset := samples fs (offsetMs o) in
  let back := samples fs (peakBackMs o) in
  let fwd := samples fs (peakForwardMs o) in
  let thr := threshold med md k in
  let mask := map (fun v => gt v thr) env in
  let segs := bursts minBurst mask in
  if len segs =? 0 then None
  else
    let ord := sort byIndex (rawEvents env back fwd offset segs) in
    let merged := mergeByMinGap minGap (map fst ord) (map snd ord) in
    let hsFinal := chooseEveryOtherIfDouble fs o (fst merged) in
    if len hsFinal <? 2 then None
    else Some {| det_k := KNum k; det_thr := thr; det_hs := hsFinal;
                 det_score := scoreHS fs o hsFinal |}.

Definition step (env : list float) (fs : float) (o : Opts) (med md : float)
           (best : option Detection) (k : float) : option Detection :=
  match candidate env fs o med md k with
  | None => best
  | Some c =>
      match best with
      | None => Some c
      | Some b => if lt (det_score c) (det_score b) then Some c else best
      end
  end.

(** [detectHS]; the failure is [throw new Error("HS推定に失敗しました
    （周期が作れません）...")]. *)
Definition detectHS (env : list float) (fs : float) (o : Opts)
  : Outcome Detection :=
  let med := median env in
  let md := spread env in
  match fold_left (step env fs o med md) ks None with
  | Some b => if len (det_hs b) <? 2 then Throw DetectionFailure else Ok b
  | None => Throw DetectionFailure
  end.

Record Params : Type := {
  hp : float; lp : float; rmsMs : float;
  p_minBurstMs : float; p_minGapMs : float; p_offsetMs : float;
  p_plausibleStep : float * float; p_enableEveryOtherFix : bool;
  p_peakBackMs : float; p_peakForwardMs : float;
  nPoints : Z
}.

Section Pipeline.
Context {host : Host}.

Definition envelope (x : list float) (fs : float) (p : Params) : list float :=
  let y := demean x in
  let y := if gt (hp p) 0%float then butter2x y highpass (hp p) fs else y in
  let y :=
    if gt (lp p) 0%float && lt (lp p) (fs / 2)%float
    then butter2x y lowpass (lp p) fs else y in
  let y := absArray y in
  let win := Z.max 1 (roundZ ((fs * rmsMs p) / 1000)%float) in
  movingRMS y win.

Definition computePipeline (tt x : list float) (fs : float) (p : Params)
           (expected : option Z) : Outcome Result :=
  let env := envelope x fs p in
  match detectHS env fs
          {| expectedCount := expected; minBurstMs := p_minBurstMs p;
             minGapMs := p_minGapMs p; offsetMs := p_offsetMs p;
             plausibleStep := p_plausibleStep p;
             enableEveryOtherFix := p_enableEveryOtherFix p;
             peakBackMs := p_peakBackMs p;
             peakForwardMs := p_peakForwardMs p |} with
  | Throw e => Throw e
  | Ok hsRes =>
      let pct := percentPeak env (det_hs hsRes) in
      let '(g, cyc) := normalizeCycles pct (det_hs hsRes) (nPoints p) in
      let '(mu, sg) := meanAndSD cyc in
      Ok {| t := tt; envRaw := env; envPct := pct; hs := det_hs hsRes;
            k := det_k hsRes; thr := det_thr hsRes; grid := g;
            cycles := cyc; mean := mu; sd := sg |}
  end.
End Pipeline.

(** [applyHsToExistingResult]: the events of the reference channel,
    filtered against this channel's envelope, cut this channel anew.
    This is the result the call returns; with fewer than two events
    left, [percentPeakCall] says when it does. *)
Definition applyHsToExistingResult (res : Result) (hs0 : list Z) (nPoints : Z)
  : Result :=
  let hs2 := filter (inEnvelope (len (envRaw res))) hs0 in
  let pct := percentPeak (envRaw res) hs2 in
  let '(g, cyc) := normalizeCycles pct hs2 nPoints in
  let '(mu, sg) := meanAndSD cyc in
  {| t := t res; envRaw := envRaw res; envPct := pct; hs := hs2;
     k := KTARef; thr := thr res; grid := g; cycles := cyc;
     mean := mu; sd := sg |}.

End PeakBased.

(** ** The onset revision ([src/emg/app.js], lines 1810 to 2612) *)

Module Onset.
Import JS Core Events.

Definition threshold (med m k : float) : float := (med + k * m)%float.

(** One turn of the loop over [ks]: the burst starts, merged, then
    shifted by the offset and filtered against the envelope. *)
Definition candidate (env : list float) (fs : float) (o : Opts)
           (med m k : float) : option Detection :=
  let minBurst := samples fs (minBurstMs o) in
  let minGap := samples fs (minGapMs o) in
  let offset := samples fs (offsetMs o) in
  let thr := threshold med m k in
  let mask := map (fun v => gt v thr) env in
  let segs := filter (fun '(s, e) => minBurst <=? e - s) (risingEdges mask) in
  match sort afterZ (map fst segs) with
  | [] => None
  | h0 :: rest =>
      let merged := h0 :: mergeFrom minGap h0 rest in
      let hs :=
        filter (inEnvelope (len env)) (map (fun v => v + offset) merged) in
      if len hs <? 2 then None
      else Some {| det_k := KNum k; det_thr := thr; det_hs := hs;
                   det_score := strideScore 0.7%float hs fs (plausibleStep o)
                                            (expectedCount o) |}
  end.

Definition step (env : list float) (fs : float) (o : Opts) (med m : float)
           (best : option Detection) (k : float) : option Detection :=
  match candidate env fs o med m k with
  | None => best
  | Some c =>
      match best with
      | None => Some c
      | Some b => if lt (det_score c) (det_score b) then Some c else best
      end
  end.

(** [detectHS]; the failure is [throw new Error("HS推定に失敗しました
    （信号が弱い/ノイズ多い/閾値設定不適）...")]. *)
Definition detectHS (env : list float) (fs : float) (o : Opts)
  : Outcome Detection :=
  let med := median env in
  let m := mad env in
  match fold_left (step env fs o med m) ks None with
  | Some b => Ok b
  | None => Throw DetectionFailure
  end.

End Onset.

(** ** The revision with manual events ([src/emg/app.js], lines 888 to 1809) *)

Module Manual.
Import JS Core Events.

(** [mean] and [std] of this revision: every entry counts, and the
    divisor of the deviation is [n - 1]. *)
Definition mean (arr : list float) : float :=
  (sum arr / Z2float (len arr))%float.

Definition std (arr : list float) : float :=
  let m := mean arr in
  Math_sqrt
    (fold_left (fun s v => (s + (v - m) * (v - m))%float) arr 0%float
     / Z2float (len arr - 1))%float.

(** [arr.slice().sort((a, b) => a - b)[Math.floor(arr.length / 2)]]. *)
Definition middle (arr : list float) : float :=
  get (sort afterF arr) (len arr / 2).

(** [mad(arr)]: the middle element and the middle distance from it. *)
Definition mad (arr : list float) : float * float :=
  let m := middle arr in
  (m, middle (map (fun v => Math_abs (v - m)%float) arr)).

(** [toPercentPeak]: the share of the largest sample; zeros when that is
    not finite or not positive.  The largest sample is
    [Math.max(...env)]: a RangeError for an envelope of more samples
    than the engine accepts arguments. *)
Definition toPercentPeak {host : Host} (env : list float)
  : Outcome (list float) :=
  match Math_max_spread env with
  | Throw e => Throw e
  | Ok peak =>
      Ok (if negb (Number_isFinite peak) || le peak 0%float then
            map (fun _ => 0%float) env
          else map (fun v => ((v / peak) * 100)%float) env)
  end.

Definition pickCandidatesAbove (env : list float) (thr : float) : list Z :=
  filter (fun i => ge (get env i) thr) (range 0 (len env)).

(** The loop of [groupConsecutive]: [s] is the start of the run in
    progress and [prev] its last index. *)
Fixpoint groupFrom (s prev : Z) (indices : list Z) : list (Z * Z) :=
  match indices with
  | [] => [(s, prev)]
  | v :: rest =>
      if v =? prev + 1 then groupFrom s v rest
      else (s, prev) :: groupFrom v v rest
  end.

Definition groupConsecutive (indices : list Z) : list (Z * Z) :=
  match indices with
  | [] => []
  | i0 :: rest => groupFrom i0 i0 rest
  end.

(** The options object of [detectHS]; [run] passes every field. *)
Record Opts : Type := {
  expectedCount : option float;
  countTol : float;
  baselineSec : float;
  minBurstMs : float;
  minGapMs : float;
  offsetMs : float;
  plausibleStep : float * float;
  targetStepS : float;
  minStrideS : float
}.

(** [expectedCount && expectedCount > 0]. *)
Definition counted (expectedCount : option float) : option float :=
  match expectedCount with
  | Some e => if gt e 0%float then Some e else None
  | None => None
  end.

(** [if (c) pen += x]. *)
Definition addIf (c : bool) (x pen : float) : float :=
  if c then (pen + x)%float else pen.

(** The penalty for a median interval outside the plausible band. *)
Definition bandPenalty (plausibleStep : float * float) (w med pen : float)
  : float :=
  let '(lo, hi) := plausibleStep in
  addIf (gt med hi) ((med - hi) * w)%float
        (addIf (lt med lo) ((lo - med) * w)%float pen).

(** The penalty for a count away from the expected one:
    [diff > countTol ? far + diff * slope : diff * near]. *)
Definition countPenalty (n : Z) (e countTol far slope near : float) : float :=
  let diff := Math_abs (Z2float n - e)%float in
  if gt diff countTol then (far + diff * slope)%float else (diff * near)%float.

(** The score of [chooseOddEven]. *)
Definition scoreOddEven (fs : float) (expectedCount : option float)
           (plausibleStep : float * float) (countTol : float) (seq : list Z)
  : float :=
  let ints := intervals seq fs in
  let med := middle ints in
  let sd := std ints in
  let pen := bandPenalty plausibleStep 2 med 0%float in
  let pen :=
    match counted expectedCount with
    | Some e => (pen + countPenalty (len seq) e countTol 60 8 0.6)%float
    | None => pen
    end in
  (sd + pen)%float.

(** [chooseOddEven]: of the events at even and at odd positions, those
    lists that hold three events or more, the better one; [null] when
    there is none. *)
Definition chooseOddEven (hs : list Z) (fs : float)
           (expectedCount : option float) (plausibleStep : float * float)
           (countTol : float) : option (list Z) :=
  let score := scoreOddEven fs expectedCount plausibleStep countTol in
  let odd := everyNth 2 0 hs in
  let even := everyNth 2 1 hs in
  let subseqs :=
    if 4 <=? len hs then
      (if 3 <=? len odd then [odd] else [])
        ++ (if 3 <=? len even then [even] else [])
    else [] in
  match subseqs with
  | [] => None
  | first :: rest =>
      Some (fst (fold_left
                   (fun '(best, bestScore) s =>
                      let sc := score s in
                      if lt sc bestScore then (s, sc) else (best, bestScore))
                   rest (first, score first)))
  end.

(** The score of [chooseStrideSubseq]. *)
Definition scoreStride (fs e : float) (plausibleStep : float * float)
           (countTol : float) (seq : list Z) : float :=
  if len seq <? 3 then Infinity
  else
    let ints := intervals seq fs in
    let med := middle ints in
    let sd := std ints in
    let pen := bandPenalty plausibleStep 3 med 0%float in
    let pen := (pen + countPenalty (len seq) e countTol 100 10 0.5)%float in
    (sd + pen)%float.

(** [chooseStrideSubseq]: every second or every third event, from each
    starting position, when there are far more events than expected; the
    best such list when it is closer to the expected count. *)
Definition chooseStrideSubseq (hs : list Z) (fs : float)
           (expectedCount : option float) (plausibleStep : float * float)
           (countTol : float) : option (list Z) :=
  match counted expectedCount with
  | None => None
  | Some e =>
      if lt (Z2float (len hs)) (e + Math_max2 1 countTol)%float then None
      else
        let ratio := (Z2float (len hs) / e)%float in
        let mCandidates :=
          (if ge ratio 1.6%float then [2] else [])
            ++ (if ge ratio 2.6%float then [3] else []) in
        let seqs :=
          flat_map (fun m => map (fun off => everyNth m off hs) (range 0 m))
                   mCandidates in
        let best :=
          fst (fold_left
                 (fun '(best, bestScore) seq =>
                    let sc := scoreStride fs e plausibleStep countTol seq in
                    if lt sc bestScore then (Some seq, sc)
                    else (best, bestScore))
                 seqs (None, Infinity)) in
        match best with
        | None => None
        | Some b =>
            let beforeDiff := Math_abs (Z2float (len hs) - e)%float in
            let afterDiff := Math_abs (Z2float (len b) - e)%float in
            if lt afterDiff beforeDiff then Some b else None
        end
  end.

(** [Math.round((ms / 1000) * fs)]. *)
Definition samples (fs ms : float) : Z := roundZ ((ms / 1000) * fs)%float.

Definition minLenOf (fs : float) (o : Opts) : Z :=
  Z.max 1 (samples fs (minBurstMs o)).
Definition minGapOf (fs : float) (o : Opts) : Z :=
  Z.max 1 (samples fs (minGapMs o)).

(** The baseline window: the first [max(10, round(baselineSec * fs))]
    samples, the whole envelope when it is shorter. *)
Definition baseline (env : list float) (fs : float) (o : Opts) : list float :=
  let baseN := Z.min (len env) (Z.max 10 (roundZ (baselineSec o * fs)%float)) in
  slice env 0 baseN.

(** The threshold of multiplier [k]: [median + k * sigma] with
    [sigma = md * 1.4826]. *)
Definition threshold (median md k : float) : float :=
  (median + k * (md * 1.4826))%float.

(** [2, 2.25, ..., 6], each [Number(k.toFixed(2))]. *)
Definition ks : list float :=
  Eval vm_compute in sweep 100 2.0%float 6.0%float 0.25%float toFixed2.

(** The events kept of the group starts: the first, and each one that
    is [minGap] or more after the last one kept. *)
Definition suppress (minGap : Z) (hs : list Z) : list Z :=
  match hs with
  | [] => []
  | h0 :: rest => h0 :: mergeFrom minGap h0 rest
  end.

(** [buildHSforK]. *)
Definition buildHSforK (env : list float) (fs : float) (o : Opts)
           (median md k : float) : float * list Z :=
  let thr := threshold median md k in
  let idx := pickCandidatesAbove env thr in
  let groups :=
    filter (fun '(s, e) => minLenOf fs o <=? e - s + 1) (groupConsecutive idx) in
  let hs :=
    filter (inEnvelope (len env))
           (map (fun '(s, _) => s + samples fs (offsetMs o)) groups) in
  let hs := suppress (minGapOf fs o) hs in
  let hs :=
    match chooseOddEven hs fs (expectedCount o) (plausibleStep o) (countTol o)
    with
    | Some c => c
    | None => hs
    end in
  let hs :=
    match chooseStrideSubseq hs fs (expectedCount o) (plausibleStep o)
                             (countTol o) with
    | Some c => c
    | None => hs
    end in
  (thr, hs).

(** The score of [detectHS]. *)
Definition scoreHS (fs : float) (o : Opts) (hs : list Z) : float :=
  if len hs <? 3 then Infinity
  else
    let ints := intervals hs fs in
    let med := middle ints in
    let sd := std ints in
    let pen := bandPenalty (plausibleStep o) 3 med 0%float in
    let pen := (pen + Math_abs (med - targetStepS o) * 0.5)%float in
    let pen :=
      match counted (expectedCount o) with
      | Some e => (pen + countPenalty (len hs) e (countTol o) 200 20 1.0)%float
      | None => pen
      end in
    let pen :=
      addIf (lt med (minStrideS o)) ((minStrideS o - med) * 5)%float pen in
    (sd + pen)%float.

(** One turn of the loop over [ks]: [best] is [null] as long as
    [bestScore] is [Infinity], and [det_score] holds [bestScore]. *)
Definition step (env : list float) (fs : float) (o : Opts) (median md : float)
           (best : option Detection) (k : float) : option Detection :=
  let '(thr, hs) := buildHSforK env fs o median md k in
  let sc := scoreHS fs o hs in
  let bestScore :=
    match best with
    | Some b => det_score b
    | None => Infinity
    end in
  if lt sc bestScore then
    Some {| det_k := KNum k; det_thr := thr; det_hs := hs; det_score := sc |}
  else best.

(** [detectHS]: the threshold from the baseline window, the sweep, and
    [throw new Error("HS推定に失敗しました（信号が弱い/ノイズ多い/
    閾値設定不適）...")] for fewer than three events. *)
Definition detectHS (env : list float) (fs : float) (o : Opts)
  : Outcome Detection :=
  let '(median, md) := mad (baseline env fs o) in
  match fold_left (step env fs o median md) ks None with
  | Some b => if len (det_hs b) <? 3 then Throw DetectionFailure else Ok b
  | None => Throw DetectionFailure
  end.

(** [meanStdOfCycles]: [null] for no cycle; every contribution counts,
    finite or not, and the divisor of the deviation is [max(1, n - 1)]. *)
Definition meanStdOfCycles (cycles : list (list float))
  : option (list float * list float) :=
  match cycles with
  | [] => None
  | c0 :: _ =>
      let n := len cycles in
      let idx := range 0 (len c0) in
      let m :=
        map (fun i =>
               (fold_left (fun a c => (a + get c i)%float) cycles 0%float
                / Z2float n)%float) idx in
      let s :=
        map (fun i =>
               Math_sqrt
                 (fold_left
                    (fun a c =>
                       let d := (get c i - get m i)%float in (a + d * d)%float)
                    cycles 0%float
                  / Z2float (Z.max 1 (n - 1)))%float) idx in
      Some (m, s)
  end.

End Manual.

(** ** The pipeline of the onset revision
    ([src/emg/app.js], lines 2317 to 2358) *)

Module OnsetRun.
Import JS Core Events.

Record Params : Type := {
  hp : float; lp : float; rmsMs : float;
  p_minBurstMs : float; p_minGapMs : float; p_offsetMs : float;
  nPoints : Z
}.

(** The default [plausibleStep = [0.35, 1.6]] of [detectHS], which
    [computePipeline] does not pass. *)
Definition defaultStep : float * float := (0.35%float, 1.6%float).

Section Pipeline.
Context {host : Host}.

Definition envelope (x : list float) (fs : float) (p : Params) : list float :=
  let y := demean x in
  let y := if gt (hp p) 0%float then butter2x y highpass (hp p) fs else y in
  let y :=
    if gt (lp p) 0%float && lt (lp p) (fs / 2)%float
    then butter2x y lowpass (lp p) fs else y in
  let y := absArray y in
  let win := Z.max 1 (roundZ ((fs * rmsMs p) / 1000)%float) in
  movingRMS y win.

Definition computePipeline (tt x : list float) (fs : float) (p : Params)
           (expected : option Z) : Outcome Result :=
  let env := envelope x fs p in
  match Onset.detectHS env fs
          {| expectedCount := expected; minBurstMs := p_minBurstMs p;
             minGapMs := p_minGapMs p; offsetMs := p_offsetMs p;
             plausibleStep := defaultStep |} with
  | Throw e => Throw e
  | Ok hsRes =>
      let pct := percentPeak env (det_hs hsRes) in
      let '(g, cyc) := normalizeCycles pct (det_hs hsRes) (nPoints p) in
      let '(mu, sg) := meanAndSD cyc in
      Ok {| t := tt; envRaw := env; envPct := pct; hs := det_hs hsRes;
            k := det_k hsRes; thr := det_thr hsRes; grid := g;
            cycles := cyc; mean := mu; sd := sg |}
  end.
End Pipeline.

End OnsetRun.

(** ** Manual events, comparison and cycles of the revision with manual
    events ([src/emg/app.js], lines 1171 to 1553) *)

Module ManualTools.
Import JS Core Events Manual.

(** What [secToIndex] returns: NaN or a position. *)
Inductive Index : Type :=
| NotAnIndex
| At (i : Z).

(** [z >> 1]: the operand taken as a signed 32-bit integer, then halved
    towards minus infinity. *)
Definition toInt32 (z : Z) : Z := (z + 2 ^ 31) mod 2 ^ 32 - 2 ^ 31.
Definition sar1 (z : Z) : Z := toInt32 z / 2.

(** The loop [while (hi - lo > 1)] of [secToIndex]; [None] when it has
    not ended within [fuel] turns. *)
Fixpoint bisect (fuel : nat) (t : list float) (sec : float) (lo hi : Z)
  : option (Z * Z) :=
  if 1 <? hi - lo then
    match fuel with
    | O => None
    | S fuel' =>
        let mid := sar1 (lo + hi) in
        if lt (get t mid) sec then bisect fuel' t sec mid hi
        else bisect fuel' t sec lo mid
    end
  else Some (lo, hi).

(** [secToIndex(sec, t)] for an array [t]: the position of the time
    stamp next to [sec]. *)
Definition secToIndex (fuel : nat) (sec : float) (t : list float)
  : option Index :=
  if negb (Number_isFinite sec) || (len t =? 0) then Some NotAnIndex
  else
    let t0 := get t 0 in
    let tN := get t (len t - 1) in
    if negb (Number_isFinite t0) || negb (Number_isFinite tN) then
      Some NotAnIndex
    else if le sec t0 then Some (At 0)
    else if ge sec tN then Some (At (len t - 1))
    else
      match bisect fuel t sec 0 (len t - 1) with
      | None => None
      | Some (lo, hi) =>
          Some (At (if le (Math_abs (get t lo - sec))
                          (Math_abs (get t hi - sec))
                    then lo else hi))
      end.

(** The two-pointer walk of [compareHS] over the sorted events: the
    differences [a[i] - m[j]] of the pairs within [tol]. *)
Fixpoint pairDiffs (tol : float) (a : list Z) : list Z -> list Z :=
  fix walk (m : list Z) : list Z :=
    match a, m with
    | x :: a', y :: m' =>
        let d := x - y in
        if le (Math_abs (Z2float d)) tol then d :: pairDiffs tol a' m'
        else if lt (Z2float x) (Z2float y - tol)%float then pairDiffs tol a' m
        else walk m'
    | _, _ => []
    end.

Record Comparison : Type := {
  cmp_matched : Z;
  cmp_miss : Z;
  cmp_extra : Z;
  cmp_mae : float;
  cmp_bias : float
}.

(** [arr.length ? arr.reduce((s, v) => s + v, 0) / arr.length : NaN]. *)
Definition average (arr : list float) : float :=
  if len arr =? 0 then NaN else (sum arr / Z2float (len arr))%float.

Definition tolerance (fs tolMs : float) : float :=
  Math_max2 1 (Math_round ((fs * tolMs) / 1000)%float).

Definition compareHS (hsAuto hsManual : list Z) (fs tolMs : float)
  : Comparison :=
  let tol := tolerance fs tolMs in
  let a := sort afterZ hsAuto in
  let m := sort afterZ hsManual in
  let diffs := pairDiffs tol a m in
  let matched := len diffs in
  let absMs :=
    map (fun d => ((Math_abs (Z2float d) / fs) * 1000)%float) diffs in
  let biasMs := map (fun d => ((Z2float d / fs) * 1000)%float) diffs in
  {| cmp_matched := matched;
     cmp_miss := len m - matched;
     cmp_extra := len a - matched;
     cmp_mae := average absMs;
     cmp_bias := average biasMs |}.

(** The loop [while (j < x.length - 2 && x[j + 1] < xi) j++] of
    [interpolateToGrid]; [room] is [x.length - 2 - j], the turns the
    first test allows. *)
Fixpoint advance (x : list float) (xi : float) (j : Z) (room : nat) : Z :=
  match room with
  | O => j
  | S room' =>
      if lt (get x (j + 1)) xi then advance x xi (j + 1) room' else j
  end.

(** The loop over the grid, [j] carried from one point to the next. *)
Fixpoint interpolateFrom (x y : list float) (j : Z) (xGrid : list float)
  : list float :=
  match xGrid with
  | [] => []
  | xi :: rest =>
      let j' := advance x xi j (Z.to_nat (len x - 2 - j)) in
      let x0 := get x j' in
      let x1 := get x (j' + 1) in
      let y0 := get y j' in
      let y1 := get y (j' + 1) in
      let t := ((xi - x0) / (x1 - x0))%float in
      (y0 + t * (y1 - y0))%float :: interpolateFrom x y j' rest
  end.

Definition interpolateToGrid (x y xGrid : list float) : list float :=
  interpolateFrom x y 0 xGrid.

(** [xs.slice(a, b)] for any two integers: a negative one counts from
    the end, and both are brought into [0 .. xs.length]. *)
Definition sliceAt {A} (xs : list A) (a b : Z) : list A :=
  let n := len xs in
  let from := if a <? 0 then Z.max (n + a) 0 else Z.min a n in
  let to := if b <? 0 then Z.max (n + b) 0 else Z.min b n in
  firstn (Z.to_nat (to - from)) (skipn (Z.to_nat from) xs).

(** The loop [for (let k = 0; k < nPoints; k++)
    grid.push((k / (nPoints - 1)) * 100)] from [k] on.  [nPoints] is
    [Number($("npoints").value)], any number; [k] counts in [Z] and is
    compared as the number it is, which is exact for every length an
    array can have (below [2 ^ 32]).  [None] when the loop has not
    ended within [fuel] turns, as for [nPoints = Infinity]. *)
Fixpoint gridFrom (fuel : nat) (nPoints : float) (k : Z)
  : option (list float) :=
  if lt (Z2float k) nPoints then
    match fuel with
    | O => None
    | S fuel' =>
        match gridFrom fuel' nPoints (k + 1) with
        | None => None
        | Some rest =>
            Some (((Z2float k / (nPoints - 1)) * 100)%float :: rest)
        end
    end
  else Some [].

(** One turn of the loop of [normalizeCycles]: the cycle between the
    events [s] and [e], as its grid and its values, or no cycle when
    the events are five samples apart or less or the duration is not
    positive. *)
Definition cycleOf (fuel : nat) (t envPct : list float) (nPoints : float)
           (s e : Z) : option (list (list float * list float)) :=
  if e <=? s + 5 then Some []
  else
    let segT := sliceAt t s e in
    let segY := sliceAt envPct s e in
    let dur := (get segT (len segT - 1) - get segT 0)%float in
    if le dur 0%float then Some []
    else
      let p := map (fun tv => (((tv - get segT 0) / dur) * 100)%float) segT in
      match gridFrom fuel nPoints 0 with
      | None => None
      | Some grid => Some [(grid, interpolateToGrid p segY grid)]
      end.

(** The loop over the pairs of consecutive events, from the first. *)
Fixpoint cyclesFrom (fuel : nat) (t envPct : list float) (nPoints : float)
         (ps : list (Z * Z)) : option (list (list float * list float)) :=
  match ps with
  | [] => Some []
  | (s, e) :: rest =>
      match cycleOf fuel t envPct nPoints s e with
      | None => None
      | Some c =>
          match cyclesFrom fuel t envPct nPoints rest with
          | None => None
          | Some cs => Some (c ++ cs)
          end
      end
  end.

Definition normalizeCycles (fuel : nat) (t envPct : list float)
           (hsIdx : list Z) (nPoints : float)
  : option (list (list float * list float)) :=
  cyclesFrom fuel t envPct nPoints (pairs hsIdx).

(** The result of [applyHS]. *)
Record Applied : Type := {
  pct : list float;
  hsUsed : list Z;
  cyclesOf : list (list float * list float);
  ms : option (list float * list float)
}.

(** [applyHS]: [None] when a grid loop has not ended within [fuel]
    turns; the RangeError is that of [toPercentPeak]. *)
Definition applyHS {host : Host} (fuel : nat) (t env : list float)
           (hsIdx : list Z) (nPoints : float) : option (Outcome Applied) :=
  match toPercentPeak env with
  | Throw e => Some (Throw e)
  | Ok pct =>
      match normalizeCycles fuel t pct hsIdx nPoints with
      | None => None
      | Some cycles =>
          Some (Ok {| pct := pct; hsUsed := hsIdx; cyclesOf := cycles;
                      ms := meanStdOfCycles (map snd cycles) |})
      end
  end.

(** [buildTimeSignal]: the rows with a finite signal value, each with
    its time.  [numberAt r key] is [Number(r[key])], the conversion of
    the host. *)
Section Rows.
Context {Row Key : Type} (numberAt : Row -> Key -> float).

(** The loop over the rows, [t] and [x] growing at their ends. *)
Definition pushRow (timeKey sigKey : Key) (fs : float)
           (acc : list float * list float) (r : Row)
  : list float * list float :=
  let '(t, x) := acc in
  let tv := numberAt r timeKey in
  let xv := numberAt r sigKey in
  if negb (Number_isFinite xv) then (t, x)
  else
    let t :=
      if Number_isFinite tv then t ++ [tv]
      else
        let nv := numberAt r timeKey in
        if Number_isFinite nv then t ++ [(nv / fs)%float]
        else t ++ [(Z2float (len t) / fs)%float] in
    (t, x ++ [xv]).

Definition buildTimeSignal (rows : list Row) (timeKey sigKey : Key)
           (fs : float) : list float * list float :=
  let '(t, x) := fold_left (pushRow timeKey sigKey fs) rows ([], []) in
  let t0 := match t with v :: _ => v | [] => 0%float end in
  (map (fun v => (v - t0)%float) t, x).
End Rows.

End ManualTools.

(** ** The events of the video
    ([src/unnamed/part_002], lines 1740 to 1752 and 1856 to 1886) *)

Module VideoEvents.
Import JS Core.

(** The loop of [smoothMovingAvg]: [s] is the running sum and [q] the
    window. *)
Fixpoint smoothFrom (win s : float) (q y : list float) : list float :=
  match y with
  | [] => []
  | v :: rest =>
      let s := (s + v)%float in
      let q := q ++ [v] in
      let '(s, q) :=
        if gt (Z2float (len q)) win then
          match q with
          | old :: q' => ((s - old)%float, q')
          | [] => (NaN, q)
          end
        else (s, q) in
      (s / Z2float (len q))%float :: smoothFrom win s q rest
  end.

Definition smoothMovingAvg (y : list float) (win : float) : list float :=
  if le win 1%float then y else smoothFrom win 0%float [] y.

(** The loop that collects the events: a frame where the mask falls,
    not before the baseline, [minGapSec] or more after the last event
    kept. *)
Definition pushEvent (times : list float) (mask : list bool)
           (baselineSec minGapSec : float) (events : list float) (i : Z)
  : list float :=
  if getb mask (i - 1) && negb (getb mask i) then
    let tEvent := get times i in
    if lt tEvent baselineSec then events
    else
      match rev events with
      | [] => events ++ [tEvent]
      | last :: _ =>
          if ge (tEvent - last)%float minGapSec then events ++ [tEvent]
          else events
      end
  else events.

(** The threshold of the motion energy: the median of the baseline
    frames plus four times their spread. *)
Definition energyThreshold (times eSmooth : list float) (baselineSec : float)
  : float :=
  let n := len times in
  let base :=
    map (get eSmooth)
        (filter (fun i => le (get times i) baselineSec) (range 0 n)) in
  let base :=
    if len base <? 5 then base ++ map (get eSmooth) (range 0 (Z.min n 60))
    else base in
  let medE := median base in
  let mE := mad base in
  let mE :=
    if negb (Number_isFinite mE) || lt mE 1e-9%float then
      ((percentile base 75 - percentile base 25) / 1.349)%float
    else mE in
  (medE + 4.0 * mE)%float.

(** The window of the smoothing, about 0.15 s of frames:
    [dt = (times[n-1] - times[0]) / max(1, n - 1)] and
    [win = max(1, round(0.15 / max(1e-3, dt)))]. *)
Definition smoothingWindow (times : list float) : float :=
  let n := len times in
  let dt :=
    ((get times (n - 1) - get times 0) / Z2float (Z.max 1 (n - 1)))%float in
  Math_max2 1 (Math_round (0.15 / Math_max2 1e-3 dt)%float).

(** What [extractVideoEvents] makes of the frames it has captured, their
    times and motion energies: the smoothing, the threshold, and the
    events.  Fewer than ten frames are
    [throw new Error("動画フレームが十分取得できませんでした。")]. *)
Definition eventsOfFrames (times energy : list float)
           (baselineSec minGapMs : float) : Outcome (list float) :=
  let n := len times in
  if n <? 10 then Throw InsufficientDataError
  else
    let eSmooth := smoothMovingAvg energy (smoothingWindow times) in
    let thr := energyThreshold times eSmooth baselineSec in
    let mask := map (fun i => gt (get eSmooth i) thr) (range 0 n) in
    let minGapSec := (minGapMs / 1000)%float in
    Ok (fold_left (pushEvent times mask baselineSec minGapSec)
                  (range 1 (len mask)) []).

End VideoEvents.

(** ** The envelope of the revision with manual events
    ([src/emg/app.js], lines 1072 to 1139) *)

Module ManualEnvelope.
Import JS Core.

(** The default [Q = 0.7071] of [biquadHPF] and [biquadLPF]. *)
Definition defaultQ : float := 0.7071%float.

(** A number taken as a condition: false for [0], [-0] and NaN. *)
Definition truthy (x : float) : bool := negb (is_nan x || is_zero x).

Section Filters.
Context {host : Host}.

Definition biquadHPF (fc fs Q : float) : Coeffs :=
  let w0 := (2 * Math_PI * (fc / fs))%float in
  let cos := Math_cos w0 in
  let sin := Math_sin w0 in
  let alpha := (sin / (2 * Q))%float in
  let b0' := ((1 + cos) / 2)%float in
  let b1' := (- (1 + cos))%float in
  let b2' := ((1 + cos) / 2)%float in
  let a0 := (1 + alpha)%float in
  let a1' := (- 2 * cos)%float in
  let a2' := (1 - alpha)%float in
  {| b0 := b0' / a0; b1 := b1' / a0; b2 := b2' / a0;
     a1 := a1' / a0; a2 := a2' / a0 |}.

Definition biquadLPF (fc fs Q : float) : Coeffs :=
  let w0 := (2 * Math_PI * (fc / fs))%float in
  let cos := Math_cos w0 in
  let sin := Math_sin w0 in
  let alpha := (sin / (2 * Q))%float in
  let b0' := ((1 - cos) / 2)%float in
  let b1' := (1 - cos)%float in
  let b2' := ((1 - cos) / 2)%float in
  let a0 := (1 + alpha)%float in
  let a1' := (- 2 * cos)%float in
  let a2' := (1 - alpha)%float in
  {| b0 := b0' / a0; b1 := b1' / a0; b2 := b2' / a0;
     a1 := a1' / a0; a2 := a2' / a0 |}.

(** [applyBiquad]: direct form I with zero initial state, the loop of
    [biquadFilter]. *)
Definition applyBiquad (x : list float) (c : Coeffs) : list float :=
  biquadFrom c 0%float 0%float 0%float 0%float x.

Definition filtfiltBiquad (x : list float) (c : Coeffs) : list float :=
  let fwd := applyBiquad x c in
  rev (applyBiquad (rev fwd) c).

(** The loop of [bandpassRectifyRms]: [sumsq] is the running sum of the
    squares and [q] the window, of at most [w] samples. *)
Fixpoint rmsFrom (w sumsq : float) (q y : list float) : list float :=
  match y with
  | [] => []
  | v :: rest =>
      let sumsq := (sumsq + v * v)%float in
      let q := q ++ [v] in
      let '(sumsq, q) :=
        if gt (Z2float (len q)) w then
          match q with
          | old :: q' => ((sumsq - old * old)%float, q')
          | [] => (NaN, q)
          end
        else (sumsq, q) in
      Math_sqrt (sumsq / Z2float (len q))%float :: rmsFrom w sumsq q rest
  end.

Definition bandpassRectifyRms (x : list float) (fs hp lp rmsMs : float)
  : list float :=
  let y := x in
  let y :=
    if truthy hp && gt hp 0%float
    then filtfiltBiquad y (biquadHPF hp fs defaultQ) else y in
  let y :=
    if truthy lp && gt lp 0%float
    then filtfiltBiquad y (biquadLPF lp fs defaultQ) else y in
  let y := map Math_abs y in
  let w := Math_max2 1 (Math_round ((rmsMs / 1000) * fs)%float) in
  rmsFrom w 0%float [] y.
End Filters.

End ManualEnvelope.

(** ** The text of a file of the robust revision
    ([src/unnamed/part_002], lines 418 to 435) *)

Module CsvText.
Import JS.

(** A string as its UTF-16 code units. *)
Definition Text : Type := list Z.

Definition BOM : Z := 0xFEFF.
Definition CR : Z := 13.
Definition LF : Z := 10.
Definition comma : Z := 44.
Definition semicolon : Z := 59.
Definition tab : Z := 9.

(** [s.replace(/^\uFEFF/, empty)]: a byte order mark at the start is
    removed. *)
Definition dropBOM (s : Text) : Text :=
  match s with
  | c :: rest => if c =? BOM then rest else s
  | [] => s
  end.

(** [s.replace(/\r\n/g, LF)]: every carriage return with a line feed
    after it becomes a line feed, from left to right. *)
Fixpoint replaceCRLF (s : Text) : Text :=
  match s with
  | [] => []
  | c :: rest =>
      match rest with
      | d :: rest' =>
          if (c =? CR) && (d =? LF) then LF :: replaceCRLF rest'
          else c :: replaceCRLF rest
      | [] => [c]
      end
  end.

(** [s.replace(/\r/g, LF)]. *)
Definition replaceCR (s : Text) : Text :=
  map (fun c => if c =? CR then LF else c) s.

(** [normalizeCSVText(s)]; the empty string for a missing one. *)
Definition normalizeCSVText (s : option Text) : Text :=
  match s with
  | None | Some [] => []
  | Some s => replaceCR (replaceCRLF (dropBOM s))
  end.

(** [(line.match(/c/g) || []).length]. *)
Definition count (c : Z) (line : Text) : Z :=
  len (filter (fun d => d =? c) line).

Definition detectDelimiter (line : Text) : Z :=
  let cComma := count comma line in
  let cSemi := count semicolon line in
  let cTab := count tab line in
  if (cComma <? cTab) && (cSemi <? cTab) then tab
  else if cComma <? cSemi then semicolon
  else comma.

End CsvText.

(** ** Properties of event lists *)

Module EventLists.
Import JS.

(** Consecutive events are in ascending order and at least [g] apart. *)
Inductive Spaced (g : Z) : list Z -> Prop :=
| Spaced_nil : Spaced g []
| Spaced_one a : Spaced g [a]
| Spaced_cons a b l :
    a <= b -> a + g <= b -> Spaced g (b :: l) -> Spaced g (a :: b :: l).

(** [l'] is [l] with some elements left out. *)
Inductive Subseq {A : Type} : list A -> list A -> Prop :=
| Subseq_nil : Subseq [] []
| Subseq_skip x l' l : Subseq l' l -> Subseq l' (x :: l)
| Subseq_keep x l' l : Subseq l' l -> Subseq (x :: l') (x :: l).

(** [hs[i]] for an array of events. *)
Definition at_ (hs : list Z) (i : Z) : Z := nth (Z.to_nat i) hs 0.

(** What [applyOffsetAndMerge] can return: nothing, the array
    [[undefined]], or one event or more, each a shifted raw event inside
    [0, nMax), in ascending order and at least [minGap] apart. *)
Inductive Merged (hsRaw : list Z) (offset minGap nMax : Z)
  : list (option Z) -> Prop :=
| Merged_none : Merged hsRaw offset minGap nMax []
| Merged_undefined : Merged hsRaw offset minGap nMax [None]
| Merged_events l :
    l <> [] ->
    Spaced minGap l ->
    Spaced 0 l ->
    Forall (fun i => 0 <= i < nMax) l ->
    Forall (fun i => exists v, In v hsRaw /\ i = v + offset) l ->
    Merged hsRaw offset minGap nMax (map Some l).

(** The events of a result: two or more, inside the envelope of [n]
    samples, ascending and at least [g] samples apart. *)
Definition Good (n g : Z) (hs : list Z) : Prop :=
  2 <= len hs /\ Spaced g hs /\ Spaced 0 hs
  /\ Forall (fun i => 0 <= i < n) hs.

(** Consecutive events, by position: ascending, and at least [g] samples
    apart. *)
Definition Gapped (g : Z) (hs : list Z) : Prop :=
  forall i, 0 <= i -> i + 1 < len hs ->
            at_ hs i <= at_ hs (i + 1) /\ g <= at_ hs (i + 1) - at_ hs i.

(** The strict form: [hs[i] < hs[i+1] - g] at every position. *)
Definition StrictlyGapped (g : Z) (hs : list Z) : Prop :=
  forall i, 0 <= i -> i + 1 < len hs -> at_ hs i < at_ hs (i + 1) - g.

(** Every index of [hs] is a position of an array of [n] samples. *)
Definition InBounds (n : Z) (hs : list Z) : Prop :=
  Forall (fun i => 0 <= i < n) hs.

End EventLists.

Create HintDb events.
#[global] Hint Constructors EventLists.Spaced EventLists.Subseq : events.

(** ** Statistics in the words of the specification *)

Module Stats.
Import JS.

(** The finite contributing values at grid point [j]. *)
Definition contributions (cycles : list (list float)) (j : Z) : list float :=
  filter Number_isFinite (map (fun c => get c j) cycles).

(** The mean of [vs]; undefined (NaN) for no value. *)
Definition meanOf (vs : list float) : float :=
  if 0 <? len vs then (sum vs / Z2float (len vs))%float else NaN.

(** The sum of the squared deviations of [vs] from [mu]. *)
Definition squares (mu : float) (vs : list float) : float :=
  fold_left (fun a v => (a + (v - mu) * (v - mu))%float) vs 0%float.

(** The population standard deviation (divisor [n]); undefined (NaN) for
    fewer than two values. *)
Definition populationSD (vs : list float) : float :=
  if 1 <? len vs then
    Math_sqrt (squares (meanOf vs) vs / Z2float (len vs))%float
  else NaN.

(** The sample standard deviation (divisor [n - 1]); undefined (NaN) for
    fewer than two values. *)
Definition sampleSD (vs : list float) : float :=
  if 1 <? len vs then
    Math_sqrt (squares (meanOf vs) vs / Z2float (len vs - 1))%float
  else NaN.

End Stats.

(** ** What a detector may answer *)

Module DetectorProps.
Import JS Core.

(** A result carries two events or more; a failure is a detection
    failure. *)
Definition TwoOrFailure (out : Outcome Detection) : Prop :=
  match out with
  | Ok r => 2 <= len (det_hs r)
  | Throw e => e = DetectionFailure
  end.



(** What the sweep of the revision with manual events holds: events in
    ascending order, [minGap] apart or more, inside the envelope, with a
    multiplier [k] of the sweep and its threshold. *)
Definition Built (env : list float) (fs : float) (o : Manual.Opts)
           (median md : float) (r : Detection) : Prop :=
  EventLists.Spaced (Manual.minGapOf fs o) (det_hs r)
  /\ EventLists.InBounds (len env) (det_hs r)
  /\ exists k, In k Manual.ks /\ det_k r = KNum k
               /\ det_thr r = Manual.threshold median md k.

End DetectorProps.

(** ** The turns of the shift search *)

Module ShiftSearch.
Import JS.

(** Whether the loop [for (s = from; s <= bound; s += stepSec)] ends
    within [fuel] turns.  It depends on the three numbers only. *)
Fixpoint endsWithin (fuel : nat) (s bound stepSec : float) : bool :=
  if le s bound then
    match fuel with
    | O => false
    | S fuel' => endsWithin fuel' (s + stepSec)%float bound stepSec
    end
  else true.

(** The search of [bestShiftMatch] over [-rangeSec .. rangeSec] in steps
    of 10 ms ends within [fuel] turns. *)
Definition searchEnds (fuel : nat) (rangeSec : float) : bool :=
  endsWithin fuel (- rangeSec)%float (rangeSec + 1e-9)%float 0.01%float.

End ShiftSearch.

(** ** Bursts and peaks *)

Module BurstProps.
Import JS.

(** A maximal run of [true] in [mask]: the samples [s, ..., e-1] are
    set, the sample before [s] and the sample at [e] are not (outside
    the array no sample is set). *)
Definition Run (mask : list bool) (s e : Z) : Prop :=
  0 <= s < e /\ e <= len mask
  /\ (forall i, s <= i < e -> getb mask i = true)
  /\ getb mask (s - 1) = false /\ getb mask e = false.

(** Consecutive segments in ascending order, each ending before the
    next begins. *)
Inductive Apart : list (Z * Z) -> Prop :=
| Apart_nil : Apart []
| Apart_one p : Apart [p]
| Apart_cons s e s' e' l :
    e < s' -> Apart ((s', e') :: l) -> Apart ((s, e) :: (s', e') :: l).

(** The tests of the two loops of [risingEdges]. *)
Definition startAt (mask : list bool) (i : Z) : bool :=
  negb (getb mask (i - 1)) && getb mask i.
Definition endAt (mask : list bool) (i : Z) : bool :=
  getb mask (i - 1) && negb (getb mask i).

(** The starts and the ends the loops collect from position [a] on,
    paired; [pending] is the start of the run that position [a - 1]
    belongs to. *)
Definition edgesFrom (mask : list bool) (pending : option Z) (a : Z)
  : list (Z * Z) :=
  let starts := filter (startAt mask) (range a (len mask)) in
  let ends := filter (endAt mask) (range a (len mask + 1)) in
  combine (match pending with Some s => s :: starts | None => starts end) ends.

Definition Pending (mask : list bool) (pending : option Z) (a : Z) : Prop :=
  match pending with
  | None => getb mask (a - 1) = false
  | Some s => 0 <= s < a /\ getb mask (s - 1) = false
              /\ forall i, s <= i < a -> getb mask i = true
  end.

Definition From (pending : option Z) (a s : Z) : Prop :=
  a <= s \/ pending = Some s.

(** Every two of the indices are [d] apart or more. *)
Fixpoint Far (d : Z) (l : list Z) : Prop :=
  match l with
  | [] => True
  | x :: rest => (forall c, In c rest -> d <= Z.abs (x - c)) /\ Far d rest
  end.

End BurstProps.

(** ** The shifts the search tries *)

Module SearchProps.
Import JS.

(** The shifts [s] of the loop
    [for (s = from; s <= bound; s += stepSec)], in the order tried. *)
Fixpoint shiftsTried (fuel : nat) (s bound stepSec : float) : list float :=
  if le s bound then
    match fuel with
    | O => []
    | S fuel' => s :: shiftsTried fuel' (s + stepSec)%float bound stepSec
    end
  else [].

End SearchProps.

(** ** The shape of a result *)

Module ResultProps.
Import JS Core.

(** A result for a signal of [n] samples cut into cycles of [m] points:
    the two envelopes have the length of the signal, the grid and every
    cycle have [m] points, there is at most one cycle per pair of
    consecutive events, and the mean and the deviation have [m] points
    as soon as there is a cycle and none otherwise. *)
Definition Shaped (n m : Z) (res : Result) : Prop :=
  len (envRaw res) = n /\ len (envPct res) = n
  /\ len (grid res) = m
  /\ Forall (fun c => len c = m) (cycles res)
  /\ len (cycles res) <= len (hs res) - 1
  /\ (cycles res = [] -> mean res = [] /\ sd res = [])
  /\ (cycles res <> [] -> len (mean res) = m /\ len (sd res) = m).

(** Every pair of consecutive events gave a cycle. *)
Definition FullyCut (res : Result) : Prop :=
  len (cycles res) = len (hs res) - 1 /\ cycles res <> [].

End ResultProps.

(** ** Where the events of a detection come from *)

Module OriginProps.
Import JS Core Events BurstProps.

(** [h] is the start of a burst, moved by the offset: of a maximal run
    of [minBurst] or more samples above [thr]. *)
Definition BurstOnset (env : list float) (thr : float) (minBurst offset : Z)
           (h : Z) : Prop :=
  exists s e, Run (map (fun v => gt v thr) env) s e
              /\ minBurst <= e - s /\ h = s + offset.

(** [p] is a local maximum of the envelope above [thr]. *)
Definition PeakAbove (env : list float) (thr : float) (p : Z) : Prop :=
  1 <= p < len env - 1
  /\ gt (get env p) (get env (p - 1)) = true
  /\ ge (get env p) (get env (p + 1)) = true
  /\ gt (get env p) thr = true.

(** What the events of a result are, by the tag of the result: burst
    onsets of the threshold of the result for a multiplier of the sweep;
    for the peak fallback the onsets refined from peaks above the
    threshold; for the direct peaks the peaks themselves; each moved by
    the offset. *)
Definition Origin (env : list float) (minBurst offset : Z) (thrOff : float)
           (r : Detection) : Prop :=
  match det_k r with
  | KNum _ =>
      Forall (BurstOnset env (det_thr r) minBurst offset) (det_hs r)
  | KPeakFallback =>
      Forall (fun h => exists p, PeakAbove env (det_thr r) p
                                 /\ h = refineToOnset env p thrOff + offset)
             (det_hs r)
  | KPeakDirect =>
      Forall (fun h => exists p, PeakAbove env (det_thr r) p /\ h = p + offset)
             (det_hs r)
  | KTARef => False
  end.

End OriginProps.

(** ** The groups of the revision with manual events *)

Module GroupProps.
Import JS Core.

(** A maximal run of samples at or above [thr], as its first and its
    last position. *)
Definition RunAtOrAbove (env : list float) (thr : float) (s e : Z) : Prop :=
  0 <= s <= e /\ e < len env
  /\ (forall i, s <= i <= e -> ge (get env i) thr = true)
  /\ ge (get env (s - 1)) thr = false
  /\ ge (get env (e + 1)) thr = false.

(** [h] is the start of a group of [minLen] samples or more, moved by
    the offset. *)
Definition GroupOnset (env : list float) (thr : float) (minLen offset : Z)
           (h : Z) : Prop :=
  exists s e, RunAtOrAbove env thr s e
              /\ minLen <= e - s + 1 /\ h = s + offset.

End GroupProps.

(** ** The events of the peak-based revision *)

Module SlopeProps.
Import JS Core BurstProps.

(** [p] is a sample of the burst [s..e] that no sample of the burst is
    above. *)
Definition BurstPeak (env : list float) (s e p : Z) : Prop :=
  s <= p <= e /\ forall i, s <= i <= e -> gt (get env i) (get env p) = false.

(** The rise of the envelope into sample [i]. *)
Definition slopeAt (env : list float) (i : Z) : float :=
  (get env i - get env (i - 1))%float.

(** [r] is a sample of the window [w0..w1] than which no sample of the
    window rises more steeply; the start [w0] when the window is
    empty. *)
Definition Steepest (env : list float) (w0 w1 r : Z) : Prop :=
  w0 <= r <= Z.max w0 w1
  /\ forall i, w0 <= i <= w1 -> gt (slopeAt env i) (slopeAt env r) = false.

(** [h] is the sample of steepest rise around the peak of a burst of
    [minBurst] samples or more, moved by the offset. *)
Definition SlopeOnset (env : list float) (thr : float)
           (minBurst back fwd offset : Z) (h : Z) : Prop :=
  exists s e p r,
    Run (map (fun v => gt v thr) env) s (e + 1)
    /\ minBurst <= e - s + 1
    /\ BurstPeak env s e p
    /\ Steepest env (Z.max (s + 1) (p - back)) (Z.min (e - 1) (p + fwd)) r
    /\ h = r + offset.

End SlopeProps.

(** ** Loops that keep the best position *)

Module BestProps.
Import JS.

(** One turn of a loop [if (f(i) > best) { best = f(i); at = i; }]: the
    loop of the peak of a burst and of the steepest rise. *)
Definition bestStep (f : Z -> float) (acc : Z * float) (i : Z) : Z * float :=
  let '(p, pv) := acc in if gt (f i) pv then (i, f i) else (p, pv).

End BestProps.

(** ** Zeros *)

Module ZeroProps.

(** [x] is [0] or [-0]. *)
Definition IsZero (x : float) : Prop := exists s, Prim2SF x = S754_zero s.

End ZeroProps.

(** ** The rows of a table *)

Module RowProps.
Import JS.

Section Rows.
Context {Row Key : Type} (numberAt : Row -> Key -> float).

(** The rows [buildTimeSignal] keeps: those with a finite signal
    value. *)
Definition keptRows (sigKey : Key) (rows : list Row) : list Row :=
  filter (fun r => Number_isFinite (numberAt r sigKey)) rows.

(** The time of the [k]-th row kept: its time value when that is a
    finite number, and otherwise its position over the sampling rate. *)
Definition timeOf (timeKey : Key) (fs : float) (rk : Row * Z) : float :=
  let tv := numberAt (fst rk) timeKey in
  if Number_isFinite tv then tv else (Z2float (snd rk) / fs)%float.

End Rows.

End RowProps.

(** ** The events of the video *)

Module FrameProps.
Import JS.

(** Consecutive times pass the test [t' - t >= gap] of the source. *)
Inductive GapsKept (gap : float) : list float -> Prop :=
| GapsKept_nil : GapsKept gap []
| GapsKept_one a : GapsKept gap [a]
| GapsKept_snoc l a b :
    GapsKept gap (l ++ [a]) -> ge (b - a)%float gap = true ->
    GapsKept gap (l ++ [a; b]).

(** [e] is the time of a frame at which the smoothed energy is no
    longer above the threshold while it was at the frame before, and
    that is not before the baseline. *)
Definition FallAt (times eSmooth : list float) (thr baselineSec : float)
           (e : float) : Prop :=
  exists i, 1 <= i < len times /\ e = get times i
            /\ gt (get eSmooth (i - 1)) thr = true
            /\ gt (get eSmooth i) thr = false
            /\ lt e baselineSec = false.

End FrameProps.

(** ** Envelopes *)

Module EnvelopeProps.
Import JS.

(** A value of an envelope that is not negative: NaN, or at least 0. *)
Definition NotNegative (v : float) : Prop :=
  is_nan v = true \/ ge v 0%float = true.

End EnvelopeProps.

(** ** What the reconciler is given and what the decimation returns *)

Module ReconcilerProps.
Import JS Core Events.

(** Times in the order [sort] leaves alone: no number is put after its
    successor by the comparator [(a, b) => a - b]. *)
Inductive Ascending : list float -> Prop :=
| Ascending_nil : Ascending []
| Ascending_one a : Ascending [a]
| Ascending_cons a b l :
    afterF a b = false -> Ascending (b :: l) -> Ascending (a :: b :: l).

(** [looksDouble] of [chooseEveryOtherIfDouble]: the median interval is
    below half a second, or there are at least 1.6 times the expected
    number of events. *)
Definition looksDouble (hs : list Z) (fs : float) (expected : option Z) : bool :=
  lt (Core.median (intervals hs fs)) 0.50%float
  || match expected with
     | Some n => ge (Z2float (len hs)) (Z2float n * 1.6)%float
     | None => false
     end.

(** What the decimation makes of the events [hs]: they stay when they
    are fewer than six or do not look doubled; otherwise every other
    event stays, those at the even positions unless those at the odd
    positions score strictly lower. *)
Definition Decimated (score : list Z -> float) (hs : list Z) (fs : float)
           (expected : option Z) (r : list Z) : Prop :=
  (len hs < 6 -> r = hs)
  /\ (looksDouble hs fs expected = false -> r = hs)
  /\ (6 <= len hs -> looksDouble hs fs expected = true ->
      (le (score (everyNth 2 0 hs)) (score (everyNth 2 1 hs)) = true ->
       r = everyNth 2 0 hs)
      /\ (le (score (everyNth 2 0 hs)) (score (everyNth 2 1 hs)) = false ->
          r = everyNth 2 1 hs)).
(** The greedy matching with two pointers that the specification
    describes, at one shift: [TwoPointer shift tolSec et vt kept] says
    that walking the events [et] (each a time and its event) and the
    external times [vt] from their heads leaves the events [kept].  At
    each turn the event at the head is paired with the external time at
    the head when their distance after the shift is within the
    tolerance, and kept; failing that the event is passed over when it
    lies before the external time by more than the tolerance, and the
    external time is passed over otherwise. *)
Inductive TwoPointer (shift tolSec : float)
  : list (float * Z) -> list float -> list Z -> Prop :=
| TwoPointer_no_event vt : TwoPointer shift tolSec [] vt []
| TwoPointer_no_partner et : TwoPointer shift tolSec et [] []
| TwoPointer_pair v h et b vt kept :
    le (Math_abs ((v + shift) - b)%float) tolSec = true ->
    TwoPointer shift tolSec et vt kept ->
    TwoPointer shift tolSec ((v, h) :: et) (b :: vt) (h :: kept)
| TwoPointer_pass_event v h et b vt kept :
    le (Math_abs ((v + shift) - b)%float) tolSec = false ->
    lt ((v + shift) - b)%float (- tolSec)%float = true ->
    TwoPointer shift tolSec et (b :: vt) kept ->
    TwoPointer shift tolSec ((v, h) :: et) (b :: vt) kept
| TwoPointer_pass_partner v h et b vt kept :
    le (Math_abs ((v + shift) - b)%float) tolSec = false ->
    lt ((v + shift) - b)%float (- tolSec)%float = false ->
    TwoPointer shift tolSec ((v, h) :: et) vt kept ->
    TwoPointer shift tolSec ((v, h) :: et) (b :: vt) kept.

End ReconcilerProps.

(** ** Classes of binary64 values

    Properties of the specification-level value [Prim2SF x] of a number. *)

Module FloatClasses.

Definition Signed (b : bool) (s : spec_float) : Prop :=
  match s with
  | S754_zero c | S754_infinity c | S754_finite c _ _ => c = b
  | S754_nan => False
  end.

Definition NonNeg (s : spec_float) : Prop :=
  match s with
  | S754_zero _ => True
  | S754_infinity c | S754_finite c _ _ => c = false
  | S754_nan => False
  end.

Definition Fin (s : spec_float) : Prop :=
  match s with
  | S754_zero _ | S754_finite _ _ _ => True
  | _ => False
  end.

Definition PosFin (s : spec_float) : Prop :=
  match s with
  | S754_finite false _ _ => True
  | _ => False
  end.

Definition canonical (m : positive) (e : Z) : Prop :=
  fexp prec emax (Zpos (digits2_pos m) + e) = e.

(** [x] is NaN, or the infinity that [c] is: what a sum that holds [c]
    is when [c] is not a finite number. *)
Definition Spoilt (c x : spec_float) : Prop :=
  x = S754_nan \/ exists b, c = S754_infinity b /\ x = S754_infinity b.

End FloatClasses.

(** ** Real values of binary64 numbers

    The real number a mantissa and an exponent denote, used to compare
    the results of roundings. *)

Module Rounding.
Import Reals.
#[local] Open Scope Z_scope.

(** [2 ^ e] and [m * 2 ^ e] as real numbers. *)
Definition bpow (e : Z) : R := powerRZ 2 e.
Definition F2R (m e : Z) : R := (IZR m * bpow e)%R.

(** The record [mrs] at exponent [e] locates the value [x]: its mantissa
    is below [x], and the two sticky bits are clear when it is [x]. *)
Definition Located (mrs : shr_record) (e : Z) (x : R) : Prop :=
  0 <= shr_m mrs /\ (F2R (shr_m mrs) e <= x)%R
  /\ (x = F2R (shr_m mrs) e -> shr_r mrs = false /\ shr_s mrs = false).

(** What is at most [B]: zero, or a positive number of value at most [B]. *)
Definition AtMost (B : R) (s : spec_float) : Prop :=
  match s with
  | S754_zero _ => True
  | S754_finite sg m e => sg = false /\ (F2R (Zpos m) e <= B)%R
  | _ => False
  end.

(** The mantissas of the numbers [1] and [100]. *)
Definition one_m : positive := 4503599627370496.
Definition hundred_m : positive := 7036874417766400.

(** The magnitude and the value of a finite number; [0] for the others. *)
Definition Mag (s : spec_float) : R :=
  match s with S754_finite _ m e => F2R (Zpos m) e | _ => 0%R end.
Definition SF2R (s : spec_float) : R :=
  match s with
  | S754_finite sg m e => F2R (cond_Zopp sg (Zpos m)) e
  | _ => 0%R
  end.

(** What a number that is at most [T] may be the bound of: any number
    but [Infinity] and the positive numbers above [T]. *)
Definition Below (T : R) (b : spec_float) : Prop :=
  match b with
  | S754_finite false m e => (F2R (Zpos m) e <= T)%R
  | S754_infinity false => False
  | _ => True
  end.

End Rounding.

(** ** Recordings used as examples *)

Module Examples.
Import JS Core Events.

(** A quiet envelope with three bursts five samples apart, at 10 Hz. *)
Definition env1 : list float :=
  [0.1; 0.2; 0.1; 0.2; 5; 5; 0.1; 0.2; 0.1; 5; 5; 0.2; 0.1; 0.2; 5; 5;
   0.1; 0.2; 0.1; 0.2]%float.

(** The options of the page: bursts of 30 ms, 500 ms between events. *)
Definition o1 : Opts :=
  {| expectedCount := None; minBurstMs := 30; minGapMs := 500;
     offsetMs := 0; plausibleStep := (0.35, 1.6)%float |}.

Definition po1 : PeakBased.Opts :=
  {| PeakBased.expectedCount := None; PeakBased.minBurstMs := 30;
     PeakBased.minGapMs := 500; PeakBased.offsetMs := 0;
     PeakBased.plausibleStep := (0.35, 1.6)%float;
     PeakBased.enableEveryOtherFix := true;
     PeakBased.peakBackMs := 100; PeakBased.peakForwardMs := 100 |}.


(** A flat envelope with one plateau, and no minimum gap. *)
Definition env0 : list float :=
  (repeat 0 20 ++ [5; 6; 5; 6; 5] ++ repeat 0 5)%float.

Definition o0 : Opts :=
  {| expectedCount := None; minBurstMs := 30; minGapMs := 0;
     offsetMs := 0; plausibleStep := (0.35, 1.6)%float |}.

(** Two cycles of three grid points with missing values. *)
Definition cycles2 : list (list float) :=
  [[1; nan; 3]; [3; nan; nan]]%float.

(** An envelope whose last event carries the largest value. *)
Definition envRise : list float := [1; 2; 5]%float.
Definition hsRise : list Z := [0; 2].

(** An envelope with its largest value between the events. *)
Definition envPeak : list float := [1; 4; 2; 3]%float.
Definition hsPeak : list Z := [0; 3].

(** A recording of which one sample in four was read. *)
Definition xMissing : list float := [1; nan; nan; nan]%float.

(** A raw signal with three bursts, at 10 Hz. *)
Definition x1 : list float :=
  [0.1; -0.2; 0.1; -0.2; 5; -5; 0.1; -0.2; 0.1; 5; -5; 0.2; -0.1; 0.2;
   5; -5; 0.1; -0.2; 0.1; -0.2]%float.

(** No filter, a window of 100 ms, the options of [o1]. *)
Definition p0 : Robust.Params :=
  {| Robust.hp := 0; Robust.lp := 0; Robust.rmsMs := 100;
     Robust.p_minBurstMs := 30; Robust.p_minGapMs := 500;
     Robust.p_offsetMs := 0; Robust.nPoints := 5 |}.

Definition pp0 : PeakBased.Params :=
  {| PeakBased.hp := 0; PeakBased.lp := 0; PeakBased.rmsMs := 100;
     PeakBased.p_minBurstMs := 30; PeakBased.p_minGapMs := 500;
     PeakBased.p_offsetMs := 0;
     PeakBased.p_plausibleStep := (0.35, 1.6)%float;
     PeakBased.p_enableEveryOtherFix := true;
     PeakBased.p_peakBackMs := 100; PeakBased.p_peakForwardMs := 100;
     PeakBased.nPoints := 5 |}.

Definition vp0 : VideoAssist.Params :=
  {| VideoAssist.hp := 0; VideoAssist.lp := 0; VideoAssist.rmsMs := 100;
     VideoAssist.p_minBurstMs := 30; VideoAssist.p_minGapMs := 500;
     VideoAssist.p_offsetMs := 0; VideoAssist.nPoints := 5 |}.

(** A host for the runs without filter, which call neither function;
    it accepts 65535 arguments. *)
Definition noTrig : Host :=
  {| Math_cos := fun x => x; Math_sin := fun x => x;
     maxArguments := 65535 |}.

(** Five events a second apart on a time axis of 10 Hz, and the events
    of a video that lag by 0.2 s. *)
Definition tSec : list float :=
  map (fun i => (Z2float i / 10)%float) (range 0 60).
Definition hsEmg : list Z := [10; 20; 30; 40; 50].
Definition videoEvents : list float := [1.2; 2.2; 3.2; 4.2; 5.2]%float.

End Examples.

(** ** Further examples *)

Module MoreExamples.
Import JS Core Events.

(** Options of the revision with manual events for a recording at
    10 Hz: a baseline of 0.3 s, 300 ms between events. *)
Definition mo1 : Manual.Opts :=
  {| Manual.expectedCount := None; Manual.countTol := 2;
     Manual.baselineSec := 0.3; Manual.minBurstMs := 30;
     Manual.minGapMs := 300; Manual.offsetMs := 0;
     Manual.plausibleStep := (0.3, 2.5)%float;
     Manual.targetStepS := 0.5; Manual.minStrideS := 0.3 |}.

End MoreExamples.

(** * Facts about event lists *)

Module EventListFacts.
Import JS EventLists.

Lemma Subseq_refl {A} (l : list A) : Subseq l l.
Proof. induction l; auto with events. Qed.

Lemma Subseq_nil_l {A} (l : list A) : Subseq [] l.
Proof. induction l; auto with events. Qed.

Lemma Subseq_trans {A} (l1 l2 l3 : list A) :
  Subseq l1 l2 -> Subseq l2 l3 -> Subseq l1 l3.
Proof.
  intros H12 H23. revert l1 H12.
  induction H23; intros l1 H12.
  - exact H12.
  - apply Subseq_skip. auto.
  - inversion H12; subst; auto with events.
Qed.

Lemma Subseq_In {A} (l' l : list A) x : Subseq l' l -> In x l' -> In x l.
Proof.
  induction 1; simpl; intros Hin; auto.
  destruct Hin; auto.
Qed.

Lemma Subseq_filter {A} (f : A -> bool) l : Subseq (filter f l) l.
Proof.
  induction l as [|x l IH]; simpl; [constructor|].
  destruct (f x); auto with events.
Qed.

Lemma Subseq_length {A} (l' l : list A) :
  Subseq l' l -> (length l' <= length l)%nat.
Proof. induction 1; simpl; lia. Qed.

Lemma Subseq_everyNth_from {A} m off i (l : list A) :
  Subseq (everyNth_from m off i l) l.
Proof.
  revert i. induction l as [|x l IH]; intros i; simpl; [constructor|].
  destruct (i mod m =? off); auto with events.
Qed.

Lemma Subseq_everyNth {A} m off (l : list A) : Subseq (everyNth m off l) l.
Proof. apply Subseq_everyNth_from. Qed.

Lemma Subseq_map {A B} (f : A -> B) l' l :
  Subseq l' l -> Subseq (map f l') (map f l).
Proof. induction 1; simpl; auto with events. Qed.

Lemma Subseq_Forall {A} (P : A -> Prop) l' l :
  Subseq l' l -> Forall P l -> Forall P l'.
Proof.
  intros Hs Hall. rewrite Forall_forall in *.
  intros x Hx. apply Hall. eapply Subseq_In; eauto.
Qed.

(** The first event bounds every later one. *)
Lemma Spaced_head g a l x :
  Spaced g (a :: l) -> In x l -> a <= x /\ a + g <= x.
Proof.
  revert a. induction l as [|b l IH]; intros a Hs Hin; [destruct Hin|].
  inversion Hs; subst.
  destruct Hin as [->|Hin]; [lia|].
  destruct (IH b H4 Hin). lia.
Qed.

Lemma Spaced_tail g a l : Spaced g (a :: l) -> Spaced g l.
Proof. inversion 1; subst; auto with events. Qed.

Lemma Spaced_intro g a l :
  (forall x, In x l -> a <= x /\ a + g <= x) -> Spaced g l ->
  Spaced g (a :: l).
Proof.
  intros Hb Hs. destruct l as [|b l]; [constructor|].
  destruct (Hb b (or_introl eq_refl)). constructor; auto.
Qed.

Lemma Spaced_Subseq g l' l : Subseq l' l -> Spaced g l -> Spaced g l'.
Proof.
  induction 1 as [|x l' l Hsub IH|x l' l Hsub IH]; intros Hs.
  - constructor.
  - apply IH. eapply Spaced_tail; eauto.
  - apply Spaced_intro.
    + intros y Hy. eapply Spaced_head; eauto. eapply Subseq_In; eauto.
    + apply IH. eapply Spaced_tail; eauto.
Qed.

(** Shifting every event by the same offset keeps the spacing. *)
Lemma Spaced_shift g d l : Spaced g l -> Spaced g (map (fun v => v + d) l).
Proof. induction 1; simpl; constructor; auto; lia. Qed.

(** The spacing read position by position. *)
Lemma Spaced_nth g l i :
  Spaced g l -> (S i < length l)%nat ->
  nth i l 0 + g <= nth (S i) l 0 /\ nth i l 0 <= nth (S i) l 0.
Proof.
  intros Hs. revert i. induction Hs; intros i Hi; simpl in Hi; try lia.
  destruct i as [|i]; [simpl; lia|].
  apply (IHHs i). simpl. lia.
Qed.

(** Events a positive gap apart are strictly ascending, hence distinct. *)
Lemma Spaced_lt g l i j :
  1 <= g -> Spaced g l -> (i < j < length l)%nat -> nth i l 0 < nth j l 0.
Proof.
  intros Hg Hs. revert i j. induction l as [|a l IH]; intros i j Hij.
  - simpl in Hij. lia.
  - destruct j as [|j]; [lia|]. simpl in Hij.
    destruct i as [|i].
    + assert (Hin : In (nth j l 0) l) by (apply nth_In; lia).
      destruct (Spaced_head _ _ _ _ Hs Hin). simpl. lia.
    + simpl. apply IH; [eapply Spaced_tail; eauto | lia].
Qed.

Lemma Spaced_NoDup g l : 1 <= g -> Spaced g l -> NoDup l.
Proof.
  intros Hg. induction l as [|a l IH]; intros Hs; constructor.
  - intros Hin. destruct (Spaced_head _ _ _ _ Hs Hin). lia.
  - apply IH. eapply Spaced_tail; eauto.
Qed.

(** *** Sorting integers *)

Lemma insert_In {A} (after : A -> A -> bool) x y l :
  In y (insert after x l) <-> y = x \/ In y l.
Proof.
  induction l as [|z l IH]; simpl; [intuition|].
  destruct (after x z); simpl; rewrite ?IH; intuition.
Qed.

Lemma sort_In {A} (after : A -> A -> bool) y l :
  In y (sort after l) <-> In y l.
Proof.
  induction l as [|x l IH]; simpl; [tauto|].
  rewrite insert_In, IH. intuition.
Qed.

Lemma insert_length {A} (after : A -> A -> bool) x l :
  length (insert after x l) = S (length l).
Proof.
  induction l as [|z l IH]; simpl; auto.
  destruct (after x z); simpl; auto.
Qed.

Lemma sort_length {A} (after : A -> A -> bool) l :
  length (sort after l) = length l.
Proof.
  induction l as [|x l IH]; simpl; auto.
  rewrite insert_length. auto.
Qed.

Lemma sort_Forall {A} (after : A -> A -> bool) (P : A -> Prop) l :
  Forall P l -> Forall P (sort after l).
Proof.
  rewrite !Forall_forall. intros H x Hx. apply H. apply sort_In in Hx. exact Hx.
Qed.

Lemma insertZ_Spaced x l : Spaced 0 l -> Spaced 0 (insert afterZ x l).
Proof.
  induction l as [|y l IH]; intros Hs; simpl; [constructor|].
  unfold afterZ at 1. destruct (Z.ltb_spec 0 (x - y)).
  - apply Spaced_intro.
    + intros z Hz. apply insert_In in Hz. destruct Hz as [->|Hz]; [lia|].
      eapply Spaced_head; eauto.
    + apply IH. eapply Spaced_tail; eauto.
  - constructor; auto; lia.
Qed.

Lemma sortZ_Spaced l : Spaced 0 (sort afterZ l).
Proof.
  induction l as [|x l IH]; simpl; [constructor|].
  apply insertZ_Spaced. exact IH.
Qed.

End EventListFacts.

(** * Facts about numbers *)

Module FloatFacts.
Import JS FloatClasses.

(** ** The order of numbers *)

Ltac sf_order :=
  repeat match goal with
         | s : bool |- _ => destruct s
         | |- context [Pos.compare_cont Eq ?a ?b] =>
             change (Pos.compare_cont Eq a b) with (Pos.compare a b)
         | H : context [Pos.compare_cont Eq ?a ?b] |- _ =>
             change (Pos.compare_cont Eq a b) with (Pos.compare a b) in H
         | |- context [Z.compare ?a ?b] => destruct (Z.compare_spec a b)
         | H : context [Z.compare ?a ?b] |- _ => destruct (Z.compare_spec a b)
         | |- context [Pos.compare ?a ?b] => destruct (Pos.compare_spec a b)
         | H : context [Pos.compare ?a ?b] |- _ => destruct (Pos.compare_spec a b)
         end;
  simpl in *; try discriminate; try reflexivity; try lia.

Lemma SFltb_trans a b c :
  SFltb a b = true -> SFltb b c = true -> SFltb a c = true.
Proof.
  unfold SFltb, SFcompare.
  destruct a as [sa|sa| |sa ma ea], b as [sb|sb| |sb mb eb],
           c as [sc|sc| |sc mc ec];
    intros H1 H2; sf_order.
Qed.

Lemma ltb_trans a b c :
  (a <? b)%float = true -> (b <? c)%float = true -> (a <? c)%float = true.
Proof. rewrite !FloatAxioms.ltb_spec. apply SFltb_trans. Qed.

(* leb vs ltb *)
Lemma SFleb_ltb_trans a b c :
  SFleb a b = true -> SFltb b c = true -> SFltb a c = true.
Proof.
  unfold SFleb, SFltb, SFcompare.
  destruct a as [sa|sa| |sa ma ea], b as [sb|sb| |sb mb eb],
           c as [sc|sc| |sc mc ec];
    intros H1 H2; sf_order.
Qed.
Lemma SFleb_trans a b c :
  SFleb a b = true -> SFleb b c = true -> SFleb a c = true.
Proof.
  unfold SFleb, SFltb, SFcompare.
  destruct a as [sa|sa| |sa ma ea], b as [sb|sb| |sb mb eb],
           c as [sc|sc| |sc mc ec];
    intros H1 H2; sf_order.
Qed.
(* totality on non-NaN *)
Lemma SFltb_total a b :
  a <> S754_nan -> b <> S754_nan -> SFltb a b = false -> SFleb b a = true.
Proof.
  unfold SFleb, SFltb, SFcompare.
  destruct a as [sa|sa| |sa ma ea], b as [sb|sb| |sb mb eb];
    intros Ha Hb H1; try congruence; sf_order.
Qed.


(** No number is above itself ([NaN > NaN] is false too). *)
Lemma ltb_irrefl (x : float) : (x <? x)%float = false.
Proof.
  rewrite FloatAxioms.ltb_spec. unfold SFltb, SFcompare.
  destruct (Prim2SF x) as [s|s| |s m e]; try destruct s; simpl; auto;
    rewrite Z.compare_refl, ?Pos.compare_cont_refl; try reflexivity;
    rewrite Pos.compare_refl; reflexivity.
Qed.

Lemma gt_irrefl (x : float) : gt x x = false.
Proof. apply ltb_irrefl. Qed.

(** ** Which operations give NaN *)

Lemma shr_1_nonneg mrs : 0 <= shr_m mrs -> 0 <= shr_m (shr_1 mrs).
Proof.
  destruct mrs as [m r s]. destruct m as [|[p|p|]|p]; simpl; lia.
Qed.

Lemma iter_pos_nonneg p mrs :
  0 <= shr_m mrs -> 0 <= shr_m (iter_pos shr_1 p mrs).
Proof.
  revert mrs. induction p as [p IH|p IH|]; intros mrs H; simpl.
  - apply IH, IH, shr_1_nonneg, H.
  - apply IH, IH, H.
  - apply shr_1_nonneg, H.
Qed.

Lemma shr_fexp_nonneg m e l :
  0 <= m -> 0 <= shr_m (fst (shr_fexp prec emax m e l)).
Proof.
  intros Hm. unfold shr_fexp, shr.
  assert (H0 : 0 <= shr_m (shr_record_of_loc m l))
    by (destruct l as [|[| |]]; exact Hm).
  destruct (_ - e); simpl; auto. apply iter_pos_nonneg, H0.
Qed.

Lemma round_nearest_even_nonneg m l : 0 <= m -> 0 <= round_nearest_even m l.
Proof.
  intros Hm. destruct l as [|[| |]]; simpl; try lia.
  destruct (Z.even m); lia.
Qed.

Lemma binary_round_aux_Signed sx m e l :
  0 <= m -> Signed sx (binary_round_aux prec emax sx m e l).
Proof.
  intros Hm. unfold binary_round_aux.
  pose proof (shr_fexp_nonneg m e l Hm) as H1.
  destruct (shr_fexp prec emax m e l) as [mrs' e'].
  simpl in H1.
  pose proof (shr_fexp_nonneg _ e' loc_Exact
                (round_nearest_even_nonneg _ (loc_of_shr_record mrs') H1)) as H2.
  destruct (shr_fexp prec emax _ e' loc_Exact) as [mrs'' e''].
  simpl in H2. destruct (shr_m mrs''); try lia; simpl; auto.
  destruct (e'' <=? _); simpl; auto.
Qed.

Lemma binary_round_Signed sx m e : Signed sx (binary_round prec emax sx m e).
Proof.
  unfold binary_round. destruct (shl_align _ _ _) as [mz ez].
  apply binary_round_aux_Signed. lia.
Qed.

Lemma Signed_notnan b s : Signed b s -> s <> S754_nan.
Proof. destruct s; simpl; congruence. Qed.

Lemma binary_normalize_notnan m e sz :
  binary_normalize prec emax m e sz <> S754_nan.
Proof.
  destruct m; simpl; [discriminate| |]; eapply Signed_notnan, binary_round_Signed.
Qed.

Lemma SFadd_notnan x y : x <> S754_nan -> Fin y -> SF64add x y <> S754_nan.
Proof.
  unfold SF64add, SFadd.
  destruct x as [sx|sx| |sx mx ex], y as [sy|sy| |sy my ey]; simpl;
    try tauto; try congruence; intros _ _;
    try (destruct sx, sy; discriminate).
  apply binary_normalize_notnan.
Qed.

Lemma SFsub_notnan x y : Fin x -> y <> S754_nan -> SF64sub x y <> S754_nan.
Proof.
  unfold SF64sub, SFsub.
  destruct x as [sx|sx| |sx mx ex], y as [sy|sy| |sy my ey]; simpl;
    try tauto; try congruence; intros _ _;
    try (destruct sx, sy; discriminate).
  apply binary_normalize_notnan.
Qed.

Lemma SFmul_self x : x <> S754_nan -> NonNeg (SF64mul x x).
Proof.
  unfold SF64mul, SFmul. destruct x as [sx|sx| |sx mx ex]; simpl;
    try congruence; intros _; try (destruct sx; reflexivity); auto.
  pose proof (binary_round_aux_Signed (xorb sx sx) (Zpos (mx * mx)) (ex + ex)
                loc_Exact ltac:(lia)) as H.
  rewrite xorb_nilpotent in *.
  destruct (binary_round_aux _ _ _ _ _ _); simpl in *; auto.
Qed.

Lemma Signed_false_NonNeg s : Signed false s -> NonNeg s.
Proof. destruct s; simpl; auto. Qed.

Lemma SFadd_NonNeg x y : NonNeg x -> NonNeg y -> NonNeg (SF64add x y).
Proof.
  unfold SF64add, SFadd.
  destruct x as [sx|sx| |sx mx ex], y as [sy|sy| |sy my ey]; simpl;
    try tauto; intros Hx Hy; subst; simpl; auto;
    try (destruct sx, sy; simpl; auto; fail);
    try (destruct sx; simpl; auto; fail);
    try (destruct sy; simpl; auto; fail).
  apply Signed_false_NonNeg.
  set (a := fst (shl_align mx ex (Z.min ex ey))).
  set (b := fst (shl_align my ey (Z.min ex ey))).
  change (Z.pos a + Z.pos b) with (Z.pos (a + b)). simpl.
  apply binary_round_Signed.
Qed.

Lemma div_eucl_nonneg a b : 0 <= a -> 0 < b -> 0 <= fst (Z.div_eucl a b).
Proof.
  intros Ha Hb. pose proof (Z.div_eucl_eq a b ltac:(lia)) as H.
  pose proof (Z.mod_pos_bound a b Hb) as Hm. unfold Z.modulo in Hm.
  destruct (Z.div_eucl a b) as [q r]. simpl. nia.
Qed.

Lemma SFdiv_core_nonneg mx ex my ey :
  0 <= fst (fst (SFdiv_core_binary prec emax (Zpos mx) ex (Zpos my) ey)).
Proof.
  unfold SFdiv_core_binary.
  set (s := _ - _ - _).
  set (m' := match s with Zpos _ => _ | Z0 => _ | Zneg _ => _ end).
  assert (Hm : 0 <= m').
  { subst m'. destruct s; try lia. apply Z.shiftl_nonneg. lia. }
  pose proof (div_eucl_nonneg m' (Zpos my) Hm ltac:(lia)) as Hq.
  change IntDef.Z.div_eucl with Z.div_eucl.
  destruct (Z.div_eucl m' (Zpos my)) as [q r]. exact Hq.
Qed.

Lemma SFdiv_PosFin x c :
  PosFin c ->
  (x <> S754_nan -> SF64div x c <> S754_nan)
  /\ (NonNeg x -> NonNeg (SF64div x c)).
Proof.
  unfold SF64div, SFdiv.
  destruct c as [sc|sc| |[|] mc ec]; simpl; try tauto. intros _.
  destruct x as [sx|sx| |sx mx ex]; simpl; try tauto.
  - split; [discriminate|auto].
  - split; [discriminate|]. intros ->. reflexivity.
  - pose proof (SFdiv_core_nonneg mx ex mc ec) as Hq.
    destruct (SFdiv_core_binary _ _ _ _ _ _) as [[mz ez] lz]. simpl in Hq.
    pose proof (binary_round_aux_Signed (xorb sx false) mz ez lz Hq) as H.
    split.
    + intros _. eapply Signed_notnan, H.
    + intros ->. apply Signed_false_NonNeg. exact H.
Qed.

Lemma SFsqrt_NonNeg x : NonNeg x -> SF64sqrt x <> S754_nan.
Proof.
  unfold SF64sqrt, SFsqrt. destruct x as [sx|sx| |sx mx ex]; simpl;
    try tauto; try discriminate.
  - intros ->. discriminate.
  - intros ->. unfold SFsqrt_core_binary.
    set (m' := match _ with Zpos _ => _ | Z0 => _ | Zneg _ => _ end).
    change IntDef.Z.sqrtrem with Z.sqrtrem.
    pose proof (Z.sqrtrem_sqrt m') as Hs.
    pose proof (Z.sqrt_nonneg m') as Hn.
    destruct (Z.sqrtrem m') as [q r]. simpl in Hs. subst q.
    eapply Signed_notnan, binary_round_aux_Signed. exact Hn.
Qed.

Lemma SFcompare_refl s : s <> S754_nan -> SFcompare s s = Some Eq.
Proof.
  destruct s as [b|b| |b m e]; simpl; try congruence; intros _.
  - destruct b; reflexivity.
  - rewrite Z.compare_refl.
    change (Pos.compare_cont Eq m m) with (Pos.compare m m).
    rewrite Pos.compare_refl. destruct b; reflexivity.
Qed.

Lemma is_nan_spec x : is_nan x = true <-> Prim2SF x = S754_nan.
Proof.
  unfold is_nan. rewrite FloatAxioms.eqb_spec. unfold SFeqb.
  destruct (Prim2SF x) as [b|b| |b m e] eqn:E.
  - simpl. split; discriminate.
  - rewrite SFcompare_refl by discriminate. simpl. split; discriminate.
  - simpl. tauto.
  - rewrite SFcompare_refl by discriminate. simpl. split; discriminate.
Qed.

Lemma is_nan_false x : is_nan x = false <-> Prim2SF x <> S754_nan.
Proof.
  rewrite <- is_nan_spec. destruct (is_nan x); split; congruence.
Qed.

Lemma Prim2SF_infinity : Prim2SF infinity = S754_infinity false.
Proof. reflexivity. Qed.

Lemma is_finite_spec x : is_finite x = true <-> Fin (Prim2SF x).
Proof.
  unfold is_finite, is_infinity.
  rewrite FloatAxioms.eqb_spec, FloatAxioms.abs_spec, Prim2SF_infinity.
  destruct (is_nan x) eqn:En.
  - apply is_nan_spec in En. rewrite En. simpl. split; [discriminate|tauto].
  - apply is_nan_false in En. simpl.
    destruct (Prim2SF x) as [b|b| |b m e]; simpl; try congruence;
      split; try discriminate; try tauto.
Qed.

Lemma digits_iter_xO p k :
  digits2_pos (Pos.iter xO p k) = (digits2_pos p + k)%positive.
Proof.
  revert p. induction k using Pos.peano_ind; intros p.
  - simpl. lia.
  - rewrite Pos.iter_succ. simpl. rewrite IHk. lia.
Qed.

Lemma shr_fexp_canonical m e l :
  canonical m e ->
  shr_fexp prec emax (Zpos m) e l = (shr_record_of_loc (Zpos m) l, e).
Proof.
  intros Hc. unfold shr_fexp. simpl Zdigits2. rewrite Hc, Z.sub_diag. reflexivity.
Qed.

Lemma binary_round_aux_canonical sx m e :
  canonical m e -> e <= emax - prec ->
  binary_round_aux prec emax sx (Zpos m) e loc_Exact = S754_finite sx m e.
Proof.
  intros Hc He. unfold binary_round_aux.
  rewrite shr_fexp_canonical by exact Hc. simpl.
  rewrite shr_fexp_canonical by exact Hc. simpl.
  replace (e <=? 971) with true; [reflexivity|].
  symmetry. apply Z.leb_le. unfold emax, prec in He. lia.
Qed.

Lemma valid_finite sx m e :
  canonical m e -> e <= emax - prec ->
  valid_binary (S754_finite sx m e) = true.
Proof.
  intros Hc He. unfold SpecFloat.valid_binary, bounded, canonical_mantissa.
  unfold canonical in Hc. rewrite Hc, Z.eqb_refl. apply Z.leb_le. exact He.
Qed.

Lemma binary_round_small sx p :
  Zpos (digits2_pos p) <= prec ->
  exists m e, binary_round prec emax sx p 0 = S754_finite sx m e
              /\ valid_binary (S754_finite sx m e) = true.
Proof.
  intros Hd. unfold binary_round.
  set (d := Zpos (digits2_pos p)) in *.
  assert (Hf : fexp prec emax (d + 0) = d - prec).
  { unfold fexp, SpecFloat.emin, prec, emax in *. lia. }
  rewrite Hf. unfold shl_align.
  destruct (d - prec - 0) as [|k|k] eqn:Hk.
  - assert (Hc : canonical p 0).
    { unfold canonical. fold d. rewrite Hf. lia. }
    assert (He : 0 <= emax - prec) by (unfold emax, prec; lia).
    exists p, 0. rewrite binary_round_aux_canonical by auto.
    split; [reflexivity|]. now apply valid_finite.
  - unfold prec in *. lia.
  - assert (Hc : canonical (Pos.iter xO p k) (d - prec)).
    { unfold canonical. rewrite digits_iter_xO.
      unfold fexp, SpecFloat.emin, prec, emax in *. subst d. lia. }
    assert (He : d - prec <= emax - prec) by (unfold emax, prec in *; lia).
    exists (Pos.iter xO p k), (d - prec).
    rewrite binary_round_aux_canonical by auto.
    split; [reflexivity|]. now apply valid_finite.
Qed.

Lemma digits_bound p : Zpos p < 2 ^ 53 -> Zpos (digits2_pos p) <= 53.
Proof.
  intros Hp.
  assert (H : forall q, 2 ^ (Zpos (digits2_pos q) - 1) <= Zpos q).
  { induction q as [q IH|q IH|]; simpl digits2_pos.
    - rewrite Pos2Z.inj_succ. replace (Z.succ (Zpos (digits2_pos q)) - 1)
        with (Z.succ (Zpos (digits2_pos q) - 1)) by lia.
      rewrite Z.pow_succ_r by lia. lia.
    - rewrite Pos2Z.inj_succ. replace (Z.succ (Zpos (digits2_pos q)) - 1)
        with (Z.succ (Zpos (digits2_pos q) - 1)) by lia.
      rewrite Z.pow_succ_r by lia. lia.
    - simpl. lia. }
  specialize (H p).
  destruct (Z.le_gt_cases (Zpos (digits2_pos p)) 53) as [|Hgt]; [assumption|].
  assert (2 ^ 53 <= 2 ^ (Zpos (digits2_pos p) - 1))
    by (apply Z.pow_le_mono_r; lia).
  lia.
Qed.

(** A count between 1 and 2^53 is a positive finite number. *)
Lemma Z2float_PosFin n : 1 <= n < 2 ^ 53 -> PosFin (Prim2SF (Z2float n)).
Proof.
  intros Hn. unfold Z2float. destruct n as [|p|p]; try lia.
  simpl binary_normalize.
  destruct (binary_round_small false p) as (m & e & Hr & Hv).
  { apply digits_bound. lia. }
  rewrite Hr, FloatAxioms.Prim2SF_SF2Prim by exact Hv. exact I.
Qed.


(** ** A number divided by itself *)

Lemma div_eucl_exact m k : 0 < m -> Z.div_eucl (m * k) m = (k, 0).
Proof.
  intros Hm.
  pose proof (Z.div_eucl_eq (m * k) m ltac:(lia)) as H.
  pose proof (Z.mod_pos_bound (m * k) m Hm) as Hb. unfold Z.modulo in Hb.
  destruct (Z.div_eucl (m * k) m) as [q r].
  assert (Hk : q = k) by (destruct (Z.lt_trichotomy k q) as [|[|]]; nia).
  subst q. f_equal. lia.
Qed.

Lemma SFdiv_self s m e :
  SF64div (S754_finite s m e) (S754_finite s m e) = Prim2SF 1%float.
Proof.
  unfold SF64div, SFdiv, SFdiv_core_binary.
  replace (Zdigits2 (Zpos m) + e - (Zdigits2 (Zpos m) + e)) with 0 by lia.
  rewrite Z.sub_diag.
  change (Z.min (fexp prec emax 0) 0) with (-53).
  change (0 - -53) with 53.
  change IntDef.Z.div_eucl with Z.div_eucl.
  rewrite Z.shiftl_mul_pow2 by lia.
  rewrite div_eucl_exact by lia.
  rewrite xorb_nilpotent.
  unfold new_location.
  destruct (Z.even (Zpos m)); reflexivity.
Qed.

Lemma div_self x s m e : Prim2SF x = S754_finite s m e -> (x / x)%float = 1%float.
Proof.
  intros Hx. apply FloatAxioms.Prim2SF_inj.
  rewrite FloatAxioms.div_spec, Hx. apply SFdiv_self.
Qed.

Lemma percent_self x s m e :
  Prim2SF x = S754_finite s m e -> ((x / x) * 100)%float = 100%float.
Proof. intros Hx. rewrite (div_self x s m e Hx). reflexivity. Qed.

Lemma SF_not_gt_chain a b c :
  b <> S754_nan -> SFltb b a = false -> SFltb c b = false -> SFltb c a = false.
Proof.
  unfold SFltb, SFcompare.
  destruct a as [sa|sa| |sa ma ea], b as [sb|sb| |sb mb eb],
           c as [sc|sc| |sc mc ec];
    intros Hb H1 H2; try congruence; sf_order.
Qed.

End FloatFacts.

(** ** Rounding is monotone: quotients and percentages

    Division and multiplication round to nearest; the lemmas below follow
    a real value through [SFdiv] and [SFmul] to bound the percentage of a
    sample that is not above the reference. *)

Module RoundingFacts.
Import Reals Lra.
Import JS FloatClasses FloatFacts Rounding.
#[local] Open Scope Z_scope.

Lemma bpow_pos e : (0 < bpow e)%R.
Proof. apply powerRZ_lt. lra. Qed.

Lemma bpow_add a b : bpow (a + b) = (bpow a * bpow b)%R.
Proof. apply powerRZ_add. lra. Qed.

Lemma bpow_succ a : bpow (a + 1) = (2 * bpow a)%R.
Proof. rewrite bpow_add. unfold bpow at 2. simpl. lra. Qed.

Lemma IZR_pow2 k : 0 <= k -> IZR (2 ^ k) = bpow k.
Proof.
  intros Hk. unfold bpow. rewrite <- (Z2Nat.id k Hk).
  rewrite <- pow_powerRZ. induction (Z.to_nat k) as [|n IH].
  - reflexivity.
  - rewrite Nat2Z.inj_succ, Z.pow_succ_r by lia.
    rewrite mult_IZR, IH. simpl. lra.
Qed.

Lemma bpow_ge1 k : 0 <= k -> (1 <= bpow k)%R.
Proof.
  intros Hk. rewrite <- IZR_pow2 by exact Hk.
  apply IZR_le. pose proof (Z.pow_pos_nonneg 2 k ltac:(lia) Hk). lia.
Qed.

Lemma bpow_le a b : a <= b -> (bpow a <= bpow b)%R.
Proof.
  intros H. replace b with (a + (b - a)) by lia. rewrite bpow_add.
  pose proof (bpow_pos a). pose proof (bpow_ge1 (b - a) ltac:(lia)). nra.
Qed.

Lemma bpow_lt a b : a < b -> (bpow a < bpow b)%R.
Proof.
  intros H. apply Rlt_le_trans with (bpow (a + 1)).
  - rewrite bpow_succ. pose proof (bpow_pos a). lra.
  - apply bpow_le. lia.
Qed.

Lemma bpow_lt_inv a b : (bpow a < bpow b)%R -> a < b.
Proof.
  intros H. destruct (Z.lt_ge_cases a b) as [|Hge]; [assumption|].
  pose proof (bpow_le _ _ Hge). lra.
Qed.

Lemma F2R_shift m e e' : e' <= e -> F2R m e = F2R (m * 2 ^ (e - e')) e'.
Proof.
  intros H. unfold F2R. rewrite mult_IZR, IZR_pow2 by lia.
  replace e with ((e - e') + e') at 1 by lia. rewrite bpow_add. lra.
Qed.

Lemma F2R_le m m' e : (F2R m e <= F2R m' e)%R <-> m <= m'.
Proof.
  unfold F2R. pose proof (bpow_pos e). split.
  - intros Hle. apply le_IZR. nra.
  - intros Hle. apply IZR_le in Hle. nra.
Qed.

Lemma F2R_lt m m' e : (F2R m e < F2R m' e)%R <-> m < m'.
Proof.
  unfold F2R. pose proof (bpow_pos e). split.
  - intros Hlt. apply lt_IZR. nra.
  - intros Hlt. apply IZR_lt in Hlt. nra.
Qed.

Lemma digits_lower q : 2 ^ (Zpos (digits2_pos q) - 1) <= Zpos q.
Proof.
  induction q as [q IH|q IH|]; simpl digits2_pos.
  - rewrite Pos2Z.inj_succ. replace (Z.succ (Zpos (digits2_pos q)) - 1)
      with (Z.succ (Zpos (digits2_pos q) - 1)) by lia.
    rewrite Z.pow_succ_r by lia. lia.
  - rewrite Pos2Z.inj_succ. replace (Z.succ (Zpos (digits2_pos q)) - 1)
      with (Z.succ (Zpos (digits2_pos q) - 1)) by lia.
    rewrite Z.pow_succ_r by lia. lia.
  - simpl. lia.
Qed.

Lemma digits_upper q : Zpos q < 2 ^ Zpos (digits2_pos q).
Proof.
  induction q as [q IH|q IH|]; simpl digits2_pos.
  - rewrite Pos2Z.inj_succ, Z.pow_succ_r, Pos2Z.inj_xI by lia. lia.
  - rewrite Pos2Z.inj_succ, Z.pow_succ_r, Pos2Z.inj_xO by lia. lia.
  - reflexivity.
Qed.

Lemma F2R_lower q e : (bpow (Zpos (digits2_pos q) - 1 + e) <= F2R (Zpos q) e)%R.
Proof.
  unfold F2R. rewrite bpow_add, <- (IZR_pow2 (Zpos (digits2_pos q) - 1)) by lia.
  pose proof (bpow_pos e). pose proof (IZR_le _ _ (digits_lower q)). nra.
Qed.

Lemma F2R_upper q e : (F2R (Zpos q) e < bpow (Zpos (digits2_pos q) + e))%R.
Proof.
  unfold F2R. rewrite bpow_add, <- (IZR_pow2 (Zpos (digits2_pos q))) by lia.
  pose proof (bpow_pos e). pose proof (IZR_lt _ _ (digits_upper q)). nra.
Qed.

Lemma F2R_xO p e : F2R (Zpos p~0) e = F2R (Zpos p) (e + 1).
Proof.
  unfold F2R. rewrite bpow_succ, Pos2Z.inj_xO, mult_IZR. lra.
Qed.

Lemma F2R_xI p e : F2R (Zpos p~1) e = (F2R (Zpos p) (e + 1) + bpow e)%R.
Proof.
  unfold F2R. rewrite bpow_succ, Pos2Z.inj_xI, plus_IZR, mult_IZR. lra.
Qed.

Lemma F2R_0 e : F2R 0 e = 0%R.
Proof. unfold F2R. lra. Qed.

Lemma F2R_1 e : F2R 1 e = bpow e.
Proof. unfold F2R. lra. Qed.

Lemma shr_1_Located mrs e x : Located mrs e x -> Located (shr_1 mrs) (e + 1) x.
Proof.
  destruct mrs as [m r s]. unfold Located. simpl shr_m. simpl shr_r. simpl shr_s.
  intros (Hm & Hle & Hex). pose proof (bpow_pos e) as Hp.
  destruct m as [|[p|p|]|p]; simpl; try lia.
  - rewrite F2R_0 in *. split; [lia|]. split; [lra|].
    intros Hx. destruct (Hex Hx) as [-> ->]. auto.
  - rewrite F2R_xI in Hle. split; [lia|]. split; [lra|].
    intros Hx. lra.
  - rewrite F2R_xO in Hle, Hex. split; [lia|]. split; [lra|].
    intros Hx. destruct (Hex Hx) as [-> ->]. auto.
  - rewrite F2R_1 in Hle. rewrite F2R_0. split; [lia|]. split; [lra|].
    intros Hx. lra.
Qed.

Lemma iter_pos_Located p mrs e x :
  Located mrs e x -> Located (SpecFloat.iter_pos shr_1 p mrs) (e + Zpos p) x.
Proof.
  revert mrs e. induction p as [p IH|p IH|]; intros mrs e H; simpl.
  - replace (e + Zpos p~1) with (e + 1 + Zpos p + Zpos p) by lia.
    apply IH, IH, shr_1_Located, H.
  - replace (e + Zpos p~0) with (e + Zpos p + Zpos p) by lia.
    apply IH, IH, H.
  - apply shr_1_Located, H.
Qed.

(** The first shift of [binary_round_aux]. *)
Lemma shr_fexp_Located m e l x :
  0 <= m -> (F2R m e <= x)%R -> (x = F2R m e -> l = loc_Exact) ->
  let '(mrs, e') := shr_fexp prec emax m e l in
  Located mrs e' x
  /\ (e' = e \/ e' = fexp prec emax (Zdigits2 m + e)).
Proof.
  intros Hm Hle Hex. unfold shr_fexp, shr.
  assert (H0 : Located (shr_record_of_loc m l) e x).
  { unfold Located.
    replace (shr_m (shr_record_of_loc m l)) with m
      by (destruct l as [|[| |]]; reflexivity).
    split; [exact Hm|]. split; [exact Hle|].
    intros Hx. rewrite (Hex Hx). split; reflexivity. }
  destruct (fexp prec emax (Zdigits2 m + e) - e) as [|p|p] eqn:Hn.
  - split; [exact H0|now left].
  - split; [apply iter_pos_Located, H0|right; lia].
  - split; [exact H0|now left].
Qed.

Lemma round_nearest_even_cases mrs :
  let m2 := round_nearest_even (shr_m mrs) (loc_of_shr_record mrs) in
  m2 = shr_m mrs \/ (m2 = shr_m mrs + 1 /\ shr_r mrs = true).
Proof.
  destruct mrs as [m [|] [|]]; simpl; auto.
  destruct (Z.even m); auto.
Qed.

Lemma fexp_emin e : SpecFloat.emin prec emax <= fexp prec emax e.
Proof. unfold fexp. lia. Qed.

(** The exponent a value below [B] is rounded at is at most that of [B]. *)
Lemma fexp_below m e x mB eB :
  0 <= m -> (F2R m e <= x)%R -> (x <= F2R (Zpos mB) eB)%R ->
  canonical mB eB -> e <= eB ->
  fexp prec emax (Zdigits2 m + e) <= eB.
Proof.
  intros Hm Hle HB Hc He.
  pose proof (fexp_emin (Zpos (digits2_pos mB) + eB)) as Hmin.
  unfold canonical in Hc. rewrite Hc in Hmin.
  assert (HcB : Zpos (digits2_pos mB) + eB - prec <= eB).
  { rewrite <- Hc at 2. unfold fexp. lia. }
  destruct m as [|p|p]; try lia.
  - simpl. unfold fexp, prec in *. lia.
  - simpl Zdigits2.
    pose proof (F2R_lower p e). pose proof (F2R_upper mB eB).
    assert (Hlt : Zpos (digits2_pos p) - 1 + e < Zpos (digits2_pos mB) + eB)
      by (apply bpow_lt_inv; lra).
    unfold fexp. lia.
Qed.

(** Rounding a located value that is at most the canonical number [B]
    gives zero or a number at most [B]. *)
Lemma binary_round_aux_le m e l x mB eB :
  0 <= m -> (F2R m e <= x)%R -> (x = F2R m e -> l = loc_Exact) ->
  canonical mB eB -> eB <= emax - prec ->
  (x <= F2R (Zpos mB) eB)%R -> e <= eB ->
  match binary_round_aux prec emax false m e l with
  | S754_zero _ => True
  | S754_finite s m' e' => s = false /\ (F2R (Zpos m') e' <= F2R (Zpos mB) eB)%R
  | _ => False
  end.
Proof.
  intros Hm Hle Hex Hc HeB HB He. unfold binary_round_aux.
  pose proof (shr_fexp_Located m e l x Hm Hle Hex) as H1.
  pose proof (fexp_below m e x mB eB Hm Hle HB Hc He) as Hf1.
  destruct (shr_fexp prec emax m e l) as [mrs' e'].
  destruct H1 as [(Hm' & Hle' & Hex') He'].
  assert (He'B : e' <= eB) by (destruct He'; lia).
  set (m2 := round_nearest_even (shr_m mrs') (loc_of_shr_record mrs')).
  set (B := F2R (Zpos mB) eB) in *.
  assert (Hm2 : 0 <= m2 /\ (F2R m2 e' <= B)%R).
  { destruct (round_nearest_even_cases mrs') as [H|[H Hr]]; fold m2 in H.
    - rewrite H. split; [assumption|lra].
    - rewrite H. split; [lia|].
      subst B. rewrite (F2R_shift (Zpos mB) eB e') by exact He'B.
      apply F2R_le.
      assert (Hlt : (F2R (shr_m mrs') e' < F2R (Zpos mB) eB)%R).
      { destruct (Rle_lt_or_eq_dec _ _ Hle') as [Hlt|Heq]; [lra|].
        symmetry in Heq. destruct (Hex' Heq). congruence. }
      rewrite (F2R_shift (Zpos mB) eB e') in Hlt by exact He'B.
      apply F2R_lt in Hlt. lia. }
  destruct Hm2 as [Hm2 Hle2].
  pose proof (shr_fexp_Located m2 e' loc_Exact (F2R m2 e') Hm2
                ltac:(lra) ltac:(reflexivity)) as H2.
  pose proof (fexp_below m2 e' (F2R m2 e') mB eB Hm2 ltac:(lra) Hle2 Hc He'B)
    as Hf2.
  destruct (shr_fexp prec emax m2 e' loc_Exact) as [mrs'' e''].
  destruct H2 as [(Hm'' & Hle'' & _) He''].
  assert (He''B : e'' <= eB) by (destruct He''; lia).
  destruct (shr_m mrs'') as [|p|p] eqn:Hp; [exact I| |lia].
  replace (e'' <=? emax - prec) with true by (symmetry; apply Z.leb_le; lia).
  split; [reflexivity|lra].
Qed.

Lemma valid_canonical s m e :
  valid_binary (S754_finite s m e) = true ->
  canonical m e /\ e <= emax - prec.
Proof.
  unfold SpecFloat.valid_binary, bounded, canonical_mantissa, canonical.
  intros H. apply andb_true_iff in H. destruct H as [H1 H2].
  split; [now apply Z.eqb_eq|now apply Z.leb_le].
Qed.

Lemma canonical_digits m e : canonical m e -> Zpos (digits2_pos m) <= prec.
Proof. unfold canonical, fexp. lia. Qed.

Lemma canonical_emin m e : canonical m e -> SpecFloat.emin prec emax <= e.
Proof. unfold canonical, fexp. lia. Qed.

Lemma canonical_normal m e :
  canonical m e -> SpecFloat.emin prec emax < e -> Zpos (digits2_pos m) = prec.
Proof. unfold canonical, fexp. lia. Qed.

(** A canonical number with the larger exponent is the larger number. *)
Lemma canonical_lt ma ea mb eb :
  canonical ma ea -> canonical mb eb -> ea < eb ->
  (F2R (Zpos ma) ea < F2R (Zpos mb) eb)%R.
Proof.
  intros Ha Hb Hlt.
  pose proof (canonical_emin _ _ Ha). pose proof (canonical_digits _ _ Ha).
  pose proof (canonical_normal _ _ Hb ltac:(lia)) as Hdb.
  pose proof (F2R_upper ma ea). pose proof (F2R_lower mb eb).
  assert (bpow (Zpos (digits2_pos ma) + ea)
          <= bpow (Zpos (digits2_pos mb) - 1 + eb))%R
    by (apply bpow_le; unfold prec in *; lia).
  lra.
Qed.

Lemma SFleb_of_le ma ea mb eb :
  canonical ma ea -> canonical mb eb ->
  (F2R (Zpos ma) ea <= F2R (Zpos mb) eb)%R ->
  SFleb (S754_finite false ma ea) (S754_finite false mb eb) = true.
Proof.
  intros Ha Hb Hle. unfold SFleb, SFcompare.
  destruct (Z.compare_spec ea eb) as [Heq|Hlt|Hgt].
  - subst eb. apply F2R_le in Hle.
    change (Pos.compare_cont Eq ma mb) with (Pos.compare ma mb).
    destruct (Pos.compare_spec ma mb); try reflexivity. lia.
  - reflexivity.
  - pose proof (canonical_lt _ _ _ _ Hb Ha Hgt). lra.
Qed.

Lemma le_of_SFleb ma ea mb eb :
  canonical ma ea -> canonical mb eb ->
  SFleb (S754_finite false ma ea) (S754_finite false mb eb) = true ->
  (F2R (Zpos ma) ea <= F2R (Zpos mb) eb)%R.
Proof.
  intros Ha Hb. unfold SFleb, SFcompare.
  destruct (Z.compare_spec ea eb) as [Heq|Hlt|Hgt].
  - subst eb. change (Pos.compare_cont Eq ma mb) with (Pos.compare ma mb).
    destruct (Pos.compare_spec ma mb); try discriminate; intros _;
      apply F2R_le; lia.
  - intros _. pose proof (canonical_lt _ _ _ _ Ha Hb Hlt). lra.
  - discriminate.
Qed.

Lemma F2R_pos p e : (0 < F2R (Zpos p) e)%R.
Proof.
  unfold F2R. pose proof (bpow_pos e).
  pose proof (IZR_lt 0 (Zpos p) ltac:(lia)). nra.
Qed.

Lemma new_location_exact n : new_location n 0 = loc_Exact.
Proof. unfold new_location. destruct (Z.even n); reflexivity. Qed.

(** The quotient [SFdiv_core_binary] computes, against the real quotient. *)
Lemma SFdiv_core_Located mv ev mr er :
  let x := (F2R (Zpos mv) ev / F2R (Zpos mr) er)%R in
  let '(q, e', l) := SFdiv_core_binary prec emax (Zpos mv) ev (Zpos mr) er in
  0 <= q /\ (F2R q e' <= x)%R /\ (x = F2R q e' -> l = loc_Exact)
  /\ e' <= fexp prec emax (Zpos (digits2_pos mv) + ev
                           - (Zpos (digits2_pos mr) + er)).
Proof.
  intros x. unfold SFdiv_core_binary. simpl Zdigits2.
  set (e' := Z.min _ _).
  assert (He' : e' <= ev - er) by (subst e'; lia).
  set (s := ev - er - e').
  assert (Hs : 0 <= s) by (subst s; lia).
  set (m' := match s with Zpos _ => _ | Z0 => _ | Zneg _ => _ end).
  assert (Hm' : m' = Zpos mv * 2 ^ s).
  { subst m'. destruct s as [|p|p] eqn:Es; try lia.
    change IntDef.Z.shiftl with Z.shiftl.
    rewrite Z.shiftl_mul_pow2 by lia. reflexivity. }
  change IntDef.Z.div_eucl with Z.div_eucl.
  pose proof (Z.div_eucl_eq m' (Zpos mr) ltac:(lia)) as Hdiv.
  pose proof (Z.mod_pos_bound m' (Zpos mr) ltac:(lia)) as Hrem.
  unfold Z.modulo in Hrem.
  destruct (Z.div_eucl m' (Zpos mr)) as [q rem].
  assert (Hq : 0 <= q).
  { assert (0 <= m') by (rewrite Hm'; pose proof (Z.pow_pos_nonneg 2 s); lia).
    nia. }
  assert (Hx : x = ((IZR q + IZR rem / IZR (Zpos mr)) * bpow e')%R).
  { subst x. unfold F2R.
    replace ev with (s + e' + er) at 1 by (subst s; lia).
    rewrite !bpow_add, <- (IZR_pow2 s) by exact Hs.
    assert (Hm'R : (IZR (Zpos mv) * IZR (2 ^ s) = IZR (Zpos mr) * IZR q + IZR rem)%R).
    { rewrite <- !mult_IZR, <- plus_IZR, <- Hm', <- Hdiv. reflexivity. }
    pose proof (bpow_pos er). pose proof (IZR_lt 0 (Zpos mr) ltac:(lia)).
    field_simplify_eq; [|lra].
    replace (IZR (Z.pos mv) * IZR (2 ^ s) * bpow e' * bpow er)%R
      with ((IZR (Zpos mv) * IZR (2 ^ s)) * bpow e' * bpow er)%R by ring.
    rewrite Hm'R. ring. }
  assert (HremR : (0 <= IZR rem / IZR (Zpos mr))%R).
  { apply Rmult_le_pos; [apply IZR_le; lia|].
    apply Rlt_le, Rinv_0_lt_compat, IZR_lt. lia. }
  pose proof (bpow_pos e') as Hp.
  repeat split.
  - exact Hq.
  - rewrite Hx. unfold F2R. nra.
  - intros Heq. rewrite Hx in Heq. unfold F2R in Heq.
    assert (Hz : (IZR rem / IZR (Zpos mr) = 0)%R) by nra.
    assert (Hrem0 : rem = 0).
    { apply eq_IZR. pose proof (IZR_lt 0 (Zpos mr) ltac:(lia)) as Hmr.
      apply Rmult_eq_compat_r with (r := IZR (Zpos mr)) in Hz.
      unfold Rdiv in Hz. rewrite Rmult_assoc, Rinv_l in Hz by lra. lra. }
    rewrite Hrem0. apply new_location_exact.
  - subst e'. lia.
Qed.

Lemma SFltb_false_leb a b :
  a <> S754_nan -> b <> S754_nan -> SFltb a b = false -> SFleb b a = true.
Proof.
  unfold SFleb, SFltb, SFcompare.
  destruct a as [sa|sa| |sa ma ea], b as [sb|sb| |sb mb eb];
    intros Ha Hb H1; try congruence; sf_order.
Qed.

Lemma Prim2SF_one : Prim2SF 1%float = S754_finite false one_m (-52).
Proof. reflexivity. Qed.

Lemma Prim2SF_hundred : Prim2SF 100%float = S754_finite false hundred_m (-46).
Proof. reflexivity. Qed.

Lemma canonical_one : canonical one_m (-52).
Proof. reflexivity. Qed.

Lemma canonical_hundred : canonical hundred_m (-46).
Proof. reflexivity. Qed.

Lemma F2R_one : F2R (Zpos one_m) (-52) = 1%R.
Proof.
  change (Zpos one_m) with (2 ^ 52). unfold F2R. rewrite IZR_pow2 by lia.
  rewrite <- bpow_add. reflexivity.
Qed.

Lemma round_AtMost m e l x mB eB :
  0 <= m -> (F2R m e <= x)%R -> (x = F2R m e -> l = loc_Exact) ->
  canonical mB eB -> eB <= emax - prec ->
  (x <= F2R (Zpos mB) eB)%R -> e <= eB ->
  AtMost (F2R (Zpos mB) eB) (binary_round_aux prec emax false m e l).
Proof.
  intros. unfold AtMost.
  pose proof (binary_round_aux_le m e l x mB eB) as H'.
  destruct (binary_round_aux prec emax false m e l); auto.
Qed.

(** A positive number divided by one that is not below it is at most 1. *)
Lemma SFdiv_AtMost_one mv ev mr er :
  canonical mv ev -> canonical mr er ->
  (F2R (Zpos mv) ev <= F2R (Zpos mr) er)%R ->
  AtMost 1 (SF64div (S754_finite false mv ev) (S754_finite false mr er)).
Proof.
  intros Hv Hr Hle. unfold SF64div, SFdiv.
  pose proof (SFdiv_core_Located mv ev mr er) as Hcore.
  destruct (SFdiv_core_binary prec emax (Zpos mv) ev (Zpos mr) er)
    as [[q e'] l].
  destruct Hcore as (Hq & Hlow & Hex & He').
  rewrite <- F2R_one. simpl xorb.
  apply round_AtMost with (x := (F2R (Zpos mv) ev / F2R (Zpos mr) er)%R); auto.
  - apply canonical_one.
  - unfold emax, prec. lia.
  - rewrite F2R_one. pose proof (F2R_pos mr er). pose proof (F2R_pos mv ev).
    apply (Rmult_le_reg_r (F2R (Zpos mr) er)); [lra|].
    unfold Rdiv. rewrite Rmult_assoc, Rinv_l by lra. lra.
  - assert (Hmag : Zpos (digits2_pos mv) + ev <= Zpos (digits2_pos mr) + er).
    { pose proof (F2R_lower mv ev). pose proof (F2R_upper mr er).
      assert (Zpos (digits2_pos mv) - 1 + ev < Zpos (digits2_pos mr) + er)
        by (apply bpow_lt_inv; lra).
      lia. }
    unfold fexp, SpecFloat.emin, prec, emax in He'. lia.
Qed.

(** A number at most 1 times 100 is at most 100. *)
Lemma SFmul_AtMost_hundred q :
  valid_binary q = true -> AtMost 1 q ->
  AtMost (F2R (Zpos hundred_m) (-46))
         (SF64mul q (S754_finite false hundred_m (-46))).
Proof.
  intros Hvalid Hq. unfold SF64mul, SFmul.
  destruct q as [s|s| |s mq eq]; simpl in Hq; try tauto.
  destruct Hq as [-> Hle]. simpl xorb.
  {
    apply valid_canonical in Hvalid. destruct Hvalid as [Hc _].
    assert (Heq : eq <= 0).
    { destruct (Z.le_gt_cases eq 0) as [|Hgt]; [assumption|exfalso].
      pose proof (bpow_ge1 eq ltac:(lia)).
      pose proof (IZR_le 1 (Zpos mq) ltac:(lia)).
      pose proof (bpow_lt 0 eq Hgt) as Hb. change (bpow 0) with 1%R in Hb.
      unfold F2R in Hle. nra. }
    assert (Hprod : F2R (Zpos (mq * hundred_m)) (eq + -46)
                    = (F2R (Zpos mq) eq * F2R (Zpos hundred_m) (-46))%R).
    { unfold F2R. rewrite Pos2Z.inj_mul, mult_IZR, bpow_add. ring. }
    apply round_AtMost with (x := F2R (Zpos (mq * hundred_m)) (eq + -46)).
    + lia.
    + lra.
    + reflexivity.
    + apply canonical_hundred.
    + unfold emax, prec. lia.
    + rewrite Hprod. pose proof (F2R_pos hundred_m (-46)).
      pose proof (F2R_pos mq eq). nra.
    + lia. }
Qed.

Lemma AtMost_SFleb B s mB eB :
  B = F2R (Zpos mB) eB -> canonical mB eB -> valid_binary s = true ->
  AtMost B s -> SFleb s (S754_finite false mB eB) = true.
Proof.
  intros -> HcB Hvalid Hs. destruct s as [sg|sg| |sg m e]; simpl in Hs;
    try tauto.
  destruct Hs as [-> Hle].
  apply valid_canonical in Hvalid. destruct Hvalid as [Hc _].
  now apply SFleb_of_le.
Qed.

(** Negative numbers and zeros are below every positive number. *)
Lemma Signed_true_leb s mB eB :
  Signed true s -> SFleb s (S754_finite false mB eB) = true.
Proof. destruct s as [sg|sg| |sg m e]; simpl; try tauto; intros ->; reflexivity. Qed.

Lemma SFdiv_Signed_true mv ev mr er :
  Signed true (SF64div (S754_finite true mv ev) (S754_finite false mr er)).
Proof.
  unfold SF64div, SFdiv.
  pose proof (SFdiv_core_nonneg mv ev mr er) as Hq.
  destruct (SFdiv_core_binary _ _ _ _ _ _) as [[mz ez] lz]. simpl in Hq.
  apply binary_round_aux_Signed. exact Hq.
Qed.

Lemma SFmul_Signed_true q mB eB :
  Signed true q -> Signed true (SF64mul q (S754_finite false mB eB)).
Proof.
  unfold SF64mul, SFmul. destruct q as [sg|sg| |sg m e]; simpl; try tauto;
    intros ->; try reflexivity.
  apply binary_round_aux_Signed. lia.
Qed.

(** The scaling of a sample that is not above a positive reference is at
    most 100. *)
Theorem percent_le (v r : float) :
  is_finite v = true -> PosFin (Prim2SF r) -> (r <? v)%float = false ->
  ((v / r) * 100 <=? 100)%float = true.
Proof.
  intros Hv Hr Hgt.
  rewrite FloatAxioms.leb_spec, FloatAxioms.mul_spec, FloatAxioms.div_spec,
    Prim2SF_hundred.
  rewrite FloatAxioms.ltb_spec in Hgt. apply is_finite_spec in Hv.
  pose proof (FloatAxioms.Prim2SF_valid v) as Vv.
  pose proof (FloatAxioms.Prim2SF_valid r) as Vr.
  pose proof (FloatAxioms.Prim2SF_valid (v / r)) as Vq.
  pose proof (FloatAxioms.Prim2SF_valid ((v / r) * 100)) as Vp.
  rewrite FloatAxioms.mul_spec, Prim2SF_hundred in Vp.
  rewrite FloatAxioms.div_spec in Vq, Vp.
  destruct (Prim2SF r) as [sr|sr| |[|] mr er]; simpl in Hr; try tauto.
  destruct (Prim2SF v) as [sv|sv| |[|] mv ev]; simpl in Hv; try tauto.
  - (* negative *)
    apply Signed_true_leb, SFmul_Signed_true, SFdiv_Signed_true.
  - (* positive *)
    apply valid_canonical in Vv, Vr. destruct Vv as [Cv _], Vr as [Cr _].
    assert (Hle : (F2R (Zpos mv) ev <= F2R (Zpos mr) er)%R).
    { apply le_of_SFleb; auto. apply SFltb_false_leb; auto; discriminate. }
    pose proof (SFdiv_AtMost_one mv ev mr er Cv Cr Hle) as Hq.
    pose proof (SFmul_AtMost_hundred _ Vq Hq) as Hp.
    eapply AtMost_SFleb; eauto. apply canonical_hundred.
Qed.

End RoundingFacts.

(** ** Sums stay on a grid: the steps of the shift search

    Addition rounds to nearest; the lemmas below keep a sum between the
    multiples of a power of two around it, and with them follow the
    shift of the search of [bestShiftMatch] as it climbs by 10 ms a
    turn. *)

Module StepFacts.
Import Reals Lra.
Import JS FloatClasses FloatFacts Rounding RoundingFacts.
#[local] Open Scope Z_scope.

Lemma F2R_succ m e : F2R (m + 1) e = (F2R m e + bpow e)%R.
Proof. unfold F2R. rewrite plus_IZR. lra. Qed.

Lemma shr_1_Above mrs e x :
  0 <= shr_m mrs ->
  (x < F2R (shr_m mrs + 1) e)%R ->
  (x < F2R (shr_m (shr_1 mrs) + 1) (e + 1))%R.
Proof.
  destruct mrs as [m r s]. simpl shr_m. intros Hm Hx.
  pose proof (bpow_pos e) as Hp. pose proof (bpow_succ e) as Hs.
  rewrite F2R_succ in Hx.
  destruct m as [|[p|p|]|p]; try lia.
  - change (x < F2R (0 + 1) (e + 1))%R. rewrite F2R_0 in Hx.
    rewrite F2R_succ, F2R_0. lra.
  - change (x < F2R (Zpos p + 1) (e + 1))%R.
    rewrite F2R_xI in Hx. rewrite F2R_succ. lra.
  - change (x < F2R (Zpos p + 1) (e + 1))%R.
    rewrite F2R_xO in Hx. rewrite F2R_succ. lra.
  - change (x < F2R (0 + 1) (e + 1))%R. rewrite F2R_1 in Hx.
    rewrite F2R_succ, F2R_0. lra.
Qed.

Lemma iter_pos_Above p : forall mrs e x,
  0 <= shr_m mrs ->
  (x < F2R (shr_m mrs + 1) e)%R ->
  (x < F2R (shr_m (SpecFloat.iter_pos shr_1 p mrs) + 1) (e + Zpos p))%R.
Proof.
  induction p as [p IH|p IH|]; intros mrs e x Hm Hx; simpl.
  - replace (e + Zpos p~1) with (e + 1 + Zpos p + Zpos p) by lia.
    apply IH; [apply iter_pos_nonneg, shr_1_nonneg, Hm|].
    apply IH; [apply shr_1_nonneg, Hm|]. apply shr_1_Above; assumption.
  - replace (e + Zpos p~0) with (e + Zpos p + Zpos p) by lia.
    apply IH; [apply iter_pos_nonneg, Hm|]. apply IH; assumption.
  - apply shr_1_Above; assumption.
Qed.

(** The shift of [binary_round_aux] on an exact value: what is left is
    the value cut at the new exponent. *)
Lemma shr_fexp_cut m e :
  0 <= m ->
  let '(mrs, e') := shr_fexp prec emax m e loc_Exact in
  Located mrs e' (F2R m e)
  /\ (F2R m e < F2R (shr_m mrs + 1) e')%R
  /\ (e' = e \/ e' = fexp prec emax (Zdigits2 m + e)).
Proof.
  intros Hm.
  pose proof (shr_fexp_Located m e loc_Exact (F2R m e) Hm
                ltac:(lra) ltac:(reflexivity)) as HL.
  unfold shr_fexp, shr in *.
  assert (H0 : (F2R m e < F2R (shr_m (shr_record_of_loc m loc_Exact) + 1) e)%R).
  { simpl. rewrite F2R_succ. pose proof (bpow_pos e). lra. }
  destruct (fexp prec emax (Zdigits2 m + e) - e) as [|p|p] eqn:Hn.
  - destruct HL as [HL He]. split; [exact HL|]. split; [exact H0|exact He].
  - destruct HL as [HL He]. split; [exact HL|]. split; [|exact He].
    apply iter_pos_Above; [simpl; exact Hm|exact H0].
  - destruct HL as [HL He]. split; [exact HL|]. split; [exact H0|exact He].
Qed.

Lemma fexp_mono a b : a <= b -> fexp prec emax a <= fexp prec emax b.
Proof. unfold fexp. lia. Qed.

(** The exponent a value of at most [2 ^ p] is rounded at. *)
Lemma fexp_under m e p eG :
  0 <= m -> (F2R m e <= bpow p)%R ->
  fexp prec emax (p + 1) <= eG -> e <= eG ->
  fexp prec emax (Zdigits2 m + e) <= eG.
Proof.
  intros Hm Hle Hp He.
  destruct m as [|q|q]; try lia.
  - simpl Zdigits2. pose proof (fexp_emin (p + 1)).
    unfold fexp, prec in *. lia.
  - simpl Zdigits2. pose proof (F2R_lower q e) as Hl.
    assert (Zpos (digits2_pos q) - 1 + e <= p).
    { destruct (Z.le_gt_cases (Zpos (digits2_pos q) - 1 + e) p); [assumption|].
      assert (bpow p < bpow (Zpos (digits2_pos q) - 1 + e))%R
        by (apply bpow_lt; lia).
      lra. }
    etransitivity; [apply fexp_mono|exact Hp]. lia.
Qed.

(** An integer multiple of [2 ^ eG] seen at a lower exponent. *)
Lemma F2R_grid_le G eG m e :
  e <= eG -> (F2R G eG <= F2R m e)%R -> G * 2 ^ (eG - e) <= m.
Proof.
  intros He H. rewrite (F2R_shift G eG e He) in H. now apply F2R_le in H.
Qed.

Lemma F2R_grid_lt G eG m e :
  e <= eG -> (F2R G eG < F2R m e)%R -> G * 2 ^ (eG - e) < m.
Proof.
  intros He H. rewrite (F2R_shift G eG e He) in H. now apply F2R_lt in H.
Qed.

Lemma F2R_grid_ge G eG m e :
  e <= eG -> (F2R m e <= F2R G eG)%R -> m <= G * 2 ^ (eG - e).
Proof.
  intros He H. rewrite (F2R_shift G eG e He) in H. now apply F2R_le in H.
Qed.

Lemma F2R_grid_gt G eG m e :
  e <= eG -> (F2R m e < F2R G eG)%R -> m < G * 2 ^ (eG - e).
Proof.
  intros He H. rewrite (F2R_shift G eG e He) in H. now apply F2R_lt in H.
Qed.

(** Rounding to nearest keeps a value between the multiples of
    [2 ^ eG] around it, when [2 ^ eG] is at least the spacing of the
    numbers there: for a value of at most [2 ^ p] with
    [fexp (p + 1) <= eG]. *)
Lemma round_grid sx m e GL GU eG p :
  0 <= m -> e <= eG -> eG <= emax - prec ->
  fexp prec emax (p + 1) <= eG ->
  (F2R GU eG <= bpow p)%R ->
  (F2R GL eG <= F2R m e)%R -> (F2R m e <= F2R GU eG)%R ->
  let r := binary_round_aux prec emax sx m e loc_Exact in
  Fin r /\ Signed sx r /\ (F2R GL eG <= Mag r)%R /\ (Mag r <= F2R GU eG)%R.
Proof.
  intros Hm He HeG Hp HGU HL HU r.
  assert (HS : Signed sx r) by (apply binary_round_aux_Signed; exact Hm).
  subst r. revert HS. unfold binary_round_aux.
  pose proof (shr_fexp_cut m e Hm) as H1.
  pose proof (fexp_under m e p eG Hm ltac:(lra) Hp He) as Hf1.
  destruct (shr_fexp prec emax m e loc_Exact) as [mrs' e'].
  destruct H1 as ((Hm' & Hle' & Hex') & Hab' & He').
  assert (He'G : e' <= eG) by (destruct He'; lia).
  set (m2 := round_nearest_even (shr_m mrs') (loc_of_shr_record mrs')).
  assert (Hm2 : 0 <= m2 /\ (F2R GL eG <= F2R m2 e')%R
                /\ (F2R m2 e' <= F2R GU eG)%R).
  { assert (Hlow : (F2R GL eG <= F2R (shr_m mrs') e')%R).
    { rewrite (F2R_shift GL eG e' He'G). apply F2R_le.
      assert (GL * 2 ^ (eG - e') < shr_m mrs' + 1); [|lia].
      apply F2R_grid_lt; [exact He'G|lra]. }
    destruct (round_nearest_even_cases mrs') as [H|[H Hr]]; fold m2 in H.
    - rewrite H. split; [assumption|]. split; [exact Hlow|lra].
    - rewrite H. split; [lia|]. split.
      + rewrite F2R_succ. pose proof (bpow_pos e'). lra.
      + rewrite (F2R_shift GU eG e' He'G). apply F2R_le.
        assert (shr_m mrs' < GU * 2 ^ (eG - e')); [|lia].
        apply F2R_grid_gt; [exact He'G|].
        destruct (Rle_lt_or_eq_dec _ _ Hle') as [Hlt|Heq]; [lra|].
        symmetry in Heq. destruct (Hex' Heq). congruence. }
  destruct Hm2 as (Hm2 & HL2 & HU2).
  pose proof (shr_fexp_cut m2 e' Hm2) as H2.
  pose proof (fexp_under m2 e' p eG Hm2 ltac:(lra) Hp He'G) as Hf2.
  destruct (shr_fexp prec emax m2 e' loc_Exact) as [mrs'' e''].
  destruct H2 as ((Hm'' & Hle'' & _) & Hab'' & He'').
  assert (He''G : e'' <= eG) by (destruct He''; lia).
  assert (Hlow : (F2R GL eG <= F2R (shr_m mrs'') e'')%R).
  { rewrite (F2R_shift GL eG e'' He''G). apply F2R_le.
    assert (GL * 2 ^ (eG - e'') < shr_m mrs'' + 1); [|lia].
    apply F2R_grid_lt; [exact He''G|lra]. }
  destruct (shr_m mrs'') as [|q|q] eqn:Hq; [| |lia].
  - intros HS. rewrite F2R_0 in Hlow. simpl.
    split; [exact I|]. split; [exact HS|].
    split; [exact Hlow|]. rewrite F2R_0 in Hle''. lra.
  - replace (e'' <=? emax - prec) with true by (symmetry; apply Z.leb_le; lia).
    intros HS. simpl. split; [exact I|]. split; [exact HS|].
    split; [exact Hlow|lra].
Qed.


Lemma iter_xO_Z p d : Zpos (Pos.iter xO p d) = Zpos p * 2 ^ Zpos d.
Proof.
  induction d using Pos.peano_ind.
  - simpl. lia.
  - rewrite Pos.iter_succ, Pos2Z.inj_succ, Z.pow_succ_r by lia.
    rewrite Pos2Z.inj_xO, IHd. lia.
Qed.

Lemma shl_align_spec mx ex e2 :
  let '(mz, ez) := shl_align mx ex e2 in
  ez = Z.min ex e2 /\ Zpos mz = Zpos mx * 2 ^ (ex - ez).
Proof.
  unfold shl_align. destruct (e2 - ex) as [|d|d] eqn:Hd.
  - split; [lia|]. rewrite Z.sub_diag. simpl. lia.
  - split; [lia|]. rewrite Z.sub_diag. simpl. lia.
  - split; [lia|]. rewrite iter_xO_Z. f_equal. f_equal. lia.
Qed.

Lemma shl_align_F2R mx ex e2 :
  F2R (Zpos (fst (shl_align mx ex e2))) (Z.min ex e2) = F2R (Zpos mx) ex.
Proof.
  pose proof (shl_align_spec mx ex e2) as H.
  destruct (shl_align mx ex e2) as [mz ez]. destruct H as [-> H].
  cbn [fst]. rewrite H. symmetry. apply F2R_shift. lia.
Qed.

Lemma fexp_under_pos q e p eG :
  (F2R (Zpos q) e <= bpow p)%R ->
  fexp prec emax (p + 1) <= eG ->
  fexp prec emax (Zpos (digits2_pos q) + e) <= eG.
Proof.
  intros Hle Hp. pose proof (F2R_lower q e) as Hl.
  assert (Zpos (digits2_pos q) - 1 + e <= p).
  { destruct (Z.le_gt_cases (Zpos (digits2_pos q) - 1 + e) p); [assumption|].
    assert (bpow p < bpow (Zpos (digits2_pos q) - 1 + e))%R
      by (apply bpow_lt; lia).
    lra. }
  etransitivity; [apply fexp_mono|exact Hp]. lia.
Qed.

Lemma binary_round_grid sx mx ex GL GU eG p :
  eG <= emax - prec ->
  fexp prec emax (p + 1) <= eG ->
  (F2R GU eG <= bpow p)%R ->
  (F2R GL eG <= F2R (Zpos mx) ex)%R -> (F2R (Zpos mx) ex <= F2R GU eG)%R ->
  let r := binary_round prec emax sx mx ex in
  Fin r /\ Signed sx r /\ (F2R GL eG <= Mag r)%R /\ (Mag r <= F2R GU eG)%R.
Proof.
  intros HeG Hp HGU HL HU. unfold binary_round.
  pose proof (fexp_under_pos mx ex p eG ltac:(lra) Hp) as Hf.
  pose proof (shl_align_spec mx ex
                (fexp prec emax (Zpos (digits2_pos mx) + ex))) as Hs.
  destruct (shl_align _ _ _) as [mz ez]. destruct Hs as [Hez Hmz].
  assert (HF : F2R (Zpos mz) ez = F2R (Zpos mx) ex).
  { rewrite Hmz. symmetry. apply F2R_shift. lia. }
  rewrite <- HF in HL, HU.
  apply (round_grid sx (Zpos mz) ez GL GU eG p); auto; lia.
Qed.

Lemma F2R_opp m e : F2R (- m) e = (- F2R m e)%R.
Proof. unfold F2R. rewrite opp_IZR. lra. Qed.

Lemma F2R_plus a b e : F2R (a + b) e = (F2R a e + F2R b e)%R.
Proof. unfold F2R. rewrite plus_IZR. lra. Qed.

Lemma SF2R_Signed_false r : Signed false r -> SF2R r = Mag r.
Proof. destruct r as [| | |sg m e]; simpl; try reflexivity. now intros ->. Qed.

Lemma SF2R_Signed_true r : Signed true r -> SF2R r = (- Mag r)%R.
Proof.
  destruct r as [| | |sg m e]; simpl; intros H; try lra.
  subst sg. simpl. apply (F2R_opp (Zpos m) e).
Qed.

Lemma normalize_grid M ez GL GU eG p sz :
  eG <= emax - prec ->
  fexp prec emax (p + 1) <= eG ->
  (- bpow p <= F2R GL eG)%R -> (F2R GU eG <= bpow p)%R ->
  (F2R GL eG <= F2R M ez)%R -> (F2R M ez <= F2R GU eG)%R ->
  let r := binary_normalize prec emax M ez sz in
  Fin r /\ (F2R GL eG <= SF2R r)%R /\ (SF2R r <= F2R GU eG)%R.
Proof.
  intros HeG Hp HGL HGU HL HU. destruct M as [|q|q]; cbn [binary_normalize].
  - rewrite F2R_0 in HL, HU. simpl. split; [exact I|]. split; lra.
  - destruct (binary_round_grid false q ez GL GU eG p HeG Hp HGU HL HU)
      as (Hf & Hs & H1 & H2).
    rewrite (SF2R_Signed_false _ Hs). auto.
  - change (Zneg q) with (- Zpos q) in HL, HU. rewrite F2R_opp in HL, HU.
    destruct (binary_round_grid true q ez (- GU) (- GL) eG p HeG Hp)
      as (Hf & Hs & H1 & H2); try (rewrite F2R_opp; lra).
    rewrite F2R_opp in H1, H2.
    rewrite (SF2R_Signed_true _ Hs). split; [exact Hf|]. split; lra.
Qed.

Lemma SF2R_finite sg m e :
  SF2R (S754_finite sg m e) = F2R (cond_Zopp sg (Zpos m)) e.
Proof. reflexivity. Qed.

Lemma F2R_cond_shift sg m e e' :
  e' <= e ->
  F2R (cond_Zopp sg (Zpos (fst (shl_align m e e')))) e'
  = F2R (cond_Zopp sg (Zpos m)) e.
Proof.
  intros He. pose proof (shl_align_F2R m e e') as H.
  replace (Z.min e e') with e' in H by lia.
  destruct sg; simpl cond_Zopp.
  - change (Zneg m) with (- Zpos m).
    change (Zneg (fst (shl_align m e e'))) with (- Zpos (fst (shl_align m e e'))).
    rewrite !F2R_opp, H. reflexivity.
  - exact H.
Qed.

(** The sum of two finite numbers is their real sum rounded: it stays
    between the multiples of [2 ^ eG] around it. *)
Lemma SFadd_grid x y GL GU eG p :
  Fin x -> Fin y ->
  eG <= emax - prec ->
  fexp prec emax (p + 1) <= eG ->
  (- bpow p <= F2R GL eG)%R -> (F2R GU eG <= bpow p)%R ->
  (F2R GL eG <= SF2R x + SF2R y)%R -> (SF2R x + SF2R y <= F2R GU eG)%R ->
  let r := SF64add x y in
  Fin r /\ (F2R GL eG <= SF2R r)%R /\ (SF2R r <= F2R GU eG)%R.
Proof.
  intros Hx Hy HeG Hp HGL HGU HL HU.
  destruct x as [sx|sx| |sx mx ex]; simpl in Hx; try tauto;
    destruct y as [sy|sy| |sy my ey]; simpl in Hy; try tauto.
  - assert (E : SF2R (SF64add (S754_zero sx) (S754_zero sy)) = 0%R
                /\ Fin (SF64add (S754_zero sx) (S754_zero sy)))
      by (destruct sx, sy; simpl; auto).
    destruct E as [E F]. cbn zeta. rewrite E. simpl in HL, HU.
    split; [exact F|]. split; lra.
  - cbn zeta. change (SF64add (S754_zero sx) (S754_finite sy my ey))
      with (S754_finite sy my ey).
    change (SF2R (S754_zero sx)) with 0%R in HL, HU.
    split; [exact I|]. split; lra.
  - cbn zeta. change (SF64add (S754_finite sx mx ex) (S754_zero sy))
      with (S754_finite sx mx ex).
    change (SF2R (S754_zero sy)) with 0%R in HL, HU.
    split; [exact I|]. split; lra.
  - cbn zeta. unfold SF64add, SFadd.
    change (IntDef.Z.min ex ey) with (Z.min ex ey).
    set (ez := Z.min ex ey).
    assert (Hzx : ez <= ex) by (subst ez; lia).
    assert (Hzy : ez <= ey) by (subst ez; lia).
    simpl SF2R in HL, HU.
    apply (normalize_grid _ ez GL GU eG p); auto;
      rewrite F2R_plus, (F2R_cond_shift sx mx ex ez Hzx),
        (F2R_cond_shift sy my ey ez Hzy); assumption.
Qed.

End StepFacts.

(** ** The shift search ends *)

Module LoopFacts.
Import Reals Lra.
Import JS FloatClasses FloatFacts Rounding RoundingFacts StepFacts.
Import ShiftSearch.
#[local] Open Scope Z_scope.

Lemma bpow_F2R k : bpow k = F2R 1 k.
Proof. symmetry. apply F2R_1. Qed.

(** [2 ^ a] as a multiple of [2 ^ b]. *)
Lemma bpow_as a b : b <= a -> bpow a = F2R (2 ^ (a - b)) b.
Proof.
  intros H. rewrite bpow_F2R, (F2R_shift 1 a b H). f_equal. lia.
Qed.

Lemma grid_40 : F2R (2 ^ 47) (-7) = bpow 40.
Proof. symmetry. apply (bpow_as 40 (-7)). lia. Qed.

Lemma grid_41 : F2R (2 ^ 48) (-7) = bpow 41.
Proof. symmetry. apply (bpow_as 41 (-7)). lia. Qed.

Lemma grid_42 : F2R (2 ^ 49) (-7) = bpow 42.
Proof. symmetry. apply (bpow_as 42 (-7)). lia. Qed.

Lemma Fin_Below T r : Fin r -> (SF2R r <= T)%R -> Below T r.
Proof.
  destruct r as [s|s| |[|] m e]; simpl; tauto.
Qed.

(** A finite number that is not above such a bound is at most [T]. *)
Lemma le_Below T s b :
  (0 <= T)%R -> Below T b ->
  valid_binary s = true -> valid_binary b = true -> Fin s ->
  SFleb s b = true -> (SF2R s <= T)%R.
Proof.
  intros HT Hb Vs Vb Hs Hle.
  destruct s as [ss|ss| |ss ms es]; simpl in Hs.
  - simpl. exact HT.
  - destruct Hs.
  - destruct Hs.
  - destruct ss.
    + simpl. change (Zneg ms) with (- Zpos ms). rewrite F2R_opp.
      pose proof (F2R_pos ms es). lra.
    + simpl SF2R.
      destruct b as [sb|sb| |sb mb eb]; try discriminate.
      * destruct sb; [discriminate|]. simpl in Hb. tauto.
      * destruct sb; [discriminate|]. simpl in Hb.
        apply valid_canonical in Vs, Vb. destruct Vs as [Cs _], Vb as [Cb _].
        pose proof (le_of_SFleb ms es mb eb Cs Cb Hle). simpl. lra.
Qed.

Lemma Prim2SF_step : Prim2SF 0.01%float = S754_finite false 5764607523034235 (-59).
Proof. reflexivity. Qed.

Lemma step_value :
  (bpow (-7) <= SF2R (Prim2SF 0.01%float))%R
  /\ (SF2R (Prim2SF 0.01%float) <= bpow 0)%R.
Proof.
  rewrite Prim2SF_step. simpl SF2R.
  rewrite (bpow_as (-7) (-59)), (bpow_as 0 (-59)) by lia.
  split; apply F2R_le; vm_compute; discriminate.
Qed.

(** One turn of the search: a shift of magnitude at most [2 ^ 41] that
    is at least [G * 2 ^ -7] becomes one that is at least
    [(G + 1) * 2 ^ -7]. *)
Lemma add_step (s : float) G :
  Fin (Prim2SF s) -> - 2 ^ 48 <= G ->
  (F2R G (-7) <= SF2R (Prim2SF s))%R ->
  (SF2R (Prim2SF s) <= bpow 41)%R ->
  Fin (Prim2SF (s + 0.01)%float)
  /\ (F2R (G + 1) (-7) <= SF2R (Prim2SF (s + 0.01)%float))%R.
Proof.
  intros Hs HG Hlow Hup. rewrite FloatAxioms.add_spec.
  destruct step_value as [Hc1 Hc2].
  pose proof (bpow_le 0 41 ltac:(lia)) as H0.
  pose proof (bpow_succ 41) as H41. change (41 + 1) with 42 in H41.
  pose proof (bpow_le 42 45 ltac:(lia)) as H45.
  pose proof (bpow_pos 41) as Hp41.
  destruct (SFadd_grid (Prim2SF s) (Prim2SF 0.01%float) (G + 1) (2 ^ 49) (-7) 45)
    as (Hf & Hl & _).
  - exact Hs.
  - rewrite Prim2SF_step. exact I.
  - unfold emax, prec. lia.
  - unfold fexp, SpecFloat.emin, emax, prec. lia.
  - rewrite F2R_succ.
    assert (F2R (- 2 ^ 48) (-7) <= F2R G (-7))%R by (apply F2R_le; exact HG).
    rewrite F2R_opp, grid_41 in H.
    pose proof (bpow_pos (-7)). lra.
  - rewrite grid_42. exact H45.
  - rewrite F2R_succ. lra.
  - rewrite grid_42. lra.
  - split; [exact Hf|exact Hl].
Qed.

(** The search ends: each turn moves the shift up by at least [2 ^ -7],
    and the bound is at most [2 ^ 41]. *)
Lemma endsWithin_steps B :
  Below (bpow 41) (Prim2SF B) ->
  forall fuel s G,
    Fin (Prim2SF s) -> - 2 ^ 48 <= G ->
    (F2R G (-7) <= SF2R (Prim2SF s))%R ->
    2 ^ 48 - G < Z.of_nat fuel ->
    endsWithin fuel s B 0.01%float = true.
Proof.
  intros HB. pose proof (bpow_pos 41) as Hp41.
  assert (Hle : forall s, Fin (Prim2SF s) -> le s B = true ->
                          (SF2R (Prim2SF s) <= bpow 41)%R).
  { intros s Hs H. unfold le in H. rewrite FloatAxioms.leb_spec in H.
    apply (le_Below (bpow 41) (Prim2SF s) (Prim2SF B)); auto;
      try apply FloatAxioms.Prim2SF_valid. lra. }
  induction fuel as [|fuel IH]; intros s G Hs HG Hlow Hfuel;
    cbn [endsWithin].
  - destruct (le s B) eqn:E; [|reflexivity].
    specialize (Hle s Hs E).
    assert (F2R (2 ^ 48) (-7) < F2R G (-7))%R by (apply F2R_lt; lia).
    rewrite grid_41 in H. lra.
  - destruct (le s B) eqn:E; [|reflexivity].
    specialize (Hle s Hs E).
    destruct (add_step s G Hs HG Hlow Hle) as [Hs' Hlow'].
    apply (IH _ (G + 1)); auto; lia.
Qed.

Lemma Prim2SF_limit :
  Prim2SF 1e12%float = S754_finite false 8192000000000000 (-13).
Proof. reflexivity. Qed.

Lemma Prim2SF_slack :
  Prim2SF 1e-9%float = S754_finite false 4835703278458517 (-82).
Proof. reflexivity. Qed.

(** A range that is not above [1e12] in magnitude is NaN or a finite
    number of magnitude at most [2 ^ 40]. *)
Lemma range_cases (r : float) :
  gt (Math_abs r) 1e12%float = false ->
  Prim2SF r = S754_nan
  \/ (Fin (Prim2SF r)
      /\ (- bpow 40 <= SF2R (Prim2SF r))%R /\ (SF2R (Prim2SF r) <= bpow 40)%R).
Proof.
  unfold gt, Math_abs. rewrite FloatAxioms.ltb_spec, FloatAxioms.abs_spec,
    Prim2SF_limit.
  pose proof (FloatAxioms.Prim2SF_valid r) as V.
  pose proof (bpow_pos 40) as Hp.
  destruct (Prim2SF r) as [s|s| |s m e]; intros H.
  - right. simpl. split; [exact I|]. split; lra.
  - discriminate H.
  - now left.
  - right. split; [exact I|].
    assert (Hm : (F2R (Zpos m) e <= bpow 40)%R).
    { apply valid_canonical in V. destruct V as [C _].
      assert (C12 : canonical 8192000000000000 (-13)) by reflexivity.
      assert (Hleb : SFleb (S754_finite false m e)
                           (S754_finite false 8192000000000000 (-13)) = true)
        by (apply SFltb_false_leb; [discriminate|discriminate|exact H]).
      pose proof (le_of_SFleb m e _ _ C C12 Hleb) as Hle.
      assert (F2R 8192000000000000 (-13) <= bpow 40)%R.
      { rewrite (bpow_as 40 (-13)) by lia. apply F2R_le.
        vm_compute. discriminate. }
      lra. }
    pose proof (F2R_pos m e).
    destruct s; simpl SF2R.
    + change (Zneg m) with (- Zpos m). rewrite F2R_opp. split; lra.
    + split; lra.
Qed.

Lemma SF2R_opp x : SF2R (SFopp x) = (- SF2R x)%R.
Proof.
  destruct x as [s|s| |s m e]; simpl; try lra.
  destruct s; simpl.
  - change (Zneg m) with (- Zpos m). rewrite F2R_opp. lra.
  - change (Zneg m) with (- Zpos m). rewrite F2R_opp. lra.
Qed.

Lemma Fin_opp x : Fin x -> Fin (SFopp x).
Proof. destruct x; simpl; auto. Qed.

(** The search over a range that is NaN or not above [1e12] in
    magnitude ends within [2 ^ 50] turns. *)
Lemma searchEnds_bounded (r : float) fuel :
  gt (Math_abs r) 1e12%float = false ->
  2 ^ 50 <= Z.of_nat fuel ->
  searchEnds fuel r = true.
Proof.
  intros Hr Hfuel. unfold searchEnds.
  destruct (range_cases r Hr) as [Hnan|(Hf & Hlo & Hhi)].
  - assert (E : le (- r) (r + 1e-9) = false).
    { unfold le. rewrite FloatAxioms.leb_spec, FloatAxioms.opp_spec, Hnan.
      reflexivity. }
    destruct fuel; cbn [endsWithin]; rewrite E; reflexivity.
  - pose proof (bpow_pos 40) as Hp40. pose proof (bpow_succ 40) as H41.
    change (40 + 1) with 41 in H41.
    pose proof (bpow_le 41 45 ltac:(lia)) as H45.
    pose proof (bpow_le 0 40 ltac:(lia)) as H0.
    assert (HB : Below (bpow 41) (Prim2SF (r + 1e-9)%float)).
    { rewrite FloatAxioms.add_spec.
      destruct (SFadd_grid (Prim2SF r) (Prim2SF 1e-9%float) (- 2 ^ 48) (2 ^ 48)
                           (-7) 45) as (Hfb & _ & Hub).
      - exact Hf.
      - rewrite Prim2SF_slack. exact I.
      - unfold emax, prec. lia.
      - unfold fexp, SpecFloat.emin, emax, prec. lia.
      - rewrite F2R_opp, grid_41. lra.
      - rewrite grid_41. lra.
      - rewrite F2R_opp, grid_41.
        assert (0 <= SF2R (Prim2SF 1e-9%float))%R.
        { rewrite Prim2SF_slack. simpl SF2R.
          pose proof (F2R_pos 4835703278458517 (-82)). lra. }
        lra.
      - rewrite grid_41.
        assert (SF2R (Prim2SF 1e-9%float) <= bpow 0)%R.
        { rewrite Prim2SF_slack. simpl SF2R.
          rewrite (bpow_as 0 (-82)) by lia. apply F2R_le.
          vm_compute. discriminate. }
        lra.
      - apply Fin_Below; [exact Hfb|].
        rewrite grid_41 in Hub. exact Hub. }
    apply (endsWithin_steps _ HB fuel (- r)%float (- 2 ^ 47)).
    + rewrite FloatAxioms.opp_spec. apply Fin_opp, Hf.
    + lia.
    + rewrite FloatAxioms.opp_spec, SF2R_opp, F2R_opp.
      rewrite grid_40. lra.
    + lia.
Qed.

End LoopFacts.

(** * The offset-and-merge step *)

Module MergeFacts.
Import JS EventLists EventListFacts Events.

Lemma len_nonneg {A} (l : list A) : 0 <= len l.
Proof. unfold len. lia. Qed.

Lemma len_cons {A} (x : A) l : len (x :: l) = len l + 1.
Proof. unfold len. simpl length. lia. Qed.

Lemma len_map {A B} (f : A -> B) l : len (map f l) = len l.
Proof. unfold len. now rewrite length_map. Qed.

Lemma len_zero {A} (l : list A) : len l = 0 -> l = [].
Proof. destruct l; [auto|]. rewrite len_cons. pose proof (len_nonneg l). lia. Qed.

Lemma numbers_Some l : numbers (map Some l) = l.
Proof. induction l; simpl; congruence. Qed.

Lemma mergeFrom_Subseq g last hs : Subseq (mergeFrom g last hs) hs.
Proof.
  revert last. induction hs as [|h hs IH]; intros last; simpl; [constructor|].
  destruct (g <=? h - last); auto with events.
Qed.

(** Merging an ascending list leaves events at least [g] apart. *)
Lemma mergeFrom_Spaced g last hs :
  Spaced 0 (last :: hs) -> Spaced g (last :: mergeFrom g last hs).
Proof.
  revert last. induction hs as [|h hs IH]; intros last Hs; simpl.
  - constructor.
  - destruct (Z.leb_spec g (h - last)).
    + inversion Hs; subst. constructor; auto; lia.
    + apply IH. eapply Spaced_Subseq; [|exact Hs].
      apply Subseq_keep, Subseq_skip, Subseq_refl.
Qed.

Lemma applyOffsetAndMerge_Merged hsRaw offset minGap nMax :
  Merged hsRaw offset minGap nMax
         (applyOffsetAndMerge hsRaw offset minGap nMax).
Proof.
  unfold applyOffsetAndMerge.
  destruct (len hsRaw =? 0); [constructor|].
  set (kept := filter _ _).
  assert (Hall : Forall (fun i => 0 <= i < nMax
                          /\ exists v, In v hsRaw /\ i = v + offset)
                        (sort afterZ kept)).
  { apply sort_Forall. apply Forall_forall. intros i Hi.
    apply filter_In in Hi. destruct Hi as [Hi Hr].
    apply in_map_iff in Hi. destruct Hi as [v [<- Hv]].
    apply andb_true_iff in Hr. split; [lia|]. eauto. }
  pose proof (sortZ_Spaced kept) as Hs.
  destruct (sort afterZ kept) as [|h0 rest]; [constructor|].
  assert (Hsub : Subseq (h0 :: mergeFrom minGap h0 rest) (h0 :: rest))
    by (apply Subseq_keep, mergeFrom_Subseq).
  pose proof (Subseq_Forall _ _ _ Hsub Hall) as Hall'.
  apply Merged_events.
  - discriminate.
  - apply mergeFrom_Spaced. exact Hs.
  - eapply Spaced_Subseq; eauto.
  - eapply Forall_impl; [|exact Hall']. simpl. tauto.
  - eapply Forall_impl; [|exact Hall']. simpl. tauto.
Qed.

(** An array of two or more events holds numbers only. *)
Lemma applyOffsetAndMerge_numbers hsRaw offset minGap nMax :
  2 <= len (applyOffsetAndMerge hsRaw offset minGap nMax) ->
  applyOffsetAndMerge hsRaw offset minGap nMax
  = map Some (numbers (applyOffsetAndMerge hsRaw offset minGap nMax)).
Proof.
  intros Hlen.
  destruct (applyOffsetAndMerge_Merged hsRaw offset minGap nMax);
    try (unfold len in Hlen; simpl in Hlen; lia).
  now rewrite numbers_Some.
Qed.

(** The events a detector keeps from [applyOffsetAndMerge]. *)
Lemma merged_events hsRaw offset minGap nMax :
  2 <= len (applyOffsetAndMerge hsRaw offset minGap nMax) ->
  let l := numbers (applyOffsetAndMerge hsRaw offset minGap nMax) in
  2 <= len l /\ Spaced minGap l /\ Spaced 0 l
  /\ Forall (fun i => 0 <= i < nMax) l.
Proof.
  intros Hlen l. subst l.
  destruct (applyOffsetAndMerge_Merged hsRaw offset minGap nMax);
    try (unfold len in Hlen; simpl in Hlen; lia).
  rewrite numbers_Some. rewrite len_map in Hlen. auto.
Qed.

(** Both halves of an every-other split, and every every-Nth split,
    keep the spacing. *)
Lemma everyNth_Spaced g m off hs : Spaced g hs -> Spaced g (everyNth m off hs).
Proof. apply Spaced_Subseq, Subseq_everyNth. Qed.

Lemma chooseEveryOther_Subseq score hs fs expected :
  Subseq (chooseEveryOther score hs fs expected) hs.
Proof.
  unfold chooseEveryOther.
  destruct (len hs <? 6); [apply Subseq_refl|].
  destruct (negb _); [apply Subseq_refl|].
  destruct (le _ _); apply Subseq_everyNth.
Qed.

End MergeFacts.

(** * What every detector returns *)

Module DetectFacts.
Import JS Core EventLists EventListFacts Events MergeFacts.

(** A loop that keeps the best candidate so far returns a candidate of
    one of its turns. *)
Lemma fold_left_best {A B} (P : A -> Prop) (f : option A -> B -> option A)
      (l : list B) :
  (forall best b r,
      In b l -> (forall a, best = Some a -> P a) -> f best b = Some r -> P r) ->
  forall best r,
    (forall a, best = Some a -> P a) -> fold_left f l best = Some r -> P r.
Proof.
  induction l as [|b l IH]; intros Hstep best r Hbest Hfold; simpl in Hfold.
  - auto.
  - apply IH with (best := f best b); auto.
    + intros best' b' r' Hin. apply Hstep. now right.
    + intros a Ha. eapply Hstep; eauto. now left.
Qed.

Lemma Good_merged hsRaw offset g n :
  2 <= len (applyOffsetAndMerge hsRaw offset g n) ->
  Good n g (numbers (applyOffsetAndMerge hsRaw offset g n)).
Proof. intros H. apply (merged_events _ _ _ _ H). Qed.

(** ** The revision with video assistance *)

Lemma VideoAssist_onsetStep env fs o med m best k r :
  (forall a, best = Some a ->
             Good (len env) (samples fs (minGapMs o)) (det_hs a)) ->
  VideoAssist.onsetStep env fs o med m best k = Some r ->
  Good (len env) (samples fs (minGapMs o)) (det_hs r).
Proof.
  intros Hbest. unfold VideoAssist.onsetStep.
  destruct (len (filter _ _) =? 0); [auto|].
  set (hs := applyOffsetAndMerge _ _ _ _).
  destruct (Z.ltb_spec (len hs) 2); [auto|].
  assert (Hgood : Good (len env) (samples fs (minGapMs o)) (numbers hs))
    by (apply Good_merged; assumption).
  destruct best as [b|].
  - destruct (lt _ _); intros [= <-]; simpl; auto.
  - intros [= <-]. exact Hgood.
Qed.

Lemma VideoAssist_detectHS_Good env fs o r :
  VideoAssist.detectHS env fs o = Ok r ->
  Good (len env) (samples fs (minGapMs o)) (det_hs r).
Proof.
  unfold VideoAssist.detectHS.
  set (best := if _ && _ then _ else None).
  assert (Hbest : forall a, best = Some a ->
              Good (len env) (samples fs (minGapMs o)) (det_hs a)).
  { subst best. destruct (_ && _); [|discriminate].
    intros a Ha.
    eapply fold_left_best
      with (P := fun a => Good (len env) (samples fs (minGapMs o)) (det_hs a));
      [| |exact Ha]; [|discriminate].
    intros b k r' _ Hb. apply VideoAssist_onsetStep. exact Hb. }
  destruct best as [b|].
  - intros [= <-]. auto.
  - clear Hbest.
    set (peaks := pickPeaksGreedy _ _ _ _).
    destruct (2 <=? len peaks).
    + set (hs := applyOffsetAndMerge _ _ _ _).
      destruct (Z.leb_spec 2 (len hs)).
      * intros [= <-]. simpl. apply Good_merged. assumption.
      * set (hs' := applyOffsetAndMerge _ _ _ _).
        destruct (Z.leb_spec 2 (len hs')); [|discriminate].
        intros [= <-]. simpl. apply Good_merged. assumption.
    + set (hs' := applyOffsetAndMerge _ _ _ _).
      destruct (Z.leb_spec 2 (len hs')); [|discriminate].
      intros [= <-]. simpl. apply Good_merged. assumption.
Qed.

(** ** The revision hardened for the phone *)

Lemma Robust_onsetStep env fs o med m best k r :
  (forall a, best = Some a ->
             Good (len env) (samples fs (minGapMs o)) (det_hs a)) ->
  Robust.onsetStep env fs o med m best k = Some r ->
  Good (len env) (samples fs (minGapMs o)) (det_hs r).
Proof.
  intros Hbest. unfold Robust.onsetStep.
  destruct (len (filter _ _) =? 0); [auto|].
  set (hs := applyOffsetAndMerge _ _ _ _).
  destruct (Z.ltb_spec (len hs) 2); [auto|].
  assert (Hgood : Good (len env) (samples fs (minGapMs o)) (numbers hs))
    by (apply Good_merged; assumption).
  destruct best as [b|].
  - destruct (lt _ _); intros [= <-]; simpl; auto.
  - intros [= <-]. exact Hgood.
Qed.

Lemma Robust_detectHS_Good env fs o r :
  Robust.detectHS env fs o = Ok r ->
  Good (len env) (samples fs (minGapMs o)) (det_hs r).
Proof.
  unfold Robust.detectHS.
  set (best := if _ && _ then _ else None).
  assert (Hbest : forall a, best = Some a ->
              Good (len env) (samples fs (minGapMs o)) (det_hs a)).
  { subst best. destruct (_ && _); [|discriminate].
    intros a Ha.
    eapply fold_left_best
      with (P := fun a => Good (len env) (samples fs (minGapMs o)) (det_hs a));
      [| |exact Ha]; [|discriminate].
    intros b k r' _ Hb. apply Robust_onsetStep. exact Hb. }
  destruct best as [b|].
  - intros [= <-]. auto.
  - clear Hbest.
    set (peaks := pickPeaksGreedy _ _ _ _).
    destruct (2 <=? len peaks); simpl; [|discriminate].
    set (hs := applyOffsetAndMerge _ _ _ _).
    destruct (Z.leb_spec 2 (len hs)); [|discriminate].
    intros [= <-]. simpl. apply Good_merged. assumption.
Qed.

(** ** The onset revision *)

Lemma Onset_candidate env fs o med m k r :
  Onset.candidate env fs o med m k = Some r ->
  Good (len env) (samples fs (minGapMs o)) (det_hs r)
  /\ det_k r = KNum k /\ det_thr r = Onset.threshold med m k.
Proof.
  unfold Onset.candidate.
  set (segs := filter _ _).
  pose proof (sortZ_Spaced (map fst segs)) as Hs.
  destruct (sort afterZ (map fst segs)) as [|h0 rest]; [discriminate|].
  set (hs := filter _ _).
  destruct (Z.ltb_spec (len hs) 2); [discriminate|].
  intros [= <-]. simpl. repeat split; auto.
  - eapply Spaced_Subseq; [apply Subseq_filter|].
    apply Spaced_shift. apply mergeFrom_Spaced. exact Hs.
  - eapply Spaced_Subseq; [apply Subseq_filter|].
    apply Spaced_shift. eapply Spaced_Subseq; [|exact Hs].
    apply Subseq_keep, mergeFrom_Subseq.
  - apply Forall_forall. intros i Hi. apply filter_In in Hi.
    destruct Hi as [_ Hi]. unfold inEnvelope in Hi.
    apply andb_true_iff in Hi. lia.
Qed.

Lemma Onset_detectHS_inv env fs o r :
  Onset.detectHS env fs o = Ok r ->
  Good (len env) (samples fs (minGapMs o)) (det_hs r)
  /\ exists k, In k ks /\ det_k r = KNum k
               /\ det_thr r = Onset.threshold (median env) (mad env) k.
Proof.
  unfold Onset.detectHS.
  destruct (fold_left _ ks None) as [b|] eqn:Hfold; [|discriminate].
  intros [= <-].
  eapply fold_left_best
    with (P := fun r => Good (len env) (samples fs (minGapMs o)) (det_hs r)
                        /\ exists k, In k ks /\ det_k r = KNum k
                           /\ det_thr r
                              = Onset.threshold (median env) (mad env) k);
    [| |exact Hfold]; [|discriminate].
  clear Hfold b. intros best k r Hin Hbest. unfold Onset.step.
  destruct (Onset.candidate env fs o _ _ k) as [c|] eqn:Hc; [|auto].
  apply Onset_candidate in Hc. destruct Hc as (Hg & Hk & Ht).
  assert (Hcand : Good (len env) (samples fs (minGapMs o)) (det_hs c)
                  /\ exists k, In k ks /\ det_k c = KNum k
                     /\ det_thr c
                        = Onset.threshold (median env) (mad env) k)
    by (split; [exact Hg|exists k; auto]).
  destruct best as [b|].
  - destruct (lt _ _); intros [= <-]; auto.
  - intros [= <-]. exact Hcand.
Qed.

End DetectFacts.

(** * The merge of the peak-based revision *)

Module PeakBasedFacts.
Import JS Core EventLists EventListFacts Events MergeFacts DetectFacts.
Import PeakBased.

Lemma range_length a b : length (range a b) = Z.to_nat (b - a).
Proof. unfold range. now rewrite length_map, length_seq. Qed.

Lemma map_fst_combine_map {A B C} (f : A * B -> A * C) (l : list A) (r : list B) :
  (forall a b, fst (f (a, b)) = a) -> length l = length r ->
  map fst (map f (combine l r)) = l.
Proof.
  intros Hf. revert r. induction l as [|a l IH]; intros [|b r] Hlen;
    simpl in *; try discriminate; auto.
  rewrite Hf. f_equal. apply IH. lia.
Qed.

Lemma withStrength_fst hs strength : map fst (withStrength hs strength) = hs.
Proof.
  unfold withStrength. apply map_fst_combine_map.
  - reflexivity.
  - rewrite range_length. unfold len. lia.
Qed.

Lemma insert_byIndex_Spaced x l :
  Spaced 0 (map fst l) -> Spaced 0 (map fst (insert byIndex x l)).
Proof.
  induction l as [|y l IH]; intros Hs; simpl; [constructor|].
  unfold byIndex at 1, afterZ. destruct (Z.ltb_spec 0 (fst x - fst y)).
  - simpl. apply Spaced_intro.
    + intros z Hz. apply in_map_iff in Hz. destruct Hz as [p [<- Hp]].
      apply insert_In in Hp. destruct Hp as [->|Hp]; [lia|].
      eapply Spaced_head; [exact Hs|]. now apply in_map.
    + apply IH. eapply Spaced_tail; eauto.
  - simpl. constructor; auto; lia.
Qed.

Lemma sort_byIndex_Spaced l : Spaced 0 (map fst (sort byIndex l)).
Proof.
  induction l as [|x l IH]; simpl; [constructor|].
  apply insert_byIndex_Spaced. exact IH.
Qed.

(** The merge returns events of its input, in their order. *)
Lemma mergeWith_Subseq g h s ev :
  Subseq (mergeWith g h s ev) ((h, s) :: ev).
Proof.
  revert h s. induction ev as [|[h' s'] rest IH]; intros h s; simpl.
  - apply Subseq_refl.
  - destruct (h' - h <? g).
    + destruct (gt s' s).
      * apply Subseq_skip, IH.
      * eapply Subseq_trans; [apply IH|].
        apply Subseq_keep, Subseq_skip, Subseq_refl.
    + apply Subseq_keep, IH.
Qed.

(** The merge of an ascending list leaves events at least [g] apart. *)
Lemma mergeWith_Spaced g h s ev :
  Spaced 0 (h :: map fst ev) -> Spaced g (map fst (mergeWith g h s ev)).
Proof.
  revert h s. induction ev as [|[h' s'] rest IH]; intros h s Hs; simpl.
  - constructor.
  - simpl in Hs. destruct (Z.ltb_spec (h' - h) g).
    + destruct (gt s' s).
      * apply IH. eapply Spaced_tail; eauto.
      * apply IH. eapply Spaced_Subseq; [|exact Hs].
        apply Subseq_keep, Subseq_skip, Subseq_refl.
    + simpl. apply Spaced_intro.
      * intros x Hx.
        assert (Hin : In x (h' :: map fst rest)).
        { eapply Subseq_In; [|exact Hx].
          apply (Subseq_map fst _ _ (mergeWith_Subseq g h' s' rest)). }
        inversion Hs; subst.
        destruct Hin as [<-|Hin]; [lia|].
        destruct (Spaced_head _ _ _ _ H5 Hin). lia.
      * apply IH. eapply Spaced_tail; eauto.
Qed.

Lemma split_fst {A B} (l : list (A * B)) : fst (split l) = map fst l.
Proof.
  induction l as [|[a b] l IH]; simpl; auto.
  destruct (split l). simpl in *. now f_equal.
Qed.

Lemma split_snd {A B} (l : list (A * B)) : snd (split l) = map snd l.
Proof.
  induction l as [|[a b] l IH]; simpl; auto.
  destruct (split l). simpl in *. now f_equal.
Qed.

(** [mergeByMinGap] on ascending events: the events kept are events of
    the input, in their order, at least [minGap] apart. *)
Lemma mergeByMinGap_Spaced g hs strength :
  Spaced 0 hs ->
  Spaced g (fst (mergeByMinGap g hs strength))
  /\ Subseq (fst (mergeByMinGap g hs strength)) hs.
Proof.
  intros Hs. unfold mergeByMinGap.
  pose proof (withStrength_fst hs strength) as Hfst.
  destruct (withStrength hs strength) as [|[h0 s0] rest].
  - simpl. split; [|apply Subseq_refl].
    simpl in Hfst. subst hs. constructor.
  - rewrite split_fst. simpl in Hfst. subst hs. split.
    + apply mergeWith_Spaced. exact Hs.
    + apply (Subseq_map fst _ _ (mergeWith_Subseq g h0 s0 rest)).
Qed.

Lemma chooseEveryOtherIfDouble_Subseq fs o hs :
  Subseq (chooseEveryOtherIfDouble fs o hs) hs.
Proof.
  unfold chooseEveryOtherIfDouble.
  destruct (_ || _); [apply Subseq_refl|].
  destruct (negb _); [apply Subseq_refl|].
  destruct (le _ _); apply Subseq_everyNth.
Qed.

Lemma rawEvents_range env back fwd offset segs :
  Forall (fun i => 0 <= i < len env)
         (map fst (rawEvents env back fwd offset segs)).
Proof.
  apply Forall_forall. intros i Hi.
  apply in_map_iff in Hi. destruct Hi as [[h pv] [<- Hin]].
  apply filter_In in Hin. destruct Hin as [_ Hr].
  apply andb_true_iff in Hr. simpl. lia.
Qed.

Lemma candidate_inv env fs o med md k r :
  candidate env fs o med md k = Some r ->
  Good (len env) (minGapOf fs o) (det_hs r)
  /\ det_k r = KNum k /\ det_thr r = threshold med md k.
Proof.
  unfold candidate.
  destruct (len (bursts _ _) =? 0); [discriminate|].
  set (ord := sort byIndex _).
  set (merged := mergeByMinGap _ _ _).
  set (hsFinal := chooseEveryOtherIfDouble _ _ _).
  destruct (Z.ltb_spec (len hsFinal) 2); [discriminate|].
  intros [= <-]. simpl.
  destruct (mergeByMinGap_Spaced (minGapOf fs o) (map fst ord) (map snd ord)
              (sort_byIndex_Spaced _)) as [Hsp Hsub].
  fold merged in Hsp, Hsub.
  pose proof (chooseEveryOtherIfDouble_Subseq fs o (fst merged)) as Hsub'.
  fold hsFinal in Hsub'.
  repeat split; auto.
  - eapply Spaced_Subseq; eauto.
  - eapply Spaced_Subseq; [exact Hsub'|].
    eapply Spaced_Subseq; [exact Hsub|]. apply sort_byIndex_Spaced.
  - eapply Subseq_Forall; [exact Hsub'|].
    eapply Subseq_Forall; [exact Hsub|].
    subst ord.
    assert (Hall : Forall (fun p : Z * float => 0 <= fst p < len env)
                     (sort byIndex
                        (rawEvents env (samples fs (peakBackMs o))
                           (samples fs (peakForwardMs o))
                           (samples fs (offsetMs o))
                           (bursts (minBurstOf fs o)
                              (map (fun v => gt v (threshold med md k)) env))))).
    { apply sort_Forall.
      pose proof (rawEvents_range env (samples fs (peakBackMs o))
                    (samples fs (peakForwardMs o)) (samples fs (offsetMs o))
                    (bursts (minBurstOf fs o)
                       (map (fun v => gt v (threshold med md k)) env))) as Hr.
      rewrite Forall_map in Hr. exact Hr. }
    rewrite Forall_map. exact Hall.
Qed.

Lemma detectHS_inv env fs o r :
  detectHS env fs o = Ok r ->
  Good (len env) (minGapOf fs o) (det_hs r)
  /\ exists k, In k ks /\ det_k r = KNum k
               /\ det_thr r = threshold (median env) (spread env) k.
Proof.
  unfold detectHS.
  destruct (fold_left _ ks None) as [b|] eqn:Hfold; [|discriminate].
  destruct (len (det_hs b) <? 2); [discriminate|].
  intros [= <-].
  eapply fold_left_best
    with (P := fun r => Good (len env) (minGapOf fs o) (det_hs r)
                        /\ exists k, In k ks /\ det_k r = KNum k
                           /\ det_thr r
                              = threshold (median env) (spread env) k);
    [| |exact Hfold]; [|discriminate].
  clear Hfold b. intros best k r Hin Hbest. unfold step.
  destruct (candidate env fs o _ _ k) as [c|] eqn:Hc; [|auto].
  apply candidate_inv in Hc. destruct Hc as (Hg & Hk & Ht).
  assert (Hcand : Good (len env) (minGapOf fs o) (det_hs c)
                  /\ exists k, In k ks /\ det_k c = KNum k
                     /\ det_thr c = threshold (median env) (spread env) k)
    by (split; [exact Hg|exists k; auto]).
  destruct best as [b|].
  - destruct (lt _ _); intros [= <-]; auto.
  - intros [= <-]. exact Hcand.
Qed.

End PeakBasedFacts.

(** * Envelopes with fewer than two bursts *)

Module ConstantFacts.
Import JS Core EventLists EventListFacts Events MergeFacts DetectFacts.
Import FloatFacts.

Lemma In_range a b i : In i (range a b) <-> a <= i < b.
Proof.
  unfold range. rewrite in_map_iff. split.
  - intros [k [<- Hk]]. apply in_seq in Hk. lia.
  - intros Hi. exists (Z.to_nat (i - a)). split; [lia|].
    apply in_seq. lia.
Qed.

Lemma filter_none {A} (f : A -> bool) l :
  (forall x, In x l -> f x = false) -> filter f l = [].
Proof.
  induction l as [|x l IH]; intros H; simpl; auto.
  rewrite (H x (or_introl eq_refl)). apply IH. intros y Hy. apply H. now right.
Qed.

Lemma getb_repeat b n i :
  0 <= i < Z.of_nat n -> getb (repeat b n) i = b.
Proof.
  intros Hi. unfold getb. destruct (Z.ltb_spec i 0); [lia|].
  apply nth_repeat_lt. lia.
Qed.

Lemma get_repeat c n i : 0 <= i < Z.of_nat n -> get (repeat c n) i = c.
Proof.
  intros Hi. unfold get. destruct (Z.ltb_spec i 0); [lia|].
  apply nth_repeat_lt. lia.
Qed.

Lemma len_repeat {A} (x : A) n : len (repeat x n) = Z.of_nat n.
Proof. unfold len. now rewrite repeat_length. Qed.

(** A constant mask has no burst, or the one burst of the whole record. *)
Lemma risingEdges_constant b n : (length (risingEdges (repeat b n)) <= 1)%nat.
Proof.
  unfold risingEdges. rewrite len_repeat.
  rewrite !filter_none.
  - destruct (getb _ 0), (getb _ (Z.of_nat n - 1)); simpl; lia.
  - intros i Hi. apply In_range in Hi.
    rewrite !getb_repeat by lia. destruct b; reflexivity.
  - intros i Hi. apply In_range in Hi.
    rewrite !getb_repeat by lia. destruct b; reflexivity.
Qed.

Lemma mask_constant c thr n :
  map (fun v => gt v thr) (repeat c n) = repeat (gt c thr) n.
Proof. induction n; simpl; congruence. Qed.

Lemma filter_length_le {A} (f : A -> bool) l :
  (length (filter f l) <= length l)%nat.
Proof. apply Subseq_length, Subseq_filter. Qed.

(** [applyOffsetAndMerge] returns no more events than it is given,
    the array [[undefined]] apart. *)
Lemma applyOffsetAndMerge_length hsRaw offset g n :
  (length (applyOffsetAndMerge hsRaw offset g n) <= Nat.max 1 (length hsRaw))%nat.
Proof.
  unfold applyOffsetAndMerge.
  destruct (len hsRaw =? 0); [simpl length; lia|].
  set (kept := filter _ _).
  assert (Hk : (length (sort afterZ kept) <= length hsRaw)%nat).
  { rewrite sort_length. subst kept.
    etransitivity; [apply filter_length_le|]. now rewrite length_map. }
  destruct (sort afterZ kept) as [|h0 rest]; [simpl length; lia|].
  rewrite length_map. simpl length in *.
  pose proof (Subseq_length _ _ (mergeFrom_Subseq g h0 rest)). lia.
Qed.

Lemma localMaxima_constant c n : localMaxima (repeat c n) = [].
Proof.
  unfold localMaxima. apply filter_none. intros i Hi.
  apply In_range in Hi. rewrite len_repeat in Hi.
  rewrite !get_repeat by lia. now rewrite gt_irrefl.
Qed.

Lemma pickPeaksGreedy_constant c n minDist thr maxCount :
  pickPeaksGreedy (repeat c n) minDist thr maxCount = [].
Proof.
  unfold pickPeaksGreedy. rewrite localMaxima_constant. reflexivity.
Qed.

Lemma len_lt_2 {A} (l : list A) : (length l <= 1)%nat -> (len l <? 2) = true.
Proof. intros H. apply Z.ltb_lt. unfold len. lia. Qed.

Lemma fold_left_same {A B} (f : A -> B -> A) l a :
  (forall b, f a b = a) -> fold_left f l a = a.
Proof. intros H. induction l; simpl; auto. now rewrite H. Qed.

(** ** No onset candidate from a constant envelope *)

Lemma VideoAssist_onsetStep_constant c n fs o med m best k :
  VideoAssist.onsetStep (repeat c n) fs o med m best k = best.
Proof.
  unfold VideoAssist.onsetStep. rewrite mask_constant.
  set (segs := filter _ _).
  assert (Hsegs : (length segs <= 1)%nat).
  { subst segs. etransitivity; [apply filter_length_le|].
    apply risingEdges_constant. }
  destruct (len segs =? 0); [reflexivity|].
  rewrite len_lt_2; [reflexivity|].
  etransitivity; [apply applyOffsetAndMerge_length|].
  rewrite length_map. lia.
Qed.

Lemma Robust_onsetStep_constant c n fs o med m best k :
  Robust.onsetStep (repeat c n) fs o med m best k = best.
Proof.
  unfold Robust.onsetStep. rewrite mask_constant.
  set (segs := filter _ _).
  assert (Hsegs : (length segs <= 1)%nat).
  { subst segs. etransitivity; [apply filter_length_le|].
    apply risingEdges_constant. }
  destruct (len segs =? 0); [reflexivity|].
  rewrite len_lt_2; [reflexivity|].
  etransitivity; [apply applyOffsetAndMerge_length|].
  rewrite length_map. lia.
Qed.

Lemma VideoAssist_detectHS_constant c n fs o :
  VideoAssist.detectHS (repeat c n) fs o = Throw DetectionFailure.
Proof.
  unfold VideoAssist.detectHS.
  rewrite fold_left_same by (intros; apply VideoAssist_onsetStep_constant).
  rewrite pickPeaksGreedy_constant.
  destruct (_ && _); reflexivity.
Qed.

Lemma Robust_detectHS_constant c n fs o :
  Robust.detectHS (repeat c n) fs o = Throw DetectionFailure.
Proof.
  unfold Robust.detectHS.
  rewrite fold_left_same by (intros; apply Robust_onsetStep_constant).
  rewrite pickPeaksGreedy_constant.
  destruct (_ && _); reflexivity.
Qed.

Lemma Onset_candidate_constant c n fs o med m k :
  Onset.candidate (repeat c n) fs o med m k = None.
Proof.
  unfold Onset.candidate. rewrite mask_constant.
  set (segs := filter _ _).
  assert (Hsegs : (length (sort afterZ (map fst segs)) <= 1)%nat).
  { rewrite sort_length, length_map. subst segs.
    etransitivity; [apply filter_length_le|]. apply risingEdges_constant. }
  destruct (sort afterZ (map fst segs)) as [|h0 rest]; [reflexivity|].
  rewrite len_lt_2; [reflexivity|].
  etransitivity; [apply filter_length_le|].
  rewrite length_map. simpl in *.
  pose proof (Subseq_length _ _ (mergeFrom_Subseq (samples fs (minGapMs o)) h0 rest)).
  lia.
Qed.

Lemma Onset_detectHS_constant c n fs o :
  Onset.detectHS (repeat c n) fs o = Throw DetectionFailure.
Proof.
  unfold Onset.detectHS.
  rewrite fold_left_same; [reflexivity|].
  intros k. unfold Onset.step. now rewrite Onset_candidate_constant.
Qed.

Lemma PeakBased_candidate_constant c n fs o med md k :
  PeakBased.candidate (repeat c n) fs o med md k = None.
Proof.
  unfold PeakBased.candidate. rewrite mask_constant.
  set (segs := PeakBased.bursts _ _).
  assert (Hsegs : (length segs <= 1)%nat).
  { subst segs. unfold PeakBased.bursts.
    etransitivity; [apply filter_length_le|].
    rewrite !length_map. apply risingEdges_constant. }
  destruct (len segs =? 0); [reflexivity|].
  set (ord := sort PeakBased.byIndex _).
  assert (Hord : (length ord <= 1)%nat).
  { subst ord. rewrite sort_length. unfold PeakBased.rawEvents.
    etransitivity; [apply filter_length_le|]. rewrite length_map. lia. }
  rewrite len_lt_2; [reflexivity|].
  etransitivity;
    [apply Subseq_length, PeakBasedFacts.chooseEveryOtherIfDouble_Subseq|].
  etransitivity;
    [apply Subseq_length, PeakBasedFacts.mergeByMinGap_Spaced,
       PeakBasedFacts.sort_byIndex_Spaced|].
  rewrite length_map. exact Hord.
Qed.

Lemma PeakBased_detectHS_constant c n fs o :
  PeakBased.detectHS (repeat c n) fs o = Throw DetectionFailure.
Proof.
  unfold PeakBased.detectHS.
  rewrite fold_left_same; [reflexivity|].
  intros k. unfold PeakBased.step. now rewrite PeakBased_candidate_constant.
Qed.

End ConstantFacts.

(** * Matching against the events of the video *)

Module VideoFacts.
Import JS Core EventLists EventListFacts Events MergeFacts.
Import ConstantFacts PeakBasedFacts VideoAssist.

(** Every position the walk returns is the position of an EMG event
    that lies within the tolerance of a video event at this shift. *)
Lemma matchFrom_sound shift tolSec et vt k :
  In k (matchFrom shift tolSec et vt) ->
  exists v b, In (v, k) et /\ In b vt
              /\ le (Math_abs ((v + shift) - b)%float) tolSec = true.
Proof.
  revert vt. induction et as [|[v k'] et IH]; intros vt.
  - destruct vt; simpl; tauto.
  - induction vt as [|b vt IHv]; [simpl; tauto|].
    simpl. destruct (le (Math_abs _) tolSec) eqn:Hclose.
    + intros [<-|Hin].
      * exists v, b. simpl. auto.
      * destruct (IH _ Hin) as (v' & b' & Hv & Hb & Hc).
        exists v', b'. simpl. auto.
    + destruct (lt _ _).
      * intros Hin. destruct (IH _ Hin) as (v' & b' & Hv & Hb & Hc).
        exists v', b'. simpl. auto.
      * intros Hin. destruct (IHv Hin) as (v' & b' & Hv & Hb & Hc).
        exists v', b'. simpl in *. intuition.
Qed.

(** The positions returned are positions of [et], in its order. *)
Lemma matchFrom_Subseq shift tolSec et vt :
  Subseq (matchFrom shift tolSec et vt) (map snd et).
Proof.
  revert vt. induction et as [|[v k'] et IH]; intros vt.
  - destruct vt; simpl; constructor.
  - induction vt as [|b vt IHv]; [simpl; apply Subseq_nil_l|].
    simpl. destruct (le (Math_abs _) tolSec).
    + apply Subseq_keep, IH.
    + destruct (lt _ _); [apply Subseq_skip, IH|exact IHv].
Qed.

Lemma range_cons a b : a < b -> range a b = a :: range (a + 1) b.
Proof.
  intros Hab. unfold range.
  replace (Z.to_nat (b - a)) with (S (Z.to_nat (b - (a + 1)))) by lia.
  simpl. f_equal; [lia|].
  rewrite <- seq_shift, map_map. apply map_ext. intros k. lia.
Qed.

Lemma range_nil a b : b <= a -> range a b = [].
Proof. intros H. unfold range. now replace (Z.to_nat (b - a)) with 0%nat by lia. Qed.

Lemma NoDup_map_inj {A B} (f : A -> B) l :
  (forall x y, f x = f y -> x = y) -> NoDup l -> NoDup (map f l).
Proof.
  intros Hinj. induction 1 as [|x l Hx Hnd IH]; simpl; constructor; auto.
  intros Hin. apply in_map_iff in Hin. destruct Hin as [y [Hy Hin]].
  apply Hinj in Hy. now subst.
Qed.

Lemma range_NoDup a b : NoDup (range a b).
Proof.
  unfold range. apply NoDup_map_inj; [|apply seq_NoDup].
  intros x y. lia.
Qed.

Lemma Subseq_NoDup {A} (l' l : list A) : Subseq l' l -> NoDup l -> NoDup l'.
Proof.
  induction 1; intros Hnd; auto.
  - inversion Hnd; auto.
  - inversion Hnd; subst. constructor; auto.
    intros Hin. apply H2. eapply Subseq_In; eauto.
Qed.

Lemma map_snd_combine {A B} (l : list A) (r : list B) :
  length l = length r -> map snd (combine l r) = r.
Proof.
  revert r. induction l as [|a l IH]; intros [|b r] Hlen;
    simpl in *; try discriminate; auto.
  f_equal. apply IH. lia.
Qed.

Lemma map_fst_combine {A B} (l : list A) (r : list B) :
  length l = length r -> map fst (combine l r) = l.
Proof.
  revert r. induction l as [|a l IH]; intros [|b r] Hlen;
    simpl in *; try discriminate; auto.
  f_equal. apply IH. lia.
Qed.

Lemma indexed_snd xs : map snd (indexed xs) = range 0 (len xs).
Proof.
  unfold indexed. apply map_snd_combine.
  rewrite range_length. unfold len. lia.
Qed.

(** The positions of a sorted, indexed array are still the positions
    [0 .. n-1], each once. *)
Lemma insert_Permutation_snd {A} (after : A -> A -> bool) x l y :
  In y (insert after x l) <-> In y (x :: l).
Proof. rewrite insert_In. simpl. intuition. Qed.

Lemma insert_NoDup {A B} (after : A * B -> A * B -> bool) x l :
  NoDup (map snd (x :: l)) -> NoDup (map snd (insert after x l)).
Proof.
  induction l as [|y l IH]; intros Hnd; simpl; auto.
  destruct (after x y); [|exact Hnd].
  simpl in *. inversion Hnd as [|? ? Hx Hnd']; subst.
  inversion Hnd' as [|? ? Hy Hnd'']; subst.
  constructor.
  - intros Hin. apply in_map_iff in Hin. destruct Hin as [p [Hp Hin]].
    apply insert_In in Hin. destruct Hin as [->|Hin].
    + apply Hx. left. auto.
    + apply Hy. rewrite <- Hp. now apply in_map.
  - apply IH. constructor; auto. intros Hin. apply Hx. now right.
Qed.

Lemma sort_NoDup_snd {A B} (after : A * B -> A * B -> bool) l :
  NoDup (map snd l) -> NoDup (map snd (sort after l)).
Proof.
  induction l as [|x l IH]; intros Hnd; simpl; [constructor|].
  apply insert_NoDup. simpl. inversion Hnd; subst. constructor; auto.
  intros Hin. apply H1. apply in_map_iff in Hin. destruct Hin as [p [Hp Hin]].
  apply sort_In in Hin. rewrite <- Hp. now apply in_map.
Qed.

(** The positions matched at a shift: distinct positions of [hsIdx]. *)
Lemma keepSet_positions shift tolSec emgTimes videoEvents :
  let keepSet :=
    matchFrom shift tolSec (sort byTime (indexed emgTimes))
              (sort afterF videoEvents) in
  NoDup keepSet /\ forall k, In k keepSet -> 0 <= k < len emgTimes.
Proof.
  intros keepSet.
  pose proof (matchFrom_Subseq shift tolSec (sort byTime (indexed emgTimes))
                (sort afterF videoEvents)) as Hsub.
  fold keepSet in Hsub. split.
  - eapply Subseq_NoDup; [exact Hsub|].
    apply sort_NoDup_snd. rewrite indexed_snd. apply range_NoDup.
  - intros k Hk. pose proof (Subseq_In _ _ _ Hsub Hk) as Hin.
    apply in_map_iff in Hin. destruct Hin as [p [<- Hp]].
    apply sort_In in Hp.
    assert (Hr : In (snd p) (map snd (indexed emgTimes))) by now apply in_map.
    rewrite indexed_snd in Hr. now apply In_range in Hr.
Qed.

Lemma existsb_eqb_In k l : existsb (Z.eqb k) l = true <-> In k l.
Proof.
  rewrite existsb_exists. split.
  - intros [x [Hx Hk]]. apply Z.eqb_eq in Hk. now subst.
  - intros Hk. exists k. split; [exact Hk|apply Z.eqb_refl].
Qed.

Lemma filter_map_snd {A} (f : Z -> bool) (l : list (A * Z)) :
  map snd (filter (fun '(_, k) => f k) l) = filter f (map snd l).
Proof.
  induction l as [|[a k] l IH]; simpl; auto.
  destruct (f k); simpl; now rewrite IH.
Qed.

(** The events kept are as many as the positions matched. *)
Lemma keepAt_length shift tolSec hsIdx videoEvents emgTimes :
  len emgTimes = len hsIdx ->
  len (keepAt shift tolSec hsIdx emgTimes videoEvents)
  = len (matchFrom shift tolSec (sort byTime (indexed emgTimes))
                   (sort afterF videoEvents)).
Proof.
  intros Hlen. unfold keepAt.
  set (keepSet := matchFrom _ _ _ _).
  destruct (keepSet_positions shift tolSec emgTimes videoEvents) as [Hnd Hr].
  fold keepSet in Hnd, Hr.
  unfold len at 1. rewrite length_map.
  rewrite <- (length_map snd), filter_map_snd.
  rewrite map_snd_combine by (rewrite range_length; unfold len; lia).
  unfold len. f_equal. apply Nat.le_antisymm.
  - apply NoDup_incl_length.
    + apply NoDup_filter, range_NoDup.
    + intros k Hk. apply filter_In in Hk. now apply existsb_eqb_In.
  - apply NoDup_incl_length; [exact Hnd|].
    intros k Hk. apply filter_In. split.
    + apply In_range. specialize (Hr k Hk). unfold len in *. lia.
    + now apply existsb_eqb_In.
Qed.

Lemma keepAt_Subseq shift tolSec hsIdx emgTimes videoEvents :
  Subseq (keepAt shift tolSec hsIdx emgTimes videoEvents) hsIdx.
Proof.
  unfold keepAt.
  set (f := fun '(_, k) => existsb (Z.eqb k) _).
  pose proof (Subseq_map fst _ _
                (Subseq_filter f (combine hsIdx (range 0 (len hsIdx))))) as H.
  rewrite (map_fst_combine hsIdx (range 0 (len hsIdx))) in H
    by (rewrite range_length; unfold len; lia).
  exact H.
Qed.

Lemma In_combine_range {A} (l : list A) a h k :
  In (h, k) (combine l (range a (a + len l))) ->
  a <= k /\ nth_error l (Z.to_nat (k - a)) = Some h.
Proof.
  revert a. induction l as [|x l IH]; intros a Hin; [destruct Hin|].
  rewrite len_cons in Hin. rewrite range_cons in Hin by (pose proof (len_nonneg l); lia).
  simpl in Hin. destruct Hin as [[= -> ->]|Hin].
  - split; [lia|]. now replace (Z.to_nat (k - k)) with 0%nat by lia.
  - replace (a + (len l + 1)) with (a + 1 + len l) in Hin by lia.
    destruct (IH _ Hin) as [Hk Hn]. split; [lia|].
    replace (Z.to_nat (k - a)) with (S (Z.to_nat (k - (a + 1)))) by lia.
    exact Hn.
Qed.

(** Every event kept has a video event within the tolerance once its
    time is shifted. *)
Lemma keepAt_sound shift tolSec hsIdx tSec videoEvents h :
  In h (keepAt shift tolSec hsIdx (map (get tSec) hsIdx) videoEvents) ->
  exists b, In b videoEvents
            /\ le (Math_abs ((get tSec h + shift) - b)%float) tolSec = true.
Proof.
  unfold keepAt. intros Hin.
  apply in_map_iff in Hin. destruct Hin as [[h' k] [Hh Hin]].
  simpl in Hh. subst h'.
  apply filter_In in Hin. destruct Hin as [Hpos Hk].
  apply existsb_eqb_In in Hk.
  apply matchFrom_sound in Hk. destruct Hk as (v & b & Hv & Hb & Hc).
  apply sort_In in Hv. apply sort_In in Hb.
  exists b. split; [exact Hb|].
  replace (get tSec h) with v; [exact Hc|].
  unfold indexed in Hv.
  apply (In_combine_range _ 0) in Hv. apply (In_combine_range _ 0) in Hpos.
  destruct Hv as [_ Hv], Hpos as [_ Hpos].
  rewrite Z.sub_0_r in *.
  rewrite nth_error_map, Hpos in Hv. simpl in Hv. congruence.
Qed.

Lemma keepHsMatchedToVideo_inv fuel hsIdx tSec videoEvents syncRange tolMs r :
  keepHsMatchedToVideo fuel hsIdx tSec videoEvents syncRange tolMs = Some r ->
  hsKept r = keepAt (kept_shift r) (tolMs / 1000)%float hsIdx
                    (map (get tSec) hsIdx) videoEvents
  /\ matched r = len (hsKept r) /\ raw r = len hsIdx.
Proof.
  unfold keepHsMatchedToVideo.
  destruct (bestShiftMatch _ _ _ _ _ _) as [[shift score]|]; [|discriminate].
  intros [= <-]. simpl. auto.
Qed.

Lemma VideoAssist_chooseEveryOtherIfDouble_Subseq hs fs expected :
  Subseq (chooseEveryOtherIfDouble hs fs expected) hs.
Proof. apply chooseEveryOther_Subseq. Qed.

End VideoFacts.

(** * The pairs of the reconciler *)

Module PairFacts.
Import JS Core EventLists EventListFacts Events MergeFacts.
Import ConstantFacts PeakBasedFacts VideoFacts.
Import VideoAssist ShiftSearch ReconcilerProps.

(** More turns do not change the outcome of a search that ended. *)
Lemma shiftLoop_mono count bound stepSec fuel : forall fuel' s best r,
  shiftLoop fuel count s bound stepSec best = Some r ->
  (fuel <= fuel')%nat ->
  shiftLoop fuel' count s bound stepSec best = Some r.
Proof.
  induction fuel as [|fuel IH]; intros fuel' s best r; cbn [shiftLoop].
  - destruct (le s bound) eqn:E; [discriminate|]. intros H _.
    destruct fuel'; cbn [shiftLoop]; rewrite E; exact H.
  - destruct (le s bound) eqn:E.
    + intros H Hf. destruct fuel' as [|fuel']; [lia|].
      cbn [shiftLoop]. rewrite E. apply IH; [exact H|lia].
    + intros H _. destruct fuel'; cbn [shiftLoop]; rewrite E; exact H.
Qed.

(** A shift that the step does not move, and that is not above the
    bound, is tried for ever. *)
Lemma shiftLoop_stuck count s bound stepSec :
  (s + stepSec)%float = s -> le s bound = true ->
  forall fuel best, shiftLoop fuel count s bound stepSec best = None.
Proof.
  intros Hs Hle. induction fuel as [|fuel IH]; intros best; cbn [shiftLoop];
    rewrite Hle; [reflexivity|]. rewrite Hs. apply IH.
Qed.

(** ** Events inside the time axis *)

Lemma item_get tSec i :
  0 <= i < len tSec -> item tSec i = Some (get tSec i).
Proof.
  intros Hi. unfold item, get.
  destruct (Z.ltb_spec i 0); [lia|].
  apply nth_error_nth'. unfold len in Hi. lia.
Qed.

Lemma map_item_get tSec hsIdx :
  Forall (fun i => 0 <= i < len tSec) hsIdx ->
  map (item tSec) hsIdx = map Some (map (get tSec) hsIdx).
Proof.
  induction 1 as [|i l Hi _ IH]; [reflexivity|].
  cbn [map]. rewrite IH, item_get by exact Hi. reflexivity.
Qed.

Lemma numbersOf_Some l : numbersOf (map Some l) = l.
Proof. induction l as [|a l IH]; [reflexivity|]. cbn. now rewrite IH. Qed.

Lemma sortedTimes_Some l : sortedTimes (map Some l) = sort afterF l.
Proof.
  unfold sortedTimes. rewrite numbersOf_Some, length_map, Nat.sub_diag.
  apply app_nil_r.
Qed.

(** ** Sorting the times with their positions *)

Lemma insert_fst (x : float * Z) l :
  map fst (insert byTime x l) = insert afterF (fst x) (map fst l).
Proof.
  induction l as [|y l IH]; cbn [insert map]; [reflexivity|].
  unfold byTime at 1. destruct (afterF (fst x) (fst y)); cbn [map];
    [rewrite IH|]; reflexivity.
Qed.

Lemma sort_fst (l : list (float * Z)) :
  map fst (sort byTime l) = sort afterF (map fst l).
Proof.
  unfold sort. induction l as [|x l IH]; [reflexivity|].
  cbn [fold_right map]. rewrite insert_fst, IH. reflexivity.
Qed.

Lemma indexed_fst xs : map fst (indexed xs) = xs.
Proof.
  unfold indexed. apply map_fst_combine.
  rewrite range_length. unfold len. lia.
Qed.

Lemma sort_Ascending l : Ascending l -> sort afterF l = l.
Proof.
  unfold sort. induction 1 as [| |a b l Hab _ IH]; [reflexivity..|].
  cbn [fold_right] in *. rewrite IH. cbn [insert]. rewrite Hab. reflexivity.
Qed.

Lemma sort_byTime_Ascending (l : list (float * Z)) :
  Ascending (map fst l) -> sort byTime l = l.
Proof.
  unfold sort. induction l as [|x [|y l] IH]; intros H; [reflexivity..|].
  cbn [map] in H. inversion H as [| |a b l' Hab Hrest]. subst.
  change (fold_right (insert byTime) [] (x :: y :: l))
    with (insert byTime x (fold_right (insert byTime) [] (y :: l))).
  rewrite (IH Hrest). cbn [insert]. unfold byTime. rewrite Hab. reflexivity.
Qed.

(** ** The walk *)

(** How many pairs the walk finds depends on the times only. *)
Lemma matchFrom_length_fst shift tolSec : forall et et' vt,
  map fst et = map fst et' ->
  length (matchFrom shift tolSec et vt) = length (matchFrom shift tolSec et' vt).
Proof.
  induction et as [|[v k] et IH]; intros [|[v' k'] et'] vt H;
    try discriminate H.
  - reflexivity.
  - cbn [map fst] in H. injection H as <- H.
    induction vt as [|b vt IHv]; [reflexivity|].
    cbn [matchFrom]. destruct (le (Math_abs _) tolSec).
    + cbn [length]. f_equal. apply IH, H.
    + destruct (lt _ _); [apply IH, H|exact IHv].
Qed.

(** Every pair takes a video event of its own. *)
Lemma matchFrom_length_le shift tolSec : forall et vt,
  (length (matchFrom shift tolSec et vt) <= length vt)%nat.
Proof.
  induction et as [|[v k] et IH]; intros vt.
  - destruct vt; cbn; lia.
  - induction vt as [|b vt IHv]; [cbn; lia|].
    cbn [matchFrom]. destruct (le (Math_abs _) tolSec).
    + cbn [length]. specialize (IH vt). lia.
    + destruct (lt _ _).
      * exact (IH (b :: vt)).
      * apply Nat.le_trans with (length vt); [exact IHv|cbn [length]; lia].
Qed.

(** When the [i]-th time is within the tolerance of the [i]-th video
    event for every [i], the walk pairs them all. *)
Lemma matchFrom_aligned shift tolSec : forall et vt,
  Forall (fun '((v, _), b) =>
            le (Math_abs ((v + shift) - b)%float) tolSec = true)
         (combine et vt) ->
  matchFrom shift tolSec et vt = map snd (firstn (length vt) et).
Proof.
  induction et as [|[v k] et IH]; intros vt H.
  - rewrite firstn_nil. destruct vt; reflexivity.
  - destruct vt as [|b vt]; [reflexivity|].
    cbn [combine] in H. inversion H as [|? ? Hc Hrest]. subst.
    cbn [matchFrom]. rewrite Hc. cbn [length firstn map snd].
    f_equal. apply IH, Hrest.
Qed.

(** ** The events kept *)

Lemma filter_firstn {A} (idx : list Z) : NoDup idx ->
  forall m (l : list (A * Z)),
    map snd l = idx ->
    filter (fun '(_, k) => existsb (Z.eqb k) (firstn m idx)) l = firstn m l.
Proof.
  induction 1 as [|k idx Hk Hnd IH]; intros m l Hl.
  - apply map_eq_nil in Hl. subst l. destruct m; reflexivity.
  - destruct l as [|[h k'] l]; [discriminate Hl|].
    cbn [map snd] in Hl. injection Hl as -> Hl.
    destruct m as [|m].
    + cbn [firstn existsb]. cbn [filter].
      rewrite <- (IH 0%nat l Hl) at 1. cbn [firstn]. reflexivity.
    + cbn [firstn existsb filter]. rewrite Z.eqb_refl. cbn [orb]. f_equal.
      rewrite <- (IH m l Hl). apply filter_ext_in.
      intros [h' x] Hin. cbn [existsb].
      assert (x <> k).
      { intros ->. apply Hk. rewrite <- Hl.
        apply (in_map snd) in Hin. exact Hin. }
      destruct (Z.eqb_spec x k); [contradiction|reflexivity].
Qed.

Lemma keepAt_aligned shift tolSec hsIdx tSec videoEvents :
  Ascending (map (get tSec) hsIdx) -> Ascending videoEvents ->
  Forall (fun '(h, b) =>
            le (Math_abs ((get tSec h + shift) - b)%float) tolSec = true)
         (combine hsIdx videoEvents) ->
  keepAt shift tolSec hsIdx (map (get tSec) hsIdx) videoEvents
  = firstn (length videoEvents) hsIdx.
Proof.
  intros Ha Hv Hall. unfold keepAt.
  rewrite (sort_Ascending _ Hv).
  rewrite sort_byTime_Ascending by (rewrite indexed_fst; exact Ha).
  rewrite matchFrom_aligned.
  - rewrite <- firstn_map, indexed_snd, len_map.
    rewrite (filter_firstn (range 0 (len hsIdx)) (range_NoDup _ _)).
    + rewrite <- firstn_map. f_equal. apply map_fst_combine.
      rewrite range_length. unfold len. lia.
    + apply map_snd_combine. rewrite range_length. unfold len. lia.
  - unfold indexed. rewrite len_map.
    clear Ha Hv. revert videoEvents Hall.
    generalize (range 0 (len hsIdx)) as idx.
    induction hsIdx as [|h hs IH]; intros idx vt Hall; [constructor|].
    destruct idx as [|k idx]; [constructor|].
    destruct vt as [|b vt]; [constructor|].
    cbn [combine map] in *. inversion Hall as [|? ? Hc Hrest]. subst.
    constructor; [exact Hc|]. apply IH, Hrest.
Qed.

(** The two passes count the same pairs when every event lies inside
    the time axis. *)
Lemma passes_agree shift tolSec hsIdx tSec videoEvents :
  Forall (fun i => 0 <= i < len tSec) hsIdx ->
  len (matchFrom shift tolSec (indexed (sortedTimes (map (item tSec) hsIdx)))
                 (sort afterF videoEvents))
  = len (keepAt shift tolSec hsIdx (map (get tSec) hsIdx) videoEvents).
Proof.
  intros Hin. rewrite keepAt_length by apply len_map.
  rewrite (map_item_get _ _ Hin), sortedTimes_Some.
  unfold len. f_equal. apply matchFrom_length_fst.
  rewrite indexed_fst, sort_fst, indexed_fst. reflexivity.
Qed.

Lemma keepAt_length_le shift tolSec hsIdx tSec videoEvents :
  len (keepAt shift tolSec hsIdx (map (get tSec) hsIdx) videoEvents)
  <= len videoEvents.
Proof.
  rewrite keepAt_length by apply len_map. unfold len.
  pose proof (matchFrom_length_le shift tolSec
                (sort byTime (indexed (map (get tSec) hsIdx)))
                (sort afterF videoEvents)) as H.
  rewrite sort_length in H. lia.
Qed.

(** ** Events at or after the baseline *)

Lemma ge_of_nan (b : float) : ge nan b = false.
Proof.
  unfold ge. rewrite FloatAxioms.leb_spec. unfold SFleb, SFcompare.
  change (Prim2SF nan) with S754_nan. destruct (Prim2SF b); reflexivity.
Qed.

Lemma get_outside xs i : ~ (0 <= i < len xs) -> get xs i = nan.
Proof.
  intros H. unfold get. destruct (Z.ltb_spec i 0); [reflexivity|].
  apply nth_overflow. unfold len in H. lia.
Qed.

Lemma after_baseline_inside t1 baselineSec hs1 :
  Forall (fun i => 0 <= i < len t1)
         (filter (fun i => ge (get t1 i) baselineSec) hs1).
Proof.
  apply Forall_forall. intros i Hi. apply filter_In in Hi.
  destruct Hi as [_ Hi].
  destruct (Z.le_gt_cases 0 i) as [H0|H0];
    [destruct (Z.lt_ge_cases i (len t1)) as [H1|H1]|]; [lia| |];
    rewrite get_outside, ge_of_nan in Hi by lia; discriminate Hi.
Qed.

(** ** The decimation *)

Lemma chooseEveryOtherIfDouble_Decimated hs fs expected :
  Decimated (fun c => scoreHS c fs defaultStep expected) hs fs expected
            (chooseEveryOtherIfDouble hs fs expected).
Proof.
  unfold Decimated, chooseEveryOtherIfDouble, chooseEveryOther.
  fold (looksDouble hs fs expected).
  destruct (Z.ltb_spec (len hs) 6) as [H6|H6].
  - split; [reflexivity|]. split; [reflexivity|]. lia.
  - destruct (looksDouble hs fs expected); cbn [negb].
    + split; [lia|]. split; [discriminate|]. intros _ _.
      destruct (le _ _); split; intros; congruence.
    + split; [reflexivity|]. split; [reflexivity|]. discriminate.
Qed.

(** ** The matching with two pointers *)

(** The walk of the code is the matching with two pointers. *)
Lemma matchFrom_TwoPointer shift tolSec : forall et vt,
  TwoPointer shift tolSec et vt (matchFrom shift tolSec et vt).
Proof.
  induction et as [|[v k] et IH]; intros vt.
  - destruct vt; constructor.
  - induction vt as [|b vt IHv]; [constructor|].
    cbn [matchFrom]. destruct (le (Math_abs _) tolSec) eqn:Hw.
    + apply TwoPointer_pair; [exact Hw|apply IH].
    + destruct (lt _ _) eqn:He.
      * apply TwoPointer_pass_event; [exact Hw|exact He|apply IH].
      * apply TwoPointer_pass_partner; [exact Hw|exact He|exact IHv].
Qed.

(** The matching leaves one list of events only. *)
Lemma TwoPointer_unique shift tolSec et vt kept :
  TwoPointer shift tolSec et vt kept -> kept = matchFrom shift tolSec et vt.
Proof.
  induction 1 as [vt|et|v h et b vt kept Hw _ IH|v h et b vt kept Hw He _ IH
                  |v h et b vt kept Hw He _ IH].
  - destruct vt; reflexivity.
  - destruct et as [|[v k] et]; reflexivity.
  - cbn [matchFrom]. rewrite Hw. now rewrite IH.
  - cbn [matchFrom]. rewrite Hw, He. exact IH.
  - cbn [matchFrom]. rewrite Hw, He. exact IH.
Qed.

(** What the walk returns of each event is what the event carries. *)
Lemma matchFrom_map (f : Z -> Z) shift tolSec : forall et vt,
  matchFrom shift tolSec (map (fun p => (fst p, f (snd p))) et) vt
  = map f (matchFrom shift tolSec et vt).
Proof.
  induction et as [|[v k] et IH]; intros vt.
  - destruct vt; reflexivity.
  - induction vt as [|b vt IHv]; [reflexivity|].
    cbn [map fst snd matchFrom]. destruct (le (Math_abs _) tolSec).
    + cbn [map]. f_equal. apply IH.
    + destruct (lt _ _); [apply IH|exact IHv].
Qed.

Lemma combine_positions {A} (l : list A) (hs : list Z) : forall a,
  combine l hs
  = map (fun p => (fst p, nth (Z.to_nat (snd p - a)) hs 0))
        (combine l (range a (a + len hs))).
Proof.
  revert l. induction hs as [|h hs IH]; intros l a.
  - rewrite range_nil by (cbn; lia). destruct l; reflexivity.
  - rewrite len_cons. rewrite range_cons by (pose proof (len_nonneg hs); lia).
    destruct l as [|x l]; [reflexivity|].
    cbn [combine map fst snd]. rewrite Z.sub_diag. cbn [Z.to_nat nth].
    f_equal. rewrite (IH l (a + 1)).
    replace (a + 1 + len hs) with (a + (len hs + 1)) by lia.
    apply map_ext_in. intros [y k] Hin. cbn [fst snd]. f_equal.
    apply in_combine_r in Hin. apply In_range in Hin.
    replace (Z.to_nat (k - a)) with (S (Z.to_nat (k - (a + 1)))) by lia.
    reflexivity.
Qed.

(** The events at the positions of a subsequence of the positions. *)
Lemma keep_by_position (hs : list Z) : forall a ks,
  Subseq ks (range a (a + len hs)) ->
  map fst (filter (fun '(_, k) => existsb (Z.eqb k) ks)
                  (combine hs (range a (a + len hs))))
  = map (fun k => nth (Z.to_nat (k - a)) hs 0) ks.
Proof.
  induction hs as [|h hs IH]; intros a ks Hsub.
  - rewrite range_nil in Hsub by (cbn; lia). inversion Hsub. reflexivity.
  - rewrite len_cons in *.
    rewrite range_cons in * by (pose proof (len_nonneg hs); lia).
    replace (a + (len hs + 1)) with (a + 1 + len hs) in * by lia.
    assert (Htail : forall ks', Subseq ks' (range (a + 1) (a + 1 + len hs)) ->
              map (fun k => nth (Z.to_nat (k - a)) (h :: hs) 0) ks'
              = map (fun k => nth (Z.to_nat (k - (a + 1))) hs 0) ks').
    { intros ks' Hs. apply map_ext_in. intros k Hk.
      pose proof (Subseq_In _ _ _ Hs Hk) as Hr. apply In_range in Hr.
      replace (Z.to_nat (k - a)) with (S (Z.to_nat (k - (a + 1)))) by lia.
      reflexivity. }
    cbn [combine filter].
    inversion Hsub as [|x ks' l' Hs|x ks' l' Hs]; subst.
    + assert (Hna : existsb (Z.eqb a) ks = false).
      { destruct (existsb (Z.eqb a) ks) eqn:E; [|reflexivity].
        apply existsb_eqb_In in E.
        pose proof (Subseq_In _ _ _ Hs E) as Hr. apply In_range in Hr. lia. }
      rewrite Hna. rewrite (Htail ks Hs). apply (IH (a + 1) ks Hs).
    + cbn [existsb]. rewrite Z.eqb_refl. cbn [orb map fst].
      replace (nth (Z.to_nat (a - a)) (h :: hs) 0) with h
        by (rewrite Z.sub_diag; reflexivity).
      f_equal.
      rewrite (Htail ks' Hs), <- (IH (a + 1) ks' Hs). f_equal.
      apply filter_ext_in. intros [y k] Hin.
      apply in_combine_r in Hin. apply In_range in Hin. cbn [existsb].
      destruct (Z.eqb_spec k a); [lia|reflexivity].
Qed.

(** For ascending times the events kept are those the matching with
    two pointers leaves of the events in the order given. *)
Lemma keepAt_ascending shift tolSec hsIdx tSec videoEvents :
  Ascending (map (get tSec) hsIdx) -> Ascending videoEvents ->
  keepAt shift tolSec hsIdx (map (get tSec) hsIdx) videoEvents
  = matchFrom shift tolSec (combine (map (get tSec) hsIdx) hsIdx) videoEvents.
Proof.
  intros Ha Hv. unfold keepAt.
  rewrite (sort_Ascending _ Hv).
  rewrite sort_byTime_Ascending by (rewrite indexed_fst; exact Ha).
  set (ks := matchFrom shift tolSec (indexed (map (get tSec) hsIdx)) videoEvents).
  assert (Hsub : Subseq ks (range 0 (0 + len hsIdx))).
  { pose proof (matchFrom_Subseq shift tolSec
                  (indexed (map (get tSec) hsIdx)) videoEvents) as H.
    rewrite indexed_snd, len_map in H. exact H. }
  pose proof (keep_by_position hsIdx 0 ks Hsub) as Hk.
  rewrite Z.add_0_l in Hk. rewrite Hk.
  rewrite (combine_positions (map (get tSec) hsIdx) hsIdx 0), Z.add_0_l.
  rewrite (matchFrom_map (fun k => nth (Z.to_nat (k - 0)) hsIdx 0)).
  unfold ks, indexed. rewrite len_map. reflexivity.
Qed.

End PairFacts.

(** ** The detector of the revision with manual events *)

Module ManualDetectFacts.
Import JS Core EventLists EventListFacts Events MergeFacts DetectFacts.
Import FloatFacts ConstantFacts VideoFacts DetectorProps Manual.

Lemma Subseq_cons_skip {A} (l' : list A) a b l :
  Subseq l' (a :: l) -> Subseq l' (a :: b :: l).
Proof.
  intros H. inversion H; subst; auto with events.
Qed.

(** The starts of the runs are candidates, in their order. *)
Lemma groupFrom_starts indices : forall s prev,
  Subseq (map fst (groupFrom s prev indices)) (s :: indices).
Proof.
  induction indices as [|v rest IH]; intros s prev; cbn [groupFrom].
  - cbn. auto with events.
  - destruct (v =? prev + 1).
    + apply Subseq_cons_skip, IH.
    + cbn [map fst]. apply Subseq_keep, IH.
Qed.

Lemma groupConsecutive_starts indices :
  Subseq (map fst (groupConsecutive indices)) indices.
Proof.
  destruct indices as [|i0 rest]; cbn [groupConsecutive].
  - constructor.
  - apply groupFrom_starts.
Qed.

Lemma range_Spaced a b : Spaced 1 (range a b).
Proof.
  remember (Z.to_nat (b - a)) as n eqn:Hn. revert a Hn.
  induction n as [|n IH]; intros a Hn.
  - rewrite range_nil by lia. constructor.
  - rewrite range_cons by lia. apply Spaced_intro.
    + intros x Hx. apply In_range in Hx. lia.
    + apply IH. lia.
Qed.

Lemma Spaced_weaken g g' l : g' <= g -> Spaced g l -> Spaced g' l.
Proof.
  intros Hg. induction 1; constructor; auto; lia.
Qed.

Lemma pickCandidatesAbove_Spaced env thr :
  Spaced 0 (pickCandidatesAbove env thr).
Proof.
  unfold pickCandidatesAbove.
  eapply Spaced_Subseq; [apply Subseq_filter|].
  apply Spaced_weaken with 1; [lia|apply range_Spaced].
Qed.

Lemma suppress_Spaced g hs : Spaced 0 hs -> Spaced g (suppress g hs).
Proof.
  destruct hs as [|h0 rest]; cbn [suppress]; [constructor|].
  apply mergeFrom_Spaced.
Qed.

Lemma suppress_Subseq g hs : Subseq (suppress g hs) hs.
Proof.
  destruct hs as [|h0 rest]; cbn [suppress]; [constructor|].
  apply Subseq_keep, mergeFrom_Subseq.
Qed.

(** The better of several lists is one of them. *)
Lemma fold_pick_In {A} (score : A -> float) rest : forall first sc,
  In (fst (fold_left
             (fun '(best, bestScore) s =>
                if lt (score s) bestScore then (s, score s)
                else (best, bestScore))
             rest (first, sc)))
     (first :: rest).
Proof.
  induction rest as [|s rest IH]; intros first sc; cbn [fold_left].
  - now left.
  - destruct (lt (score s) sc).
    + right. apply IH.
    + destruct (IH first sc) as [H|H]; [now left|right; now right].
Qed.

Lemma chooseOddEven_Subseq hs fs e plausible tol c :
  chooseOddEven hs fs e plausible tol = Some c -> Subseq c hs.
Proof.
  unfold chooseOddEven.
  set (subseqs := if 4 <=? len hs then _ else _).
  assert (Hsub : forall s, In s subseqs -> Subseq s hs).
  { intros s Hs. subst subseqs. destruct (4 <=? len hs); [|contradiction].
    apply in_app_or in Hs.
    destruct Hs as [Hs|Hs];
      [destruct (3 <=? len (everyNth 2 0 hs))
      |destruct (3 <=? len (everyNth 2 1 hs))];
      try contradiction; destruct Hs as [<-|[]]; apply Subseq_everyNth. }
  destruct subseqs as [|first rest]; [discriminate|].
  intros [= <-]. apply Hsub. apply fold_pick_In.
Qed.

Lemma fold_pick_option {A} (score : A -> float) seqs : forall best sc b,
  fst (fold_left
         (fun '(best, bestScore) s =>
            if lt (score s) bestScore then (Some s, score s)
            else (best, bestScore))
         seqs (best, sc)) = Some b ->
  best = Some b \/ In b seqs.
Proof.
  induction seqs as [|s seqs IH]; intros best sc b; cbn [fold_left].
  - cbn. auto.
  - destruct (lt (score s) sc); intros H; apply IH in H.
    + destruct H as [[= <-]|H]; right; [now left|now right].
    + destruct H as [H|H]; [now left|right; now right].
Qed.

Lemma chooseStrideSubseq_Subseq hs fs e plausible tol c :
  chooseStrideSubseq hs fs e plausible tol = Some c -> Subseq c hs.
Proof.
  unfold chooseStrideSubseq.
  destruct (counted e) as [ev|]; [|discriminate].
  destruct (lt _ _); [discriminate|].
  set (seqs := flat_map _ _).
  destruct (fst (fold_left _ seqs (None, Infinity))) as [b|] eqn:Hb;
    [|discriminate].
  destruct (lt _ _); [|discriminate].
  intros [= <-].
  apply fold_pick_option in Hb. destruct Hb as [Hb|Hb]; [discriminate|].
  subst seqs. apply in_flat_map in Hb. destruct Hb as (m & _ & Hb).
  apply in_map_iff in Hb. destruct Hb as (off & <- & _).
  apply Subseq_everyNth.
Qed.

(** The events of one multiplier: in ascending order, [minGap] apart or
    more, inside the envelope. *)
Lemma buildHSforK_inv env fs o median md k :
  let hs := snd (buildHSforK env fs o median md k) in
  fst (buildHSforK env fs o median md k) = threshold median md k
  /\ Spaced (minGapOf fs o) hs /\ InBounds (len env) hs.
Proof.
  unfold buildHSforK. cbn [fst snd].
  set (groups := filter _ (groupConsecutive _)).
  set (hs0 := filter (inEnvelope (len env)) _).
  set (hs1 := suppress (minGapOf fs o) hs0).
  assert (H0 : Spaced 0 hs0 /\ InBounds (len env) hs0).
  { split.
    - subst hs0. eapply Spaced_Subseq; [apply Subseq_filter|].
      replace (map (fun '(s, _) => s + samples fs (offsetMs o)) groups)
        with (map (fun v => v + samples fs (offsetMs o)) (map fst groups))
        by (rewrite map_map; apply map_ext; intros [s e]; reflexivity).
      apply Spaced_shift. subst groups.
      eapply Spaced_Subseq;
        [apply Subseq_map, Subseq_filter|].
      eapply Spaced_Subseq; [apply groupConsecutive_starts|].
      apply pickCandidatesAbove_Spaced.
    - subst hs0. unfold InBounds. apply Forall_forall. intros i Hi.
      apply filter_In in Hi. destruct Hi as [_ Hi]. unfold inEnvelope in Hi.
      apply andb_true_iff in Hi. destruct Hi as [H1 H2].
      apply Z.leb_le in H1. apply Z.ltb_lt in H2. lia. }
  destruct H0 as [Hs0 Hb0].
  assert (H1 : Spaced (minGapOf fs o) hs1 /\ InBounds (len env) hs1).
  { split; [now apply suppress_Spaced|].
    eapply Subseq_Forall; [apply suppress_Subseq|exact Hb0]. }
  destruct H1 as [Hs1 Hb1].
  set (hs2 := match chooseOddEven hs1 _ _ _ _ with Some c => c | None => hs1 end).
  assert (H2 : Subseq hs2 hs1).
  { subst hs2. destruct (chooseOddEven hs1 _ _ _ _) as [c|] eqn:Hc.
    - eapply chooseOddEven_Subseq; eauto.
    - apply Subseq_refl. }
  set (hs3 := match chooseStrideSubseq hs2 _ _ _ _ with Some c => c | None => hs2 end).
  assert (H3 : Subseq hs3 hs1).
  { subst hs3. destruct (chooseStrideSubseq hs2 _ _ _ _) as [c|] eqn:Hc.
    - eapply Subseq_trans; [|exact H2]. eapply chooseStrideSubseq_Subseq; eauto.
    - exact H2. }
  split; [reflexivity|].
  split; [eapply Spaced_Subseq; eauto|eapply Subseq_Forall; eauto].
Qed.

Lemma step_inv env fs o median md best k r :
  In k ks ->
  (forall a, best = Some a -> Built env fs o median md a) ->
  step env fs o median md best k = Some r ->
  Built env fs o median md r.
Proof.
  intros Hk Hbest. unfold step.
  pose proof (buildHSforK_inv env fs o median md k) as Hinv.
  destruct (buildHSforK env fs o median md k) as [thr hs].
  cbn [fst snd] in Hinv. destruct Hinv as (Ht & Hs & Hb).
  destruct (lt _ _).
  - intros [= <-]. unfold Built. cbn. split; [exact Hs|].
    split; [exact Hb|]. exists k. auto.
  - intros H. apply Hbest. exact H.
Qed.

Lemma Manual_detectHS_inv env fs o r :
  Manual.detectHS env fs o = Ok r ->
  3 <= len (det_hs r)
  /\ Built env fs o (fst (mad (baseline env fs o)))
           (snd (mad (baseline env fs o))) r.
Proof.
  unfold Manual.detectHS.
  destruct (mad (baseline env fs o)) as [median md]. cbn [fst snd].
  destruct (fold_left _ ks None) as [b|] eqn:Hfold; [|discriminate].
  destruct (Z.ltb_spec (len (det_hs b)) 3); [discriminate|].
  intros [= <-]. split; [lia|].
  eapply fold_left_best with (P := Built env fs o median md);
    [| |exact Hfold]; [|discriminate].
  clear Hfold. intros best k r Hin Hbest. apply step_inv; assumption.
Qed.

Lemma Manual_throw env fs o e :
  Manual.detectHS env fs o = Throw e -> e = DetectionFailure.
Proof.
  unfold Manual.detectHS.
  destruct (mad (baseline env fs o)) as [median md].
  destruct (fold_left _ ks None) as [b|];
    [destruct (len (det_hs b) <? 3)|]; congruence.
Qed.

Lemma Manual_TwoOrFailure env fs o :
  TwoOrFailure (Manual.detectHS env fs o).
Proof.
  destruct (Manual.detectHS env fs o) as [r|e] eqn:H.
  - apply Manual_detectHS_inv in H. destruct H as [H _].
    unfold TwoOrFailure. lia.
  - apply Manual_throw in H. exact H.
Qed.

End ManualDetectFacts.

Module ManualConstantFacts.
Import JS Core EventLists EventListFacts Events MergeFacts DetectFacts.
Import FloatFacts ConstantFacts VideoFacts Manual ManualDetectFacts.

Lemma filter_every {A} (f : A -> bool) l :
  (forall x, In x l -> f x = true) -> filter f l = l.
Proof.
  induction l as [|x l IH]; intros H; cbn [filter]; [reflexivity|].
  rewrite (H x (or_introl eq_refl)), IH; [reflexivity|].
  intros y Hy. apply H. now right.
Qed.

(** Nothing is above [Infinity]. *)
Lemma lt_Infinity x : lt Infinity x = false.
Proof.
  unfold lt, Infinity. rewrite FloatAxioms.ltb_spec.
  change (Prim2SF infinity) with (S754_infinity false).
  destruct (Prim2SF x) as [s|s| |s m e]; try destruct s; reflexivity.
Qed.

Lemma groupFrom_run k : forall s prev,
  length (groupFrom s prev (range (prev + 1) (prev + 1 + Z.of_nat k))) = 1%nat.
Proof.
  induction k as [|k IH]; intros s prev.
  - rewrite range_nil by lia. reflexivity.
  - rewrite range_cons by lia. cbn [groupFrom].
    rewrite Z.eqb_refl.
    replace (prev + 1 + Z.of_nat (S k)) with (prev + 1 + 1 + Z.of_nat k) by lia.
    apply IH.
Qed.

Lemma groupConsecutive_range n :
  (length (groupConsecutive (range 0 (Z.of_nat n))) <= 1)%nat.
Proof.
  destruct n as [|n].
  - rewrite range_nil by lia. cbn. lia.
  - rewrite range_cons by lia. cbn [groupConsecutive].
    replace (Z.of_nat (S n)) with (0 + 1 + Z.of_nat n) by lia.
    rewrite groupFrom_run. lia.
Qed.

Lemma pickCandidatesAbove_constant c n thr :
  pickCandidatesAbove (repeat c n) thr
  = if ge c thr then range 0 (Z.of_nat n) else [].
Proof.
  unfold pickCandidatesAbove. rewrite len_repeat.
  destruct (ge c thr) eqn:E.
  - apply filter_every. intros i Hi.
    apply In_range in Hi. rewrite get_repeat by lia. exact E.
  - apply filter_none. intros i Hi.
    apply In_range in Hi. rewrite get_repeat by lia. exact E.
Qed.

Lemma suppress_length g hs : (length (suppress g hs) <= length hs)%nat.
Proof. apply Subseq_length, suppress_Subseq. Qed.

(** No more events than runs of candidates. *)
Lemma buildHSforK_length env fs o median md k :
  (length (snd (buildHSforK env fs o median md k))
   <= length (groupConsecutive
                (pickCandidatesAbove env (threshold median md k))))%nat.
Proof.
  unfold buildHSforK. cbn [snd].
  set (groups := filter _ (groupConsecutive _)).
  set (hs0 := filter (inEnvelope (len env)) _).
  set (hs1 := suppress (minGapOf fs o) hs0).
  set (hs2 := match chooseOddEven hs1 _ _ _ _ with Some c => c | None => hs1 end).
  set (hs3 := match chooseStrideSubseq hs2 _ _ _ _ with Some c => c | None => hs2 end).
  assert (H3 : (length hs3 <= length hs2)%nat).
  { subst hs3. destruct (chooseStrideSubseq hs2 _ _ _ _) as [c|] eqn:Hc; [|lia].
    eapply Subseq_length, chooseStrideSubseq_Subseq; eauto. }
  assert (H2 : (length hs2 <= length hs1)%nat).
  { subst hs2. destruct (chooseOddEven hs1 _ _ _ _) as [c|] eqn:Hc; [|lia].
    eapply Subseq_length, chooseOddEven_Subseq; eauto. }
  assert (H1 : (length hs1 <= length hs0)%nat) by apply suppress_length.
  assert (H0 : (length hs0 <= length groups)%nat).
  { subst hs0. etransitivity; [apply filter_length_le|].
    rewrite length_map. lia. }
  assert (Hg : (length groups
                <= length (groupConsecutive
                             (pickCandidatesAbove env (threshold median md k))))%nat)
    by apply filter_length_le.
  lia.
Qed.

Lemma scoreHS_few fs o hs : (length hs <= 2)%nat -> scoreHS fs o hs = Infinity.
Proof.
  intros H. unfold scoreHS.
  destruct (Z.ltb_spec (len hs) 3); [reflexivity|]. unfold len in *. lia.
Qed.

Lemma step_constant c n fs o median md best k :
  step (repeat c n) fs o median md best k = best.
Proof.
  unfold step.
  pose proof (buildHSforK_length (repeat c n) fs o median md k) as Hlen.
  rewrite pickCandidatesAbove_constant in Hlen.
  destruct (buildHSforK (repeat c n) fs o median md k) as [thr hs].
  cbn [snd] in Hlen.
  assert (H1 : (length hs <= 1)%nat).
  { destruct (ge c _).
    - pose proof (groupConsecutive_range n). lia.
    - cbn in Hlen. lia. }
  rewrite scoreHS_few by lia. rewrite lt_Infinity. reflexivity.
Qed.

(** A constant envelope gives no result. *)
Lemma Manual_detectHS_constant c n fs o :
  Manual.detectHS (repeat c n) fs o = Throw DetectionFailure.
Proof.
  unfold Manual.detectHS.
  destruct (mad (baseline (repeat c n) fs o)) as [median md].
  rewrite fold_left_same; [reflexivity|].
  intros k. apply step_constant.
Qed.

End ManualConstantFacts.

(** * Cycle statistics *)

Module StatsFacts.
Import JS Core Stats FloatClasses FloatFacts MergeFacts ConstantFacts VideoFacts.

(** The two accumulators of a grid point run over the finite
    contributions only. *)
Lemma sumCount_from f cycles j s0 c0 :
  fold_left
    (fun '(s, c) cyc =>
       let v := get cyc j in
       if Number_isFinite v then ((s + f v)%float, c + 1) else (s, c))
    cycles (s0, c0)
  = (fold_left (fun a v => (a + f v)%float) (contributions cycles j) s0,
     c0 + len (contributions cycles j)).
Proof.
  revert s0 c0. unfold contributions.
  induction cycles as [|cyc cycles IH]; intros s0 c0; simpl.
  - f_equal. unfold len. simpl. lia.
  - destruct (Number_isFinite (get cyc j)); rewrite IH; simpl; [|reflexivity].
    f_equal. rewrite len_cons. lia.
Qed.

Lemma sumCount_spec f cycles j :
  sumCount f cycles j
  = (fold_left (fun a v => (a + f v)%float) (contributions cycles j) 0%float,
     len (contributions cycles j)).
Proof. unfold sumCount. now rewrite sumCount_from. Qed.

Lemma meanAt_spec cycles j : meanAt cycles j = meanOf (contributions cycles j).
Proof. unfold meanAt. rewrite sumCount_spec. reflexivity. Qed.

Lemma sdAt_spec cycles j : sdAt cycles j = populationSD (contributions cycles j).
Proof.
  unfold sdAt. rewrite sumCount_spec, meanAt_spec. reflexivity.
Qed.

Lemma get_map_range (f : Z -> float) m j :
  0 <= j < m -> get (map f (range 0 m)) j = f j.
Proof.
  intros Hj. unfold get. destruct (Z.ltb_spec j 0); [lia|].
  unfold range. rewrite map_map.
  rewrite nth_indep with (d' := f (0 + Z.of_nat 0))
    by (rewrite length_map, length_seq; lia).
  rewrite (map_nth (fun k => f (0 + Z.of_nat k)) (seq 0 (Z.to_nat (m - 0))) 0%nat).
  rewrite seq_nth by lia. f_equal. lia.
Qed.

(** ** When the statistics are NaN *)

Lemma contributions_finite cycles j :
  Forall (fun v => Fin (Prim2SF v)) (contributions cycles j).
Proof.
  apply Forall_forall. intros v Hv. apply filter_In in Hv.
  apply is_finite_spec. tauto.
Qed.

Lemma sum_from_notnan vs s0 :
  Forall (fun v => Fin (Prim2SF v)) vs -> Prim2SF s0 <> S754_nan ->
  Prim2SF (fold_left (fun a v => (a + v)%float) vs s0) <> S754_nan.
Proof.
  intros Hall. revert s0. induction Hall as [|v vs Hv Hall IH]; intros s0 H0.
  - exact H0.
  - simpl. apply IH. rewrite FloatAxioms.add_spec. now apply SFadd_notnan.
Qed.

Lemma len_bound_PosFin {A} (vs : list A) :
  0 < len vs < 2 ^ 53 -> PosFin (Prim2SF (Z2float (len vs))).
Proof. intros H. apply Z2float_PosFin. lia. Qed.

Lemma meanOf_notnan vs :
  Forall (fun v => Fin (Prim2SF v)) vs -> 0 < len vs < 2 ^ 53 ->
  Prim2SF (meanOf vs) <> S754_nan.
Proof.
  intros Hall Hlen. unfold meanOf.
  destruct (Z.ltb_spec 0 (len vs)); [|lia].
  rewrite FloatAxioms.div_spec.
  apply (SFdiv_PosFin _ _ (len_bound_PosFin vs Hlen)).
  apply sum_from_notnan; [exact Hall|discriminate].
Qed.

Lemma squares_from_NonNeg mu vs s0 :
  Forall (fun v => Fin (Prim2SF v)) vs -> Prim2SF mu <> S754_nan ->
  NonNeg (Prim2SF s0) ->
  NonNeg (Prim2SF (fold_left (fun a v => (a + (v - mu) * (v - mu))%float)
                             vs s0)).
Proof.
  intros Hall Hmu. revert s0.
  induction Hall as [|v vs Hv Hall IH]; intros s0 H0.
  - exact H0.
  - simpl. apply IH. rewrite FloatAxioms.add_spec. apply SFadd_NonNeg; [exact H0|].
    rewrite FloatAxioms.mul_spec. apply SFmul_self.
    rewrite FloatAxioms.sub_spec. now apply SFsub_notnan.
Qed.

Lemma populationSD_notnan vs :
  Forall (fun v => Fin (Prim2SF v)) vs -> 1 < len vs < 2 ^ 53 ->
  Prim2SF (populationSD vs) <> S754_nan.
Proof.
  intros Hall Hlen. unfold populationSD.
  destruct (Z.ltb_spec 1 (len vs)); [|lia].
  unfold Math_sqrt. rewrite FloatAxioms.sqrt_spec. apply SFsqrt_NonNeg.
  rewrite FloatAxioms.div_spec.
  apply (SFdiv_PosFin _ _ (len_bound_PosFin vs ltac:(lia))).
  apply squares_from_NonNeg; [exact Hall| |exact I].
  apply meanOf_notnan; [exact Hall|lia].
Qed.

Lemma contributions_length cycles j :
  len (contributions cycles j) <= len cycles.
Proof.
  unfold contributions, len.
  pose proof (filter_length_le Number_isFinite (map (fun c => get c j) cycles)) as H.
  rewrite length_map in H. lia.
Qed.

Lemma meanOf_nan_iff vs :
  Forall (fun v => Fin (Prim2SF v)) vs -> len vs < 2 ^ 53 ->
  (is_nan (meanOf vs) = true <-> vs = []).
Proof.
  intros Hall Hlen. split.
  - intros Hnan. apply is_nan_spec in Hnan.
    destruct vs as [|v vs]; [reflexivity|exfalso].
    revert Hnan. apply meanOf_notnan; [exact Hall|].
    rewrite len_cons in *. pose proof (len_nonneg vs). lia.
  - intros ->. reflexivity.
Qed.

Lemma populationSD_nan_iff vs :
  Forall (fun v => Fin (Prim2SF v)) vs -> len vs < 2 ^ 53 ->
  (is_nan (populationSD vs) = true <-> len vs < 2).
Proof.
  intros Hall Hlen. split.
  - intros Hnan. apply is_nan_spec in Hnan.
    destruct (Z.lt_ge_cases (len vs) 2) as [|Hge]; [assumption|exfalso].
    revert Hnan. apply populationSD_notnan; [exact Hall|lia].
  - intros Hlt. unfold populationSD.
    destruct (Z.ltb_spec 1 (len vs)); [lia|reflexivity].
Qed.

End StatsFacts.

(** * Percent-peak normalisation *)

Module PercentFacts.
Import JS Core EventLists FloatClasses FloatFacts MergeFacts ConstantFacts.
Import VideoFacts.

Lemma not_gt_chain a b c :
  is_nan b = false -> gt a b = false -> gt b c = false -> gt a c = false.
Proof.
  unfold gt. rewrite !FloatAxioms.ltb_spec, is_nan_false.
  apply SF_not_gt_chain.
Qed.

Lemma gt_not_nan a b : gt a b = true -> is_nan a = false.
Proof.
  unfold gt. rewrite FloatAxioms.ltb_spec. intros H. apply is_nan_false.
  intros Hn. rewrite Hn in H. unfold SFltb, SFcompare in H.
  destruct (Prim2SF b); discriminate.
Qed.

(** No sample seen is above the running maximum. *)
Lemma maxFold_upper env l mx0 :
  is_nan mx0 = false ->
  let mx := fold_left (maxStep env) l mx0 in
  gt mx0 mx = false /\ forall i, In i l -> gt (get env i) mx = false.
Proof.
  revert mx0. induction l as [|i l IH]; intros mx0 Hnan; simpl.
  - split; [apply gt_irrefl|tauto].
  - assert (Hnan1 : is_nan (maxStep env mx0 i) = false).
    { unfold maxStep. destruct (gt (get env i) mx0) eqn:Hg; [|exact Hnan].
      eapply gt_not_nan; eauto. }
    destruct (IH _ Hnan1) as [H1 H2].
    set (mx := fold_left (maxStep env) l (maxStep env mx0 i)) in *.
    assert (Hstep : gt mx0 (maxStep env mx0 i) = false
                    /\ gt (get env i) (maxStep env mx0 i) = false).
    { unfold maxStep. destruct (gt (get env i) mx0) eqn:Hg.
      - split; [|apply gt_irrefl].
        unfold gt in *. destruct (get env i <? mx0)%float eqn:Hlt; [|reflexivity].
        pose proof (ltb_trans _ _ _ Hlt Hg) as Hc.
        rewrite ltb_irrefl in Hc. discriminate.
      - split; [apply gt_irrefl|exact Hg]. }
    destruct Hstep as [Ha Hb]. split.
    + eapply not_gt_chain; eauto.
    + intros j [<-|Hj]; [eapply not_gt_chain; eauto|auto].
Qed.

(** The running maximum is its start or one of the samples seen. *)
Lemma maxFold_attained env l mx0 :
  fold_left (maxStep env) l mx0 = mx0
  \/ exists i, In i l /\ fold_left (maxStep env) l mx0 = get env i.
Proof.
  revert mx0. induction l as [|i l IH]; intros mx0; simpl; [now left|].
  destruct (IH (maxStep env mx0 i)) as [H|[j [Hj H]]].
  - rewrite H. unfold maxStep. destruct (gt (get env i) mx0); eauto.
  - right. eauto.
Qed.

Lemma maxOver_upper env s e i :
  s <= i < e -> gt (get env i) (maxOver env s e) = false.
Proof.
  intros Hi. apply (maxFold_upper env (range s e) neg_infinity eq_refl).
  now apply In_range.
Qed.

Lemma maxOver_attained env s e :
  maxOver env s e = neg_infinity
  \/ exists i, s <= i < e /\ maxOver env s e = get env i.
Proof.
  destruct (maxFold_attained env (range s e) neg_infinity) as [H|[i [Hi H]]];
    [now left|right].
  exists i. split; [now apply In_range|exact H].
Qed.

Lemma len_map_const {A B} (f : A -> B) l : len (map f l) = len l.
Proof. apply len_map. Qed.

(** Reading the normalised envelope inside the array. *)
Lemma get_map (f : float -> float) env i :
  0 <= i < len env -> get (map f env) i = f (get env i).
Proof.
  intros Hi. unfold get. destruct (Z.ltb_spec i 0); [lia|].
  rewrite nth_indep with (d' := f nan)
    by (rewrite length_map; unfold len in Hi; lia).
  apply map_nth.
Qed.

Lemma get_finite_inside env i :
  Number_isFinite (get env i) = true -> 0 <= i < len env.
Proof.
  unfold get. destruct (Z.ltb_spec i 0); [discriminate|].
  intros Hf. split; [assumption|].
  destruct (Z.lt_ge_cases i (len env)) as [|Hge]; [assumption|].
  rewrite nth_overflow in Hf by (unfold len in Hge; lia). discriminate.
Qed.

(** A positive finite reference is a positive finite binary64 value. *)
Lemma positive_finite ref :
  Number_isFinite ref = true -> le ref 0%float = false ->
  PosFin (Prim2SF ref).
Proof.
  unfold Number_isFinite, le. rewrite is_finite_spec, FloatAxioms.leb_spec.
  change (Prim2SF 0%float) with (S754_zero false).
  destruct (Prim2SF ref) as [s|s| |[|] m e]; simpl; try tauto; discriminate.
Qed.

Lemma reference_two env hs :
  2 <= len hs ->
  reference env hs = maxOver env (at_ hs 0) (at_ hs (len hs - 1)).
Proof.
  intros H. unfold reference, at_.
  destruct (Z.leb_spec 2 (len hs)); [|lia].
  unfold len. f_equal. f_equal. lia.
Qed.

End PercentFacts.

(** ** Event lists by position *)

Module GapFacts.
Import JS Core EventLists EventListFacts Events MergeFacts DetectFacts.

Lemma at_cons a l i : 0 <= i -> at_ (a :: l) (i + 1) = at_ l i.
Proof.
  intros Hi. unfold at_. rewrite Z2Nat.inj_add by lia.
  rewrite Nat.add_comm. reflexivity.
Qed.

Lemma Gapped_tail g a l : Gapped g (a :: l) -> Gapped g l.
Proof.
  intros H i Hi Hlt. specialize (H (i + 1) ltac:(lia)).
  rewrite len_cons in H. specialize (H ltac:(lia)).
  rewrite !at_cons in H by lia. exact H.
Qed.

Lemma Spaced_iff_Gapped g l : Spaced g l <-> Gapped g l.
Proof.
  split.
  - intros Hs i Hi Hlt. unfold at_.
    assert (Hn : (S (Z.to_nat i) < length l)%nat) by (unfold len in Hlt; lia).
    destruct (Spaced_nth g l (Z.to_nat i) Hs Hn) as [H1 H2].
    replace (Z.to_nat (i + 1)) with (S (Z.to_nat i)) by lia. lia.
  - induction l as [|a [|b l] IH]; intros H; auto with events.
    pose proof (H 0 ltac:(lia)) as H0. rewrite !len_cons in H0.
    pose proof (len_nonneg l). specialize (H0 ltac:(lia)).
    change (at_ (a :: b :: l) 0) with a in H0.
    change (at_ (a :: b :: l) (0 + 1)) with b in H0.
    constructor; try lia. apply IH. eapply Gapped_tail; eauto.
Qed.

Lemma Gapped_NoDup g l : 1 <= g -> Gapped g l -> NoDup l.
Proof. intros Hg H. apply Spaced_NoDup with g; auto. now apply Spaced_iff_Gapped. Qed.

Lemma InBounds_at n hs i :
  InBounds n hs -> 0 <= i < len hs -> 0 <= at_ hs i < n.
Proof.
  unfold InBounds, at_. intros H Hi. rewrite Forall_forall in H.
  apply H. apply nth_In. unfold len in Hi. lia.
Qed.

End GapFacts.


(** ** What the detectors answer when they fail *)

Module FailureFacts.
Import JS Core EventLists EventListFacts Events MergeFacts DetectFacts.
Import PeakBasedFacts ConstantFacts DetectorProps.

Lemma VideoAssist_throw env fs o e :
  VideoAssist.detectHS env fs o = Throw e -> e = DetectionFailure.
Proof.
  unfold VideoAssist.detectHS.
  destruct (if Number_isFinite _ && _ then _ else _); [discriminate|].
  destruct (if 2 <=? len (pickPeaksGreedy _ _ _ _) then _ else _);
    [discriminate|].
  destruct (2 <=? len (applyOffsetAndMerge _ _ _ _)); congruence.
Qed.

Lemma Robust_throw env fs o e :
  Robust.detectHS env fs o = Throw e -> e = DetectionFailure.
Proof.
  unfold Robust.detectHS.
  destruct (if Number_isFinite _ && _ then _ else _); [discriminate|].
  destruct (_ && _); congruence.
Qed.

Lemma Onset_throw env fs o e :
  Onset.detectHS env fs o = Throw e -> e = DetectionFailure.
Proof.
  unfold Onset.detectHS.
  destruct (fold_left _ ks None) as [b|]; congruence.
Qed.

Lemma PeakBased_throw env fs o e :
  PeakBased.detectHS env fs o = Throw e -> e = DetectionFailure.
Proof.
  unfold PeakBased.detectHS.
  destruct (fold_left _ PeakBased.ks None) as [b|];
    [destruct (len (det_hs b) <? 2)|]; congruence.
Qed.

Lemma VideoAssist_TwoOrFailure env fs o :
  TwoOrFailure (VideoAssist.detectHS env fs o).
Proof.
  destruct (VideoAssist.detectHS env fs o) as [r|e] eqn:H.
  - apply VideoAssist_detectHS_Good in H. destruct H as [H _]. exact H.
  - apply VideoAssist_throw in H. exact H.
Qed.

Lemma Robust_TwoOrFailure env fs o :
  TwoOrFailure (Robust.detectHS env fs o).
Proof.
  destruct (Robust.detectHS env fs o) as [r|e] eqn:H.
  - apply Robust_detectHS_Good in H. destruct H as [H _]. exact H.
  - apply Robust_throw in H. exact H.
Qed.

Lemma Onset_TwoOrFailure env fs o :
  TwoOrFailure (Onset.detectHS env fs o).
Proof.
  destruct (Onset.detectHS env fs o) as [r|e] eqn:H.
  - apply Onset_detectHS_inv in H. destruct H as [[H _] _]. exact H.
  - apply Onset_throw in H. exact H.
Qed.

Lemma PeakBased_TwoOrFailure env fs o :
  TwoOrFailure (PeakBased.detectHS env fs o).
Proof.
  destruct (PeakBased.detectHS env fs o) as [r|e] eqn:H.
  - apply detectHS_inv in H. destruct H as [[H _] _]. exact H.
  - apply PeakBased_throw in H. exact H.
Qed.

End FailureFacts.


(** ** Which of two close events a merge keeps *)

Module StrengthFacts.
Import JS Core EventLists EventListFacts Events MergeFacts DetectFacts.
Import FloatFacts PercentFacts PeakBasedFacts PeakBased.




End StrengthFacts.


(** ** The statistics of the revision with manual events *)

Module ManualFacts.
Import JS Core Stats FloatClasses FloatFacts MergeFacts StatsFacts.

Lemma fold_left_map {A B C} (f : A -> C -> A) (g : B -> C) l a :
  fold_left f (map g l) a = fold_left (fun x b => f x (g b)) l a.
Proof. revert a. induction l as [|b l IH]; intros a; simpl; auto. Qed.

(** [meanStdOfCycles] at grid point [j]: the mean and the deviation of
    the whole column, the divisor of the deviation being [n - 1] for two
    cycles or more. *)
Lemma meanStdOfCycles_spec c0 rest j :
  0 <= j < len c0 ->
  let cycles := c0 :: rest in
  let column := map (fun c => get c j) cycles in
  exists m s,
    Manual.meanStdOfCycles cycles = Some (m, s)
    /\ get m j = meanOf column
    /\ (2 <= len cycles -> get s j = sampleSD column).
Proof.
  intros Hj cycles column. unfold Manual.meanStdOfCycles. subst cycles.
  cbv zeta. eexists. eexists. split; [reflexivity|].
  set (cycles := c0 :: rest) in *.
  assert (Hlen : len column = len cycles) by (unfold column; apply len_map).
  assert (Hpos : 0 < len cycles)
    by (unfold cycles; rewrite len_cons; pose proof (len_nonneg rest); lia).
  assert (Hm : get (map (fun i =>
                 (fold_left (fun a c => (a + get c i)%float) cycles 0%float
                  / Z2float (len cycles))%float) (range 0 (len c0))) j
               = meanOf column).
  { rewrite get_map_range by exact Hj. unfold meanOf, sum, column.
    rewrite fold_left_map, len_map.
    destruct (Z.ltb_spec 0 (len cycles)); [reflexivity|lia]. }
  split; [exact Hm|].
  intros H2. rewrite get_map_range by exact Hj. rewrite Hm.
  unfold sampleSD, squares. rewrite Hlen.
  destruct (Z.ltb_spec 1 (len cycles)); [|lia].
  replace (Z.max 1 (len cycles - 1)) with (len cycles - 1) by lia.
  generalize (meanOf column). intros mu0.
  unfold column. rewrite fold_left_map. reflexivity.
Qed.

End ManualFacts.


(** ** Contributions that are not finite numbers *)

Module NonFiniteFacts.
Import JS Core Stats FloatClasses FloatFacts MergeFacts StatsFacts ManualFacts.

Lemma SFadd_Spoilt_r a c : ~ Fin c -> Spoilt c (SF64add a c).
Proof.
  unfold Spoilt. intros Hc.
  destruct c as [sc|sc| |sc mc ec]; cbn [Fin] in Hc; try tauto.
  - destruct a as [sa|sa| |sa ma ea]; cbn.
    all: try (right; exists sc; split; reflexivity).
    all: try (left; reflexivity).
    destruct sa, sc; try (left; reflexivity);
      right; eexists; split; reflexivity.
  - destruct a; left; reflexivity.
Qed.

Lemma SFadd_Spoilt_l c a y : Spoilt c a -> Spoilt c (SF64add a y).
Proof.
  unfold Spoilt. intros [->|(b & -> & ->)]; [now left|].
  destruct y as [sy|sy| |sy my ey]; cbn.
  all: try (right; exists b; split; reflexivity).
  all: try (left; reflexivity).
  destruct b, sy; try (left; reflexivity);
    right; eexists; split; reflexivity.
Qed.

Lemma SFdiv_Spoilt c x n : Spoilt c x -> PosFin n -> Spoilt c (SF64div x n).
Proof.
  unfold Spoilt. destruct n as [| | |[|] mn en]; cbn [PosFin]; try tauto.
  intros [->|(b & -> & ->)] _; [now left|].
  right. exists b. split; [reflexivity|]. cbn. now rewrite xorb_false_r.
Qed.

Lemma SFsub_Spoilt c m : ~ Fin c -> Spoilt c m -> SF64sub c m = S754_nan.
Proof.
  unfold Spoilt. intros Hc [->|(b & -> & ->)].
  - destruct c as [sc|sc| |sc mc ec]; cbn [Fin] in Hc; try tauto; reflexivity.
  - cbn. destruct b; reflexivity.
Qed.

Lemma fold_Spoilt (f : list float -> float) cycles c : forall a,
  In c cycles -> ~ Fin (Prim2SF (f c)) ->
  Spoilt (Prim2SF (f c))
         (Prim2SF (fold_left (fun a c => (a + f c)%float) cycles a)).
Proof.
  induction cycles as [|c' cycles IH]; intros a Hin Hc; [destruct Hin|].
  cbn [fold_left]. destruct Hin as [->|Hin]; [|apply IH; assumption].
  clear IH. assert (H : Spoilt (Prim2SF (f c)) (Prim2SF (a + f c)%float)).
  { rewrite FloatAxioms.add_spec. apply SFadd_Spoilt_r, Hc. }
  revert H. generalize (a + f c)%float. clear a.
  induction cycles as [|c' cycles IH]; intros a H; [exact H|].
  cbn [fold_left]. apply IH. rewrite FloatAxioms.add_spec.
  apply SFadd_Spoilt_l, H.
Qed.

Lemma fold_nan (g : list float -> float) cycles c : forall a,
  In c cycles -> Prim2SF (g c) = S754_nan ->
  Prim2SF (fold_left (fun a c => (a + g c)%float) cycles a) = S754_nan.
Proof.
  intros a Hin Hc.
  pose proof (fold_Spoilt g cycles c a Hin) as H.
  rewrite Hc in H. destruct (H ltac:(cbn; tauto)) as [Hn|(b & Hb & _)];
    [exact Hn|discriminate].
Qed.

(** A contribution that is not a finite number spoils the column: the
    mean of [meanStdOfCycles] is NaN or that infinity, and the deviation
    is NaN. *)
Lemma meanStdOfCycles_nonfinite c0 rest j c :
  let cycles := c0 :: rest in
  len cycles < 2 ^ 53 -> 0 <= j < len c0 ->
  In c cycles -> Number_isFinite (get c j) = false ->
  exists m s,
    Manual.meanStdOfCycles cycles = Some (m, s)
    /\ Number_isFinite (get m j) = false
    /\ (is_nan (get c j) = true -> is_nan (get m j) = true)
    /\ is_nan (get s j) = true.
Proof.
  intros cycles Hlen Hj Hin Hc. unfold Manual.meanStdOfCycles. subst cycles.
  cbv zeta. eexists. eexists. split; [reflexivity|].
  set (cycles := c0 :: rest) in *.
  assert (Hpos : 1 <= len cycles)
    by (unfold cycles; rewrite len_cons; pose proof (len_nonneg rest); lia).
  assert (HcF : ~ Fin (Prim2SF (get c j))).
  { intros F. apply is_finite_spec in F. unfold Number_isFinite in Hc.
    congruence. }
  set (mj := (fold_left (fun a c => (a + get c j)%float) cycles 0%float
              / Z2float (len cycles))%float).
  assert (Hm : Spoilt (Prim2SF (get c j)) (Prim2SF mj)).
  { unfold mj. rewrite FloatAxioms.div_spec. apply SFdiv_Spoilt.
    - apply (fold_Spoilt (fun c => get c j)); assumption.
    - apply Z2float_PosFin. lia. }
  set (m := map _ (range 0 (len c0))).
  assert (Hgm : get m j = mj) by (unfold m; apply get_map_range; exact Hj).
  rewrite Hgm. split; [|split].
  - destruct (Number_isFinite mj) eqn:E; [|reflexivity].
    unfold Number_isFinite in E. apply is_finite_spec in E.
    destruct Hm as [Hn|(b & _ & Hb)]; rewrite ?Hn, ?Hb in E; destruct E.
  - intros Hnan. apply is_nan_spec in Hnan. apply is_nan_spec.
    destruct Hm as [Hn|(b & Hb & _)]; [exact Hn|congruence].
  - rewrite get_map_range by exact Hj. rewrite Hgm.
    apply is_nan_spec. unfold Math_sqrt.
    rewrite FloatAxioms.sqrt_spec, FloatAxioms.div_spec.
    set (g := fun c : list float =>
                let d := (get c j - mj)%float in (d * d)%float).
    match goal with
    | |- context [fold_left ?f cycles 0%float] =>
        change f with (fun a c => (a + g c)%float)
    end.
    rewrite (fold_nan g cycles c 0%float Hin).
    + reflexivity.
    + unfold g. cbv zeta. rewrite FloatAxioms.mul_spec, FloatAxioms.sub_spec.
      rewrite (SFsub_Spoilt _ _ HcF Hm). reflexivity.
Qed.

End NonFiniteFacts.


(** ** Missing samples and the floors of the pipeline *)

Module SanitizeFacts.
Import JS Core Events FloatClasses FloatFacts MergeFacts PeakBasedFacts.
Import ConstantFacts StatsFacts Robust.

Lemma interpolate_length left right pending :
  0 <= pending -> len (interpolate left right pending) = pending.
Proof.
  intros H. unfold interpolate, len. rewrite length_map, range_length. lia.
Qed.

Lemma len_app {A} (a b : list A) : len (a ++ b) = len a + len b.
Proof. unfold len. rewrite length_app. lia. Qed.

Lemma fillGaps_length ys : forall left pending,
  0 <= pending -> len (fillGaps left pending ys) = pending + len ys.
Proof.
  induction ys as [|v rest IH]; intros left pending Hp; cbn [fillGaps].
  - rewrite interpolate_length by exact Hp. unfold len. simpl. lia.
  - rewrite len_cons. destruct (Number_isFinite v).
    + rewrite len_app, len_cons, interpolate_length, IH by lia. lia.
    + rewrite IH by lia. lia.
Qed.

Lemma leading_length ys :
  len (fst (leading ys)) + len (snd (leading ys)) = len ys.
Proof.
  induction ys as [|v rest IH]; cbn [leading].
  - reflexivity.
  - destruct (Number_isFinite v).
    + cbn [fst snd]. unfold len. simpl. lia.
    + destruct (leading rest) as [a b]. cbn [fst snd] in *.
      rewrite !len_cons. lia.
Qed.

(** [sanitizeArray] keeps the length of the recording. *)
Lemma sanitizeArray_length x : len (sanitizeArray x) = len x.
Proof.
  unfold sanitizeArray. destruct (firstFinite x) as [f|].
  - pose proof (leading_length x) as H.
    destruct (leading x) as [head rest]. cbn [fst snd] in H.
    rewrite len_app, len_map, fillGaps_length by lia. lia.
  - apply len_map.
Qed.

Lemma firstFinite_none x :
  Forall (fun v => Number_isFinite v = false) x -> firstFinite x = None.
Proof.
  induction 1 as [|v rest Hv _ IH]; cbn [firstFinite]; [reflexivity|].
  now rewrite Hv.
Qed.

(** A recording with no finite sample is replaced by zeros. *)
Lemma sanitizeArray_all_missing x :
  Forall (fun v => Number_isFinite v = false) x ->
  sanitizeArray x = map (fun _ => 0%float) x.
Proof.
  intros H. unfold sanitizeArray. now rewrite firstFinite_none.
Qed.

Lemma filter_all {A} (f : A -> bool) l :
  Forall (fun v => f v = true) l -> filter f l = l.
Proof.
  induction 1 as [|v rest Hv _ IH]; cbn [filter]; [reflexivity|].
  now rewrite Hv, IH.
Qed.

Lemma filter_nothing {A} (f : A -> bool) l :
  Forall (fun v => f v = false) l -> filter f l = [].
Proof.
  induction 1 as [|v rest Hv _ IH]; cbn [filter]; [reflexivity|].
  now rewrite Hv.
Qed.

(** The share of finite samples of an array of finite samples is 1. *)
Lemma varRatioFinite_all_finite y :
  0 < len y < 2 ^ 53 -> Forall (fun v => Number_isFinite v = true) y ->
  varRatioFinite y = 1%float.
Proof.
  intros Hlen Hall. unfold varRatioFinite. rewrite filter_all by exact Hall.
  destruct (Z.eqb_spec (len y) 0); [lia|].
  pose proof (len_bound_PosFin y Hlen) as HP.
  destruct (Prim2SF (Z2float (len y))) as [| | |[|] m e] eqn:E;
    simpl in HP; try contradiction.
  apply (div_self _ _ _ _ E).
Qed.

(** The share of finite samples of an array with none is below any
    positive floor. *)
Lemma varRatioFinite_all_missing x :
  0 < len x < 2 ^ 53 -> Forall (fun v => Number_isFinite v = false) x ->
  lt (varRatioFinite x) 0.95%float = true.
Proof.
  intros Hlen Hall. unfold varRatioFinite. rewrite filter_nothing by exact Hall.
  destruct (Z.eqb_spec (len x) 0); [lia|].
  unfold lt. rewrite FloatAxioms.ltb_spec, FloatAxioms.div_spec.
  pose proof (len_bound_PosFin x Hlen) as HP.
  destruct (Prim2SF (Z2float (len x))) as [| | |[|] m e] eqn:E;
    simpl in HP; try contradiction.
  reflexivity.
Qed.

Lemma precheck_all_missing x fs p :
  0 < len x < 2 ^ 53 -> Forall (fun v => Number_isFinite v = false) x ->
  varRatioFinite (sanitizeArray x) = 1%float
  /\ precheck x fs p <> TooManyMissing.
Proof.
  intros Hlen Hall.
  assert (H1 : varRatioFinite (sanitizeArray x) = 1%float).
  { rewrite sanitizeArray_all_missing by exact Hall.
    apply varRatioFinite_all_finite.
    - rewrite len_map. exact Hlen.
    - apply Forall_forall. intros v Hv. apply in_map_iff in Hv.
      destruct Hv as (? & <- & _). reflexivity. }
  split; [exact H1|].
  unfold precheck. rewrite H1.
  change (lt 1 0.95) with false. cbv iota.
  destruct (lt _ _); [discriminate|].
  destruct (ge _ _); [discriminate|].
  destruct (ge _ _); discriminate.
Qed.

(** A recording shorter than two seconds is refused. *)
Lemma precheck_short x fs p :
  lt (Z2float (len x)) (fs * 2)%float = true ->
  precheck x fs p = TooManyMissing \/ precheck x fs p = TooShort.
Proof.
  intros H. unfold precheck. destruct (lt (varRatioFinite _) _); [now left|].
  rewrite len_map, sanitizeArray_length, H. now right.
Qed.

Lemma precheck_long x fs p :
  lt (Z2float (len x)) (fs * 2)%float = false -> precheck x fs p <> TooShort.
Proof.
  intros H. unfold precheck. destruct (lt (varRatioFinite _) _); [discriminate|].
  rewrite len_map, sanitizeArray_length, H.
  destruct (ge _ _); [discriminate|].
  destruct (ge _ _); discriminate.
Qed.

End SanitizeFacts.


(** ** The threshold of a result *)

Module ThresholdFacts.
Import JS Core EventLists EventListFacts Events MergeFacts DetectFacts.
Import DetectorProps.






End ThresholdFacts.

Module MadFacts.
Import JS Core FloatClasses FloatFacts SanitizeFacts.

Lemma SFmul_comm x y : SFmul prec emax x y = SFmul prec emax y x.
Proof.
  destruct x as [sx|sx| |sx mx ex], y as [sy|sy| |sy my ey]; simpl;
    rewrite ?(xorb_comm sx sy), ?(Pos.mul_comm mx my), ?(Z.add_comm ex ey);
    reflexivity.
Qed.

(** Multiplication of numbers is commutative. *)
Lemma mul_comm (a b : float) : (a * b = b * a)%float.
Proof.
  apply FloatAxioms.Prim2SF_inj. rewrite !FloatAxioms.mul_spec.
  apply SFmul_comm.
Qed.





End MadFacts.


(** ** The shift search of the reconciler *)

Module SearchFacts.
Import JS Core EventLists EventListFacts Events MergeFacts VideoFacts.
Import VideoAssist ShiftSearch.

(** A search that ends within the fuel gives a shift. *)
Lemma shiftLoop_total count bound stepSec fuel : forall s best,
  endsWithin fuel s bound stepSec = true ->
  exists r, shiftLoop fuel count s bound stepSec best = Some r.
Proof.
  induction fuel as [|fuel IH]; intros s best H; cbn [endsWithin shiftLoop] in *.
  - destruct (le s bound); [discriminate|]. now exists best.
  - destruct (le s bound); [|now exists best].
    apply IH. exact H.
Qed.

Lemma bestShiftMatch_total fuel emgTimes videoTimes rangeSec tolSec :
  searchEnds fuel rangeSec = true ->
  exists r, bestShiftMatch fuel emgTimes videoTimes rangeSec 0.01%float tolSec
            = Some r.
Proof.
  intros H. unfold bestShiftMatch.
  destruct (_ || _); [now eexists|].
  apply shiftLoop_total. exact H.
Qed.

Lemma keepHsMatchedToVideo_total fuel hsIdx tSec videoEvents syncRange tolMs :
  searchEnds fuel syncRange = true ->
  exists r, keepHsMatchedToVideo fuel hsIdx tSec videoEvents syncRange tolMs
            = Some r.
Proof.
  intros H. unfold keepHsMatchedToVideo.
  destruct (bestShiftMatch_total fuel (map (item tSec) hsIdx) videoEvents
              syncRange (tolMs / 1000)%float H) as [[shift score] ->].
  now eexists.
Qed.

End SearchFacts.


(** ** Events and the bounds of the envelope *)

Module BoundsFacts.
Import JS Core EventLists EventListFacts Events MergeFacts DetectFacts.
Import PeakBasedFacts GapFacts.






End BoundsFacts.

(** ** The search without end, and events that are all inside *)

Module MoreFacts.
Import JS Core EventLists EventListFacts Events MergeFacts DetectFacts.
Import SanitizeFacts BoundsFacts VideoAssist.

(** The search from [-Infinity] to [Infinity] never leaves its first
    shift. *)
Lemma shiftLoop_unbounded count best fuel :
  shiftLoop fuel count neg_infinity infinity 0.01%float best = None.
Proof.
  revert best. induction fuel as [|fuel IH]; intros best; cbn [shiftLoop].
  - reflexivity.
  - change (le neg_infinity infinity) with true. cbv iota.
    change (neg_infinity + 0.01)%float with neg_infinity. apply IH.
Qed.

Lemma filter_in_bounds n hs :
  InBounds n hs -> filter (inEnvelope n) hs = hs.
Proof.
  intros H. apply filter_all. unfold InBounds in H.
  rewrite Forall_forall in *. intros i Hi. specialize (H i Hi).
  unfold inEnvelope. apply andb_true_iff.
  split; [apply Z.leb_le|apply Z.ltb_lt]; lia.
Qed.

End MoreFacts.

(** * Bursts and peaks *)

Module BurstFacts.
Import JS Core BurstProps.

Lemma getb_neg mask i : i < 0 -> getb mask i = false.
Proof. intros H. unfold getb. destruct (Z.ltb_spec i 0); [reflexivity|lia]. Qed.

Lemma getb_beyond mask i : len mask <= i -> getb mask i = false.
Proof.
  intros H. unfold getb, len in *. destruct (Z.ltb_spec i 0); [reflexivity|].
  apply nth_overflow. lia.
Qed.

Lemma range_step a b : a < b -> range a b = a :: range (a + 1) b.
Proof.
  intros H. unfold range.
  replace (Z.to_nat (b - a)) with (S (Z.to_nat (b - (a + 1)))) by lia.
  simpl. rewrite Z.add_0_r. f_equal.
  rewrite <- seq_shift, map_map. apply map_ext. intros k. lia.
Qed.

Lemma range_empty a b : b <= a -> range a b = [].
Proof. intros H. unfold range. replace (Z.to_nat (b - a)) with O by lia. reflexivity. Qed.

Lemma range_snoc a b : a <= b -> range a (b + 1) = range a b ++ [b].
Proof.
  intros H. unfold range.
  replace (Z.to_nat (b + 1 - a)) with (Z.to_nat (b - a) + 1)%nat by lia.
  rewrite seq_app, map_app. simpl. f_equal. f_equal. lia.
Qed.

Lemma startAt_0 mask : startAt mask 0 = getb mask 0.
Proof. unfold startAt. rewrite (getb_neg mask (0 - 1)) by lia. reflexivity. Qed.

Lemma endAt_0 mask : endAt mask 0 = false.
Proof. unfold endAt. rewrite (getb_neg mask (0 - 1)) by lia. reflexivity. Qed.

Lemma endAt_len mask : endAt mask (len mask) = getb mask (len mask - 1).
Proof.
  unfold endAt. rewrite (getb_beyond mask (len mask)) by lia.
  apply andb_true_r.
Qed.

Lemma risingEdges_filters mask :
  risingEdges mask
  = combine (filter (startAt mask) (range 0 (len mask)))
            (filter (endAt mask) (range 0 (len mask + 1))).
Proof.
  unfold risingEdges.
  assert (Hn : 0 <= len mask) by (unfold len; lia).
  destruct (Z.eq_dec (len mask) 0) as [H0|H0].
  - assert (mask = []) by (destruct mask; [reflexivity|unfold len in H0; simpl in H0; lia]).
    subst. reflexivity.
  - f_equal.
    + rewrite (range_step 0 (len mask)) by lia. cbn [filter].
      rewrite startAt_0. change (0 + 1) with 1.
      destruct (getb mask 0); reflexivity.
    + rewrite (range_step 0 (len mask + 1)) by lia. cbn [filter].
      rewrite endAt_0. change (0 + 1) with 1.
      rewrite (range_snoc 1 (len mask)) by lia.
      rewrite filter_app. cbn [filter]. rewrite endAt_len.
      destruct (getb mask (len mask - 1)); [reflexivity|].
      rewrite app_nil_r. reflexivity.
Qed.

Lemma Run_end_unique mask s e a :
  (forall i, s <= i < a -> getb mask i = true) -> getb mask a = false ->
  s < a -> Run mask s e -> e = a.
Proof.
  intros Hon Hoff Hsa (Hse & Hlen & Hrun & _ & Hend).
  destruct (Z.lt_trichotomy e a) as [H|[H|H]]; [|exact H|].
  - rewrite Hon in Hend by lia. discriminate.
  - rewrite Hrun in Hoff by lia. discriminate.
Qed.

Lemma edgesFrom_spec mask k :
  forall a pending,
    a = len mask + 1 - Z.of_nat k -> 0 <= a ->
    Pending mask pending a ->
    (forall s e, In (s, e) (edgesFrom mask pending a)
                 <-> Run mask s e /\ From pending a s)
    /\ Apart (edgesFrom mask pending a)
    /\ (forall s e, In (s, e) (edgesFrom mask pending a) -> a <= e).
Proof.
  assert (Hn : 0 <= len mask) by (unfold len; lia).
  induction k as [|k IH]; intros a pending Ha H0 Hp.
  - (* a = len mask + 1 *)
    unfold edgesFrom.
    rewrite (range_empty a (len mask)) by lia.
    rewrite (range_empty a (len mask + 1)) by lia.
    cbn [filter]. 
    assert (Hnil : forall (l : list Z), combine l (@nil Z) = []) by (intros []; reflexivity).
    rewrite Hnil. split; [|split; [constructor|intros s e []]].
    intros s e. split; [intros []|].
    intros [(Hse & Hlen & Hrun & _) [Hf|Hf]]; [lia|].
    subst pending. destruct Hp as (Hs & _ & Hon).
    specialize (Hon (len mask) ltac:(lia)).
    rewrite (getb_beyond mask (len mask)) in Hon by lia. discriminate.
  - assert (Ha' : a <= len mask) by lia.
    unfold edgesFrom.
    rewrite (range_step a (len mask + 1)) by lia. cbn [filter].
    destruct (Z.eq_dec a (len mask)) as [Hlast|Hlast].
    + (* position n: no start, an end when the last sample is set *)
      rewrite (range_empty a (len mask)) by lia.
      rewrite (range_empty (a + 1) (len mask + 1)) by lia. cbn [filter].
      clear IH Ha Ha' H0. subst a. rewrite endAt_len.
      destruct pending as [s0|]; cbn [Pending] in Hp.
      * destruct Hp as (Hs & Hbefore & Hon).
        rewrite (Hon (len mask - 1)) by lia. cbn [combine].
        assert (Hrun0 : Run mask s0 (len mask)).
        { repeat split; try lia; auto. apply getb_beyond. lia. }
        split; [|split; [constructor|]].
        -- intros s e. split.
           ++ intros [[= <- <-]|[]]. split; [exact Hrun0|right; reflexivity].
           ++ intros [Hrun [Hf|[= <-]]].
              ** destruct Hrun as (? & ? & _). lia.
              ** left. f_equal.
                 symmetry. eapply Run_end_unique; [exact Hon| |lia|exact Hrun].
                 apply getb_beyond. lia.
        -- intros s e [[= <- <-]|[]]. lia.
      * rewrite Hp. cbn [combine].
        split; [|split; [constructor|intros s e []]].
        intros s e. split; [intros []|].
        intros [(? & ? & _) [Hf|Hf]]; [lia|discriminate].
    + rewrite (range_step a (len mask)) by lia. cbn [filter].
      destruct pending as [s0|]; cbn [Pending] in Hp.
      * destruct Hp as (Hs & Hbefore & Hon).
        assert (Hprev : getb mask (a - 1) = true) by (apply Hon; lia).
        assert (Hst : startAt mask a = false)
          by (unfold startAt; rewrite Hprev; reflexivity).
        assert (Hen : endAt mask a = negb (getb mask a))
          by (unfold endAt; rewrite Hprev; reflexivity).
        rewrite Hst, Hen.
        destruct (getb mask a) eqn:Hcur; cbn [negb].
        -- (* the run goes on *)
           destruct (IH (a + 1) (Some s0)) as (Hin & Hap & Hlow); [lia|lia| |].
           { cbn [Pending]. repeat split; try lia; auto.
             intros i Hi. destruct (Z.eq_dec i a); [subst; exact Hcur|apply Hon; lia]. }
           unfold edgesFrom in Hin, Hap, Hlow.
           split; [|split; [exact Hap|]].
           ++ intros s e. rewrite Hin. unfold From.
              split; intros [Hrun Hf]; (split; [exact Hrun|]).
              ** destruct Hf; [left; lia|right; assumption].
              ** destruct Hf as [Hf|Hf]; [|right; assumption].
                 left. destruct (Z.eq_dec s a); [|lia]. subst s.
                 destruct Hrun as (_ & _ & _ & Hb & _). congruence.
           ++ intros s e Hse. specialize (Hlow s e Hse). lia.
        -- (* the run ends at [a] *)
           cbn [combine].
           destruct (IH (a + 1) None) as (Hin & Hap & Hlow); [lia|lia| |].
           { cbn [Pending]. replace (a + 1 - 1) with a by lia. exact Hcur. }
           unfold edgesFrom in Hin, Hap, Hlow.
           assert (Hrun0 : Run mask s0 a) by (repeat split; try lia; auto).
           split; [|split].
           ++ intros s e. cbn [In]. rewrite Hin. unfold From. split.
              ** intros [[= <- <-]|[Hrun Hf]].
                 --- split; [exact Hrun0|right; reflexivity].
                 --- split; [exact Hrun|]. destruct Hf; [left; lia|discriminate].
              ** intros [Hrun [Hf|[= <-]]].
                 --- right. split; [exact Hrun|]. left.
                     destruct (Z.eq_dec s a); [|lia]. subst s.
                     destruct Hrun as (Hse & _ & Hon' & _).
                     rewrite Hon' in Hcur by lia. discriminate.
                 --- left. f_equal. symmetry.
                     eapply Run_end_unique; [exact Hon|exact Hcur|lia|exact Hrun].
           ++ destruct (combine _ _) as [|[s' e'] l] eqn:Hc; [constructor|].
              constructor; [|exact Hap].
              assert (Hin' : In (s', e') ((s', e') :: l)) by (left; reflexivity).
              apply Hin in Hin'. destruct Hin' as [_ [Hf|Hf]]; [lia|discriminate].
           ++ intros s e [[= <- <-]|Hse]; [lia|].
              specialize (Hlow s e Hse). lia.
      * assert (Hst : startAt mask a = getb mask a)
          by (unfold startAt; rewrite Hp; reflexivity).
        assert (Hen : endAt mask a = false)
          by (unfold endAt; rewrite Hp; reflexivity).
        rewrite Hst, Hen.
        destruct (getb mask a) eqn:Hcur.
        -- (* a run begins at [a] *)
           destruct (IH (a + 1) (Some a)) as (Hin & Hap & Hlow); [lia|lia| |].
           { cbn [Pending]. repeat split; try lia; auto.
             intros i Hi. replace i with a by lia. exact Hcur. }
           unfold edgesFrom in Hin, Hap, Hlow.
           split; [|split; [exact Hap|]].
           ++ intros s e. rewrite Hin. unfold From.
              split; intros [Hrun Hf]; (split; [exact Hrun|]).
              ** destruct Hf as [Hf|[= <-]]; left; lia.
              ** destruct Hf as [Hf|Hf]; [|discriminate].
                 destruct (Z.eq_dec s a); [right; congruence|left; lia].
           ++ intros s e Hse. specialize (Hlow s e Hse). lia.
        -- destruct (IH (a + 1) None) as (Hin & Hap & Hlow); [lia|lia| |].
           { cbn [Pending]. replace (a + 1 - 1) with a by lia. exact Hcur. }
           unfold edgesFrom in Hin, Hap, Hlow.
           split; [|split; [exact Hap|]].
           ++ intros s e. rewrite Hin. unfold From.
              split; intros [Hrun Hf]; (split; [exact Hrun|]).
              ** destruct Hf as [Hf|Hf]; [left; lia|discriminate].
              ** destruct Hf as [Hf|Hf]; [|discriminate].
                 left. destruct (Z.eq_dec s a); [|lia]. subst s.
                 destruct Hrun as (Hse & _ & Hon' & _).
                 rewrite Hon' in Hcur by lia. discriminate.
           ++ intros s e Hse. specialize (Hlow s e Hse). lia.
Qed.

(** [risingEdges] returns the maximal runs of the mask, in ascending order. *)
Lemma risingEdges_maximal mask :
  (forall s e, In (s, e) (risingEdges mask) <-> Run mask s e)
  /\ Apart (risingEdges mask).
Proof.
  rewrite risingEdges_filters.
  assert (Hn : 0 <= len mask) by (unfold len; lia).
  destruct (edgesFrom_spec mask (Z.to_nat (len mask + 1)) 0 None)
    as (Hin & Hap & _); [lia|lia| |].
  { cbn [Pending]. apply getb_neg. lia. }
  unfold edgesFrom in Hin, Hap. split; [|exact Hap].
  intros s e. rewrite Hin. unfold From. split; [tauto|].
  intros Hrun. split; [exact Hrun|]. left. destruct Hrun as (? & _). lia.
Qed.

End BurstFacts.

Module PeakFacts.
Import JS Core Events EventLists EventListFacts BurstProps.

Lemma localMaxima_spec y i :
  In i (localMaxima y)
  <-> 1 <= i < len y - 1
      /\ gt (get y i) (get y (i - 1)) = true
      /\ ge (get y i) (get y (i + 1)) = true.
Proof.
  unfold localMaxima. rewrite filter_In, andb_true_iff.
  unfold range. rewrite in_map_iff. split.
  - intros [(k & <- & Hk) H]. apply in_seq in Hk. split; [lia|exact H].
  - intros [Hi H]. split; [|exact H].
    exists (Z.to_nat (i - 1)). split; [lia|]. apply in_seq. lia.
Qed.

Lemma forallb_far minDist idx chosen :
  forallb (fun c => negb (Z.abs (idx - c) <? minDist)) chosen = true
  <-> forall c, In c chosen -> minDist <= Z.abs (idx - c).
Proof.
  rewrite forallb_forall. split; intros H c Hc; specialize (H c Hc).
  - destruct (Z.ltb_spec (Z.abs (idx - c)) minDist); [discriminate|lia].
  - destruct (Z.ltb_spec (Z.abs (idx - c)) minDist); [lia|reflexivity].
Qed.

Lemma Far_snoc d l x :
  Far d l -> (forall c, In c l -> d <= Z.abs (x - c)) -> Far d (l ++ [x]).
Proof.
  induction l as [|a l IH]; simpl; intros Hf Hx; [tauto|].
  destruct Hf as [Ha Hf]. split.
  - intros c Hc. apply in_app_iff in Hc. destruct Hc as [Hc|[<-|[]]]; auto.
    specialize (Hx a (or_introl eq_refl)). lia.
  - apply IH; auto.
Qed.

Lemma Far_insert d l x :
  Far d l -> (forall c, In c l -> d <= Z.abs (x - c)) ->
  Far d (insert afterZ x l).
Proof.
  induction l as [|a l IH]; simpl; intros Hf Hx; [tauto|].
  destruct Hf as [Ha Hf].
  destruct (afterZ x a); simpl.
  - split.
    + intros c Hc. apply insert_In in Hc. destruct Hc as [->|Hc]; auto.
      specialize (Hx a (or_introl eq_refl)). lia.
    + apply IH; auto.
  - auto.
Qed.

Lemma Far_sort d l : Far d l -> Far d (sort afterZ l).
Proof.
  induction l as [|a l IH]; simpl; [tauto|]. intros [Ha Hf].
  apply Far_insert; auto.
  intros c Hc. apply sort_In in Hc. auto.
Qed.

Lemma Far_Spaced d l : Far d l -> Spaced 0 l -> Spaced d l.
Proof.
  induction l as [|a l IH]; intros Hf Hs; [constructor|].
  destruct Hf as [Ha Hf].
  apply Spaced_intro.
  - intros x Hx. destruct (Spaced_head _ _ _ _ Hs Hx) as [Hax _].
    specialize (Ha x Hx). lia.
  - apply IH; [exact Hf|]. eapply Spaced_tail; eauto.
Qed.

(** The loop over the ranked peaks keeps [chosen] within the peaks and
    its members [minDist] apart. *)
Lemma greedy_inv minDist maxCount (P : Z -> Prop) peaks :
  forall chosen,
    (forall p, In p peaks -> P p) ->
    (forall c, In c chosen -> P c) -> Far minDist chosen ->
    (forall c, In c (greedy minDist maxCount peaks chosen) -> P c)
    /\ Far minDist (greedy minDist maxCount peaks chosen).
Proof.
  induction peaks as [|idx rest IH]; intros chosen Hsub Hin Hfar; simpl; [auto|].
  assert (Hrest : forall p, In p rest -> P p) by (intros p Hp; apply Hsub; now right).
  destruct (forallb _ chosen) eqn:Hok; [|apply IH; auto].
  rewrite forallb_far in Hok.
  assert (Hin' : forall c, In c (chosen ++ [idx]) -> P c).
  { intros c Hc. apply in_app_iff in Hc. destruct Hc as [Hc|[<-|[]]]; auto.
    apply Hsub. now left. }
  assert (Hfar' : Far minDist (chosen ++ [idx])) by (apply Far_snoc; auto).
  destruct (reached maxCount _); [auto|]. apply IH; auto.
Qed.

(** The count limit: the loop stops as soon as [maxCount] are chosen. *)
Lemma greedy_count minDist m peaks :
  forall chosen,
    0 < m -> len chosen < m ->
    len (greedy minDist (Some m) peaks chosen) <= m.
Proof.
  induction peaks as [|idx rest IH]; intros chosen Hm Hc; simpl; [lia|].
  destruct (forallb _ chosen).
  - unfold reached.
    assert (Hl : len (chosen ++ [idx]) = len chosen + 1).
    { unfold len. rewrite length_app. simpl. lia. }
    destruct (Z.eqb_spec m 0); [lia|]. simpl.
    destruct (Z.leb_spec m (len (chosen ++ [idx]))); [lia|].
    apply IH; lia.
  - apply IH; lia.
Qed.

Lemma greedy_grows minDist maxCount peaks :
  forall chosen c, In c chosen -> In c (greedy minDist maxCount peaks chosen).
Proof.
  induction peaks as [|idx rest IH]; intros chosen c Hc; simpl; [exact Hc|].
  destruct (forallb _ chosen); [|auto].
  assert (In c (chosen ++ [idx])) by (apply in_app_iff; now left).
  destruct (reached maxCount _); auto.
Qed.

(** Without a count limit every ranked peak is chosen or lies closer
    than [minDist] to a chosen one. *)
Lemma greedy_covers minDist peaks :
  forall chosen p, In p peaks ->
    exists c, In c (greedy minDist None peaks chosen)
              /\ (c = p \/ Z.abs (p - c) < minDist).
Proof.
  induction peaks as [|idx rest IH]; intros chosen p Hp; [destruct Hp|].
  simpl. destruct Hp as [<-|Hp].
  - destruct (forallb _ chosen) eqn:Hok.
    + exists idx. split; [|now left].
      apply greedy_grows. apply in_app_iff. right. now left.
    + assert (Hex : exists c, In c chosen /\ Z.abs (idx - c) < minDist).
      { destruct (existsb (fun c => Z.abs (idx - c) <? minDist) chosen) eqn:He.
        - apply existsb_exists in He. destruct He as (c & Hc & Hlt).
          exists c. split; [exact Hc|]. apply Z.ltb_lt. exact Hlt.
        - exfalso. assert (Hall : forallb (fun c => negb (Z.abs (idx - c) <? minDist)) chosen = true).
          { apply forallb_forall. intros c Hc.
            destruct (Z.abs (idx - c) <? minDist) eqn:Hlt; [|reflexivity].
            assert (existsb (fun c => Z.abs (idx - c) <? minDist) chosen = true)
              by (apply existsb_exists; exists c; auto).
            congruence. }
          congruence. }
      destruct Hex as (c & Hc & Hlt). exists c. split; [|now right].
      apply greedy_grows. exact Hc.
  - destruct (forallb _ chosen); apply IH; exact Hp.
Qed.

(** [refineToOnset]: the walk back from a peak ends at the first sample
    at or below [thrOff] it meets, or at the start of the envelope. *)
Lemma refineFrom_spec y thrOff i :
  let r := refineFrom y thrOff i in
  (r <= i)%nat
  /\ (forall j, (r < j <= i)%nat -> gt (get y (Z.of_nat j)) thrOff = true)
  /\ (r = O \/ gt (get y (Z.of_nat r)) thrOff = false).
Proof.
  induction i as [|i IH]; [simpl; repeat split; auto; intros; lia|].
  cbn zeta in *. cbn [refineFrom].
  destruct (gt (get y (Z.of_nat (S i))) thrOff) eqn:Hg.
  - destruct IH as (Hle & Hrun & Hstop). split; [lia|]. split; [|exact Hstop].
    intros j Hj. destruct (Nat.eq_dec j (S i)); [subst; exact Hg|].
    apply Hrun. lia.
  - split; [lia|]. split; [intros j Hj; lia|]. right. exact Hg.
Qed.

End PeakFacts.

(** * Shapes of results, samples kept, thinning, the best shift *)

Module ShapeFacts.
Import JS Core Events EventLists EventListFacts MergeFacts.

Lemma len_range a b : len (range a b) = Z.max 0 (b - a).
Proof. unfold len, range. rewrite length_map, length_seq. lia. Qed.

Lemma len_rev {A} (l : list A) : len (rev l) = len l.
Proof. unfold len. rewrite length_rev. reflexivity. Qed.

Lemma len_demean x : len (demean x) = len x.
Proof.
  unfold demean. destruct (fold_left _ x _) as [s n]. apply len_map.
Qed.

Lemma len_absArray x : len (absArray x) = len x.
Proof. apply len_map. Qed.

Lemma len_movingRMS x win : len (movingRMS x win) = len x.
Proof.
  unfold movingRMS. rewrite len_map, len_range.
  assert (0 <= len x) by apply len_nonneg. lia.
Qed.

Lemma len_biquadFrom c x1 x2 y1 y2 x :
  len (biquadFrom c x1 x2 y1 y2 x) = len x.
Proof.
  revert x1 x2 y1 y2. induction x as [|x0 x IH]; intros; [reflexivity|].
  cbn [biquadFrom]. rewrite !len_cons, IH. reflexivity.
Qed.

Lemma len_filtfilt x c : len (filtfilt x c) = len x.
Proof.
  unfold filtfilt, reverseArray, biquadFilter.
  rewrite len_rev, len_biquadFrom, len_rev, len_biquadFrom. reflexivity.
Qed.

Lemma len_butter2x {host : Host} x type fc fs :
  len (butter2x x type fc fs) = len x.
Proof. unfold butter2x. rewrite !len_filtfilt. reflexivity. Qed.

Lemma len_percentPeak env hs : len (percentPeak env hs) = len env.
Proof. unfold percentPeak. destruct (_ || _); apply len_map. Qed.

Lemma len_linspace a b n : len (linspace a b n) = Z.max 0 n.
Proof. unfold linspace. rewrite len_map, len_range. lia. Qed.

Lemma len_resample y s e n : len (resample y s e n) = Z.max 0 n.
Proof. unfold resample. rewrite len_map, len_range. lia. Qed.

Lemma length_pairs hs : length (pairs hs) = (length hs - 1)%nat.
Proof.
  induction hs as [|a [|b l] IH]; [reflexivity|reflexivity|].
  change (pairs (a :: b :: l)) with ((a, b) :: pairs (b :: l)).
  cbn [length] in *. lia.
Qed.

(** The consecutive pairs of events [g] apart are [g] wide. *)
Lemma pairs_Spaced g hs s e :
  Spaced g hs -> In (s, e) (pairs hs) -> s + g <= e.
Proof.
  induction 1 as [|a|a b l Hab Hg Hs IH]; [intros []|intros []|].
  change (pairs (a :: b :: l)) with ((a, b) :: pairs (b :: l)).
  intros [[= <- <-]|Hin]; [lia|auto].
Qed.

Lemma filter_all_true {A} (f : A -> bool) l :
  (forall x, In x l -> f x = true) -> filter f l = l.
Proof.
  induction l as [|a l IH]; intros H; [reflexivity|]. simpl.
  rewrite (H a (or_introl eq_refl)). f_equal. apply IH.
  intros x Hx. apply H. now right.
Qed.

(** [normalizeCycles]: a grid of [nPoints] points and, for each pair of
    consecutive events more than two samples apart, a cycle of
    [nPoints] points. *)
Lemma normalizeCycles_shape y hs nPoints :
  let '(g, cyc) := normalizeCycles y hs nPoints in
  len g = Z.max 0 nPoints
  /\ Forall (fun c => len c = Z.max 0 nPoints) cyc
  /\ len cyc <= Z.max 0 (len hs - 1)
  /\ (forall gap, 3 <= gap -> Spaced gap hs -> len cyc = Z.max 0 (len hs - 1)).
Proof.
  unfold normalizeCycles. split; [apply len_linspace|]. split.
  { apply Forall_forall. intros c Hc. apply in_map_iff in Hc.
    destruct Hc as ([s e] & <- & _). apply len_resample. }
  split.
  { rewrite len_map. unfold len.
    pose proof (filter_length_le (fun '(s, e) => negb (e <=? s + 2)) (pairs hs)) as H.
    rewrite length_pairs in H. lia. }
  intros gap Hgap Hs. rewrite len_map.
  rewrite filter_all_true.
  - unfold len. rewrite length_pairs. lia.
  - intros [s e] Hin. pose proof (pairs_Spaced _ _ _ _ Hs Hin).
    destruct (Z.leb_spec e (s + 2)); [lia|reflexivity].
Qed.

Lemma meanAndSD_shape cyc n :
  Forall (fun c => len c = n) cyc -> 0 <= n ->
  let '(mu, sg) := meanAndSD cyc in
  (cyc = [] -> mu = [] /\ sg = [])
  /\ (cyc <> [] -> len mu = n /\ len sg = n).
Proof.
  intros Hall Hn. destruct cyc as [|c0 rest]; simpl.
  - split; [auto|congruence].
  - split; [discriminate|]. intros _.
    inversion Hall; subst. rewrite !len_map, !len_range. lia.
Qed.

End ShapeFacts.

Module KeepFacts.
Import JS Core Events EventLists EventListFacts MergeFacts SanitizeFacts Robust.

Lemma get_app_left a b i : i < len a -> get (a ++ b) i = get a i.
Proof.
  intros H. unfold get. destruct (Z.ltb_spec i 0); [reflexivity|].
  apply app_nth1. unfold len in H. lia.
Qed.

Lemma get_app_right a b i : len a <= i -> get (a ++ b) i = get b (i - len a).
Proof.
  intros H. assert (0 <= len a) by apply len_nonneg. unfold get.
  destruct (Z.ltb_spec i 0); [lia|]. destruct (Z.ltb_spec (i - len a) 0); [lia|].
  rewrite app_nth2 by (unfold len in H; lia). f_equal. unfold len. lia.
Qed.

Lemma get_cons_0 v l : get (v :: l) 0 = v.
Proof. reflexivity. Qed.

Lemma get_cons_S v l i : 0 < i -> get (v :: l) i = get l (i - 1).
Proof.
  intros H. unfold get. destruct (Z.ltb_spec i 0); [lia|].
  destruct (Z.ltb_spec (i - 1) 0); [lia|].
  replace (Z.to_nat i) with (S (Z.to_nat (i - 1))) by lia. reflexivity.
Qed.

(** The gap loop leaves every finite sample where it is. *)
Lemma fillGaps_keeps ys : forall left pending i,
  0 <= pending -> 0 <= i -> Number_isFinite (get ys i) = true ->
  get (fillGaps left pending ys) (pending + i) = get ys i.
Proof.
  induction ys as [|v rest IH]; intros left pending i Hp Hi Hfin.
  - unfold get in Hfin. destruct (i <? 0); [discriminate|].
    destruct (Z.to_nat i); discriminate.
  - cbn [fillGaps]. destruct (Number_isFinite v) eqn:Hv.
    + rewrite get_app_right by (rewrite interpolate_length by lia; lia).
      rewrite interpolate_length by lia.
      replace (pending + i - pending) with i by lia.
      destruct (Z.eq_dec i 0) as [->|Hne]; [reflexivity|].
      rewrite !get_cons_S by lia.
      rewrite get_cons_S in Hfin by lia.
      apply (IH v 0 (i - 1)); [lia|lia|exact Hfin].
    + destruct (Z.eq_dec i 0) as [->|Hne].
      { rewrite get_cons_0 in Hfin. congruence. }
      rewrite get_cons_S in Hfin by lia. rewrite (get_cons_S v rest) by lia.
      replace (pending + i) with ((pending + 1) + (i - 1)) by lia.
      apply IH; [lia|lia|exact Hfin].
Qed.

Lemma leading_spec ys :
  let '(a, b) := leading ys in
  ys = a ++ b /\ Forall (fun v => Number_isFinite v = false) a.
Proof.
  induction ys as [|v rest IH]; cbn [leading]; [auto|].
  destruct (Number_isFinite v) eqn:Hv; [auto|].
  destruct (leading rest) as [a b]. destruct IH as [Heq Hall].
  split; [simpl; f_equal; exact Heq|]. constructor; auto.
Qed.

Lemma get_not_finite a i :
  Forall (fun v => Number_isFinite v = false) a -> Number_isFinite (get a i) = false.
Proof.
  intros Hall. unfold get. destruct (i <? 0); [reflexivity|].
  destruct (nth_in_or_default (Z.to_nat i) a nan) as [Hin | ->]; [|reflexivity].
  rewrite Forall_forall in Hall. apply Hall. exact Hin.
Qed.

(** [sanitizeArray] leaves every finite sample where it is, with its value. *)
Lemma sanitizeArray_keeps x i :
  Number_isFinite (get x i) = true -> get (sanitizeArray x) i = get x i.
Proof.
  intros Hfin. unfold sanitizeArray.
  assert (Hi : 0 <= i).
  { unfold get in Hfin. destruct (Z.ltb_spec i 0); [discriminate|lia]. }
  destruct (firstFinite x) as [f|] eqn:Hf.
  - pose proof (leading_spec x) as Hl. destruct (leading x) as [a b].
    destruct Hl as [Heq Hall]. subst x.
    destruct (Z.ltb_spec i (len a)) as [Hlt|Hge].
    + rewrite get_app_left in Hfin by exact Hlt.
      rewrite get_not_finite in Hfin by exact Hall. discriminate.
    + rewrite get_app_right in Hfin by lia.
      rewrite (get_app_right a b) by lia.
      rewrite get_app_right by (rewrite len_map; lia). rewrite len_map.
      apply (fillGaps_keeps b f 0 (i - len a)); [lia|lia|exact Hfin].
  - exfalso. clear -Hf Hfin Hi. revert i Hi Hfin.
    induction x as [|v rest IH]; intros i Hi Hfin.
    + unfold get in Hfin. destruct (i <? 0); [discriminate|].
      destruct (Z.to_nat i); discriminate.
    + cbn [firstFinite] in Hf. destruct (Number_isFinite v) eqn:Hv; [discriminate|].
      destruct (Z.eq_dec i 0) as [->|Hne].
      * rewrite get_cons_0 in Hfin. congruence.
      * rewrite get_cons_S in Hfin by lia. apply (IH Hf (i - 1)); [lia|exact Hfin].
Qed.

(** The samples before the first finite one take its value. *)
Lemma sanitizeArray_leading x f :
  firstFinite x = Some f ->
  forall i, 0 <= i < len (fst (leading x)) -> get (sanitizeArray x) i = f.
Proof.
  intros Hf i Hi. unfold sanitizeArray. rewrite Hf.
  destruct (leading x) as [a b]. cbn [fst] in Hi.
  rewrite get_app_left by (rewrite len_map; lia).
  unfold get. destruct (Z.ltb_spec i 0); [lia|].
  assert (Hin : In (nth (Z.to_nat i) (map (fun _ : float => f) a) nan)
                   (map (fun _ : float => f) a)).
  { apply nth_In. rewrite length_map. unfold len in Hi. lia. }
  apply in_map_iff in Hin. destruct Hin as (v & Hv & _). symmetry. exact Hv.
Qed.

End KeepFacts.

Module ThinFacts.
Import JS Core Events EventLists EventListFacts MergeFacts.

Lemma succ_mod2 i : (i + 1) mod 2 = 1 - i mod 2.
Proof. Z.div_mod_to_equations. lia. Qed.

Lemma everyNth_from_length {A} (l : list A) : forall i,
  2 * len (everyNth_from 2 (i mod 2) i l) = len l + len l mod 2
  /\ 2 * len (everyNth_from 2 ((i + 1) mod 2) i l) = len l - len l mod 2.
Proof.
  induction l as [|x l IH]; intros i; [split; reflexivity|].
  cbn [everyNth_from]. rewrite Z.eqb_refl.
  pose proof (succ_mod2 i) as Hi1.
  pose proof (succ_mod2 (i + 1)) as Hi2.
  pose proof (succ_mod2 (len l)) as Hl.
  pose proof (Z.mod_pos_bound i 2 ltac:(lia)) as Hb.
  destruct (Z.eqb_spec (i mod 2) ((i + 1) mod 2)) as [Heq|Hne]; [lia|].
  destruct (IH (i + 1)) as [IH1 IH2].
  replace ((i + 1 + 1) mod 2) with (i mod 2) in IH2 by lia.
  rewrite !len_cons. rewrite Hl. lia.
Qed.

Lemma everyNth_halves {A} (l : list A) :
  2 * len (everyNth 2 0 l) = len l + len l mod 2
  /\ 2 * len (everyNth 2 1 l) = len l - len l mod 2.
Proof. apply (everyNth_from_length l 0). Qed.

(** [chooseEveryOtherIfDouble] returns its input, the events at the even
    positions or the events at the odd positions. *)
Lemma chooseEveryOther_cases score hs fs expected :
  let r := chooseEveryOther score hs fs expected in
  r = hs \/ (6 <= len hs /\ (r = everyNth 2 0 hs \/ r = everyNth 2 1 hs)).
Proof.
  cbn zeta. unfold chooseEveryOther.
  destruct (Z.ltb_spec (len hs) 6); [now left|].
  destruct (negb _); [now left|].
  right. split; [lia|]. destruct (le _ _); auto.
Qed.

Lemma PeakBased_chooseEveryOther_cases fs o hs :
  let r := PeakBased.chooseEveryOtherIfDouble fs o hs in
  r = hs \/ (6 <= len hs /\ (r = everyNth 2 0 hs \/ r = everyNth 2 1 hs)).
Proof.
  cbn zeta. unfold PeakBased.chooseEveryOtherIfDouble.
  destruct (negb (PeakBased.enableEveryOtherFix o)); [now left|]. cbn [orb].
  destruct (Z.ltb_spec (len hs) 6); [now left|].
  destruct (negb _); [now left|].
  right. split; [lia|]. destruct (le _ _); auto.
Qed.

End ThinFacts.

Module BestShiftFacts.
Import JS Core Events EventLists EventListFacts MergeFacts VideoAssist VideoFacts SearchProps.

(** The search keeps the first shift of the largest count. *)
Lemma shiftLoop_best count bound stepSec fuel : forall s best r,
  shiftLoop fuel count s bound stepSec best = Some r ->
  snd best <= snd r
  /\ (forall x, In x (shiftsTried fuel s bound stepSec) -> count x <= snd r)
  /\ (r = best
      \/ (In (fst r) (shiftsTried fuel s bound stepSec)
          /\ snd r = count (fst r) /\ snd best < snd r)).
Proof.
  induction fuel as [|fuel IH]; intros s best r; cbn [shiftLoop shiftsTried].
  - destruct (le s bound); [discriminate|]. intros [= <-].
    split; [lia|]. split; [intros x []|]. now left.
  - destruct (le s bound).
    2:{ intros [= <-]. split; [lia|]. split; [intros x []|]. now left. }
    intros H. apply IH in H. destruct H as (Hle & Hall & Hr).
    destruct (Z.ltb_spec (snd best) (count s)) as [Hlt|Hge]; cbn [snd fst] in *.
    + split; [lia|]. split.
      * intros x [<-|Hx]; [lia|auto].
      * right. destruct Hr as [->|(Hin & Hc & Hlt')]; cbn [fst snd].
        -- split; [now left|]. split; [reflexivity|lia].
        -- split; [now right|]. split; [exact Hc|lia].
    + split; [lia|]. split.
      * intros x [<-|Hx]; [lia|auto].
      * destruct Hr as [->|(Hin & Hc & Hlt')]; [now left|].
        right. split; [now right|]. split; [exact Hc|lia].
Qed.

Lemma shiftsTried_first fuel s bound stepSec :
  le s bound = true -> fuel <> O ->
  In s (shiftsTried fuel s bound stepSec).
Proof.
  intros Hs Hf. destruct fuel as [|fuel]; [congruence|].
  cbn [shiftsTried]. rewrite Hs. now left.
Qed.

Lemma shiftLoop_fuel count bound stepSec s best r :
  le s bound = true ->
  forall fuel, shiftLoop fuel count s bound stepSec best = Some r -> fuel <> O.
Proof.
  intros Hs [|fuel]; [|discriminate]. cbn [shiftLoop]. rewrite Hs. discriminate.
Qed.

End BestShiftFacts.

Module PipelineShapeFacts.
Import JS Core Events EventLists EventListFacts MergeFacts DetectFacts.
Import ResultProps ShapeFacts SanitizeFacts.

Section WithHost.
Context {host : Host}.

Lemma len_VideoAssist_envelope x fs p :
  len (VideoAssist.envelope x fs p) = len x.
Proof.
  unfold VideoAssist.envelope. rewrite len_movingRMS, len_absArray.
  destruct (_ && _); [rewrite len_butter2x|];
    (destruct (gt _ _); [rewrite len_butter2x|]); apply len_demean.
Qed.

Lemma len_OnsetRun_envelope x fs p :
  len (OnsetRun.envelope x fs p) = len x.
Proof.
  unfold OnsetRun.envelope. rewrite len_movingRMS, len_absArray.
  destruct (_ && _); [rewrite len_butter2x|];
    (destruct (gt _ _); [rewrite len_butter2x|]); apply len_demean.
Qed.

Lemma len_PeakBased_envelope x fs p :
  len (PeakBased.envelope x fs p) = len x.
Proof.
  unfold PeakBased.envelope. rewrite len_movingRMS, len_absArray.
  destruct (_ && _); [rewrite len_butter2x|];
    (destruct (gt _ _); [rewrite len_butter2x|]); apply len_demean.
Qed.

Lemma len_Robust_envelopeOf y fs p :
  len (Robust.envelopeOf y fs p) = len y.
Proof.
  unfold Robust.envelopeOf. rewrite len_movingRMS, len_absArray.
  destruct (_ && _); [rewrite len_butter2x|];
    (destruct (gt _ _); [rewrite len_butter2x|]); reflexivity.
Qed.

Lemma precheck_Passed_length x fs p y ratio :
  Robust.precheck x fs p = Robust.Passed y ratio -> len y = len x.
Proof.
  unfold Robust.precheck.
  destruct (lt _ _); [discriminate|].
  destruct (lt _ _); [discriminate|].
  destruct (ge _ _); [discriminate|].
  destruct (ge _ _); [discriminate|].
  intros [= <- _]. rewrite len_map. apply sanitizeArray_length.
Qed.

End WithHost.

(** What the last steps of every pipeline build from an envelope and
    the events detected on it. *)
Lemma cut_shape env hsd m g cyc mu sg tt kk th :
  0 <= m -> 2 <= len hsd ->
  normalizeCycles (percentPeak env hsd) hsd m = (g, cyc) ->
  meanAndSD cyc = (mu, sg) ->
  let res := {| t := tt; envRaw := env; envPct := percentPeak env hsd;
                hs := hsd; k := kk; thr := th; grid := g; cycles := cyc;
                mean := mu; sd := sg |} in
  Shaped (len env) m res
  /\ (forall gap, 3 <= gap -> Spaced gap hsd -> FullyCut res).
Proof.
  intros Hm H2 Hn Hms.
  pose proof (normalizeCycles_shape (percentPeak env hsd) hsd m) as Hs.
  rewrite Hn in Hs. destruct Hs as (Hg & Hall & Hle & Hfull).
  rewrite Z.max_r in Hg by lia.
  assert (Hall' : Forall (fun c : list float => len c = m) cyc).
  { rewrite Forall_forall in *. intros c Hc. specialize (Hall c Hc).
    cbn beta in Hall. rewrite Z.max_r in Hall by lia. exact Hall. }
  pose proof (meanAndSD_shape cyc m Hall' Hm) as Hmu. rewrite Hms in Hmu.
  cbn zeta. unfold Shaped, FullyCut. cbn [envRaw envPct grid cycles hs mean sd].
  split.
  - split; [reflexivity|]. split; [apply len_percentPeak|].
    split; [exact Hg|]. split; [exact Hall'|]. split; [lia|exact Hmu].
  - intros gap Hgap Hsp. specialize (Hfull gap Hgap Hsp).
    split; [lia|]. intros ->. change (len (@nil (list float))) with 0 in Hfull. lia.
Qed.

End PipelineShapeFacts.

Module FirstFacts.
Import JS Core Robust KeepFacts MergeFacts.

Lemma first_finite_at x : forall i,
  Number_isFinite (get x i) = true ->
  (forall j, 0 <= j < i -> Number_isFinite (get x j) = false) ->
  firstFinite x = Some (get x i) /\ len (fst (leading x)) = i.
Proof.
  induction x as [|v rest IH]; intros i Hfin Hfirst.
  - unfold get in Hfin. destruct (i <? 0); [discriminate|].
    destruct (Z.to_nat i); discriminate.
  - assert (Hi : 0 <= i).
    { unfold get in Hfin. destruct (Z.ltb_spec i 0); [discriminate|lia]. }
    cbn [firstFinite leading].
    destruct (Z.eq_dec i 0) as [->|Hne].
    + rewrite get_cons_0 in *. rewrite Hfin. split; reflexivity.
    + pose proof (Hfirst 0 ltac:(lia)) as H0. rewrite get_cons_0 in H0.
      rewrite H0. rewrite get_cons_S in * by lia.
      destruct (IH (i - 1) Hfin) as [Hf Hl].
      { intros j Hj. specialize (Hfirst (j + 1) ltac:(lia)).
        rewrite get_cons_S in Hfirst by lia.
        replace (j + 1 - 1) with j in Hfirst by lia. exact Hfirst. }
      split; [exact Hf|].
      destruct (leading rest) as [a b]. cbn [fst] in *. rewrite len_cons. lia.
Qed.

End FirstFacts.


Module OriginFacts.
Import JS Core Events EventLists EventListFacts MergeFacts DetectFacts.
Import BurstProps OriginProps BurstFacts PeakFacts.

(** Every event [applyOffsetAndMerge] returns is a raw event moved by
    the offset. *)
Lemma applyOffsetAndMerge_raw hsRaw offset minGap nMax :
  Forall (fun i => exists v, In v hsRaw /\ i = v + offset)
         (numbers (applyOffsetAndMerge hsRaw offset minGap nMax)).
Proof.
  destruct (applyOffsetAndMerge_Merged hsRaw offset minGap nMax)
    as [| |l _ _ _ _ Hraw]; [constructor|constructor|].
  rewrite numbers_Some. exact Hraw.
Qed.

(** The starts of the bursts of [minBurst] samples or more. *)
Lemma burst_starts env thr minBurst v :
  In v (map fst (filter (fun '(s, e) => minBurst <=? e - s)
                        (risingEdges (map (fun x => gt x thr) env)))) ->
  exists e, Run (map (fun x => gt x thr) env) v e /\ minBurst <= e - v.
Proof.
  intros Hin. apply in_map_iff in Hin. destruct Hin as ([s e] & <- & Hin).
  apply filter_In in Hin. destruct Hin as [Hin Hlen].
  apply (proj1 (risingEdges_maximal _)) in Hin.
  exists e. split; [exact Hin|]. apply Z.leb_le. exact Hlen.
Qed.

Lemma merged_onsets env thr minBurst minGap offset :
  Forall (BurstOnset env thr minBurst offset)
         (numbers
            (applyOffsetAndMerge
               (map fst (filter (fun '(s, e) => minBurst <=? e - s)
                                (risingEdges (map (fun x => gt x thr) env))))
               offset minGap (len env))).
Proof.
  eapply Forall_impl; [|apply applyOffsetAndMerge_raw].
  intros h (v & Hv & ->). apply burst_starts in Hv.
  destruct Hv as (e & Hrun & Hlen). exists v, e. auto.
Qed.

Lemma merged_peaks env thr minDist maxCount offset minGap :
  Forall (fun h => exists p, PeakAbove env thr p /\ h = p + offset)
         (numbers (applyOffsetAndMerge
                     (pickPeaksGreedy env minDist thr maxCount)
                     offset minGap (len env))).
Proof.
  eapply Forall_impl; [|apply applyOffsetAndMerge_raw].
  intros h (v & Hv & ->). exists v. split; [|reflexivity].
  unfold pickPeaksGreedy in Hv. apply sort_In in Hv.
  set (peaks := sort _ _) in Hv.
  destruct (greedy_inv minDist maxCount (fun p => In p peaks) peaks [])
    as [Hin _]; [auto|intros c []|exact I|].
  apply Hin in Hv. subst peaks. apply sort_In in Hv. apply filter_In in Hv.
  destruct Hv as [Hl Hg]. apply localMaxima_spec in Hl. unfold PeakAbove. tauto.
Qed.

Lemma merged_refined env thr thrOff minDist maxCount offset minGap :
  Forall (fun h => exists p, PeakAbove env thr p
                             /\ h = refineToOnset env p thrOff + offset)
         (numbers (applyOffsetAndMerge
                     (map (fun p => refineToOnset env p thrOff)
                          (pickPeaksGreedy env minDist thr maxCount))
                     offset minGap (len env))).
Proof.
  eapply Forall_impl; [|apply applyOffsetAndMerge_raw].
  intros h (v & Hv & ->). apply in_map_iff in Hv. destruct Hv as (p & <- & Hp).
  exists p. split; [|reflexivity].
  unfold pickPeaksGreedy in Hp. apply sort_In in Hp.
  set (peaks := sort _ _) in Hp.
  destruct (greedy_inv minDist maxCount (fun p => In p peaks) peaks [])
    as [Hin _]; [auto|intros c []|exact I|].
  apply Hin in Hp. subst peaks. apply sort_In in Hp. apply filter_In in Hp.
  destruct Hp as [Hl Hg]. apply localMaxima_spec in Hl. unfold PeakAbove. tauto.
Qed.

(** *** The revision with video assistance *)

Lemma VideoAssist_onsetStep_origin env fs o med m thrOff best k r :
  (forall a, best = Some a ->
     Origin env (samples fs (minBurstMs o)) (samples fs (offsetMs o)) thrOff a) ->
  VideoAssist.onsetStep env fs o med m best k = Some r ->
  Origin env (samples fs (minBurstMs o)) (samples fs (offsetMs o)) thrOff r.
Proof.
  intros Hbest. unfold VideoAssist.onsetStep.
  destruct (len (filter _ _) =? 0); [auto|].
  destruct (len _ <? 2); [auto|].
  set (cand := {| det_k := KNum k |}).
  assert (Hc : Origin env (samples fs (minBurstMs o)) (samples fs (offsetMs o))
                      thrOff cand).
  { unfold Origin. cbn [det_k det_thr det_hs cand]. apply merged_onsets. }
  destruct best as [b|].
  - destruct (lt _ _); intros [= <-]; auto.
  - intros [= <-]. exact Hc.
Qed.

Lemma VideoAssist_detectHS_origin env fs o r :
  VideoAssist.detectHS env fs o = Ok r ->
  Origin env (samples fs (minBurstMs o)) (samples fs (offsetMs o))
         (percentile env 60) r.
Proof.
  unfold VideoAssist.detectHS.
  set (best := if _ && _ then _ else None).
  assert (Hbest : forall a, best = Some a ->
              Origin env (samples fs (minBurstMs o)) (samples fs (offsetMs o))
                     (percentile env 60) a).
  { subst best. destruct (_ && _); [|discriminate].
    intros a Ha.
    eapply fold_left_best
      with (P := fun a => Origin env (samples fs (minBurstMs o))
                                 (samples fs (offsetMs o)) (percentile env 60) a);
      [| |exact Ha]; [|discriminate].
    intros b k r' _ Hb. apply VideoAssist_onsetStep_origin. exact Hb. }
  destruct best as [b|].
  - intros [= <-]. auto.
  - clear Hbest.
    destruct (2 <=? len (pickPeaksGreedy _ _ _ _)).
    + destruct (2 <=? len (applyOffsetAndMerge (map _ _) _ _ _)).
      * intros [= <-]. unfold Origin. cbn [det_k det_thr det_hs].
        apply merged_refined.
      * destruct (2 <=? len _); [|discriminate].
        intros [= <-]. unfold Origin. cbn [det_k det_thr det_hs].
        apply merged_peaks.
    + destruct (2 <=? len _); [|discriminate].
      intros [= <-]. unfold Origin. cbn [det_k det_thr det_hs].
      apply merged_peaks.
Qed.

(** *** The revision hardened for the phone *)

Lemma Robust_onsetStep_origin env fs o med m thrOff best k r :
  (forall a, best = Some a ->
     Origin env (samples fs (minBurstMs o)) (samples fs (offsetMs o)) thrOff a) ->
  Robust.onsetStep env fs o med m best k = Some r ->
  Origin env (samples fs (minBurstMs o)) (samples fs (offsetMs o)) thrOff r.
Proof.
  intros Hbest. unfold Robust.onsetStep.
  destruct (len (filter _ _) =? 0); [auto|].
  destruct (len _ <? 2); [auto|].
  set (cand := {| det_k := KNum k |}).
  assert (Hc : Origin env (samples fs (minBurstMs o)) (samples fs (offsetMs o))
                      thrOff cand).
  { unfold Origin. cbn [det_k det_thr det_hs cand]. apply merged_onsets. }
  destruct best as [b|].
  - destruct (lt _ _); intros [= <-]; auto.
  - intros [= <-]. exact Hc.
Qed.

Lemma Robust_detectHS_origin env fs o r :
  Robust.detectHS env fs o = Ok r ->
  Origin env (samples fs (minBurstMs o)) (samples fs (offsetMs o))
         (percentile env 60) r
  /\ det_k r <> KPeakDirect.
Proof.
  unfold Robust.detectHS.
  set (best := if _ && _ then _ else None).
  assert (Hbest : forall a, best = Some a ->
              Origin env (samples fs (minBurstMs o)) (samples fs (offsetMs o))
                     (percentile env 60) a
              /\ det_k a <> KPeakDirect).
  { subst best. destruct (_ && _); [|discriminate].
    intros a Ha.
    eapply fold_left_best
      with (P := fun a => Origin env (samples fs (minBurstMs o))
                                 (samples fs (offsetMs o)) (percentile env 60) a
                          /\ det_k a <> KPeakDirect);
      [| |exact Ha]; [|discriminate].
    intros b k r' _ Hb Hstep. split.
    - eapply Robust_onsetStep_origin; [|exact Hstep].
      intros a0 Ha0. apply Hb. exact Ha0.
    - unfold Robust.onsetStep in Hstep.
      destruct (len (filter _ _) =? 0); [apply Hb; exact Hstep|].
      destruct (len _ <? 2); [apply Hb; exact Hstep|].
      destruct b as [b|].
      + destruct (lt _ _); injection Hstep as <-; [discriminate|].
        apply (Hb b eq_refl).
      + injection Hstep as <-. discriminate. }
  destruct best as [b|].
  - intros [= <-]. auto.
  - clear Hbest.
    destruct (2 <=? len (pickPeaksGreedy _ _ _ _)); cbn [andb]; [|discriminate].
    destruct (2 <=? len _); [|discriminate].
    intros [= <-]. split; [|discriminate].
    unfold Origin. cbn [det_k det_thr det_hs]. apply merged_refined.
Qed.

(** *** The onset revision *)

Lemma Onset_candidate_origin env fs o med m k r :
  Onset.candidate env fs o med m k = Some r ->
  Forall (BurstOnset env (det_thr r) (samples fs (minBurstMs o))
                     (samples fs (offsetMs o))) (det_hs r).
Proof.
  unfold Onset.candidate.
  set (segs := filter _ _).
  destruct (sort afterZ (map fst segs)) as [|h0 rest] eqn:Hs; [discriminate|].
  set (hs := filter _ _).
  destruct (len hs <? 2); [discriminate|].
  intros [= <-]. cbn [det_thr det_hs].
  apply Forall_forall. intros h Hh. subst hs.
  apply filter_In in Hh. destruct Hh as [Hh _].
  apply in_map_iff in Hh. destruct Hh as (v & <- & Hv).
  assert (Hin : In v (map fst segs)).
  { apply (sort_In afterZ). rewrite Hs.
    destruct Hv as [<-|Hv]; [now left|]. right.
    eapply Subseq_In; [apply mergeFrom_Subseq|exact Hv]. }
  apply burst_starts in Hin. destruct Hin as (e & Hrun & Hlen).
  exists v, e. auto.
Qed.

Lemma Onset_detectHS_origin env fs o r :
  Onset.detectHS env fs o = Ok r ->
  (exists k, det_k r = KNum k)
  /\ Origin env (samples fs (minBurstMs o)) (samples fs (offsetMs o))
            (percentile env 60) r.
Proof.
  unfold Onset.detectHS.
  destruct (fold_left _ ks None) as [b|] eqn:Hfold; [|discriminate].
  intros [= <-].
  eapply fold_left_best
    with (P := fun r => (exists k, det_k r = KNum k)
                        /\ Origin env (samples fs (minBurstMs o))
                                  (samples fs (offsetMs o)) (percentile env 60) r);
    [| |exact Hfold]; [|discriminate].
  clear Hfold b. intros best k r _ Hbest. unfold Onset.step.
  destruct (Onset.candidate env fs o _ _ k) as [c|] eqn:Hc; [|auto].
  assert (Hk : det_k c = KNum k).
  { apply Onset_candidate in Hc. tauto. }
  apply Onset_candidate_origin in Hc.
  assert (Hcand : (exists k, det_k c = KNum k)
                  /\ Origin env (samples fs (minBurstMs o))
                            (samples fs (offsetMs o)) (percentile env 60) c).
  { split; [eauto|]. unfold Origin. rewrite Hk. exact Hc. }
  destruct best as [b|].
  - destruct (lt _ _); intros [= <-]; auto.
  - intros [= <-]. exact Hcand.
Qed.

End OriginFacts.

Module GroupFacts.
Import JS Core Events EventLists EventListFacts MergeFacts DetectFacts.
Import ConstantFacts VideoFacts GroupProps Manual ManualDetectFacts.

Lemma ge_nan thr : ge nan thr = false.
Proof.
  unfold ge. rewrite FloatAxioms.leb_spec.
  change (Prim2SF nan) with S754_nan.
  unfold SFleb, SFcompare. destruct (Prim2SF thr); reflexivity.
Qed.

Lemma ge_outside env thr i : i < 0 \/ len env <= i -> ge (get env i) thr = false.
Proof.
  intros H. unfold get. destruct (Z.ltb_spec i 0); [apply ge_nan|].
  rewrite nth_overflow by (unfold len in H; lia). apply ge_nan.
Qed.

Section Groups.
Variables (env : list float) (thr : float).
Let Q (i : Z) : bool := ge (get env i) thr.
Let n : Z := len env.

Lemma RunAtOrAbove_end_unique s e e' :
  (forall i, s <= i <= e -> Q i = true) -> Q (e + 1) = false -> s <= e ->
  RunAtOrAbove env thr s e' -> e' = e.
Proof.
  intros Hon Hoff Hse (Hb & _ & Hrun & _ & Hend).
  destruct (Z.lt_trichotomy e' e) as [H|[H|H]]; [|exact H|].
  - unfold Q in Hon. rewrite Hon in Hend by lia. discriminate.
  - unfold Q in Hoff. rewrite Hrun in Hoff by lia. discriminate.
Qed.

(** The groups from position [a] on, the group in progress being
    [s..prev]. *)
Lemma groupFrom_spec k : forall a s prev,
  a = n - Z.of_nat k -> 0 <= s <= prev -> prev < a ->
  (forall i, s <= i <= prev -> Q i = true) ->
  Q (s - 1) = false ->
  (forall i, prev < i < a -> Q i = false) ->
  forall s' e',
    In (s', e') (groupFrom s prev (filter Q (range a n)))
    <-> RunAtOrAbove env thr s' e' /\ (a <= s' \/ s' = s).
Proof.
  assert (Hn : 0 <= n) by apply len_nonneg.
  induction k as [|k IH]; intros a s prev Ha Hs Hpa Hon Hbefore Hgap s' e'.
  - rewrite range_nil by lia. cbn [filter groupFrom In].
    assert (Hend : Q (prev + 1) = false).
    { destruct (Z.eq_dec (prev + 1) n) as [He|He].
      - apply ge_outside. right. fold n. lia.
      - apply Hgap. lia. }
    split.
    + intros [[= <- <-]|[]]. split; [|now right].
      repeat split; auto; try lia; fold n; lia.
    + intros [Hrun [Hge | ->]].
      * destruct Hrun as (Hb & Hlt & _). fold n in Hlt. lia.
      * left. f_equal. symmetry.
        eapply RunAtOrAbove_end_unique; [exact Hon|exact Hend|lia|exact Hrun].
  - assert (Han : a < n) by lia.
    rewrite range_cons by lia. cbn [filter].
    destruct (Q a) eqn:Hqa.
    + cbn [groupFrom]. destruct (Z.eqb_spec a (prev + 1)) as [Heq|Hne].
      * rewrite (IH (a + 1) s a); try lia; auto.
        -- split; intros [Hrun Hf]; (split; [exact Hrun|]).
           ++ destruct Hf; [left; lia|now right].
           ++ destruct Hf as [Hf|Hf]; [|now right].
              left. destruct (Z.eq_dec s' a) as [->|]; [|lia].
              destruct Hrun as (_ & _ & _ & Hb & _).
              specialize (Hon (a - 1) ltac:(lia)). unfold Q in Hon. congruence.
        -- intros i Hi. destruct (Z.eq_dec i a) as [->|]; [exact Hqa|apply Hon; lia].
      * cbn [In].
        assert (Hend : Q (prev + 1) = false) by (apply Hgap; lia).
        assert (Hrun0 : RunAtOrAbove env thr s prev).
        { repeat split; auto; try lia; fold n; lia. }
        rewrite (IH (a + 1) a a); try lia; auto.
        -- split.
           ++ intros [[= <- <-]|[Hrun Hf]].
              ** split; [exact Hrun0|now right].
              ** split; [exact Hrun|]. left. lia.
           ++ intros [Hrun [Hf | ->]].
              ** right. split; [exact Hrun|].
                 destruct (Z.eq_dec s' a); [now right|left; lia].
              ** left. f_equal. symmetry.
                 eapply RunAtOrAbove_end_unique;
                   [exact Hon|exact Hend|lia|exact Hrun].
        -- intros i Hi. replace i with a by lia. exact Hqa.
        -- apply Hgap. lia.
    + rewrite (IH (a + 1) s prev); try lia; auto.
      * split; intros [Hrun Hf]; (split; [exact Hrun|]).
        -- destruct Hf; [left; lia|now right].
        -- destruct Hf as [Hf|Hf]; [|now right].
           left. destruct (Z.eq_dec s' a) as [->|]; [|lia].
           destruct Hrun as (Hb & _ & Hon' & _).
           specialize (Hon' a ltac:(lia)). unfold Q in Hqa. congruence.
      * intros i Hi. destruct (Z.eq_dec i a) as [->|]; [exact Hqa|apply Hgap; lia].
Qed.

(** The first candidate and the candidates after it. *)
Lemma filter_range_first k : forall a i0 rest,
  a = n - Z.of_nat k -> 0 <= a ->
  filter Q (range a n) = i0 :: rest ->
  a <= i0 < n /\ Q i0 = true /\ (forall i, a <= i < i0 -> Q i = false)
  /\ rest = filter Q (range (i0 + 1) n).
Proof.
  induction k as [|k IH]; intros a i0 rest Ha H0.
  - rewrite range_nil by lia. discriminate.
  - rewrite range_cons by lia. cbn [filter]. destruct (Q a) eqn:Hqa.
    + intros [= <- <-]. repeat split; try lia; auto.
    + intros H. apply IH in H; [|lia|lia].
      destruct H as (Hb & Hq & Hgap & Hrest).
      repeat split; try lia; auto.
      intros i Hi. destruct (Z.eq_dec i a) as [->|]; [exact Hqa|apply Hgap; lia].
Qed.

(** [groupConsecutive] of the candidates at or above the threshold
    gives the maximal runs of such samples. *)
Lemma groups_are_runs s e :
  In (s, e) (groupConsecutive (pickCandidatesAbove env thr))
  <-> RunAtOrAbove env thr s e.
Proof.
  assert (Hn : 0 <= n) by apply len_nonneg.
  unfold pickCandidatesAbove. fold n. fold Q.
  change (fun i : Z => ge (get env i) thr) with Q.
  destruct (filter Q (range 0 n)) as [|i0 rest] eqn:Hf; cbn [groupConsecutive].
  - split; [intros []|]. intros (Hb & Hlt & Hon & _). exfalso.
    assert (Hin : In s (filter Q (range 0 n))).
    { apply filter_In. split; [apply In_range; fold n in Hlt; lia|].
      apply Hon. lia. }
    rewrite Hf in Hin. destruct Hin.
  - apply (filter_range_first (Z.to_nat n)) in Hf; [|lia|lia].
    destruct Hf as (Hb & Hq & Hgap & ->).
    rewrite (groupFrom_spec (Z.to_nat (n - (i0 + 1))) (i0 + 1) i0 i0);
      try lia; auto.
    + split; [tauto|]. intros Hrun. split; [exact Hrun|].
      destruct Hrun as (Hb' & _ & Hon & _).
      destruct (Z.lt_trichotomy s i0) as [H|[H|H]]; [|now right|left; lia].
      exfalso. specialize (Hon s ltac:(lia)).
      specialize (Hgap s ltac:(lia)). unfold Q in Hgap. congruence.
    + intros i Hi. replace i with i0 by lia. exact Hq.
    + destruct (Z.eq_dec i0 0) as [->|].
      * apply ge_outside. left. lia.
      * apply Hgap. lia.
Qed.

End Groups.

(** The events of one multiplier are starts of groups, moved by the
    offset. *)
Lemma buildHSforK_origin env fs o median md k :
  Forall (GroupOnset env (threshold median md k) (minLenOf fs o)
                     (samples fs (offsetMs o)))
         (snd (buildHSforK env fs o median md k)).
Proof.
  unfold buildHSforK. cbn [snd].
  set (thr := threshold median md k).
  set (groups := filter _ (groupConsecutive _)).
  set (hs0 := filter (inEnvelope (len env)) _).
  set (hs1 := suppress (minGapOf fs o) hs0).
  assert (H0 : Forall (GroupOnset env thr (minLenOf fs o)
                                  (samples fs (offsetMs o))) hs0).
  { apply Forall_forall. intros h Hh. subst hs0.
    apply filter_In in Hh. destruct Hh as [Hh _].
    apply in_map_iff in Hh. destruct Hh as ([s e] & <- & Hin).
    subst groups. apply filter_In in Hin. destruct Hin as [Hin Hlen].
    apply groups_are_runs in Hin. apply Z.leb_le in Hlen.
    exists s, e. auto. }
  assert (H1 : Forall (GroupOnset env thr (minLenOf fs o)
                                  (samples fs (offsetMs o))) hs1).
  { eapply Subseq_Forall; [apply suppress_Subseq|exact H0]. }
  set (hs2 := match chooseOddEven hs1 _ _ _ _ with Some c => c | None => hs1 end).
  assert (H2 : Subseq hs2 hs1).
  { subst hs2. destruct (chooseOddEven hs1 _ _ _ _) as [c|] eqn:Hc.
    - eapply chooseOddEven_Subseq; eauto.
    - apply Subseq_refl. }
  set (hs3 := match chooseStrideSubseq hs2 _ _ _ _ with Some c => c | None => hs2 end).
  assert (H3 : Subseq hs3 hs1).
  { subst hs3. destruct (chooseStrideSubseq hs2 _ _ _ _) as [c|] eqn:Hc.
    - eapply Subseq_trans; [|exact H2]. eapply chooseStrideSubseq_Subseq; eauto.
    - exact H2. }
  eapply Subseq_Forall; eauto.
Qed.

Lemma Manual_detectHS_origin env fs o r :
  Manual.detectHS env fs o = Ok r ->
  Forall (GroupOnset env (det_thr r) (minLenOf fs o) (samples fs (offsetMs o)))
         (det_hs r).
Proof.
  unfold Manual.detectHS.
  destruct (mad (baseline env fs o)) as [median md].
  destruct (fold_left _ ks None) as [b|] eqn:Hfold; [|discriminate].
  destruct (len (det_hs b) <? 3); [discriminate|].
  intros [= <-].
  eapply fold_left_best
    with (P := fun r => Forall (GroupOnset env (det_thr r) (minLenOf fs o)
                                           (samples fs (offsetMs o))) (det_hs r));
    [| |exact Hfold]; [|discriminate].
  clear Hfold. intros best k r _ Hbest. unfold step.
  pose proof (buildHSforK_origin env fs o median md k) as Ho.
  pose proof (buildHSforK_inv env fs o median md k) as Hi.
  destruct (buildHSforK env fs o median md k) as [thr hs].
  cbn [fst snd] in Ho, Hi. destruct Hi as [-> _].
  destruct (lt _ _); [|auto].
  intros [= <-]. exact Ho.
Qed.

End GroupFacts.

Module SteepestFacts.
Import JS Core Events EventLists EventListFacts MergeFacts DetectFacts.
Import FloatFacts ConstantFacts VideoFacts PercentFacts PeakBased BestProps.

Lemma gt_neg_infinity_l b : gt neg_infinity b = false.
Proof.
  unfold gt. rewrite FloatAxioms.ltb_spec.
  change (Prim2SF neg_infinity) with (S754_infinity true).
  unfold SFltb, SFcompare. destruct (Prim2SF b) as [[]| []| |[] ? ?]; reflexivity.
Qed.

Lemma gt_nan_l b : gt nan b = false.
Proof.
  unfold gt. rewrite FloatAxioms.ltb_spec.
  change (Prim2SF nan) with S754_nan.
  unfold SFltb, SFcompare. destruct (Prim2SF b); reflexivity.
Qed.

Lemma gt_nan_r a : gt a nan = false.
Proof.
  unfold gt. rewrite FloatAxioms.ltb_spec.
  change (Prim2SF nan) with S754_nan. reflexivity.
Qed.

(** A number not above minus infinity is above no number. *)
Lemma gt_below x y : gt x neg_infinity = false -> gt x y = false.
Proof.
  unfold gt. rewrite !FloatAxioms.ltb_spec.
  change (Prim2SF neg_infinity) with (S754_infinity true).
  unfold SFltb, SFcompare.
  destruct (Prim2SF x) as [[]| []| |[] ? ?]; try discriminate;
    destruct (Prim2SF y) as [[]| []| |[] ? ?]; reflexivity.
Qed.

Lemma bestFold_spec f l : forall p0 pv0,
  is_nan pv0 = false ->
  let '(p, pv) := fold_left (bestStep f) l (p0, pv0) in
  is_nan pv = false
  /\ gt pv0 pv = false
  /\ (forall i, In i l -> gt (f i) pv = false)
  /\ ((p = p0 /\ pv = pv0) \/ (In p l /\ pv = f p)).
Proof.
  induction l as [|i l IH]; intros p0 pv0 Hnan; cbn [fold_left].
  - split; [exact Hnan|]. split; [apply gt_irrefl|]. split; [intros i []|now left].
  - unfold bestStep at 2. destruct (gt (f i) pv0) eqn:Hg.
    + assert (Hn : is_nan (f i) = false) by (eapply gt_not_nan; eauto).
      specialize (IH i (f i) Hn).
      destruct (fold_left (bestStep f) l (i, f i)) as [p pv].
      destruct IH as (Hnp & Hge & Hall & Hat).
      split; [exact Hnp|]. split.
      * eapply not_gt_chain; [exact Hn| |exact Hge].
        unfold gt in *. destruct (f i <? pv0)%float eqn:Hlt; [|reflexivity].
        pose proof (ltb_trans _ _ _ Hlt Hg) as Hc.
        rewrite ltb_irrefl in Hc. discriminate.
      * split.
        -- intros j [<-|Hj]; [exact Hge|auto].
        -- right. destruct Hat as [[-> ->]|[Hin ->]]; [split; [now left|reflexivity]|].
           split; [now right|reflexivity].
    + specialize (IH p0 pv0 Hnan).
      destruct (fold_left (bestStep f) l (p0, pv0)) as [p pv].
      destruct IH as (Hnp & Hge & Hall & Hat).
      split; [exact Hnp|]. split; [exact Hge|]. split.
      * intros j [<-|Hj]; [|auto].
        eapply not_gt_chain; [exact Hnan|exact Hg|exact Hge].
      * destruct Hat as [H|[Hin ->]]; [now left|right].
        split; [now right|reflexivity].
Qed.

Lemma fold_left_agree {A B} (f g : A -> B -> A) l : forall a,
  (forall a b, f a b = g a b) -> fold_left f l a = fold_left g l a.
Proof.
  induction l as [|b l IH]; intros a H; [reflexivity|].
  cbn [fold_left]. rewrite H. apply IH. exact H.
Qed.

Lemma peakOf_fold env s e :
  peakOf env s e
  = fold_left (bestStep (get env)) (range s (e + 1)) (s, neg_infinity).
Proof.
  unfold peakOf. apply fold_left_agree. intros [p pv] i. reflexivity.
Qed.

Lemma hsAroundPeak_fold env back fwd s e p :
  hsAroundPeak env back fwd s e p
  = fst (fold_left (bestStep (fun i => (get env i - get env (i - 1))%float))
                   (range (Z.max (s + 1) (p - back))
                          (Z.min (e - 1) (p + fwd) + 1))
                   (Z.max (s + 1) (p - back), neg_infinity)).
Proof.
  unfold hsAroundPeak. f_equal. apply fold_left_agree. intros [q qv] i.
  reflexivity.
Qed.

(** The peak of a burst: a sample of the burst that no sample of the
    burst is above. *)
Lemma peakOf_spec env s e :
  s <= e ->
  let '(p, pv) := peakOf env s e in
  s <= p <= e
  /\ (forall i, s <= i <= e -> gt (get env i) pv = false)
  /\ (pv = get env p \/ pv = neg_infinity).
Proof.
  intros Hse. rewrite peakOf_fold.
  pose proof (bestFold_spec (get env) (range s (e + 1)) s neg_infinity eq_refl) as H.
  destruct (fold_left _ _ _) as [p pv].
  destruct H as (_ & _ & Hall & Hat). split; [|split].
  - destruct Hat as [[-> _]|[Hin _]]; [lia|]. apply In_range in Hin. lia.
  - intros i Hi. apply Hall. apply In_range. lia.
  - destruct Hat as [[_ ->]|[_ ->]]; auto.
Qed.

(** [hsAroundPeak]: a sample of the window around the peak than which
    no sample of the window rises more steeply; the start of the window
    when the window is empty. *)
Lemma hsAroundPeak_spec env back fwd s e p :
  let w0 := Z.max (s + 1) (p - back) in
  let w1 := Z.min (e - 1) (p + fwd) in
  let r := hsAroundPeak env back fwd s e p in
  let slope i := (get env i - get env (i - 1))%float in
  w0 <= r <= Z.max w0 w1
  /\ (forall i, w0 <= i <= w1 -> gt (slope i) (slope r) = false).
Proof.
  cbn zeta. rewrite hsAroundPeak_fold.
  set (w0 := Z.max (s + 1) (p - back)). set (w1 := Z.min (e - 1) (p + fwd)).
  set (slope := fun i => (get env i - get env (i - 1))%float).
  pose proof (bestFold_spec slope (range w0 (w1 + 1)) w0 neg_infinity eq_refl) as H.
  destruct (fold_left _ _ _) as [r rv]. cbn [fst].
  destruct H as (_ & _ & Hall & Hat). split.
  - destruct Hat as [[-> _]|[Hin _]]; [lia|]. apply In_range in Hin. lia.
  - intros i Hi. specialize (Hall i ltac:(apply In_range; lia)).
    destruct Hat as [[-> ->]|[_ ->]]; [|exact Hall].
    apply gt_below. exact Hall.
Qed.

End SteepestFacts.

Module SlopeFacts.
Import JS Core Events EventLists EventListFacts MergeFacts DetectFacts.
Import FloatFacts ConstantFacts VideoFacts PercentFacts PeakBased.
Import PeakBasedFacts BurstProps BurstFacts SlopeProps SteepestFacts.

(** The bursts of the peak-based revision are the maximal runs, ends
    inclusive. *)
Lemma bursts_runs minBurst mask s e :
  In (s, e) (bursts minBurst mask) ->
  Run mask s (e + 1) /\ minBurst <= e - s + 1.
Proof.
  unfold bursts. intros Hin. apply filter_In in Hin. destruct Hin as [Hin Hlen].
  apply in_map_iff in Hin. destruct Hin as ([s1 e1] & [= <- <-] & Hin).
  apply in_map_iff in Hin. destruct Hin as ([s0 e0] & [= <- <-] & Hin).
  apply (proj1 (risingEdges_maximal _)) in Hin.
  assert (Hse : s0 < e0) by (destruct Hin as (? & _); lia).
  rewrite Z.max_r in * by lia. apply Z.leb_le in Hlen.
  replace (e0 - 1 + 1) with e0 by lia. split; [exact Hin|lia].
Qed.

Lemma rawEvents_origin env thr minBurst back fwd offset h pv :
  In (h, pv) (rawEvents env back fwd offset
                        (bursts minBurst (map (fun v => gt v thr) env))) ->
  SlopeOnset env thr minBurst back fwd offset h.
Proof.
  unfold rawEvents. intros Hin. apply filter_In in Hin. destruct Hin as [Hin _].
  apply in_map_iff in Hin. destruct Hin as ([s e] & Heq & Hin).
  apply bursts_runs in Hin. destruct Hin as [Hrun Hlen].
  assert (Hse : s <= e) by (destruct Hrun as (? & _); lia).
  pose proof (peakOf_spec env s e Hse) as Hp.
  destruct (peakOf env s e) as [p pv']. injection Heq as <- _.
  destruct Hp as (Hb & Hall & Hat).
  pose proof (hsAroundPeak_spec env back fwd s e p) as Hr. cbn zeta in Hr.
  exists s, e, p, (hsAroundPeak env back fwd s e p).
  split; [exact Hrun|]. split; [exact Hlen|]. split; [|split; [exact Hr|reflexivity]].
  split; [exact Hb|]. intros i Hi. specialize (Hall i Hi).
  destruct Hat as [->| ->]; [exact Hall|apply gt_below; exact Hall].
Qed.

Lemma candidate_origin env fs o med md k r :
  candidate env fs o med md k = Some r ->
  Forall (SlopeOnset env (det_thr r) (minBurstOf fs o)
                     (samples fs (peakBackMs o)) (samples fs (peakForwardMs o))
                     (samples fs (offsetMs o)))
         (det_hs r).
Proof.
  unfold candidate.
  destruct (len (bursts _ _) =? 0); [discriminate|].
  set (ord := sort byIndex _).
  set (merged := mergeByMinGap _ _ _).
  set (hsFinal := chooseEveryOtherIfDouble _ _ _).
  destruct (len hsFinal <? 2); [discriminate|].
  intros [= <-]. cbn [det_thr det_hs].
  destruct (mergeByMinGap_Spaced (minGapOf fs o) (map fst ord) (map snd ord)
              (sort_byIndex_Spaced _)) as [_ Hsub].
  fold merged in Hsub.
  pose proof (chooseEveryOtherIfDouble_Subseq fs o (fst merged)) as Hsub'.
  fold hsFinal in Hsub'.
  eapply Subseq_Forall; [exact Hsub'|].
  eapply Subseq_Forall; [exact Hsub|].
  apply Forall_forall. intros h Hh. apply in_map_iff in Hh.
  destruct Hh as ([h' pv] & <- & Hin). subst ord. apply sort_In in Hin.
  eapply rawEvents_origin. exact Hin.
Qed.

Lemma PeakBased_detectHS_origin env fs o r :
  detectHS env fs o = Ok r ->
  Forall (SlopeOnset env (det_thr r) (minBurstOf fs o)
                     (samples fs (peakBackMs o)) (samples fs (peakForwardMs o))
                     (samples fs (offsetMs o)))
         (det_hs r).
Proof.
  unfold detectHS.
  destruct (fold_left _ ks None) as [b|] eqn:Hfold; [|discriminate].
  destruct (len (det_hs b) <? 2); [discriminate|].
  intros [= <-].
  eapply fold_left_best
    with (P := fun r => Forall (SlopeOnset env (det_thr r) (minBurstOf fs o)
                                  (samples fs (peakBackMs o))
                                  (samples fs (peakForwardMs o))
                                  (samples fs (offsetMs o))) (det_hs r));
    [| |exact Hfold]; [|discriminate].
  clear Hfold b. intros best k r _ Hbest. unfold step.
  destruct (candidate env fs o _ _ k) as [c|] eqn:Hc; [|auto].
  apply candidate_origin in Hc.
  destruct best as [b|].
  - destruct (lt _ _); intros [= <-]; auto.
  - intros [= <-]. exact Hc.
Qed.

End SlopeFacts.


(** * The reconciler returns *)

Module ReconcilerFacts.
Import JS Core EventLists EventListFacts Events MergeFacts.
Import ConstantFacts PeakBasedFacts VideoFacts SearchFacts.
Import VideoAssist ShiftSearch ReconcilerProps PairFacts LoopFacts.
Import SearchProps BestShiftFacts.

Lemma bestShiftMatch_mono fuel fuel' emgTimes videoTimes rangeSec stepSec tolSec r :
  bestShiftMatch fuel emgTimes videoTimes rangeSec stepSec tolSec = Some r ->
  (fuel <= fuel')%nat ->
  bestShiftMatch fuel' emgTimes videoTimes rangeSec stepSec tolSec = Some r.
Proof.
  unfold bestShiftMatch. destruct (_ || _); [auto|]. apply shiftLoop_mono.
Qed.

Lemma keepHsMatchedToVideo_mono fuel fuel' hsIdx tSec videoEvents syncRange tolMs r :
  keepHsMatchedToVideo fuel hsIdx tSec videoEvents syncRange tolMs = Some r ->
  (fuel <= fuel')%nat ->
  keepHsMatchedToVideo fuel' hsIdx tSec videoEvents syncRange tolMs = Some r.
Proof.
  unfold keepHsMatchedToVideo. intros H Hf.
  destruct (bestShiftMatch fuel _ _ _ _ _) as [[shift score]|] eqn:E;
    [|discriminate].
  rewrite (bestShiftMatch_mono _ _ _ _ _ _ _ _ E Hf). exact H.
Qed.

(** The number of turns that is enough for every range that is NaN or
    not above [1e12] in magnitude. *)
Lemma enough_turns : exists N : nat, 2 ^ 50 <= Z.of_nat N.
Proof. exists (Z.to_nat (2 ^ 50)). rewrite Z2Nat.id; [apply Z.le_refl|]. apply Z.pow_nonneg. lia. Qed.

(** The reconciler returns for such a range, and the same for every
    larger number of turns. *)
Lemma keepHsMatchedToVideo_returns hsIdx tSec videoEvents syncRange tolMs :
  gt (Math_abs syncRange) 1e12%float = false ->
  exists N r,
    forall fuel, (N <= fuel)%nat ->
      keepHsMatchedToVideo fuel hsIdx tSec videoEvents syncRange tolMs = Some r.
Proof.
  intros Hr. destruct enough_turns as [N HN].
  destruct (keepHsMatchedToVideo_total N hsIdx tSec videoEvents syncRange tolMs
              (searchEnds_bounded syncRange N Hr HN)) as [r H].
  exists N, r. intros fuel Hf. eapply keepHsMatchedToVideo_mono; eassumption.
Qed.

(** What the search returns when it tried a shift: the first shift
    of the largest count, and that count, which is the number of events
    kept at that shift when every event lies inside the time axis. *)
Lemma search_result fuel hsIdx tSec videoEvents syncRange tolMs r :
  keepHsMatchedToVideo fuel hsIdx tSec videoEvents syncRange tolMs = Some r ->
  Forall (fun i => 0 <= i < len tSec) hsIdx ->
  hsIdx <> [] -> videoEvents <> [] ->
  le (- syncRange) (syncRange + 1e-9) = true ->
  let tried :=
    shiftsTried fuel (- syncRange)%float (syncRange + 1e-9)%float 0.01 in
  In (kept_shift r) tried
  /\ kept_score r = matched r
  /\ forall s, In s tried ->
       len (keepAt s (tolMs / 1000) hsIdx (map (get tSec) hsIdx) videoEvents)
       <= matched r.
Proof.
  intros Hk Hin Hh Hv Hfirst tried.
  unfold keepHsMatchedToVideo in Hk.
  destruct (bestShiftMatch _ _ _ _ _ _) as [[shift score]|] eqn:Hb;
    [|discriminate].
  injection Hk as <-. cbn [kept_shift kept_score matched].
  unfold bestShiftMatch in Hb.
  assert (Hne : (len (map (item tSec) hsIdx) =? 0) || (len videoEvents =? 0)
                = false).
  { apply orb_false_iff. split; apply Z.eqb_neq; intros H0; apply len_zero in H0.
    - apply map_eq_nil in H0. contradiction.
    - contradiction. }
  rewrite Hne in Hb.
  pose proof (shiftLoop_fuel _ _ _ _ _ _ Hfirst _ Hb) as Hfuel.
  apply shiftLoop_best in Hb. cbn [fst snd] in Hb.
  destruct Hb as (_ & Hall & Hr).
  assert (Hlen : forall s,
             len (matchFrom s (tolMs / 1000)
                    (indexed (sortedTimes (map (item tSec) hsIdx)))
                    (sort afterF videoEvents))
             = len (keepAt s (tolMs / 1000) hsIdx (map (get tSec) hsIdx)
                           videoEvents))
    by (intros s; apply passes_agree; exact Hin).
  assert (H0 : 0 <= score).
  { specialize (Hall (- syncRange)%float
                     (shiftsTried_first _ _ _ _ Hfirst Hfuel)).
    rewrite Hlen in Hall.
    pose proof (len_nonneg
                  (keepAt (- syncRange) (tolMs / 1000) hsIdx
                          (map (get tSec) hsIdx) videoEvents)). lia. }
  destruct Hr as [[= _ Hs]|(Hi & Hc & _)]; [lia|].
  split; [exact Hi|]. split; [rewrite <- Hlen; exact Hc|].
  intros s Hs. rewrite <- !Hlen, <- Hc. apply Hall. exact Hs.
Qed.

End ReconcilerFacts.

(** * The claims of the specification *)

Module Claims.
Import JS Core Stats EventLists DetectorProps ShiftSearch FloatClasses.
Import Events Examples.
Import EventListFacts FloatFacts RoundingFacts MergeFacts DetectFacts.
Import PeakBasedFacts ConstantFacts VideoFacts StatsFacts PercentFacts.
Import GapFacts FailureFacts StrengthFacts ManualFacts NonFiniteFacts.
Import SanitizeFacts.
Import ThresholdFacts MadFacts SearchFacts BoundsFacts MoreFacts.
Import ManualDetectFacts ManualConstantFacts.
Import SearchProps ReconcilerProps PairFacts ReconcilerFacts.
Import VideoAssist.

(** C1: the events of every Detection Result, of each of the five
    detectors, are in ascending order and at least [minGap] samples apart
    ([hs[i+1] - hs[i] >= minGap]); they are free of duplicates when
    [minGap] is 1 or more, which the peak-based detector and the one of
    the revision with manual events enforce.  The offset-and-merge step
    and the amplitude merge produce such lists, and every-Nth decimation
    and the every-other, odd-even and stride choices preserve them. *)
Theorem detected_events_ascending_and_gapped :
  (forall env fs o r,
      VideoAssist.detectHS env fs o = Ok r
      \/ Robust.detectHS env fs o = Ok r
      \/ Onset.detectHS env fs o = Ok r ->
      Gapped (samples fs (minGapMs o)) (det_hs r)
      /\ (1 <= samples fs (minGapMs o) -> NoDup (det_hs r)))
  /\ (forall env fs o r,
         PeakBased.detectHS env fs o = Ok r ->
         Gapped (PeakBased.minGapOf fs o) (det_hs r)
         /\ 1 <= PeakBased.minGapOf fs o /\ NoDup (det_hs r))
  /\ (forall env fs o r,
         Manual.detectHS env fs o = Ok r ->
         Gapped (Manual.minGapOf fs o) (det_hs r)
         /\ 1 <= Manual.minGapOf fs o /\ NoDup (det_hs r))
  /\ (forall hsRaw offset g n,
         Gapped g (numbers (applyOffsetAndMerge hsRaw offset g n)))
  /\ (forall g hs strength,
         Gapped 0 hs -> Gapped g (fst (PeakBased.mergeByMinGap g hs strength)))
  /\ (forall g m off hs, Gapped g hs -> Gapped g (everyNth m off hs))
  /\ (forall g hs fs expected,
         Gapped g hs ->
         Gapped g (VideoAssist.chooseEveryOtherIfDouble hs fs expected)
         /\ Gapped g (Robust.chooseEveryOtherIfDouble hs fs expected))
  /\ (forall g hs fs o,
         Gapped g hs -> Gapped g (PeakBased.chooseEveryOtherIfDouble fs o hs))
  /\ (forall g hs fs e plausible tol c,
         Gapped g hs ->
         Manual.chooseOddEven hs fs e plausible tol = Some c
         \/ Manual.chooseStrideSubseq hs fs e plausible tol = Some c ->
         Gapped g c).
Proof.
  repeat apply conj.
  - intros env fs o r H.
    assert (Hs : Spaced (samples fs (minGapMs o)) (det_hs r)).
    { destruct H as [H|[H|H]].
      + apply VideoAssist_detectHS_Good in H. apply H.
      + apply Robust_detectHS_Good in H. apply H.
      + apply Onset_detectHS_inv in H. apply H. }
    split; [now apply Spaced_iff_Gapped|].
    intros Hg. now apply Spaced_NoDup with (samples fs (minGapMs o)).
  - intros env fs o r H. apply detectHS_inv in H.
    destruct H as [(_ & Hs & _) _].
    assert (Hg : 1 <= PeakBased.minGapOf fs o)
      by (unfold PeakBased.minGapOf; lia).
    split; [now apply Spaced_iff_Gapped|].
    split; [exact Hg|]. now apply Spaced_NoDup with (PeakBased.minGapOf fs o).
  - intros env fs o r H. apply Manual_detectHS_inv in H.
    destruct H as (_ & Hs & _).
    assert (Hg : 1 <= Manual.minGapOf fs o)
      by (unfold Manual.minGapOf; lia).
    split; [now apply Spaced_iff_Gapped|].
    split; [exact Hg|]. now apply Spaced_NoDup with (Manual.minGapOf fs o).
  - intros hsRaw offset g n. apply Spaced_iff_Gapped.
    destruct (applyOffsetAndMerge_Merged hsRaw offset g n) as [| |l _ Hs _ _ _];
      simpl; auto with events.
    now rewrite numbers_Some.
  - intros g hs strength H. apply Spaced_iff_Gapped.
    apply mergeByMinGap_Spaced. now apply Spaced_iff_Gapped.
  - intros g m off hs H. apply Spaced_iff_Gapped, everyNth_Spaced.
    now apply Spaced_iff_Gapped.
  - intros g hs fs expected H. apply Spaced_iff_Gapped in H.
    split; apply Spaced_iff_Gapped;
      (eapply Spaced_Subseq; [apply chooseEveryOther_Subseq|exact H]).
  - intros g hs fs o H. apply Spaced_iff_Gapped.
    eapply Spaced_Subseq; [apply chooseEveryOtherIfDouble_Subseq|].
    now apply Spaced_iff_Gapped.
  - intros g hs fs e plausible tol c H Hc. apply Spaced_iff_Gapped.
    apply Spaced_iff_Gapped in H.
    destruct Hc as [Hc|Hc];
      [apply chooseOddEven_Subseq in Hc|apply chooseStrideSubseq_Subseq in Hc];
      eapply Spaced_Subseq; eauto.
Qed.

(** The three bursts of [env1] are detected five samples apart, the
    minimum gap itself. *)
Lemma detected_events_gapped_witness :
  exists r, VideoAssist.detectHS env1 10 o1 = Ok r
            /\ Gapped 5 (det_hs r) /\ NoDup (det_hs r).
Proof.
  assert (H : VideoAssist.detectHS env1 10 o1
              = Ok {| det_k := KNum 1.2; det_thr := 0.32000000000000001;
                      det_hs := [4; 9; 14];
                      det_score := 0.099999999999999978 |})
    by (vm_compute; reflexivity).
  destruct (proj1 detected_events_ascending_and_gapped env1 10%float o1 _
              (or_introl H)) as [H1 H2].
  eexists. split; [exact H|].
  split; [exact H1|apply H2; vm_compute; discriminate].
Defined.

(** Events exactly [minGap] samples apart are kept by both merges, so
    the strict inequality [hs[i] < hs[i+1] - minGap] fails on [env1]. *)
Lemma strict_gap_fails :
  (exists r, VideoAssist.detectHS env1 10 o1 = Ok r
             /\ ~ StrictlyGapped (samples 10 (minGapMs o1)) (det_hs r))
  /\ (exists r, PeakBased.detectHS env1 10 po1 = Ok r
                /\ ~ StrictlyGapped (PeakBased.minGapOf 10 po1) (det_hs r)).
Proof.
  split; eexists; (split; [vm_compute; reflexivity|]);
    intros H; specialize (H 0 ltac:(lia) ltac:(vm_compute; reflexivity));
    vm_compute in H; discriminate.
Qed.

(** C2: each of the five detectors answers with a result of two events
    or more (three or more in the revision with manual events), or fails
    with [DetectionFailure]; on a constant envelope (all zero, all NaN,
    or any other value) each fails with [DetectionFailure]. *)
Theorem detector_two_events_or_failure :
  (forall env fs o po mo,
      TwoOrFailure (VideoAssist.detectHS env fs o)
      /\ TwoOrFailure (Robust.detectHS env fs o)
      /\ TwoOrFailure (Onset.detectHS env fs o)
      /\ TwoOrFailure (PeakBased.detectHS env fs po)
      /\ TwoOrFailure (Manual.detectHS env fs mo)
      /\ forall r, Manual.detectHS env fs mo = Ok r -> 3 <= len (det_hs r))
  /\ (forall c n fs o po mo,
         VideoAssist.detectHS (repeat c n) fs o = Throw DetectionFailure
         /\ Robust.detectHS (repeat c n) fs o = Throw DetectionFailure
         /\ Onset.detectHS (repeat c n) fs o = Throw DetectionFailure
         /\ PeakBased.detectHS (repeat c n) fs po = Throw DetectionFailure
         /\ Manual.detectHS (repeat c n) fs mo = Throw DetectionFailure).
Proof.
  split.
  - intros env fs o po mo.
    repeat apply conj;
      auto using VideoAssist_TwoOrFailure, Robust_TwoOrFailure,
        Onset_TwoOrFailure, PeakBased_TwoOrFailure, Manual_TwoOrFailure.
    intros r H. apply Manual_detectHS_inv in H. destruct H as [H _]. exact H.
  - intros c n fs o po mo.
    repeat apply conj;
      auto using VideoAssist_detectHS_constant, Robust_detectHS_constant,
        Onset_detectHS_constant, PeakBased_detectHS_constant,
        Manual_detectHS_constant.
Qed.




(** C4: at every grid point [j], [meanAndSD] gives the mean and the
    population standard deviation (divisor [n], not [n - 1]) of the
    finite contributions, the others being left out; the mean is NaN
    exactly when there is no finite contribution and the deviation
    exactly when there are fewer than two.  [meanStdOfCycles] leaves no
    contribution out: it gives the mean of the whole column and, for two
    cycles or more, its sample standard deviation (divisor [n - 1]); so
    a contribution that is not a finite number makes its mean a value
    that is not finite (NaN for a NaN contribution, NaN or an infinity
    for an infinite one) and its deviation NaN. *)
Theorem cycle_statistics c0 rest j :
  let cycles := c0 :: rest in
  len cycles < 2 ^ 53 -> 0 <= j < len c0 ->
  let vs := contributions cycles j in
  let column := map (fun c => get c j) cycles in
  let mu := get (fst (meanAndSD cycles)) j in
  let sg := get (snd (meanAndSD cycles)) j in
  Forall (fun v => Number_isFinite v = true) vs
  /\ vs = filter Number_isFinite column
  /\ mu = meanOf vs /\ sg = populationSD vs
  /\ (is_nan mu = true <-> vs = [])
  /\ (is_nan sg = true <-> len vs < 2)
  /\ exists m s,
       Manual.meanStdOfCycles cycles = Some (m, s)
       /\ get m j = meanOf column
       /\ (2 <= len cycles -> get s j = sampleSD column)
       /\ (forall c, In c cycles -> Number_isFinite (get c j) = false ->
                     Number_isFinite (get m j) = false
                     /\ (is_nan (get c j) = true -> is_nan (get m j) = true)
                     /\ is_nan (get s j) = true).
Proof.
  intros cycles Hlen Hj vs column mu sg.
  assert (Hmu : mu = meanOf vs).
  { unfold mu, meanAndSD, cycles. cbn [fst].
    rewrite get_map_range by exact Hj. apply meanAt_spec. }
  assert (Hsg : sg = populationSD vs).
  { unfold sg, meanAndSD, cycles. cbn [snd].
    rewrite get_map_range by exact Hj. apply sdAt_spec. }
  assert (Hfin : Forall (fun v => Fin (Prim2SF v)) vs)
    by apply contributions_finite.
  assert (Hvs : len vs < 2 ^ 53)
    by (pose proof (contributions_length cycles j); unfold vs; lia).
  repeat apply conj.
  - unfold vs, contributions. apply Forall_forall. intros v Hv.
    apply filter_In in Hv. apply Hv.
  - reflexivity.
  - exact Hmu.
  - exact Hsg.
  - rewrite Hmu. apply meanOf_nan_iff; assumption.
  - rewrite Hmu. apply meanOf_nan_iff; assumption.
  - rewrite Hsg. apply populationSD_nan_iff; assumption.
  - rewrite Hsg. apply populationSD_nan_iff; assumption.
  - destruct (meanStdOfCycles_spec c0 rest j Hj) as (m & s & Hms & Hm & Hs).
    exists m, s. split; [exact Hms|]. split; [exact Hm|]. split; [exact Hs|].
    intros c Hin Hc.
    destruct (meanStdOfCycles_nonfinite c0 rest j c Hlen Hj Hin Hc)
      as (m' & s' & Hms' & H1 & H2 & H3).
    pose proof (eq_trans (eq_sym Hms) Hms') as E. injection E as <- <-. auto.
Qed.

(** Two cycles, [1] and [3] at the first grid point: mean 2, deviation 1
    (the population one); nothing finite at the second: NaN. *)
Lemma cycle_statistics_witness :
  get (fst (meanAndSD cycles2)) 0 = meanOf [1; 3]%float
  /\ get (snd (meanAndSD cycles2)) 0 = populationSD [1; 3]%float
  /\ (is_nan (get (fst (meanAndSD cycles2)) 1) = true
      <-> contributions cycles2 1 = []).
Proof.
  assert (Hlen : len cycles2 < 2 ^ 53) by (vm_compute; reflexivity).
  pose proof (cycle_statistics [1; nan; 3]%float [[3; nan; nan]%float] 0
                Hlen ltac:(vm_compute; split; [discriminate|reflexivity]))
    as (_ & _ & H0 & H1 & _).
  pose proof (cycle_statistics [1; nan; 3]%float [[3; nan; nan]%float] 1
                Hlen ltac:(vm_compute; split; [discriminate|reflexivity]))
    as (_ & _ & _ & _ & H2 & _).
  split; [exact H0|]. split; [exact H1|exact H2].
Defined.

(** For [1] and [3] the deviation [meanAndSD] gives is 1, and the sample
    standard deviation is the square root of 2; with one finite value and
    one NaN in a column [meanStdOfCycles] gives a NaN mean. *)
Lemma sd_is_not_the_sample_sd :
  get (snd (meanAndSD cycles2)) 0 = 1%float
  /\ sampleSD (contributions cycles2 0) = 1.4142135623730951%float
  /\ get (snd (meanAndSD cycles2)) 0 <> sampleSD (contributions cycles2 0)
  /\ (exists m s, Manual.meanStdOfCycles cycles2 = Some (m, s)
                  /\ contributions cycles2 2 = [3%float]
                  /\ is_nan (get m 2) = true).
Proof.
  split; [vm_compute; reflexivity|].
  split; [vm_compute; reflexivity|].
  split.
  - intros H. apply (f_equal Prim2SF) in H. vm_compute in H. discriminate.
  - eexists. eexists. split; [vm_compute; reflexivity|].
    split; vm_compute; reflexivity.
Qed.

(** C5: with two events or more the call [percentPeak] returns, and
    for a finite, positive reference (the largest envelope value from
    the first event up to, but not including, the last) some sample in
    that range is scaled to exactly 100 and every finite sample in it to
    at most 100; a reference that is not finite or not positive gives an
    all-NaN output of the length of the envelope.  With fewer than two
    events the reference is [Math.max(...env)]: the call is a RangeError
    for an envelope of more samples than the engine accepts arguments,
    and otherwise returns, all NaN when the largest sample is not finite
    or not positive.  [toPercentPeak] of the revision with manual events
    takes [Math.max(...env)] always: the same RangeError on such an
    envelope, and otherwise zeros, not NaN, when the largest sample is
    not finite or not positive. *)
Theorem percent_peak_bound (host : Host) env hs :
  (2 <= len hs ->
   let s := at_ hs 0 in
   let e := at_ hs (len hs - 1) in
   let ref := reference env hs in
   let pct := percentPeak env hs in
   ref = maxOver env s e
   /\ (Number_isFinite ref = true -> le ref 0%float = false ->
       (exists i, s <= i < e /\ 0 <= i < len env /\ get pct i = 100%float)
       /\ (forall i, s <= i < e -> Number_isFinite (get env i) = true ->
                     le (get pct i) 100%float = true))
   /\ (Number_isFinite ref = false \/ le ref 0%float = true ->
       pct = map (fun _ => NaN) env)
   /\ percentPeakCall env hs = Ok pct)
  /\ (len hs < 2 ->
      (maxArguments < len env -> percentPeakCall env hs = Throw RangeError)
      /\ (len env <= maxArguments ->
          percentPeakCall env hs = Ok (percentPeak env hs)
          /\ reference env hs = Math_max env
          /\ (Number_isFinite (Math_max env) = false
              \/ le (Math_max env) 0%float = true ->
              percentPeak env hs = map (fun _ => NaN) env)))
  /\ (maxArguments < len env -> Manual.toPercentPeak env = Throw RangeError)
  /\ (len env <= maxArguments ->
      (Number_isFinite (Math_max env) = false
       \/ le (Math_max env) 0%float = true ->
       Manual.toPercentPeak env = Ok (map (fun _ => 0%float) env))
      /\ (Number_isFinite (Math_max env) = true ->
          le (Math_max env) 0%float = false ->
          Manual.toPercentPeak env
          = Ok (map (fun v => ((v / Math_max env) * 100)%float) env))).
Proof.
  split; [|split; [|split]].
  - intros H2 s e ref pct.
    assert (Href : ref = maxOver env s e) by (apply reference_two; exact H2).
    split; [exact Href|]. split; [|split].
    + intros Hfin Hpos.
      assert (Hpct : pct = map (fun v => ((v / ref) * 100)%float) env).
      { unfold pct, percentPeak. fold ref. rewrite Hfin, Hpos. reflexivity. }
      pose proof (positive_finite ref Hfin Hpos) as HP.
      split.
      * destruct (maxOver_attained env s e) as [Hinf|(i & Hi & Hmax)].
        -- rewrite <- Href in Hinf. rewrite Hinf in Hfin. discriminate.
        -- rewrite <- Href in Hmax.
           assert (Hin : 0 <= i < len env)
             by (apply get_finite_inside; rewrite <- Hmax; exact Hfin).
           exists i. split; [exact Hi|]. split; [exact Hin|].
           rewrite Hpct, get_map by exact Hin. rewrite <- Hmax.
           destruct (Prim2SF ref) as [| | |sg m ex] eqn:E; simpl in HP;
             try contradiction.
           apply (percent_self ref sg m ex E).
      * intros i Hi Hv.
        assert (Hin : 0 <= i < len env) by (apply get_finite_inside; exact Hv).
        rewrite Hpct, get_map by exact Hin.
        apply percent_le; [exact Hv|exact HP|].
        rewrite Href. apply (maxOver_upper env s e i Hi).
    + intros Hbad. unfold pct, percentPeak. fold ref.
      destruct Hbad as [Hf|Hl]; [rewrite Hf; reflexivity|].
      rewrite Hl. now rewrite orb_true_r.
    + unfold percentPeakCall, pct, percentPeak, reference.
      destruct (Z.leb_spec 2 (len hs)); [reflexivity|lia].
  - intros H2. unfold percentPeakCall, percentPeak, reference, Math_max_spread.
    destruct (Z.leb_spec 2 (len hs)); [lia|]. split.
    + intros Hlong. destruct (Z.ltb_spec maxArguments (len env)); [|lia].
      reflexivity.
    + intros Hshort. destruct (Z.ltb_spec maxArguments (len env)); [lia|].
      split; [reflexivity|]. split; [reflexivity|].
      intros [Hf|Hl]; [rewrite Hf; reflexivity|].
      rewrite Hl. now rewrite orb_true_r.
  - intros Hlong. unfold Manual.toPercentPeak, Math_max_spread.
    destruct (Z.ltb_spec maxArguments (len env)); [|lia]. reflexivity.
  - intros Hshort. unfold Manual.toPercentPeak, Math_max_spread.
    destruct (Z.ltb_spec maxArguments (len env)); [lia|]. split.
    + intros [Hf|Hl]; [rewrite Hf; reflexivity|].
      rewrite Hl. now rewrite orb_true_r.
    + intros Hf Hl. rewrite Hf, Hl. reflexivity.
Qed.

(** On [envPeak], events at 0 and 3: the reference is 4, the sample at 1
    is scaled to 100. *)
Lemma percent_peak_witness :
  reference envPeak hsPeak = 4%float
  /\ exists i, 0 <= i < 3 /\ get (percentPeak envPeak hsPeak) i = 100%float.
Proof.
  split; [vm_compute; reflexivity|].
  destruct (proj1 (percent_peak_bound noTrig envPeak hsPeak)
              ltac:(vm_compute; discriminate))
    as (_ & H & _ & _).
  destruct (H ltac:(vm_compute; reflexivity) ltac:(vm_compute; reflexivity))
    as [(i & Hi & _ & Hp) _].
  exists i. split; [exact Hi|exact Hp].
Defined.

(** On [envRise], events at 0 and 2: the reference is 2, the value
    before the last event, and the last event itself is scaled to 250:
    over the closed range the largest percentage is not 100. *)
Lemma percent_peak_exceeds_100_at_last_event :
  reference envRise hsRise = 2%float
  /\ percentPeak envRise hsRise = [50; 100; 250]%float
  /\ ~ (forall i, at_ hsRise 0 <= i <= at_ hsRise (len hsRise - 1) ->
                  le (get (percentPeak envRise hsRise) i) 100%float = true).
Proof.
  split; [vm_compute; reflexivity|].
  split; [vm_compute; reflexivity|].
  intros H. specialize (H 2 ltac:(vm_compute; split; discriminate)).
  vm_compute in H. discriminate.
Qed.

(** C6: a recording shorter than two seconds makes [computePipeline]
    fail with [InsufficientDataError] before any detection; but the
    share of finite samples is taken after [sanitizeArray] has replaced
    the missing ones, so a recording with no finite sample at all, whose
    share is below the floor of 95%, has share 1 there, passes the floor
    and, when long enough, does not fail with [InsufficientDataError]. *)
Theorem validity_floor_is_taken_after_sanitizing :
  (forall (host : Host) tt x fs p expected,
      lt (Z2float (len x)) (fs * 2)%float = true ->
      Robust.computePipeline tt x fs p expected = Throw InsufficientDataError)
  /\ (forall (host : Host) tt x fs p expected,
         0 < len x < 2 ^ 53 ->
         Forall (fun v => Number_isFinite v = false) x ->
         lt (Robust.varRatioFinite x) 0.95%float = true
         /\ Robust.varRatioFinite (Robust.sanitizeArray x) = 1%float
         /\ Robust.precheck x fs p <> Robust.TooManyMissing
         /\ (lt (Z2float (len x)) (fs * 2)%float = false ->
             Robust.computePipeline tt x fs p expected
             <> Throw InsufficientDataError)).
Proof.
  split.
  - intros host tt x fs p expected H. unfold Robust.computePipeline.
    destruct (precheck_short x fs p H) as [-> | ->]; reflexivity.
  - intros host tt x fs p expected Hlen Hall.
    destruct (precheck_all_missing x fs p Hlen Hall) as [H1 H2].
    split; [apply varRatioFinite_all_missing; assumption|].
    split; [exact H1|]. split; [exact H2|].
    intros Hlong. pose proof (precheck_long x fs p Hlong) as H3.
    unfold Robust.computePipeline.
    destruct (Robust.precheck x fs p) as [| | | |y ratio];
      try contradiction; try discriminate.
    destruct (Robust.detectHS _ fs _) as [r|e] eqn:Hd.
    + destruct (normalizeCycles _ _ _) as [g cyc].
      destruct (meanAndSD cyc). unfold Math_max_spread.
      destruct (_ <? _); discriminate.
    + apply Robust_throw in Hd. rewrite Hd. discriminate.
Qed.

(** Four missing samples at 1 Hz: no finite sample, yet the floor is
    passed and the run ends in the detector. *)
Lemma validity_floor_witness :
  lt (Robust.varRatioFinite [nan; nan; nan; nan]%float) 0.95%float = true
  /\ Robust.precheck [nan; nan; nan; nan]%float 1 p0 <> Robust.TooManyMissing
  /\ Robust.computePipeline (host := noTrig) [] [nan; nan; nan; nan]%float
                            1 p0 None
     = Throw DetectionFailure.
Proof.
  destruct (proj2 validity_floor_is_taken_after_sanitizing noTrig []
              [nan; nan; nan; nan]%float 1%float p0 None
              ltac:(vm_compute; split; reflexivity)
              ltac:(repeat constructor))
    as (H1 & _ & H3 & _).
  split; [exact H1|]. split; [exact H3|]. vm_compute. reflexivity.
Defined.

(** One sample in four is finite: the share is 0.25, the floor is
    passed all the same. *)
Lemma one_finite_sample_in_four_passes :
  Robust.varRatioFinite xMissing = 0.25%float
  /\ Robust.sanitizeArray xMissing = [1; 1; 1; 1]%float
  /\ Robust.precheck xMissing 1 p0 = Robust.Passed [0; 0; 0; 0]%float 1
  /\ Robust.computePipeline (host := noTrig) [] xMissing 1 p0 None
     = Throw DetectionFailure.
Proof. repeat split; vm_compute; reflexivity. Qed.




(** C8: the reconciler returns when the sync range is NaN or at most
    [1e12] seconds in magnitude, and returns the same however many more
    turns the search is allowed.  What it keeps is a subsequence of the
    EMG events given, so it invents no event; [matched] is the number
    kept and [raw] the number given; every event kept lies within the
    tolerance of an event of the video at the selected shift, and no
    more events are kept than the video has; when there are events on
    both sides and the search tries a shift, its score is the number
    kept.  When the times of the events and those of the video are
    ascending, the events kept are exactly those that the greedy
    matching with two pointers leaves at the selected shift; so when
    the [i]-th event lies within the tolerance of the [i]-th video
    event, for every [i], these events are all kept.  In [run], with
    video assistance on, the reference events are the kept ones when
    four or more are kept; with fewer, as without video assistance, the
    events after the baseline are decimated: they stay when they are
    fewer than six or do not look doubled, and otherwise every other
    one stays, the events at the even positions unless those at the odd
    positions score strictly lower.  In every case the reference events
    are a subsequence of the detector's. *)
Theorem reconciler_keeps_matched_events
        ticked hs1 t1 videoEvents baselineSec syncRange tolMs fs expTA :
  gt (Math_abs syncRange) 1e12 = false ->
  let hs0 := filter (fun i => ge (get t1 i) baselineSec) hs1 in
  let vid := filter (fun v => ge v baselineSec)
                    (match videoEvents with Some v => v | None => [] end) in
  let tolSec := (tolMs / 1000)%float in
  let within shift h b :=
    le (Math_abs ((get t1 h + shift) - b)%float) tolSec = true in
  let score c := scoreHS c fs defaultStep expTA in
  exists N kept hsRef src,
    (forall fuel, (N <= fuel)%nat ->
       keepHsMatchedToVideo fuel hs0 t1 vid syncRange tolMs = Some kept
       /\ referenceEvents fuel ticked hs1 t1 videoEvents baselineSec syncRange
                          tolMs fs expTA = Some (hsRef, src))
    /\ Subseq (hsKept kept) hs0
    /\ matched kept = len (hsKept kept)
    /\ raw kept = len hs0
    /\ matched kept <= len vid
    /\ (hs0 <> [] -> vid <> [] ->
        le (- syncRange) (syncRange + 1e-9) = true ->
        kept_score kept = matched kept)
    /\ (forall h, In h (hsKept kept) ->
                  exists b, In b vid /\ within (kept_shift kept) h b)
    /\ (Ascending (map (get t1) hs0) -> Ascending vid ->
        forall ks,
          TwoPointer (kept_shift kept) tolSec
                     (combine (map (get t1) hs0) hs0) vid ks
          <-> ks = hsKept kept)
    /\ (Ascending (map (get t1) hs0) -> Ascending vid ->
        Forall (fun '(h, b) => within (kept_shift kept) h b)
               (combine hs0 vid) ->
        hsKept kept = firstn (length vid) hs0)
    /\ Subseq hsRef hs1
    /\ (useVideoOf ticked videoEvents = true -> 4 <= matched kept ->
        hsRef = hsKept kept
        /\ src = FromVideo (kept_shift kept) (matched kept) (raw kept))
    /\ (useVideoOf ticked videoEvents = true -> matched kept < 4 ->
        Decimated score hs0 fs expTA hsRef /\ src = EveryOther)
    /\ (useVideoOf ticked videoEvents = false ->
        Decimated score hs0 fs expTA hsRef).
Proof.
  intros Hrange hs0 vid tolSec within score.
  destruct (keepHsMatchedToVideo_returns hs0 t1 vid syncRange tolMs Hrange)
    as (N & kept & Hret).
  pose proof (Hret N (Nat.le_refl N)) as Hkept.
  pose proof (keepHsMatchedToVideo_inv _ _ _ _ _ _ _ Hkept)
    as (Hk & Hm & Hraw).
  fold tolSec in Hk.
  assert (Hsub0 : Subseq hs0 hs1) by apply Subseq_filter.
  assert (Hsubk : Subseq (hsKept kept) hs0)
    by (rewrite Hk; apply keepAt_Subseq).
  assert (Hdec : Decimated score hs0 fs expTA
                           (chooseEveryOtherIfDouble hs0 fs expTA))
    by apply chooseEveryOtherIfDouble_Decimated.
  assert (Hev : Subseq (chooseEveryOtherIfDouble hs0 fs expTA) hs1).
  { eapply Subseq_trans; [|exact Hsub0].
    apply VideoAssist_chooseEveryOtherIfDouble_Subseq. }
  assert (Href : exists hsRef src,
             (forall fuel, (N <= fuel)%nat ->
                referenceEvents fuel ticked hs1 t1 videoEvents baselineSec
                                syncRange tolMs fs expTA = Some (hsRef, src))
             /\ Subseq hsRef hs1
             /\ (useVideoOf ticked videoEvents = true -> 4 <= matched kept ->
                 hsRef = hsKept kept
                 /\ src = FromVideo (kept_shift kept) (matched kept) (raw kept))
             /\ (useVideoOf ticked videoEvents = true -> matched kept < 4 ->
                 Decimated score hs0 fs expTA hsRef /\ src = EveryOther)
             /\ (useVideoOf ticked videoEvents = false ->
                 Decimated score hs0 fs expTA hsRef)).
  { unfold referenceEvents. fold hs0. fold vid.
    destruct (useVideoOf ticked videoEvents).
    - destruct (Z.leb_spec 4 (matched kept)) as [H4|H4].
      + exists (hsKept kept),
          (FromVideo (kept_shift kept) (matched kept) (raw kept)).
        split.
        { intros fuel Hf. rewrite (Hret fuel Hf).
          destruct (Z.leb_spec 4 (matched kept)); [reflexivity|lia]. }
        split; [eapply Subseq_trans; eassumption|].
        split; [auto|]. split; [lia|discriminate].
      + exists (chooseEveryOtherIfDouble hs0 fs expTA), EveryOther.
        split.
        { intros fuel Hf. rewrite (Hret fuel Hf).
          destruct (Z.leb_spec 4 (matched kept)); [lia|reflexivity]. }
        split; [exact Hev|]. split; [lia|]. split; [auto|discriminate].
    - eexists. eexists. split; [intros fuel Hf; reflexivity|].
      split; [exact Hev|]. split; [discriminate|].
      split; [discriminate|auto]. }
  destruct Href as (hsRef & src & Hr & Hs & H4 & Hlt & Hno).
  exists N, kept, hsRef, src.
  split; [intros fuel Hf; split; [apply Hret|apply Hr]; exact Hf|].
  split; [exact Hsubk|]. split; [exact Hm|]. split; [exact Hraw|].
  split.
  { rewrite Hm, Hk. apply keepAt_length_le. }
  split.
  { intros Hh Hv Hfirst.
    apply (search_result N hs0 t1 vid syncRange tolMs kept Hkept); auto.
    apply after_baseline_inside. }
  split.
  { intros h Hh. rewrite Hk in Hh. apply (keepAt_sound _ _ _ _ _ _ Hh). }
  split.
  { intros Ha Hv ks. rewrite Hk, keepAt_ascending by assumption. split.
    - apply TwoPointer_unique.
    - intros ->. apply matchFrom_TwoPointer. }
  split.
  { intros Ha Hv Hall. rewrite Hk. apply keepAt_aligned; assumption. }
  auto.
Qed.

(** Five EMG events a second apart, five video events 0.2 s later, a
    search over one second: all five events are kept, at a shift of
    0.15 s, and [run] takes them as the reference events. *)
Lemma reconciler_witness :
  exists N kept hsRef src,
    (forall fuel, (N <= fuel)%nat ->
       keepHsMatchedToVideo fuel hsEmg tSec videoEvents 1 50 = Some kept
       /\ referenceEvents fuel true hsEmg tSec (Some videoEvents) 0 1 50 10 None
          = Some (hsRef, src))
    /\ matched kept = 5 /\ hsRef = hsEmg.
Proof.
  destruct (reconciler_keeps_matched_events true hsEmg tSec
              (Some videoEvents) 0%float 1%float 50%float 10%float None
              ltac:(reflexivity))
    as (N & kept & hsRef & src & Hret & _ & _ & _ & _ & _ & _ & _ & _ & _ & H4
        & _).
  exists N, kept, hsRef, src.
  assert (Hret' : forall fuel, (N <= fuel)%nat ->
            keepHsMatchedToVideo fuel hsEmg tSec videoEvents 1 50 = Some kept
            /\ referenceEvents fuel true hsEmg tSec (Some videoEvents) 0 1 50 10
                               None = Some (hsRef, src)) by exact Hret.
  split; [exact Hret'|].
  assert (Hv : keepHsMatchedToVideo 1000 hsEmg tSec videoEvents 1 50
               = Some {| hsKept := [10; 20; 30; 40; 50];
                         kept_shift := 0.15000000000000074;
                         matched := 5; raw := 5; kept_score := 5 |})
    by (vm_compute; reflexivity).
  pose proof (keepHsMatchedToVideo_mono _ (Nat.max N 1000) _ _ _ _ _ _ Hv
                (Nat.le_max_r N 1000)) as Hbig.
  destruct (Hret' (Nat.max N 1000) (Nat.le_max_l N 1000)) as [Hk _].
  rewrite Hbig in Hk. injection Hk as <-.
  split; [reflexivity|].
  apply H4; [reflexivity|cbn; lia].
Defined.

(** A range of [1e15] seconds is a finite number, yet the step of 10 ms
    does not move a shift of that size: the search never leaves its
    first shift, and [run] does not return.  And an event may lie
    within the tolerance of a video event without being kept: of the
    events at 1.0 s and 1.1 s the video event at 1.05 s is paired with
    the first, so the second is dropped. *)
Lemma reconciler_search_without_end :
  (forall fuel,
      referenceEvents fuel true hsEmg tSec (Some videoEvents) 0 1e15 50 10 None
      = None)
  /\ Number_isFinite 1e15 = true
  /\ referenceEvents 1000 true [10; 11; 20; 30; 40] tSec
                     (Some [1.05; 2.05; 3.05; 4.05]%float) 0 0 100 10 None
     = Some ([10; 20; 30; 40], FromVideo (-0) 4 5)
  /\ le (Math_abs ((get tSec 11 + (-0)) - 1.05)%float) (100 / 1000) = true.
Proof.
  split; [|split; [reflexivity|split; vm_compute; reflexivity]].
  intros fuel. unfold referenceEvents.
  change (useVideoOf true (Some videoEvents)) with true. cbv iota.
  unfold keepHsMatchedToVideo, bestShiftMatch.
  match goal with
  | |- context [if ?c then Some (0%float, -1) else _] =>
      replace c with false by (vm_compute; reflexivity)
  end.
  rewrite shiftLoop_stuck; reflexivity.
Qed.



(** ** Further properties of the code *)

(** X1: with no minimum gap the peak fallback of the detector with video
    assistance can answer with the same index twice: on [env0] the two
    peaks of the plateau are refined to the same onset. *)
Theorem duplicate_events_without_minimum_gap :
  samples 10 (minGapMs o0) = 0
  /\ exists r, VideoAssist.detectHS env0 10 o0 = Ok r
               /\ det_k r = KPeakFallback /\ det_hs r = [19; 19]
               /\ ~ NoDup (det_hs r).
Proof.
  split; [vm_compute; reflexivity|].
  eexists. split; [vm_compute; reflexivity|].
  split; [reflexivity|]. split; [reflexivity|].
  cbn. intros H. inversion H as [|? ? Hn _]. apply Hn. now left.
Qed.

(** X2: for an unbounded synchronisation range the search of
    [bestShiftMatch] over the shifts does not end: whatever the number of
    turns allowed, it has not ended. *)
Theorem shift_search_does_not_end_on_unbounded_range
        fuel emgTimes videoTimes tolSec :
  emgTimes <> [] -> videoTimes <> [] ->
  bestShiftMatch fuel emgTimes videoTimes infinity 0.01 tolSec = None.
Proof.
  intros He Hv. unfold bestShiftMatch.
  destruct emgTimes as [|a et]; [contradiction|].
  destruct videoTimes as [|b vt]; [contradiction|].
  change (len (a :: et) =? 0) with (Z.pos (Pos.of_succ_nat (length et)) =? 0).
  change (len (b :: vt) =? 0) with (Z.pos (Pos.of_succ_nat (length vt)) =? 0).
  cbn [Z.eqb orb].
  change (- infinity)%float with neg_infinity.
  change (infinity + 1e-9)%float with infinity.
  apply shiftLoop_unbounded.
Qed.

Lemma shift_search_unbounded_witness :
  bestShiftMatch 1000 [Some 1%float] [1.2]%float infinity 0.01 0.05 = None.
Proof.
  apply shift_search_does_not_end_on_unbounded_range; discriminate.
Defined.

(** X3: cutting a result of the pipeline anew at its own events changes
    nothing: the events are inside the envelope, so none is filtered out,
    and the percentages, the cycles and the statistics are computed from
    the same envelope and the same events. *)
Theorem reapplying_own_events_changes_nothing
        (host : Host) tt x fs p expected res :
  VideoAssist.computePipeline tt x fs p expected = Ok res ->
  VideoAssist.applyHsToExistingResult res (hs res) (VideoAssist.nPoints p)
  = res.
Proof.
  unfold VideoAssist.computePipeline.
  destruct (VideoAssist.detectHS _ fs _) as [r|e] eqn:Hd; [|discriminate].
  apply VideoAssist_detectHS_Good in Hd. destruct Hd as (_ & _ & _ & Hb).
  destruct (normalizeCycles _ _ _) as [g cyc] eqn:Hn.
  destruct (meanAndSD cyc) as [mu sg] eqn:Hm.
  intros [= <-]. unfold VideoAssist.applyHsToExistingResult. cbn [envRaw hs t k thr].
  rewrite (filter_in_bounds _ _ Hb), Hn, Hm. reflexivity.
Qed.

(** The run on [x1] ends with a result, and cutting it anew at its own
    events gives it back. *)
Lemma reapplying_own_events_witness :
  exists res,
    VideoAssist.computePipeline (host := noTrig) [] x1 10 vp0 None = Ok res
    /\ VideoAssist.applyHsToExistingResult res (hs res) 5 = res.
Proof.
  destruct (VideoAssist.computePipeline (host := noTrig) [] x1 10 vp0 None)
    as [res|e] eqn:H.
  - exists res. split; [reflexivity|].
    exact (reapplying_own_events_changes_nothing noTrig [] x1 10%float vp0
             None res H).
  - vm_compute in H. discriminate.
Defined.

End Claims.

Module BisectFacts.
Import JS Core FloatClasses FloatFacts MergeFacts ManualTools.

(** Of two numbers, the first not at or below the second, the second
    is below the first. *)
Lemma not_le_lt a b :
  Number_isFinite a = true -> Number_isFinite b = true ->
  le a b = false -> lt b a = true.
Proof.
  unfold Number_isFinite, le, lt. rewrite !is_finite_spec.
  rewrite FloatAxioms.leb_spec, FloatAxioms.ltb_spec.
  intros Ha Hb H.
  destruct (SFltb (Prim2SF b) (Prim2SF a)) eqn:Hlt; [reflexivity|].
  apply SFltb_total in Hlt.
  - congruence.
  - intros E. rewrite E in Hb. exact Hb.
  - intros E. rewrite E in Ha. exact Ha.
Qed.

Lemma lt_le a b : lt a b = true -> le a b = true.
Proof.
  unfold lt, le. rewrite FloatAxioms.ltb_spec, FloatAxioms.leb_spec.
  unfold SFltb, SFleb. destruct (SFcompare _ _) as [[]|]; congruence.
Qed.

Lemma toInt32_small z : 0 <= z < 2 ^ 31 -> toInt32 z = z.
Proof.
  intros H. unfold toInt32.
  rewrite Z.mod_small by lia. lia.
Qed.

(** Below 2^30 the halving of [lo + hi] falls strictly between them. *)
Lemma sar1_between lo hi :
  0 <= lo -> hi <= 2 ^ 30 -> 1 < hi - lo -> lo < sar1 (lo + hi) < hi.
Proof.
  intros Hlo Hhi Hd. unfold sar1. rewrite toInt32_small by lia.
  Z.div_mod_to_equations. lia.
Qed.

(** The loop ends, at two neighbouring positions that bracket [sec]. *)
Lemma bisect_spec t sec fuel : forall lo hi,
  0 <= lo < hi -> hi <= 2 ^ 30 -> (Z.to_nat (hi - lo) <= S fuel)%nat ->
  lt (get t lo) sec = true -> lt (get t hi) sec = false ->
  exists lo', bisect fuel t sec lo hi = Some (lo', lo' + 1)
              /\ lo <= lo' < hi
              /\ lt (get t lo') sec = true
              /\ lt (get t (lo' + 1)) sec = false.
Proof.
  induction fuel as [|fuel IH]; intros lo hi Hb Hhi Hf Hlo Hhi'.
  - assert (hi = lo + 1) by lia. subst hi.
    exists lo. cbn [bisect]. destruct (Z.ltb_spec 1 (lo + 1 - lo)); [lia|].
    auto with zarith.
  - cbn [bisect]. destruct (Z.ltb_spec 1 (hi - lo)) as [Hd|Hd].
    + pose proof (sar1_between lo hi ltac:(lia) Hhi Hd) as Hm.
      destruct (lt (get t (sar1 (lo + hi))) sec) eqn:Hmid.
      * destruct (IH (sar1 (lo + hi)) hi) as (lo' & Hr & Hb' & Hl & Hh);
          [lia|lia|lia|exact Hmid|exact Hhi'|].
        exists lo'. split; [exact Hr|]. split; [lia|auto].
      * destruct (IH lo (sar1 (lo + hi))) as (lo' & Hr & Hb' & Hl & Hh);
          [lia|lia|lia|exact Hlo|exact Hmid|].
        exists lo'. split; [exact Hr|]. split; [lia|auto].
    + assert (hi = lo + 1) by lia. subst hi. exists lo. auto with zarith.
Qed.

End BisectFacts.

Module CompareFacts.
Import JS Core FloatClasses FloatFacts EventListFacts MergeFacts ManualTools.

Lemma pairDiffs_nil_l tol m : pairDiffs tol [] m = [].
Proof. destruct m; reflexivity. Qed.

Lemma pairDiffs_nil_r tol a : pairDiffs tol a [] = [].
Proof. destruct a; reflexivity. Qed.

Lemma pairDiffs_cons tol x a y m :
  pairDiffs tol (x :: a) (y :: m)
  = if le (Math_abs (Z2float (x - y))) tol then (x - y) :: pairDiffs tol a m
    else if lt (Z2float x) (Z2float y - tol)%float
         then pairDiffs tol a (y :: m)
         else pairDiffs tol (x :: a) m.
Proof. reflexivity. Qed.

Lemma pairDiffs_length tol a : forall m,
  len (pairDiffs tol a m) <= len a /\ len (pairDiffs tol a m) <= len m.
Proof.
  induction a as [|x a IH]; intros m.
  - rewrite pairDiffs_nil_l. pose proof (len_nonneg m).
    change (len (@nil Z)) with 0. lia.
  - induction m as [|y m IHm].
    + rewrite pairDiffs_nil_r. pose proof (len_nonneg (x :: a)).
      change (len (@nil Z)) with 0. lia.
    + rewrite pairDiffs_cons. destruct (le (Math_abs (Z2float (x - y))) tol).
      * destruct (IH m). rewrite !len_cons. lia.
      * destruct (lt _ _).
        -- destruct (IH (y :: m)). rewrite !len_cons in *. lia.
        -- rewrite !len_cons in *. lia.
Qed.

Lemma pairDiffs_within tol a : forall m d,
  In d (pairDiffs tol a m) -> le (Math_abs (Z2float d)) tol = true.
Proof.
  induction a as [|x a IH]; intros m d.
  - rewrite pairDiffs_nil_l. intros H. destruct H.
  - induction m as [|y m IHm]; [rewrite pairDiffs_nil_r; intros H; destruct H|].
    rewrite pairDiffs_cons. destruct (le (Math_abs (Z2float (x - y))) tol) eqn:Hc.
    + intros [<-|Hin]; [exact Hc|eauto].
    + destruct (lt _ _); [apply IH|exact IHm].
Qed.

Lemma pairDiffs_self tol a :
  le (Math_abs (Z2float 0)) tol = true ->
  pairDiffs tol a a = map (fun _ => 0) a.
Proof.
  intros H. induction a as [|x a IH]; [reflexivity|].
  rewrite pairDiffs_cons, Z.sub_diag, H. cbn [map]. f_equal. exact IH.
Qed.

(** A tolerance that is a number is 1 or more. *)
Lemma tolerance_covers_zero fs tolMs :
  is_nan (tolerance fs tolMs) = false ->
  le (Math_abs (Z2float 0)) (tolerance fs tolMs) = true.
Proof.
  unfold tolerance, Math_max2.
  set (x := Math_round _).
  destruct (is_nan 1 || is_nan x) eqn:Hn; [intros H; discriminate H|].
  destruct (1 <? x)%float eqn:H1.
  - intros _. change (Math_abs (Z2float 0)) with 0%float.
    unfold le. assert (Hlt : (0 <? x)%float = true).
    { apply ltb_trans with 1%float; [reflexivity|exact H1]. }
    rewrite FloatAxioms.leb_spec. rewrite FloatAxioms.ltb_spec in Hlt.
    unfold SFltb, SFleb in *. destruct (SFcompare _ _) as [[]|]; congruence.
  - intros _. destruct (x <? 1)%float; reflexivity.
Qed.

End CompareFacts.

Module ZeroFacts.
Import JS Core FloatClasses FloatFacts EventListFacts MergeFacts ManualTools.
Import ZeroProps.

Lemma float_of_SF x s : Prim2SF x = s -> x = SF2Prim s.
Proof. intros <-. symmetry. apply SF2Prim_Prim2SF. Qed.

Lemma IsZero_is_zero x : IsZero x -> is_zero x = true.
Proof.
  intros [s H]. unfold is_zero. rewrite FloatAxioms.eqb_spec, H.
  reflexivity.
Qed.

(** Zero divided by a number other than zero is zero. *)
Lemma zero_div fs :
  is_nan fs = false -> is_zero fs = false -> IsZero (0 / fs).
Proof.
  intros Hn Hz. apply is_nan_false in Hn. unfold IsZero.
  rewrite FloatAxioms.div_spec. change (Prim2SF 0) with (S754_zero false).
  destruct (Prim2SF fs) as [s|s| |s m e] eqn:E.
  - rewrite IsZero_is_zero in Hz by (exists s; exact E). discriminate.
  - cbn. eauto.
  - congruence.
  - cbn. eauto.
Qed.

Lemma zero_mul_1000 q : IsZero q -> IsZero (q * 1000).
Proof.
  intros [s H]. unfold IsZero. rewrite FloatAxioms.mul_spec, H.
  cbn. eauto.
Qed.

(** A sum of zeros is the number 0. *)
Lemma sum_zeros_from l : forall acc,
  Prim2SF acc = S754_zero false -> Forall IsZero l ->
  Prim2SF (fold_left (fun a b => (a + b)%float) l acc) = S754_zero false.
Proof.
  induction l as [|v l IH]; intros acc Hacc Hall; [exact Hacc|].
  cbn [fold_left]. inversion Hall as [|? ? [s Hv] Hl]; subst.
  apply IH; [|exact Hl].
  rewrite FloatAxioms.add_spec, Hacc, Hv. destruct s; reflexivity.
Qed.

Lemma average_zeros l :
  l <> [] -> len l < 2 ^ 53 -> Forall IsZero l -> average l = 0%float.
Proof.
  intros Hne Hlen Hall. unfold average.
  destruct (Z.eqb_spec (len l) 0) as [H0|H0]; [apply len_zero in H0; contradiction|].
  pose proof (len_nonneg l).
  pose proof (Z2float_PosFin (len l) ltac:(lia)) as Hp.
  apply (float_of_SF _ (S754_zero false)). rewrite FloatAxioms.div_spec.
  unfold sum. rewrite (sum_zeros_from l 0%float eq_refl Hall).
  destruct (Prim2SF (Z2float (len l))) as [s|s| |[] m e]; try contradiction.
  reflexivity.
Qed.

End ZeroFacts.

Module CycleFacts.
Import JS Core FloatClasses FloatFacts EventListFacts MergeFacts ConstantFacts.
Import VideoFacts ShapeFacts.

(** The index of [interpolateToGrid] never leaves the segment: it stays
    at or below [x.length - 2], or where it was. *)
Lemma advance_bounds x xi room : forall j,
  j <= ManualTools.advance x xi j room <= j + Z.of_nat room.
Proof.
  induction room as [|room IH]; intros j; cbn [ManualTools.advance]; [lia|].
  destruct (lt _ xi); [|lia]. specialize (IH (j + 1)). lia.
Qed.

Lemma interpolateFrom_length x y grid : forall j,
  len (ManualTools.interpolateFrom x y j grid) = len grid.
Proof.
  induction grid as [|xi rest IH]; intros j; [reflexivity|].
  cbn [ManualTools.interpolateFrom]. rewrite !len_cons, IH. reflexivity.
Qed.

(** The grid loop ends at the first [k] that is not below [nPoints]:
    with [n] such a number and more than [n - k] turns allowed it
    returns the points of [k], [k + 1], ... up to that one. *)
Lemma gridFrom_spec nPoints n :
  lt (Z2float n) nPoints = false ->
  forall fuel k,
    0 <= k <= n -> (Z.to_nat (n - k) < fuel)%nat ->
    exists p,
      k <= p <= n
      /\ ManualTools.gridFrom fuel nPoints k
         = Some (map (fun i => ((Z2float i / (nPoints - 1)) * 100)%float)
                     (range k p))
      /\ lt (Z2float p) nPoints = false
      /\ (forall i, k <= i < p -> lt (Z2float i) nPoints = true).
Proof.
  intros Hn. induction fuel as [|fuel IH]; intros k Hk Hf; [lia|].
  cbn [ManualTools.gridFrom].
  destruct (lt (Z2float k) nPoints) eqn:Hlt.
  - assert (k <> n) by (intros ->; congruence).
    destruct (IH (k + 1) ltac:(lia) ltac:(lia)) as (p & Hp & -> & Hend & Hall).
    exists p. split; [lia|]. split.
    + rewrite (range_cons k p) by lia. reflexivity.
    + split; [exact Hend|]. intros i Hi.
      destruct (Z.eq_dec i k) as [->|]; [exact Hlt|apply Hall; lia].
  - exists k. split; [lia|]. split.
    + rewrite range_nil by lia. reflexivity.
    + split; [exact Hlt|]. intros i Hi. lia.
Qed.

Lemma cyclesFrom_shape fuel t envPct nPoints grid :
  ManualTools.gridFrom fuel nPoints 0 = Some grid ->
  forall ps,
    exists cs,
      ManualTools.cyclesFrom fuel t envPct nPoints ps = Some cs
      /\ Forall (fun c => fst c = grid /\ len (snd c) = len grid) cs
      /\ len cs <= len ps.
Proof.
  intros Hg. induction ps as [|[s e] ps IH].
  - exists []. split; [reflexivity|]. split; [constructor|cbn; lia].
  - destruct IH as (cs & Hcs & Hall & Hlen).
    cbn [ManualTools.cyclesFrom]. unfold ManualTools.cycleOf.
    rewrite Hg, Hcs. rewrite len_cons.
    destruct (e <=? s + 5).
    + exists cs. split; [reflexivity|]. split; [exact Hall|lia].
    + destruct (le _ 0%float).
      * exists cs. split; [reflexivity|]. split; [exact Hall|lia].
      * eexists. split; [reflexivity|]. split.
        -- constructor; [|exact Hall]. cbn [fst snd]. split; [reflexivity|].
           unfold ManualTools.interpolateToGrid. apply interpolateFrom_length.
        -- cbn [app]. rewrite len_cons. lia.
Qed.

Section WithHost.
Context {host : Host}.

Lemma toPercentPeak_cases env :
  (maxArguments < len env /\ Manual.toPercentPeak env = Throw RangeError)
  \/ (len env <= maxArguments
      /\ exists pct, Manual.toPercentPeak env = Ok pct /\ len pct = len env).
Proof.
  unfold Manual.toPercentPeak, Math_max_spread.
  destruct (Z.ltb_spec maxArguments (len env)); [left; auto|right].
  split; [lia|]. eexists. split; [reflexivity|].
  destruct (_ || _); apply len_map.
Qed.

End WithHost.

End CycleFacts.

Module RowFacts.
Import JS Core FloatClasses FloatFacts EventListFacts MergeFacts ConstantFacts.
Import VideoFacts ShapeFacts SanitizeFacts RowProps ZeroFacts.

(** A finite number minus itself is 0. *)
Lemma sub_self x : is_finite x = true -> (x - x)%float = 0%float.
Proof.
  rewrite is_finite_spec. intros H.
  apply (float_of_SF _ (S754_zero false)). rewrite FloatAxioms.sub_spec.
  destruct (Prim2SF x) as [s|s| |s m e]; try contradiction.
  - destruct s; reflexivity.
  - unfold SF64sub, SFsub. rewrite Z.sub_diag. reflexivity.
Qed.

Section Rows.
Context {Row Key : Type} (numberAt : Row -> Key -> float).
Variables (timeKey sigKey : Key) (fs : float).

Lemma combine_range_cons {A} (r : A) l k :
  combine (r :: l) (range k (k + len (r :: l)))
  = (r, k) :: combine l (range (k + 1) (k + 1 + len l)).
Proof.
  rewrite len_cons. pose proof (len_nonneg l).
  rewrite range_cons by lia. cbn [combine]. do 3 f_equal. lia.
Qed.

Lemma pushRow_fold rows : forall t x,
  fold_left (ManualTools.pushRow numberAt timeKey sigKey fs) rows (t, x)
  = (t ++ map (timeOf numberAt timeKey fs)
              (combine (keptRows numberAt sigKey rows)
                       (range (len t)
                              (len t + len (keptRows numberAt sigKey rows)))),
     x ++ map (fun r => numberAt r sigKey) (keptRows numberAt sigKey rows)).
Proof.
  induction rows as [|r rows IH]; intros t x.
  - cbn. rewrite !app_nil_r. reflexivity.
  - cbn [fold_left]. unfold ManualTools.pushRow at 2.
    unfold keptRows. cbn [filter]. fold (keptRows numberAt sigKey rows).
    destruct (Number_isFinite (numberAt r sigKey)) eqn:Hx; cbn [negb].
    + rewrite combine_range_cons. cbn [map].
      assert (Ht : (if Number_isFinite (numberAt r timeKey)
                    then t ++ [numberAt r timeKey]
                    else if Number_isFinite (numberAt r timeKey)
                         then t ++ [(numberAt r timeKey / fs)%float]
                         else t ++ [(Z2float (len t) / fs)%float])
                   = t ++ [timeOf numberAt timeKey fs (r, len t)]).
      { unfold timeOf. cbn [fst snd].
        destruct (Number_isFinite (numberAt r timeKey)); reflexivity. }
      rewrite Ht, IH. rewrite len_app.
      change (len [timeOf numberAt timeKey fs (r, len t)]) with 1.
      rewrite <- !app_assoc. reflexivity.
    + apply IH.
Qed.

End Rows.

End RowFacts.

Module FrameFacts.
Import JS Core FloatClasses FloatFacts EventListFacts MergeFacts ConstantFacts.
Import VideoFacts ShapeFacts FrameProps.

Lemma smoothFrom_length win y : forall s q,
  len (VideoEvents.smoothFrom win s q y) = len y.
Proof.
  induction y as [|v y IH]; intros s q; [reflexivity|].
  cbn [VideoEvents.smoothFrom].
  destruct (gt _ win); [destruct (q ++ [v])|]; rewrite !len_cons, IH; reflexivity.
Qed.

Lemma smoothMovingAvg_length y win :
  len (VideoEvents.smoothMovingAvg y win) = len y.
Proof.
  unfold VideoEvents.smoothMovingAvg. destruct (le win 1); [reflexivity|].
  apply smoothFrom_length.
Qed.

Lemma getb_mask (f : Z -> bool) n i :
  0 <= i < n -> getb (map f (range 0 n)) i = f i.
Proof.
  intros Hi. unfold getb. destruct (Z.ltb_spec i 0); [lia|].
  rewrite nth_indep with (d' := f 0)
    by (rewrite length_map; unfold range; rewrite length_map, length_seq; lia).
  rewrite map_nth. f_equal. unfold range.
  rewrite nth_indep with (d' := 0 + Z.of_nat 0)
    by (rewrite length_map, length_seq; lia).
  rewrite (map_nth (fun k => 0 + Z.of_nat k)). rewrite seq_nth by lia. lia.
Qed.

Lemma GapsKept_push gap events e :
  match rev events with
  | [] => True
  | last :: _ => ge (e - last)%float gap = true
  end ->
  GapsKept gap events -> GapsKept gap (events ++ [e]).
Proof.
  intros Hlast Hk. destruct events as [|a l] using rev_ind.
  - constructor.
  - clear IHl. rewrite rev_app_distr in Hlast. cbn in Hlast.
    rewrite <- app_assoc. cbn [app]. constructor; assumption.
Qed.

(** What the loop over the frames keeps in [events]. *)
Lemma pushEvent_inv times mask baselineSec minGapSec (P : float -> Prop) l :
  (forall i, In i l ->
             getb mask (i - 1) = true -> getb mask i = false ->
             lt (get times i) baselineSec = false -> P (get times i)) ->
  forall events,
    Forall P events -> GapsKept minGapSec events ->
    let r := fold_left (VideoEvents.pushEvent times mask baselineSec minGapSec)
                       l events in
    Forall P r /\ GapsKept minGapSec r.
Proof.
  induction l as [|i l IH]; intros HP events Hall Hk; cbn [fold_left]; [auto|].
  apply IH; [intros j Hj; apply HP; now right| |];
    unfold VideoEvents.pushEvent;
    destruct (getb mask (i - 1)) eqn:H1; cbn [andb]; auto;
    destruct (getb mask i) eqn:H2; cbn [negb]; auto;
    destruct (lt (get times i) baselineSec) eqn:Hb; auto;
    assert (Hp : P (get times i)) by (apply HP; [now left|auto..]).
  - destruct (rev events) as [|last rest] eqn:Hrev.
    + apply Forall_app. split; [exact Hall|]. constructor; auto.
    + destruct (ge _ minGapSec); [|exact Hall].
      apply Forall_app. split; [exact Hall|]. constructor; auto.
  - destruct (rev events) as [|last rest] eqn:Hrev.
    + apply GapsKept_push; [rewrite Hrev; exact I|exact Hk].
    + destruct (ge _ minGapSec) eqn:Hg; [|exact Hk].
      apply GapsKept_push; [rewrite Hrev; exact Hg|exact Hk].
Qed.

End FrameFacts.

Module EnvelopeFacts.
Import JS Core FloatClasses FloatFacts EventListFacts MergeFacts ConstantFacts.
Import ShapeFacts EnvelopeProps PipelineShapeFacts.

(** A square root is NaN or at least 0. *)
Lemma sqrt_NotNegative x : NotNegative (Math_sqrt x).
Proof.
  unfold NotNegative, Math_sqrt, ge.
  rewrite is_nan_spec, FloatAxioms.leb_spec, FloatAxioms.sqrt_spec.
  change (Prim2SF 0) with (S754_zero false).
  destruct (Prim2SF x) as [s|s| |s m e]; cbn.
  - right. reflexivity.
  - destruct s; [left|right]; reflexivity.
  - left. reflexivity.
  - destruct s; [left; reflexivity|].
    unfold SF64sqrt, SFsqrt.
    destruct (SFsqrt_core_binary _ _ _ _) as [[mz ez] lz].
    unfold binary_round_aux.
    destruct (shr_fexp _ _ _ _ _) as [mrs' e'].
    destruct (shr_fexp _ _ _ _ _) as [mrs'' e''].
    destruct (shr_m mrs'') as [|p|p]; [right; reflexivity| |left; reflexivity].
    destruct (e'' <=? _); right; reflexivity.
Qed.

Lemma movingRMS_NotNegative x win : Forall NotNegative (movingRMS x win).
Proof.
  unfold movingRMS. apply Forall_forall. intros v Hv.
  apply in_map_iff in Hv. destruct Hv as (i & <- & _). apply sqrt_NotNegative.
Qed.

Lemma rmsFrom_length w y : forall sumsq q,
  len (ManualEnvelope.rmsFrom w sumsq q y) = len y.
Proof.
  induction y as [|v y IH]; intros sumsq q; [reflexivity|].
  cbn [ManualEnvelope.rmsFrom].
  destruct (gt _ w); [destruct (q ++ [v])|]; rewrite !len_cons, IH; reflexivity.
Qed.

Lemma rmsFrom_NotNegative w y : forall sumsq q,
  Forall NotNegative (ManualEnvelope.rmsFrom w sumsq q y).
Proof.
  induction y as [|v y IH]; intros sumsq q; [constructor|].
  cbn [ManualEnvelope.rmsFrom].
  destruct (gt _ w); [destruct (q ++ [v])|];
    (constructor; [apply sqrt_NotNegative|apply IH]).
Qed.

Section WithHost.
Context {host : Host}.

Lemma len_filtfiltBiquad x c : len (ManualEnvelope.filtfiltBiquad x c) = len x.
Proof.
  unfold ManualEnvelope.filtfiltBiquad, ManualEnvelope.applyBiquad.
  rewrite len_rev, len_biquadFrom, len_rev, len_biquadFrom. reflexivity.
Qed.

Lemma len_bandpassRectifyRms x fs hp lp rmsMs :
  len (ManualEnvelope.bandpassRectifyRms x fs hp lp rmsMs) = len x.
Proof.
  unfold ManualEnvelope.bandpassRectifyRms. rewrite rmsFrom_length, len_map.
  destruct (_ && _); [rewrite len_filtfiltBiquad|];
    (destruct (_ && _); [rewrite len_filtfiltBiquad|]); reflexivity.
Qed.

End WithHost.

End EnvelopeFacts.

Module StrideFacts.
Import JS Core Events Manual FloatClasses FloatFacts EventListFacts MergeFacts.
Import ConstantFacts ManualDetectFacts ManualConstantFacts ShapeFacts ThinFacts.

(** The better of several lists, with what holds of each of them. *)
Lemma fold_pick_best {A} (score : A -> float) (P : A -> Prop) seqs :
  forall best sc b,
    (forall s, In s seqs -> forall x, lt (score s) x = true -> P s) ->
    (forall b0, best = Some b0 -> P b0) ->
    fst (fold_left
           (fun '(best, bestScore) s =>
              if lt (score s) bestScore then (Some s, score s)
              else (best, bestScore))
           seqs (best, sc)) = Some b ->
    P b.
Proof.
  induction seqs as [|s seqs IH]; intros best sc b Hall Hbest; cbn [fold_left].
  - cbn. intros H. apply Hbest, H.
  - destruct (lt (score s) sc) eqn:Hlt; intros H.
    + apply (IH (Some s) (score s) b); auto.
      * intros s' Hs'. apply Hall. now right.
      * intros b0 [= <-]. apply (Hall s (or_introl eq_refl) sc Hlt).
    + apply (IH best sc b); auto.
      intros s' Hs'. apply Hall. now right.
Qed.

Lemma scoreStride_short fs e plausible tol seq x :
  lt (scoreStride fs e plausible tol seq) x = true -> 3 <= len seq.
Proof.
  unfold scoreStride. destruct (Z.ltb_spec (len seq) 3); [|lia].
  rewrite lt_Infinity. discriminate.
Qed.

End StrideFacts.

Module TextFacts.
Import JS MergeFacts CsvText.

Lemma replaceCRLF_cons c s :
  replaceCRLF (c :: s)
  = match s with
    | d :: rest' =>
        if (c =? CR) && (d =? LF) then LF :: replaceCRLF rest'
        else c :: replaceCRLF s
    | [] => [c]
    end.
Proof. destruct s; reflexivity. Qed.

(** Replacing never makes a text longer. *)
Lemma replaceCRLF_length n : forall s,
  (length s <= n)%nat -> len (replaceCRLF s) <= len s.
Proof.
  induction n as [|n IH]; intros s Hn.
  - destruct s; [cbn; lia|cbn in Hn; lia].
  - destruct s as [|c s]; [cbn; lia|]. rewrite replaceCRLF_cons.
    destruct s as [|d rest]; [lia|].
    cbn [length] in Hn.
    destruct ((c =? CR) && (d =? LF)).
    + rewrite !len_cons. specialize (IH rest ltac:(lia)). lia.
    + rewrite !(len_cons c). specialize (IH (d :: rest) ltac:(cbn; lia)). lia.
Qed.

Lemma replaceCR_length s : len (replaceCR s) = len s.
Proof. apply len_map. Qed.

Lemma replaceCR_clean s : ~ In CR (replaceCR s).
Proof.
  unfold replaceCR. intros H. apply in_map_iff in H.
  destruct H as (c & Hc & _).
  destruct (Z.eqb_spec c CR); [discriminate|congruence].
Qed.

(** A text without a carriage return is left as it is. *)
Lemma replaceCRLF_same s : ~ In CR s -> replaceCRLF s = s.
Proof.
  induction s as [|c s IH]; intros H; [reflexivity|].
  rewrite replaceCRLF_cons. destruct s as [|d rest]; [reflexivity|].
  destruct (Z.eqb_spec c CR) as [->|_]; [exfalso; apply H; now left|].
  cbn [andb]. f_equal. apply IH. intros H'. apply H. now right.
Qed.

Lemma replaceCR_same s : ~ In CR s -> replaceCR s = s.
Proof.
  induction s as [|c s IH]; intros H; [reflexivity|].
  unfold replaceCR. cbn [map]. fold (replaceCR s).
  destruct (Z.eqb_spec c CR) as [->|_]; [exfalso; apply H; now left|].
  f_equal. apply IH. intros H'. apply H. now right.
Qed.

Lemma dropBOM_length s : len (dropBOM s) <= len s.
Proof.
  destruct s as [|c s]; [cbn; lia|]. cbn [dropBOM].
  destruct (c =? BOM); rewrite ?len_cons; lia.
Qed.

Lemma count_pos c line : 0 < count c line -> In c line.
Proof.
  unfold count. intros H.
  destruct (filter (fun d => d =? c) line) as [|d l] eqn:Hf; [cbn in H; lia|].
  assert (Hin : In d (filter (fun d => d =? c) line)) by (rewrite Hf; now left).
  apply filter_In in Hin. destruct Hin as [Hin Hd].
  apply Z.eqb_eq in Hd. subst d. exact Hin.
Qed.

Lemma count_nonneg c line : 0 <= count c line.
Proof. apply len_nonneg. Qed.

End TextFacts.


(** * Further properties of the code *)

Module Further.
Import JS Core Stats EventLists DetectorProps ShiftSearch FloatClasses.
Import Events Examples BurstProps SearchProps ResultProps.
Import EventListFacts FloatFacts MergeFacts DetectFacts.
Import PeakBasedFacts ConstantFacts VideoFacts.
Import GapFacts SanitizeFacts BoundsFacts MoreFacts.
Import ManualDetectFacts.
Import BurstFacts PeakFacts ShapeFacts KeepFacts ThinFacts BestShiftFacts.
Import PipelineShapeFacts.
Import FirstFacts.
Import OriginProps GroupProps SlopeProps OriginFacts GroupFacts SlopeFacts MoreExamples.
Import BisectFacts.
Import ZeroProps CompareFacts ZeroFacts.
Import CycleFacts.
Import RowProps RowFacts.
Import FrameProps FrameFacts.
Import EnvelopeProps EnvelopeFacts.
Import StrideFacts.
Import TextFacts.
Import ReconcilerFacts.

(** X4: the segments [risingEdges] returns are the maximal runs of set
    samples of the mask, each as its first position and the position
    after its last, a run touching either end of the mask included; they
    come in ascending order, each ending before the next begins. *)
Theorem rising_edges_are_the_maximal_runs mask :
  (forall s e, In (s, e) (risingEdges mask) <-> Run mask s e)
  /\ Apart (risingEdges mask).
Proof.
  rewrite risingEdges_filters.
  assert (Hn : 0 <= len mask) by (unfold len; lia).
  destruct (edgesFrom_spec mask (Z.to_nat (len mask + 1)) 0 None)
    as (Hin & Hap & _); [lia|lia| |].
  { cbn [Pending]. apply getb_neg. lia. }
  unfold edgesFrom in Hin, Hap. split; [|exact Hap].
  intros s e. rewrite Hin. unfold From. split; [tauto|].
  intros Hrun. split; [exact Hrun|]. left. destruct Hrun as (? & _). lia.
Qed.

(** X5: the peaks [pickPeaksGreedy] chooses are local maxima above the
    threshold, in ascending order, [minDist] apart or more, and
    [maxCount] at most when a positive count is given; without a count
    every local maximum above the threshold is chosen or lies closer
    than [minDist] to a chosen one. *)
Theorem greedy_peaks_are_spaced_local_maxima y minDist thr maxCount :
  Spaced 0 (pickPeaksGreedy y minDist thr maxCount)
  /\ Spaced minDist (pickPeaksGreedy y minDist thr maxCount)
  /\ (forall i, In i (pickPeaksGreedy y minDist thr maxCount) ->
        1 <= i < len y - 1
        /\ gt (get y i) (get y (i - 1)) = true
        /\ ge (get y i) (get y (i + 1)) = true
        /\ gt (get y i) thr = true)
  /\ (forall m, maxCount = Some m -> 0 < m ->
        len (pickPeaksGreedy y minDist thr maxCount) <= m)
  /\ (maxCount = None ->
      forall p, In p (localMaxima y) -> gt (get y p) thr = true ->
        exists c, In c (pickPeaksGreedy y minDist thr maxCount)
                  /\ (c = p \/ Z.abs (p - c) < minDist)).
Proof.
  unfold pickPeaksGreedy.
  set (peaks := sort _ (filter _ (localMaxima y))).
  assert (Hpeaks : forall p, In p peaks
             <-> In p (localMaxima y) /\ gt (get y p) thr = true).
  { intros p. subst peaks. rewrite sort_In, filter_In. tauto. }
  destruct (greedy_inv minDist maxCount (fun p => In p peaks) peaks [])
    as [Hin Hfar]; [auto|intros c []|exact I|].
  assert (Hs0 : Spaced 0 (sort afterZ (greedy minDist maxCount peaks [])))
    by apply sortZ_Spaced.
  split; [exact Hs0|]. split.
  { apply Far_Spaced; [|exact Hs0]. apply Far_sort. exact Hfar. }
  split.
  { intros i Hi. apply sort_In in Hi. apply Hin in Hi. apply Hpeaks in Hi.
    destruct Hi as [Hl Hg]. apply localMaxima_spec in Hl. tauto. }
  split.
  { intros m -> Hm. unfold len. rewrite sort_length.
    apply (greedy_count minDist m peaks []); [exact Hm|exact Hm]. }
  intros -> p Hp Hg.
  destruct (greedy_covers minDist peaks [] p) as (c & Hc & Hclose).
  { apply Hpeaks. auto. }
  exists c. split; [|exact Hclose]. apply sort_In. exact Hc.
Qed.

(** X6: [refineToOnset] walks back from a peak over the samples above
    [thrOff]: what it returns is not after the peak and not before the
    start of the envelope, every sample after it up to the peak is above
    [thrOff], and it is the start of the envelope or a sample not above
    [thrOff].  A peak at position 0 or before is returned as it is. *)
Theorem onset_is_the_first_sample_not_above y peakIdx thrOff :
  (peakIdx <= 0 -> refineToOnset y peakIdx thrOff = peakIdx)
  /\ (0 < peakIdx ->
      0 <= refineToOnset y peakIdx thrOff <= peakIdx
      /\ (forall j, refineToOnset y peakIdx thrOff < j <= peakIdx ->
                    gt (get y j) thrOff = true)
      /\ (refineToOnset y peakIdx thrOff = 0
          \/ gt (get y (refineToOnset y peakIdx thrOff)) thrOff = false)).
Proof.
  unfold refineToOnset.
  destruct (Z.ltb_spec 0 peakIdx) as [Hp|Hp];
    (split; [intros; try lia; reflexivity|]); [|lia].
  intros _.
  destruct (refineFrom_spec y thrOff (Z.to_nat peakIdx)) as (Hle & Hrun & Hstop).
  split; [lia|]. split.
  - intros j Hj. specialize (Hrun (Z.to_nat j) ltac:(lia)).
    rewrite Z2Nat.id in Hrun by lia. exact Hrun.
  - destruct Hstop as [->|Hstop]; [left; reflexivity|right; exact Hstop].
Qed.

(** X7: a result of [computePipeline], of each of the four revisions
    that have one, has the shape the page relies on. *)
Theorem pipeline_results_are_well_shaped (host : Host) :
  (forall tt x fs p expected res,
      0 <= VideoAssist.nPoints p ->
      VideoAssist.computePipeline tt x fs p expected = Ok res ->
      t res = tt /\ Shaped (len x) (VideoAssist.nPoints p) res
      /\ (3 <= samples fs (VideoAssist.p_minGapMs p) -> FullyCut res))
  /\ (forall tt x fs p expected an,
         0 <= Robust.nPoints p ->
         Robust.computePipeline tt x fs p expected = Ok an ->
         t (Robust.result an) = tt
         /\ Shaped (len x) (Robust.nPoints p) (Robust.result an)
         /\ (3 <= samples fs (Robust.p_minGapMs p) ->
             FullyCut (Robust.result an)))
  /\ (forall tt x fs p expected res,
         0 <= OnsetRun.nPoints p ->
         OnsetRun.computePipeline tt x fs p expected = Ok res ->
         t res = tt /\ Shaped (len x) (OnsetRun.nPoints p) res
         /\ (3 <= samples fs (OnsetRun.p_minGapMs p) -> FullyCut res))
  /\ (forall tt x fs p expected res,
         0 <= PeakBased.nPoints p ->
         PeakBased.computePipeline tt x fs p expected = Ok res ->
         t res = tt /\ Shaped (len x) (PeakBased.nPoints p) res
         /\ (3 <= PeakBased.samples fs (PeakBased.p_minGapMs p) ->
             FullyCut res)).
Proof.
  split; [|split; [|split]].
  - intros tt x fs p expected res Hm. unfold VideoAssist.computePipeline.
    destruct (VideoAssist.detectHS _ fs _) as [r|e] eqn:Hd; [|discriminate].
    apply VideoAssist_detectHS_Good in Hd. destruct Hd as (H2 & Hsp & _).
    destruct (normalizeCycles _ _ _) as [g cyc] eqn:Hn.
    destruct (meanAndSD cyc) as [mu sg] eqn:Hms.
    intros [= <-]. split; [reflexivity|].
    destruct (cut_shape _ _ _ _ _ _ _ tt (det_k r) (det_thr r) Hm H2 Hn Hms)
      as [Hshape Hfull].
    rewrite len_VideoAssist_envelope in Hshape.
    split; [exact Hshape|]. intros Hgap. eapply Hfull; [exact Hgap|exact Hsp].
  - intros tt x fs p expected an Hm. unfold Robust.computePipeline.
    destruct (Robust.precheck x fs p) as [| | | |y ratio] eqn:Hp;
      try discriminate.
    apply precheck_Passed_length in Hp.
    destruct (Robust.detectHS _ fs _) as [r|e] eqn:Hd; [|discriminate].
    apply Robust_detectHS_Good in Hd. destruct Hd as (H2 & Hsp & _).
    destruct (normalizeCycles _ _ _) as [g cyc] eqn:Hn.
    destruct (meanAndSD cyc) as [mu sg] eqn:Hms.
    destruct (Math_max_spread _) as [mx|e']; [|discriminate].
    intros [= <-]. cbn [Robust.result]. split; [reflexivity|].
    destruct (cut_shape _ _ _ _ _ _ _ tt (det_k r) (det_thr r) Hm H2 Hn Hms)
      as [Hshape Hfull].
    rewrite len_Robust_envelopeOf, Hp in Hshape.
    split; [exact Hshape|]. intros Hgap. eapply Hfull; [exact Hgap|exact Hsp].
  - intros tt x fs p expected res Hm. unfold OnsetRun.computePipeline.
    destruct (Onset.detectHS _ fs _) as [r|e] eqn:Hd; [|discriminate].
    apply Onset_detectHS_inv in Hd. destruct Hd as ((H2 & Hsp & _) & _).
    destruct (normalizeCycles _ _ _) as [g cyc] eqn:Hn.
    destruct (meanAndSD cyc) as [mu sg] eqn:Hms.
    intros [= <-]. split; [reflexivity|].
    destruct (cut_shape _ _ _ _ _ _ _ tt (det_k r) (det_thr r) Hm H2 Hn Hms)
      as [Hshape Hfull].
    rewrite len_OnsetRun_envelope in Hshape.
    split; [exact Hshape|]. intros Hgap. eapply Hfull; [exact Hgap|exact Hsp].
  - intros tt x fs p expected res Hm. unfold PeakBased.computePipeline.
    destruct (PeakBased.detectHS _ fs _) as [r|e] eqn:Hd; [|discriminate].
    apply detectHS_inv in Hd. destruct Hd as ((H2 & Hsp & _) & _).
    destruct (normalizeCycles _ _ _) as [g cyc] eqn:Hn.
    destruct (meanAndSD cyc) as [mu sg] eqn:Hms.
    intros [= <-]. split; [reflexivity|].
    destruct (cut_shape _ _ _ _ _ _ _ tt (det_k r) (det_thr r) Hm H2 Hn Hms)
      as [Hshape Hfull].
    rewrite len_PeakBased_envelope in Hshape.
    split; [exact Hshape|]. intros Hgap.
    apply (Hfull (PeakBased.samples fs (PeakBased.p_minGapMs p)) Hgap).
    unfold PeakBased.minGapOf in Hsp. cbn [PeakBased.minGapMs] in Hsp.
    rewrite Z.max_r in Hsp by lia. exact Hsp.
Qed.

(** The run on [x1], of 20 samples, with cycles of five points and
    events five samples apart: two cycles for three events. *)
Lemma pipeline_shape_witness :
  exists res,
    VideoAssist.computePipeline (host := noTrig) [] x1 10 vp0 None = Ok res
    /\ Shaped 20 5 res /\ FullyCut res /\ len (hs res) = 3.
Proof.
  destruct (VideoAssist.computePipeline (host := noTrig) [] x1 10 vp0 None)
    as [res|e] eqn:H.
  - exists res. split; [reflexivity|].
    destruct (proj1 (pipeline_results_are_well_shaped noTrig)
                [] x1 10%float vp0 None res ltac:(vm_compute; discriminate) H)
      as (_ & Hs & Hf).
    split; [exact Hs|]. split; [apply Hf; vm_compute; discriminate|].
    vm_compute in H. injection H as <-. reflexivity.
  - vm_compute in H. discriminate.
Defined.

(** X8: [sanitizeArray] changes no finite sample: at every position
    where the recording holds a finite number the sanitized recording
    holds the same number; and when that position is the first such,
    every sample before it takes its value. *)
Theorem sanitizing_keeps_the_finite_samples x i :
  Number_isFinite (get x i) = true ->
  get (Robust.sanitizeArray x) i = get x i
  /\ len (Robust.sanitizeArray x) = len x
  /\ ((forall j, 0 <= j < i -> Number_isFinite (get x j) = false) ->
      forall j, 0 <= j < i -> get (Robust.sanitizeArray x) j = get x i).
Proof.
  intros Hfin. split; [apply sanitizeArray_keeps; exact Hfin|].
  split; [apply sanitizeArray_length|].
  intros Hfirst j Hj.
  destruct (first_finite_at x i Hfin Hfirst) as [Hf Hl].
  apply (sanitizeArray_leading x _ Hf). lia.
Qed.

(** In the recording [nan, nan, 2, nan, 4] the samples 2 and 4 stay,
    and the two samples before the first take the value 2. *)
Lemma sanitizing_witness :
  get (Robust.sanitizeArray [nan; nan; 2; nan; 4]%float) 2 = 2%float
  /\ get (Robust.sanitizeArray [nan; nan; 2; nan; 4]%float) 0 = 2%float.
Proof.
  destruct (sanitizing_keeps_the_finite_samples [nan; nan; 2; nan; 4]%float 2
              ltac:(reflexivity)) as (Hk & _ & Hlead).
  split; [exact Hk|].
  apply Hlead; [|lia].
  intros j Hj. assert (j = 0 \/ j = 1) as [-> | ->] by lia; reflexivity.
Defined.

(** X9: [chooseEveryOtherIfDouble], of the three revisions that have it,
    returns the events given when they are fewer than six, and otherwise
    the events given, those at the even positions or those at the odd
    positions: never fewer than half of them, rounded down. *)
Theorem thinning_keeps_half_of_the_events :
  (forall hs fs expected,
      let r := VideoAssist.chooseEveryOtherIfDouble hs fs expected in
      (len hs < 6 -> r = hs)
      /\ (r = hs \/ r = everyNth 2 0 hs \/ r = everyNth 2 1 hs)
      /\ len hs <= 2 * len r + 1)
  /\ (forall hs fs expected,
         let r := Robust.chooseEveryOtherIfDouble hs fs expected in
         (len hs < 6 -> r = hs)
         /\ (r = hs \/ r = everyNth 2 0 hs \/ r = everyNth 2 1 hs)
         /\ len hs <= 2 * len r + 1)
  /\ (forall fs o hs,
         let r := PeakBased.chooseEveryOtherIfDouble fs o hs in
         (len hs < 6 -> r = hs)
         /\ (r = hs \/ r = everyNth 2 0 hs \/ r = everyNth 2 1 hs)
         /\ len hs <= 2 * len r + 1).
Proof.
  assert (Hhalf : forall (hs r : list Z),
             r = hs \/ (6 <= len hs /\ (r = everyNth 2 0 hs \/ r = everyNth 2 1 hs)) ->
             (len hs < 6 -> r = hs)
             /\ (r = hs \/ r = everyNth 2 0 hs \/ r = everyNth 2 1 hs)
             /\ len hs <= 2 * len r + 1).
  { intros hs r Hc.
    destruct (everyNth_halves hs) as [He Ho].
    pose proof (Z.mod_pos_bound (len hs) 2 ltac:(lia)) as Hb.
    pose proof (len_nonneg hs) as H0.
    destruct Hc as [->|[H6 [-> | ->]]].
    - split; [auto|]. split; [auto|lia].
    - split; [lia|]. split; [auto|lia].
    - split; [lia|]. split; [auto|lia]. }
  split; [|split].
  - intros hs fs expected. apply Hhalf. apply chooseEveryOther_cases.
  - intros hs fs expected. apply Hhalf. apply chooseEveryOther_cases.
  - intros fs o hs. apply Hhalf. apply PeakBased_chooseEveryOther_cases.
Qed.

(** X10: when every event given to [keepHsMatchedToVideo] lies inside
    the time axis, the shift it selects is one of the shifts tried, the
    score reported is the number of events kept, and no shift tried
    keeps more events. *)
Theorem selected_shift_keeps_the_most_events
        fuel hsIdx tSec videoEvents syncRange tolMs r :
  VideoAssist.keepHsMatchedToVideo fuel hsIdx tSec videoEvents syncRange tolMs
  = Some r ->
  Forall (fun i => 0 <= i < len tSec) hsIdx ->
  hsIdx <> [] -> videoEvents <> [] ->
  le (- syncRange) (syncRange + 1e-9) = true ->
  let tried :=
    shiftsTried fuel (- syncRange)%float (syncRange + 1e-9)%float 0.01 in
  In (VideoAssist.kept_shift r) tried
  /\ VideoAssist.kept_score r = VideoAssist.matched r
  /\ forall s, In s tried ->
       len (VideoAssist.keepAt s (tolMs / 1000) hsIdx (map (get tSec) hsIdx)
                               videoEvents)
       <= VideoAssist.matched r.
Proof. apply search_result. Qed.

(** Five EMG events and five video events 0.2 s later, a search over
    one second: the shift selected keeps all five. *)
Lemma selected_shift_witness :
  exists r,
    VideoAssist.keepHsMatchedToVideo 1000 hsEmg tSec videoEvents 1 50 = Some r
    /\ VideoAssist.kept_score r = VideoAssist.matched r
    /\ VideoAssist.matched r = 5.
Proof.
  destruct (VideoAssist.keepHsMatchedToVideo 1000 hsEmg tSec videoEvents 1 50)
    as [r|] eqn:H.
  - exists r. split; [reflexivity|].
    destruct (selected_shift_keeps_the_most_events 1000 hsEmg tSec videoEvents
                1%float 50%float r H
                ltac:(repeat constructor; vm_compute; congruence)
                ltac:(discriminate) ltac:(discriminate)
                ltac:(vm_compute; reflexivity)) as (_ & Hs & _).
    split; [exact Hs|]. vm_compute in H. injection H as <-. reflexivity.
  - vm_compute in H. discriminate.
Defined.

(** X11: where the events of the three onset detectors come from.  In
    a result of the sweep every event is the start of a maximal run of
    [minBurst] samples or more above the threshold of the result, moved
    by the offset; in a result of the peak fallback every event is the
    onset refined, with the 60th percentile of the envelope, from a
    local maximum above the threshold of the result, moved by the
    offset, or, for the direct peaks of the revision with video
    assistance, the local maximum itself moved by the offset.  The onset
    revision has the sweep only, the hardened revision no direct
    peaks. *)
Theorem onset_events_are_burst_starts :
  (forall env fs o r,
      VideoAssist.detectHS env fs o = Ok r ->
      Origin env (samples fs (minBurstMs o)) (samples fs (offsetMs o))
             (percentile env 60) r)
  /\ (forall env fs o r,
         Robust.detectHS env fs o = Ok r ->
         Origin env (samples fs (minBurstMs o)) (samples fs (offsetMs o))
                (percentile env 60) r
         /\ det_k r <> KPeakDirect)
  /\ (forall env fs o r,
         Onset.detectHS env fs o = Ok r ->
         (exists k, det_k r = KNum k)
         /\ Forall (BurstOnset env (det_thr r) (samples fs (minBurstMs o))
                               (samples fs (offsetMs o)))
                   (det_hs r)).
Proof.
  split; [|split].
  - intros env fs o r H. apply VideoAssist_detectHS_origin. exact H.
  - intros env fs o r H. apply Robust_detectHS_origin. exact H.
  - intros env fs o r H. apply Onset_detectHS_origin in H.
    destruct H as [[k Hk] Ho]. split; [eauto|].
    unfold Origin in Ho. rewrite Hk in Ho. exact Ho.
Qed.

(** On [env1] the three events 4, 9 and 14 are the starts of the three
    bursts. *)
Lemma onset_events_witness :
  exists r, VideoAssist.detectHS env1 10 o1 = Ok r
            /\ det_hs r = [4; 9; 14]
            /\ Forall (BurstOnset env1 (det_thr r) 0 0) (det_hs r).
Proof.
  destruct (VideoAssist.detectHS env1 10 o1) as [r|e] eqn:H.
  - exists r. split; [reflexivity|].
    pose proof (proj1 onset_events_are_burst_starts env1 10%float o1 r H) as Ho.
    vm_compute in H. injection H as <-.
    split; [reflexivity|]. exact Ho.
  - vm_compute in H. discriminate.
Defined.

(** X12: [groupConsecutive] of the candidates at or above a threshold
    gives the maximal runs of such samples, each as its first and its
    last position; and every event of a detection of the revision with
    manual events is the start of such a run of [minLen] samples or
    more, moved by the offset. *)
Theorem manual_events_are_group_starts :
  (forall env thr s e,
      In (s, e) (Manual.groupConsecutive (Manual.pickCandidatesAbove env thr))
      <-> RunAtOrAbove env thr s e)
  /\ (forall env fs o r,
         Manual.detectHS env fs o = Ok r ->
         Forall (GroupOnset env (det_thr r) (Manual.minLenOf fs o)
                            (Manual.samples fs (Manual.offsetMs o)))
                (det_hs r)).
Proof.
  split.
  - intros env thr s e. apply groups_are_runs.
  - intros env fs o r H. apply Manual_detectHS_origin. exact H.
Qed.

(** On [env1] the events 4, 9 and 14 of the revision with manual events
    are the starts of the three groups. *)
Lemma manual_events_witness :
  exists r, Manual.detectHS env1 10 mo1 = Ok r
            /\ det_hs r = [4; 9; 14]
            /\ Forall (GroupOnset env1 (det_thr r) 1 0) (det_hs r).
Proof.
  destruct (Manual.detectHS env1 10 mo1) as [r|e] eqn:H.
  - exists r. split; [reflexivity|].
    pose proof (proj2 manual_events_are_group_starts env1 10%float mo1 r H)
      as Ho.
    vm_compute in H. injection H as <-.
    split; [reflexivity|]. exact Ho.
  - vm_compute in H. discriminate.
Defined.

(** X13: every event of a detection of the peak-based revision is,
    moved by the offset, the sample of steepest rise in the window
    around the peak of a burst of [minBurst] samples or more above the
    threshold of the result: the peak is a sample of the burst that no
    sample of the burst is above, the window reaches from [back] samples
    before the peak, and not before the second sample of the burst, to
    [fwd] samples after it, and not beyond the sample before the last;
    when that window is empty the event is its start. *)
Theorem peak_events_are_steepest_rises env fs o r :
  PeakBased.detectHS env fs o = Ok r ->
  Forall (SlopeOnset env (det_thr r) (PeakBased.minBurstOf fs o)
                     (PeakBased.samples fs (PeakBased.peakBackMs o))
                     (PeakBased.samples fs (PeakBased.peakForwardMs o))
                     (PeakBased.samples fs (PeakBased.offsetMs o)))
         (det_hs r).
Proof. apply PeakBased_detectHS_origin. Qed.

(** On [env1] the peak-based detector answers with the events 5, 10 and
    15, each the steepest rise of its burst. *)
Lemma peak_events_witness :
  exists r, PeakBased.detectHS env1 10 po1 = Ok r
            /\ det_hs r = [5; 10; 15]
            /\ Forall (SlopeOnset env1 (det_thr r) 1 1 1 0) (det_hs r).
Proof.
  destruct (PeakBased.detectHS env1 10 po1) as [r|e] eqn:H.
  - exists r. split; [reflexivity|].
    pose proof (peak_events_are_steepest_rises env1 10%float po1 r H) as Ho.
    vm_compute in H. injection H as <-.
    split; [reflexivity|]. exact Ho.
  - vm_compute in H. discriminate.
Defined.

(** X14: [secToIndex] on a time axis of at most 2^30 stamps returns:
    NaN exactly when [sec], the first stamp or the last stamp is not a
    finite number or the axis is empty; the first position when [sec]
    is at or before the first stamp; the last position when it is at or
    after the last; and otherwise one of two neighbouring positions, the
    stamp of the first below [sec] and the stamp of the second not,
    the first of the two exactly when its stamp is at least as close.
    The search ends within as many turns as the axis has stamps. *)
Theorem time_stamp_search_brackets fuel sec t :
  len t <= 2 ^ 30 -> (length t <= fuel)%nat ->
  exists r,
    ManualTools.secToIndex fuel sec t = Some r
    /\ match r with
       | ManualTools.NotAnIndex =>
           Number_isFinite sec = false \/ t = []
           \/ Number_isFinite (get t 0) = false
           \/ Number_isFinite (get t (len t - 1)) = false
       | ManualTools.At i =>
           Number_isFinite sec = true
           /\ Number_isFinite (get t 0) = true
           /\ Number_isFinite (get t (len t - 1)) = true
           /\ 0 <= i < len t
           /\ (le sec (get t 0) = true /\ i = 0
               \/ ge sec (get t (len t - 1)) = true /\ i = len t - 1
               \/ exists lo,
                    0 <= lo /\ lo + 1 < len t
                    /\ lt (get t lo) sec = true
                    /\ lt (get t (lo + 1)) sec = false
                    /\ i = (if le (Math_abs (get t lo - sec))
                                  (Math_abs (get t (lo + 1) - sec))
                            then lo else lo + 1))
       end.
Proof.
  intros Hlen Hfuel. unfold ManualTools.secToIndex.
  destruct (Number_isFinite sec) eqn:Hsec; cbn [negb orb].
  2:{ exists ManualTools.NotAnIndex. auto. }
  destruct (Z.eqb_spec (len t) 0) as [H0|H0].
  { exists ManualTools.NotAnIndex. split; [reflexivity|].
    right. left. apply len_zero. exact H0. }
  pose proof (len_nonneg t) as Hn.
  destruct (Number_isFinite (get t 0)) eqn:Ht0; cbn [negb orb].
  2:{ exists ManualTools.NotAnIndex. auto. }
  destruct (Number_isFinite (get t (len t - 1))) eqn:HtN; cbn [negb].
  2:{ exists ManualTools.NotAnIndex. auto. }
  destruct (le sec (get t 0)) eqn:Hle0.
  { exists (ManualTools.At 0). split; [reflexivity|].
    split; [reflexivity|]. split; [reflexivity|]. split; [reflexivity|].
    split; [lia|]. auto. }
  destruct (ge sec (get t (len t - 1))) eqn:HgeN.
  { exists (ManualTools.At (len t - 1)). split; [reflexivity|].
    split; [reflexivity|]. split; [reflexivity|]. split; [reflexivity|].
    split; [lia|]. auto. }
  assert (Hlo : lt (get t 0) sec = true) by (apply not_le_lt; assumption).
  assert (Hhi : lt (get t (len t - 1)) sec = false).
  { destruct (lt (get t (len t - 1)) sec) eqn:E; [|reflexivity].
    apply lt_le in E. unfold ge in HgeN. unfold le in E. congruence. }
  assert (H2 : 0 < len t - 1).
  { destruct (Z.eq_dec (len t) 1) as [E|E]; [|lia].
    rewrite E in Hhi. change (1 - 1) with 0 in Hhi. congruence. }
  destruct (bisect_spec t sec fuel 0 (len t - 1)) as (lo & Hr & Hb & Hl & Hh);
    [lia|lia|unfold len in *; lia|exact Hlo|exact Hhi|].
  rewrite Hr.
  eexists. split; [reflexivity|].
  split; [reflexivity|]. split; [reflexivity|]. split; [reflexivity|]. split.
  - destruct (le (Math_abs _) _); lia.
  - right. right. exists lo. split; [lia|]. split; [lia|]. auto.
Qed.

(** On the axis 0, 0.1, ..., 5.9 the stamp next to 1.23 is at
    position 12. *)
Lemma time_stamp_search_witness :
  ManualTools.secToIndex 60 1.23 Examples.tSec = Some (ManualTools.At 12).
Proof.
  destruct (time_stamp_search_brackets 60 1.23%float Examples.tSec
              ltac:(vm_compute; discriminate) ltac:(vm_compute; lia))
    as (r & Hr & _).
  rewrite Hr. vm_compute in Hr. injection Hr as <-. reflexivity.
Defined.

(** X15: [compareHS] counts consistently: the matched events and the
    missed ones are the manual events, the matched and the extra ones
    the automatic events, no count is negative, every difference
    recorded is within the tolerance, and with no match the mean error
    and the bias are NaN.  Comparing a list of events with itself
    matches every event, for every tolerance that is a number; the
    mean error and the bias are then 0, unless the list is empty or the
    sampling rate is 0 or NaN. *)
Theorem comparison_counts_are_consistent :
  (forall hsAuto hsManual fs tolMs,
      let c := ManualTools.compareHS hsAuto hsManual fs tolMs in
      0 <= ManualTools.cmp_matched c /\ 0 <= ManualTools.cmp_miss c
      /\ 0 <= ManualTools.cmp_extra c
      /\ ManualTools.cmp_matched c + ManualTools.cmp_miss c = len hsManual
      /\ ManualTools.cmp_matched c + ManualTools.cmp_extra c = len hsAuto
      /\ (ManualTools.cmp_matched c = 0 ->
          is_nan (ManualTools.cmp_mae c) = true
          /\ is_nan (ManualTools.cmp_bias c) = true)
      /\ Forall (fun d => le (Math_abs (Z2float d))
                             (ManualTools.tolerance fs tolMs) = true)
                (ManualTools.pairDiffs (ManualTools.tolerance fs tolMs)
                                       (sort afterZ hsAuto)
                                       (sort afterZ hsManual)))
  /\ (forall hs fs tolMs,
         is_nan (ManualTools.tolerance fs tolMs) = false ->
         let c := ManualTools.compareHS hs hs fs tolMs in
         ManualTools.cmp_matched c = len hs /\ ManualTools.cmp_miss c = 0
         /\ ManualTools.cmp_extra c = 0
         /\ (hs <> [] -> len hs < 2 ^ 53 ->
             is_nan fs = false -> is_zero fs = false ->
             ManualTools.cmp_mae c = 0%float /\ ManualTools.cmp_bias c = 0%float)).
Proof.
  split.
  - intros hsAuto hsManual fs tolMs. cbn zeta. unfold ManualTools.compareHS.
    cbn [ManualTools.cmp_matched ManualTools.cmp_miss ManualTools.cmp_extra
         ManualTools.cmp_mae ManualTools.cmp_bias].
    set (tol := ManualTools.tolerance fs tolMs).
    set (a := sort afterZ hsAuto). set (m := sort afterZ hsManual).
    destruct (pairDiffs_length tol a m) as [Ha Hm].
    pose proof (len_nonneg (ManualTools.pairDiffs tol a m)) as H0.
    assert (Hla : len a = len hsAuto) by (unfold len, a; now rewrite sort_length).
    assert (Hlm : len m = len hsManual) by (unfold len, m; now rewrite sort_length).
    repeat (split; [lia|]). split.
    + intros Hz. apply len_zero in Hz. rewrite Hz. split; reflexivity.
    + apply Forall_forall. intros d Hd. eapply pairDiffs_within; eauto.
  - intros hs fs tolMs Htol. cbn zeta. unfold ManualTools.compareHS.
    cbn [ManualTools.cmp_matched ManualTools.cmp_miss ManualTools.cmp_extra
         ManualTools.cmp_mae ManualTools.cmp_bias].
    rewrite pairDiffs_self by (apply tolerance_covers_zero; exact Htol).
    rewrite !map_map, !len_map.
    assert (Hl : len (sort afterZ hs) = len hs)
      by (unfold len; now rewrite sort_length).
    rewrite Hl. split; [reflexivity|]. split; [lia|]. split; [lia|].
    intros Hne Hlen Hn Hz.
    assert (Hq : IsZero (0 / fs)) by (apply zero_div; assumption).
    assert (Hz1000 : IsZero ((0 / fs) * 1000)) by (apply zero_mul_1000; exact Hq).
    assert (Hs : sort afterZ hs <> []).
    { intros E. rewrite E in Hl. change (len (@nil Z)) with 0 in Hl.
      symmetry in Hl. apply len_zero in Hl. contradiction. }
    split; apply average_zeros;
      try (intros E; apply map_eq_nil in E; contradiction);
      try (rewrite len_map, Hl; exact Hlen);
      apply Forall_forall; intros v Hv; apply in_map_iff in Hv;
      destruct Hv as (d & <- & _); exact Hz1000.
Qed.

(** Three events compared with themselves at 10 Hz: three matches,
    nothing missed, nothing extra, no error. *)
Lemma comparison_witness :
  let c := ManualTools.compareHS [14; 4; 9] [14; 4; 9] 10 80 in
  ManualTools.cmp_matched c = 3 /\ ManualTools.cmp_miss c = 0 /\ ManualTools.cmp_extra c = 0
  /\ ManualTools.cmp_mae c = 0%float /\ ManualTools.cmp_bias c = 0%float.
Proof.
  destruct (proj2 comparison_counts_are_consistent [14; 4; 9] 10%float 80%float
              ltac:(vm_compute; reflexivity)) as (Hm & Hmiss & He & Hz).
  destruct (Hz ltac:(discriminate) ltac:(vm_compute; reflexivity)
               ltac:(reflexivity) ltac:(reflexivity)) as [Hmae Hbias].
  cbn zeta. repeat split; assumption.
Defined.

(** X16: what [applyHS] of the revision with manual events returns.
    [nPoints] is any number; when it is NaN or not above an integer
    [n] that an array can have as its length, the grid loop ends within
    [n] turns, at the first integer [p] that is not below [nPoints],
    and so does [applyHS]: with a RangeError for an envelope of more
    samples than the engine accepts arguments, and otherwise with a
    result.  In it the percentages have
    the length of the envelope and the events are returned as given;
    every cycle has the grid of the [p] points [(k / (nPoints - 1)) *
    100] and [p] values; there are at most as many cycles as pairs of
    consecutive events, so none for fewer than two events; and the mean
    and the deviation are missing exactly when there is no cycle, and
    have [p] points otherwise. *)
Theorem manual_cycles_are_well_shaped
        (host : Host) fuel n t env hsIdx nPoints :
  0 <= n < 2 ^ 32 ->
  lt (Z2float n) nPoints = false -> (Z.to_nat n < fuel)%nat ->
  (maxArguments < len env ->
   ManualTools.applyHS fuel t env hsIdx nPoints = Some (Throw RangeError))
  /\ (len env <= maxArguments ->
      exists r p,
        ManualTools.applyHS fuel t env hsIdx nPoints = Some (Ok r)
        /\ 0 <= p <= n
        /\ lt (Z2float p) nPoints = false
        /\ (forall k, 0 <= k < p -> lt (Z2float k) nPoints = true)
        /\ len (ManualTools.pct r) = len env
        /\ ManualTools.hsUsed r = hsIdx
        /\ Forall (fun c =>
                     fst c = map (fun k => ((Z2float k / (nPoints - 1)) * 100)%float)
                                 (range 0 p)
                     /\ len (snd c) = p)
                  (ManualTools.cyclesOf r)
        /\ len (ManualTools.cyclesOf r) <= Z.max 0 (len hsIdx - 1)
        /\ (ManualTools.ms r = None <-> ManualTools.cyclesOf r = [])
        /\ (forall m s, ManualTools.ms r = Some (m, s) ->
                        len m = p /\ len s = p)).
Proof.
  intros Hn Hend Hfuel. unfold ManualTools.applyHS.
  destruct (toPercentPeak_cases env) as [[Hlong ->]|(Hshort & pct & -> & Hpct)].
  - split; [reflexivity|lia].
  - split; [lia|]. intros _.
    destruct (gridFrom_spec nPoints n Hend fuel 0 ltac:(lia)
                ltac:(rewrite Z.sub_0_r; exact Hfuel))
      as (p & Hp & Hg & Hpend & Hpall).
    set (grid := map _ (range 0 p)) in *.
    assert (Hlg : len grid = p)
      by (unfold grid; rewrite len_map, len_range; lia).
    unfold ManualTools.normalizeCycles.
    destruct (cyclesFrom_shape fuel t pct nPoints grid Hg (pairs hsIdx))
      as (cs & -> & Hall & Hlen).
    eexists. exists p. split; [reflexivity|].
    cbn [ManualTools.pct ManualTools.hsUsed ManualTools.cyclesOf ManualTools.ms].
    split; [lia|]. split; [exact Hpend|]. split; [exact Hpall|].
    split; [exact Hpct|]. split; [reflexivity|]. split.
    { eapply Forall_impl; [|exact Hall]. intros c [Hc1 Hc2].
      split; [exact Hc1|]. rewrite Hc2. exact Hlg. }
    split.
    { unfold len in Hlen |- *. rewrite length_pairs in Hlen. lia. }
    destruct cs as [|[g y] rest]; cbn [map snd].
    + split; [split; reflexivity|]. intros m s H. discriminate H.
    + split; [split; intros H; discriminate H|].
      inversion Hall as [|? ? [_ Hy] _]. cbn [snd] in Hy.
      unfold Manual.meanStdOfCycles. intros m s [= <- <-].
      rewrite !len_map, len_range. lia.
Qed.

(** Two cycles of five points between three events ten samples apart,
    on a host that accepts 65535 arguments. *)
Lemma manual_cycles_witness :
  exists r,
    ManualTools.applyHS (host := noTrig) 10 tSec tSec [10; 20; 30] 5
    = Some (Ok r)
    /\ len (ManualTools.cyclesOf r) = 2
    /\ Forall (fun c => len (snd c) = 5) (ManualTools.cyclesOf r).
Proof.
  destruct (proj2 (manual_cycles_are_well_shaped noTrig 10 5 tSec tSec
                     [10; 20; 30] 5%float ltac:(lia) ltac:(reflexivity)
                     ltac:(vm_compute; lia))
              ltac:(vm_compute; discriminate))
    as (r & p & Hr & Hp & Hpend & Hpall & _ & _ & Hall & _).
  exists r. split; [exact Hr|].
  assert (p = 5).
  { destruct (Z.eq_dec p 5) as [|Hne]; [assumption|exfalso].
    assert (Hlt : lt (Z2float p) 5 = true).
    { assert (p = 0 \/ p = 1 \/ p = 2 \/ p = 3 \/ p = 4) as Hc by lia.
      destruct Hc as [->|[->|[->|[->| ->]]]]; reflexivity. }
    congruence. }
  subst p. split.
  - vm_compute in Hr. injection Hr as <-. reflexivity.
  - eapply Forall_impl; [|exact Hall]. intros c [_ H]. exact H.
Defined.

(** X17: [buildTimeSignal] keeps the rows whose signal value is a finite
    number, in their order: the signal is their values, and the time of
    the [k]-th row kept is its time value when that is a finite number
    and [k / fs] otherwise, less the time of the first row kept.  So the
    signal holds finite numbers only, the time axis has its length, and
    the axis starts at 0 when the first time is finite.  (The second
    conversion [nv] of the time value in the source is the first one
    again, so its branch is never taken.) *)
Theorem time_signal_keeps_the_finite_rows
        {Row Key : Type} (numberAt : Row -> Key -> float)
        (rows : list Row) (timeKey sigKey : Key) (fs : float) :
  let kept := keptRows numberAt sigKey rows in
  let raw := map (timeOf numberAt timeKey fs)
                 (combine kept (range 0 (len kept))) in
  let t0 := match raw with v :: _ => v | [] => 0%float end in
  let out := ManualTools.buildTimeSignal numberAt rows timeKey sigKey fs in
  out = (map (fun v => (v - t0)%float) raw,
         map (fun r => numberAt r sigKey) kept)
  /\ len (fst out) = len (snd out)
  /\ Forall (fun v => Number_isFinite v = true) (snd out)
  /\ (kept <> [] -> Number_isFinite t0 = true -> get (fst out) 0 = 0%float).
Proof.
  cbn zeta. unfold ManualTools.buildTimeSignal.
  rewrite pushRow_fold. cbn [app]. change (len (@nil float)) with 0.
  rewrite Z.add_0_l.
  set (kept := keptRows numberAt sigKey rows).
  set (raw := map _ (combine kept _)).
  split; [reflexivity|]. cbn [fst snd]. split; [|split].
  - rewrite !len_map. unfold raw. unfold len.
    rewrite length_map, length_combine.
    pose proof (len_range 0 (len kept)) as Hr. unfold len in Hr. lia.
  - apply Forall_forall. intros v Hv. apply in_map_iff in Hv.
    destruct Hv as (r & <- & Hr). apply filter_In in Hr. tauto.
  - intros Hne Hfin.
    destruct raw as [|v rest] eqn:Hraw.
    + exfalso. destruct kept as [|r kept']; [congruence|].
      unfold raw in Hraw. rewrite len_cons in Hraw.
      pose proof (len_nonneg kept').
      rewrite range_cons in Hraw by lia. discriminate.
    + cbn [map]. change (get ((v - v)%float :: map (fun v0 => (v0 - v)%float) rest) 0)
        with (v - v)%float.
      apply sub_self. exact Hfin.
Qed.

Lemma time_signal_witness :
  let numberAt := fun (r : float * float) (k : bool) =>
                    if k then fst r else snd r in
  let rows := [(nan, 1%float); (0.5%float, nan); (2%float, 3%float)] in
  let out := ManualTools.buildTimeSignal numberAt rows true false 1000%float in
  keptRows numberAt false rows = [(nan, 1%float); (2%float, 3%float)]
  /\ out = ([0%float; 2%float], [1%float; 3%float])
  /\ get (fst out) 0 = 0%float.
Proof.
  cbn zeta.
  pose proof (time_signal_keeps_the_finite_rows
                (fun (r : float * float) (k : bool) =>
                   if k then fst r else snd r)
                [(nan, 1%float); (0.5%float, nan); (2%float, 3%float)]
                true false 1000%float) as H.
  cbn zeta in H. destruct H as (_ & _ & _ & H).
  split; [reflexivity|]. split; [reflexivity|].
  apply H; [discriminate|reflexivity].
Defined.

(** X18: what [extractVideoEvents] makes of the frames captured.  With
    fewer than ten frames it fails; otherwise every event is the time of
    a frame, not the first, at which the smoothed motion energy is no
    longer above the threshold while it was at the frame before, none
    is before the baseline, and consecutive events pass the test
    [t' - t >= minGapMs / 1000] of the source.  The smoothed energy has
    one value per energy value. *)
Theorem video_events_are_falling_edges times energy baselineSec minGapMs :
  let eSmooth :=
    VideoEvents.smoothMovingAvg energy (VideoEvents.smoothingWindow times) in
  let thr := VideoEvents.energyThreshold times eSmooth baselineSec in
  len eSmooth = len energy
  /\ match VideoEvents.eventsOfFrames times energy baselineSec minGapMs with
     | Throw e => e = InsufficientDataError /\ len times < 10
     | Ok events =>
         10 <= len times
         /\ Forall (FallAt times eSmooth thr baselineSec) events
         /\ GapsKept (minGapMs / 1000) events
     end.
Proof.
  cbn zeta. split; [apply smoothMovingAvg_length|].
  unfold VideoEvents.eventsOfFrames.
  destruct (Z.ltb_spec (len times) 10) as [Hn|Hn]; [auto|].
  split; [exact Hn|].
  set (eSmooth := VideoEvents.smoothMovingAvg energy _).
  set (thr := VideoEvents.energyThreshold times eSmooth baselineSec).
  set (mask := map _ (range 0 (len times))).
  assert (Hlen : len mask = len times).
  { unfold mask. rewrite len_map, len_range. lia. }
  apply (pushEvent_inv times mask baselineSec (minGapMs / 1000)%float
           (FallAt times eSmooth thr baselineSec) (range 1 (len mask)));
    [|constructor|constructor].
  intros i Hi H1 H2 Hb. apply In_range in Hi. rewrite Hlen in Hi.
  exists i. split; [lia|]. split; [reflexivity|].
  unfold mask in H1, H2. rewrite getb_mask in H1, H2 by lia. auto.
Qed.

(** X19: the envelope of a result of [computePipeline], of each of the
    four revisions that have one, is as long as the recording and never
    negative: each of its values is NaN or at least 0. *)
Theorem pipeline_envelopes_are_never_negative (host : Host) :
  (forall tt x fs p expected res,
      VideoAssist.computePipeline tt x fs p expected = Ok res ->
      len (envRaw res) = len x /\ Forall NotNegative (envRaw res))
  /\ (forall tt x fs p expected an,
         Robust.computePipeline tt x fs p expected = Ok an ->
         len (envRaw (Robust.result an)) = len x
         /\ Forall NotNegative (envRaw (Robust.result an)))
  /\ (forall tt x fs p expected res,
         OnsetRun.computePipeline tt x fs p expected = Ok res ->
         len (envRaw res) = len x /\ Forall NotNegative (envRaw res))
  /\ (forall tt x fs p expected res,
         PeakBased.computePipeline tt x fs p expected = Ok res ->
         len (envRaw res) = len x /\ Forall NotNegative (envRaw res)).
Proof.
  split; [|split; [|split]].
  - intros tt x fs p expected res. unfold VideoAssist.computePipeline.
    destruct (VideoAssist.detectHS _ fs _) as [r|e]; [|discriminate].
    destruct (normalizeCycles _ _ _) as [g cyc].
    destruct (meanAndSD cyc) as [mu sg].
    intros [= <-]. cbn [envRaw].
    split; [apply len_VideoAssist_envelope|apply movingRMS_NotNegative].
  - intros tt x fs p expected an. unfold Robust.computePipeline.
    destruct (Robust.precheck x fs p) as [| | | |y ratio] eqn:Hp;
      try discriminate.
    apply precheck_Passed_length in Hp.
    destruct (Robust.detectHS _ fs _) as [r|e]; [|discriminate].
    destruct (normalizeCycles _ _ _) as [g cyc].
    destruct (meanAndSD cyc) as [mu sg].
    destruct (Math_max_spread _) as [mx|e']; [|discriminate].
    intros [= <-]. cbn [Robust.result envRaw].
    split; [rewrite len_Robust_envelopeOf; exact Hp
           |apply movingRMS_NotNegative].
  - intros tt x fs p expected res. unfold OnsetRun.computePipeline.
    destruct (Onset.detectHS _ fs _) as [r|e]; [|discriminate].
    destruct (normalizeCycles _ _ _) as [g cyc].
    destruct (meanAndSD cyc) as [mu sg].
    intros [= <-]. cbn [envRaw].
    split; [apply len_OnsetRun_envelope|apply movingRMS_NotNegative].
  - intros tt x fs p expected res. unfold PeakBased.computePipeline.
    destruct (PeakBased.detectHS _ fs _) as [r|e]; [|discriminate].
    destruct (normalizeCycles _ _ _) as [g cyc].
    destruct (meanAndSD cyc) as [mu sg].
    intros [= <-]. cbn [envRaw].
    split; [apply len_PeakBased_envelope|apply movingRMS_NotNegative].
Qed.

Lemma pipeline_envelope_witness :
  exists res,
    VideoAssist.computePipeline (host := noTrig) [] x1 10 vp0 None = Ok res
    /\ len (envRaw res) = 20 /\ Forall NotNegative (envRaw res).
Proof.
  destruct (VideoAssist.computePipeline (host := noTrig) [] x1 10 vp0 None)
    as [res|e] eqn:H.
  - exists res. split; [reflexivity|].
    exact (proj1 (pipeline_envelopes_are_never_negative noTrig)
             [] x1 10%float vp0 None res H).
  - vm_compute in H. discriminate.
Defined.

(** X20: the envelope [bandpassRectifyRms] of the revision with manual
    events is as long as the signal and never negative (each value is
    NaN or at least 0), whatever the host's cosine and sine.  It is not
    always a number, though: the running sum of squares, from which the
    square leaving the window is subtracted, can fall below 0 by
    rounding, and its root is NaN; so for the finite signal
    [1, 2^-27, 0, 0] at 1000 Hz, unfiltered, with a window of 2 ms. *)
Theorem manual_envelope_is_never_negative (host : Host) :
  (forall x fs hp lp rmsMs,
      let env := ManualEnvelope.bandpassRectifyRms x fs hp lp rmsMs in
      len env = len x /\ Forall NotNegative env)
  /\ (exists x,
         Forall (fun v => Number_isFinite v = true) x
         /\ is_nan (get (ManualEnvelope.bandpassRectifyRms x 1000 0 0 2) 3)
            = true).
Proof.
  split.
  - intros x fs hp lp rmsMs. cbn zeta.
    split; [apply len_bandpassRectifyRms|].
    unfold ManualEnvelope.bandpassRectifyRms. apply rmsFrom_NotNegative.
  - exists [1; 0x1p-27; 0; 0]%float. split.
    + repeat constructor.
    + vm_compute. reflexivity.
Qed.

(** X21: how the revision with manual events thins a list of events.
    [chooseOddEven] returns nothing exactly for fewer than five events,
    and otherwise the events at the even positions or those at the odd
    positions, three or more.  [chooseStrideSubseq] returns nothing or,
    for an expected count above 0, every second or every third event
    from one starting position, three or more, and then their number is
    closer to the expected count than the number given. *)
Theorem manual_thinning_keeps_every_second_or_third :
  (forall hs fs expected plausible tol,
      Manual.chooseOddEven hs fs expected plausible tol = None <-> len hs < 5)
  /\ (forall hs fs expected plausible tol c,
         Manual.chooseOddEven hs fs expected plausible tol = Some c ->
         (c = everyNth 2 0 hs \/ c = everyNth 2 1 hs) /\ 3 <= len c)
  /\ (forall hs fs expected plausible tol c,
         Manual.chooseStrideSubseq hs fs expected plausible tol = Some c ->
         exists e m off,
           expected = Some e /\ gt e 0 = true
           /\ (m = 2 \/ m = 3) /\ 0 <= off < m
           /\ c = everyNth m off hs /\ 3 <= len c
           /\ lt (Math_abs (Z2float (len c) - e))
                 (Math_abs (Z2float (len hs) - e)) = true).
Proof.
  assert (Hcases : forall hs fs expected plausible tol,
             match Manual.chooseOddEven hs fs expected plausible tol with
             | None => len hs < 5
             | Some c =>
                 5 <= len hs
                 /\ (c = everyNth 2 0 hs \/ c = everyNth 2 1 hs) /\ 3 <= len c
             end).
  { intros hs fs expected plausible tol. unfold Manual.chooseOddEven.
    pose proof (everyNth_halves hs) as [Hodd Heven].
    pose proof (Z.mod_pos_bound (len hs) 2 ltac:(lia)) as Hmod.
    destruct (Z.leb_spec 4 (len hs)) as [H4|H4]; [|cbn; lia].
    destruct (Z.leb_spec 3 (len (everyNth 2 0 hs))) as [Ho|Ho];
      destruct (Z.leb_spec 3 (len (everyNth 2 1 hs))) as [He|He];
      cbn [app fold_left fst]; try lia.
    - split; [lia|].
      destruct (lt _ _); cbn [fst]; split; auto.
    - split; [lia|]. split; auto. }
  split; [|split].
  - intros hs fs expected plausible tol.
    specialize (Hcases hs fs expected plausible tol).
    destruct (Manual.chooseOddEven hs fs expected plausible tol).
    + split; [discriminate|lia].
    + split; [intros _; exact Hcases|reflexivity].
  - intros hs fs expected plausible tol c H.
    specialize (Hcases hs fs expected plausible tol). rewrite H in Hcases.
    tauto.
  - intros hs fs expected plausible tol c. unfold Manual.chooseStrideSubseq.
    unfold Manual.counted. destruct expected as [e|]; [|discriminate].
    destruct (gt e 0) eqn:Hpos; [|discriminate].
    destruct (lt _ _); [discriminate|].
    set (seqs := flat_map _ _).
    destruct (fst (fold_left _ seqs (None, Infinity))) as [b|] eqn:Hb;
      [|discriminate].
    destruct (lt (Math_abs _) _) eqn:Hcloser; [|discriminate].
    intros [= <-].
    apply (fold_pick_best (Manual.scoreStride fs e plausible tol)
             (fun b => (exists m off, (m = 2 \/ m = 3) /\ 0 <= off < m
                                      /\ b = everyNth m off hs)
                       /\ 3 <= len b)) in Hb.
    + destruct Hb as ((m & off & Hm & Hoff & Hb) & H3).
      exists e, m, off. auto 10.
    + intros s Hs x Hx. split; [|eapply scoreStride_short; exact Hx].
      subst seqs. apply in_flat_map in Hs. destruct Hs as (m & Hm & Hs).
      apply in_map_iff in Hs. destruct Hs as (off & <- & Hoff).
      apply In_range in Hoff. exists m, off.
      split; [|split; [exact Hoff|reflexivity]].
      apply in_app_or in Hm.
      destruct Hm as [Hm|Hm];
        [destruct (ge _ 1.6%float)|destruct (ge _ 2.6%float)];
        try contradiction; destruct Hm as [<-|[]]; auto.
    + discriminate.
Qed.

Lemma manual_thinning_witness :
  exists c,
    Manual.chooseOddEven [0; 10; 20; 30; 40] 10 None (0.3, 2.5)%float 2
    = Some c
    /\ (c = [0; 20; 40] \/ c = [10; 30]) /\ 3 <= len c.
Proof.
  destruct (Manual.chooseOddEven [0; 10; 20; 30; 40] 10 None
              (0.3, 2.5)%float 2) as [c|] eqn:H.
  - exists c. split; [reflexivity|].
    exact (proj1 (proj2 manual_thinning_keeps_every_second_or_third)
             [0; 10; 20; 30; 40] 10%float None (0.3, 2.5)%float 2%float c H).
  - vm_compute in H. discriminate.
Defined.

(** X22: [normalizeCSVText] leaves no carriage return in the text and
    never makes it longer; a text without a carriage return that does
    not start with a byte order mark is returned as it is; and a
    missing text gives the empty one.  The separator [detectDelimiter]
    returns is the tab, the semicolon or the comma, and a tab or a
    semicolon is returned only when the line holds one. *)
Theorem normalized_text_has_no_carriage_return :
  (forall s,
      let r := CsvText.normalizeCSVText s in
      ~ In CsvText.CR r
      /\ len r <= match s with Some t => len t | None => 0 end
      /\ (forall t,
             s = Some t -> ~ In CsvText.CR t -> nth 0 t 0 <> CsvText.BOM ->
             r = t))
  /\ (forall line,
         let d := CsvText.detectDelimiter line in
         (d = CsvText.tab /\ In CsvText.tab line)
         \/ (d = CsvText.semicolon /\ In CsvText.semicolon line)
         \/ d = CsvText.comma).
Proof.
  split.
  - intros s. cbn zeta. unfold CsvText.normalizeCSVText.
    destruct s as [[|c s]|]; cbn [len length Z.of_nat].
    + split; [intros []|]. split; [lia|]. intros t [= <-] _ _. reflexivity.
    + split; [apply replaceCR_clean|]. split.
      * rewrite replaceCR_length.
        etransitivity; [apply (replaceCRLF_length (length (CsvText.dropBOM (c :: s))));
                        lia|].
        apply dropBOM_length.
      * intros t [= <-] Hcr Hbom. cbn [nth] in Hbom.
        cbn [CsvText.dropBOM].
        destruct (Z.eqb_spec c CsvText.BOM); [contradiction|].
        rewrite replaceCRLF_same by exact Hcr. apply replaceCR_same, Hcr.
    + split; [intros []|]. split; [cbn; lia|]. intros t [=].
  - intros line. cbn zeta. unfold CsvText.detectDelimiter.
    pose proof (count_nonneg CsvText.comma line).
    destruct (Z.ltb_spec (CsvText.count CsvText.comma line)
                (CsvText.count CsvText.tab line)) as [H1|H1]; cbn [andb].
    + destruct (Z.ltb_spec (CsvText.count CsvText.semicolon line)
                  (CsvText.count CsvText.tab line)) as [H2|H2].
      * left. split; [reflexivity|]. apply count_pos. lia.
      * destruct (Z.ltb_spec (CsvText.count CsvText.comma line)
                    (CsvText.count CsvText.semicolon line)) as [H3|H3].
        -- right. left. split; [reflexivity|]. apply count_pos. lia.
        -- now right; right.
    + destruct (Z.ltb_spec (CsvText.count CsvText.comma line)
                  (CsvText.count CsvText.semicolon line)) as [H3|H3].
      * right. left. split; [reflexivity|]. apply count_pos. lia.
      * now right; right.
Qed.

(** The text [a CR LF b CR] after a byte order mark. *)
Lemma normalized_text_witness :
  CsvText.normalizeCSVText (Some [0xFEFF; 97; 13; 10; 98; 13]) = [97; 10; 98; 10]
  /\ ~ In CsvText.CR (CsvText.normalizeCSVText (Some [0xFEFF; 97; 13; 10; 98; 13]))
  /\ CsvText.normalizeCSVText (Some [97; 10; 98]) = [97; 10; 98].
Proof.
  pose proof (proj1 normalized_text_has_no_carriage_return) as H.
  split; [reflexivity|]. split.
  - exact (proj1 (H (Some [0xFEFF; 97; 13; 10; 98; 13]))).
  - apply (proj2 (proj2 (H (Some [97; 10; 98])))); [reflexivity| |discriminate].
    cbn. unfold CsvText.CR. lia.
Defined.

End Further.
